(** * crypto-exchange: the order book and its matching engine

    A shallow embedding of [orderbook/orderbook.go] and the properties of the
    specification that are about it.

    Conventions of the embedding.
    - [*Order] and [*Limit] are addresses into a store ([Heap]); every order
      and every price level lives in the store and is reached through its
      address, so that two references to one object stay one object.  A nil
      pointer only occurs where the source can produce one (the back
      reference [Order.Limit], a failed map lookup) and is an [option].
    - [float64] quantities (sizes, prices, volumes) are integers of [Z]:
      arithmetic is exact, as it is for float64 on integral values of
      absolute value at most 2^53.  What depends on sums and differences of
      sizes is stated for such values ([exactSizes]), within which the
      sizes and the volumes of the book then stay ([mass]); the module
      [Float64] is the same embedding on binary64 numbers and shows the
      rounding of the code outside of them.
    - [rand.Intn] and [time.Now] are inputs of the functions that call them.
    - A slice that is read while it is shortened ([ob.asks], [ob.bids]) is
      kept with its backing array; the other slices are lists.
    - The mutex and the log output are not modelled; a panic is a result,
      together with the state it leaves. *)

From Stdlib Require Import ZArith Lia PrimFloat Floats.
From stdpp Require Import base gmap list sorting.

(** ** Data model *)

(** Addresses of orders and of price levels. *)
Abbreviation oid := nat (only parsing).
Abbreviation lid := nat (only parsing).

Record Trade := mkTrade {
  Trade_Price : Z;
  Trade_Size : Z;
  Trade_Bid : bool;
  Trade_Timestamp : Z
}.

Record Match := mkMatch {
  Match_Ask : oid;
  Match_Bid : oid;
  Match_SizeFilled : Z;
  Match_Price : Z
}.

Record Order := mkOrder {
  Order_ID : Z;
  Order_UserID : Z;
  Order_Size : Z;
  Order_Bid : bool;
  Order_Limit : option lid;
  Order_Timestamp : Z
}.

Record Limit := mkLimit {
  Limit_Price : Z;
  Limit_Orders : list oid;
  Limit_TotalVolume : Z
}.

Definition Order_withSize (x : Order) (size : Z) : Order :=
  mkOrder (Order_ID x) (Order_UserID x) size (Order_Bid x) (Order_Limit x)
          (Order_Timestamp x).

Definition Order_withLimit (x : Order) (l : option lid) : Order :=
  mkOrder (Order_ID x) (Order_UserID x) (Order_Size x) (Order_Bid x) l
          (Order_Timestamp x).

Definition Limit_withOrders (x : Limit) (os : list oid) : Limit :=
  mkLimit (Limit_Price x) os (Limit_TotalVolume x).

Definition Limit_withTotalVolume (x : Limit) (v : Z) : Limit :=
  mkLimit (Limit_Price x) (Limit_Orders x) v.

(** ** The store *)

Record Heap := mkHeap {
  order_at : gmap nat Order;
  limit_at : gmap nat Limit;
  next_order : nat;
  next_limit : nat
}.

Definition Order_zero : Order := mkOrder 0 0 0 false None 0.
Definition Limit_zero : Limit := mkLimit 0 [] 0.

Definition emptyHeap : Heap := mkHeap ∅ ∅ 0 0.

Definition orderAt (h : Heap) (o : oid) : Order :=
  default Order_zero (order_at h !! o).

Definition limitAt (h : Heap) (l : lid) : Limit :=
  default Limit_zero (limit_at h !! l).

Definition storeOrder (h : Heap) (o : oid) (x : Order) : Heap :=
  mkHeap (<[o := x]> (order_at h)) (limit_at h) (next_order h) (next_limit h).

Definition storeLimit (h : Heap) (l : lid) (x : Limit) : Heap :=
  mkHeap (order_at h) (<[l := x]> (limit_at h)) (next_order h) (next_limit h).

(** ** Results of a call *)

Inductive panic :=
| NotEnoughVolume (available requested : Z)
| NilDereference
| IndexOutOfRange (index : Z) (length : nat).

Inductive result (A : Type) :=
| Returned (a : A)
| Panicked (p : panic).
Arguments Returned {A} a.
Arguments Panicked {A} p.

(** ** sort.Sort

    The library routine is not part of the repository.  It sorts in place
    by the [Less] of the collection, is not guaranteed to be stable, and on
    slices of at most twelve elements it runs an insertion sort, which is
    the function below.  The general theorems use only that the result is
    an ordered permutation of the input. *)

Section Sort.
Context {A : Type} (less : A -> A -> bool).

Fixpoint insertSorted (x : A) (l : list A) : list A :=
  match l with
  | [] => [x]
  | y :: l' => if less y x then y :: insertSorted x l' else x :: y :: l'
  end.

Fixpoint sortBy (l : list A) : list A :=
  match l with
  | [] => []
  | x :: l' => insertSorted x (sortBy l')
  end.
End Sort.

(** ** Order and Limit *)

Definition NewOrder (bid : bool) (size : Z) (userID : Z) (id ts : Z) (h : Heap)
  : Heap * oid :=
  let o := next_order h in
  (mkHeap (<[o := mkOrder id userID size bid None ts]> (order_at h))
          (limit_at h) (S o) (next_limit h), o).

Definition IsFilled (h : Heap) (o : oid) : bool :=
  (Order_Size (orderAt h o) =? 0)%Z.

Definition NewLimit (price : Z) (h : Heap) : Heap * lid :=
  let l := next_limit h in
  (mkHeap (order_at h) (<[l := mkLimit price [] 0]> (limit_at h))
          (next_order h) (S l), l).

Definition AddOrder (l : lid) (o : oid) (h : Heap) : Heap :=
  let h1 := storeOrder h o (Order_withLimit (orderAt h o) (Some l)) in
  let h2 := storeLimit h1 l
              (Limit_withOrders (limitAt h1 l) (Limit_Orders (limitAt h1 l) ++ [o])) in
  storeLimit h2 l
    (Limit_withTotalVolume (limitAt h2 l)
       (Limit_TotalVolume (limitAt h2 l) + Order_Size (orderAt h2 o))).

(** The removal loop shared by [DeleteOrder] and [clearLimit]:
    [for i := 0; i < len(s); i++ { if s[i] == x { s[i] = s[len(s)-1]; s = s[:len(s)-1] } }].
    [arr] is the backing array, [len] the current length of the slice; the
    loop runs at most as many times as the slice is long when it starts,
    which is what [steps] counts. *)
Fixpoint removeLoop (x : nat) (steps : nat) (i : nat) (arr : list nat) (len : nat)
  : list nat * nat :=
  match steps with
  | 0 => (arr, len)
  | S steps' =>
      if (i <? len)%nat then
        if (arr !!! i =? x)%nat
        then removeLoop x steps' (S i) (<[i := arr !!! (len - 1)%nat]> arr) (len - 1)%nat
        else removeLoop x steps' (S i) arr len
      else (arr, len)
  end.

Definition lessTimestamp (h : Heap) (a b : oid) : bool :=
  (Order_Timestamp (orderAt h a) <? Order_Timestamp (orderAt h b))%Z.

Definition DeleteOrder (l : lid) (o : oid) (h : Heap) : Heap :=
  let os := Limit_Orders (limitAt h l) in
  let '(arr, n) := removeLoop o (length os) 0 os (length os) in
  let h1 := storeLimit h l (Limit_withOrders (limitAt h l) (take n arr)) in
  let h2 := storeOrder h1 o (Order_withLimit (orderAt h1 o) None) in
  let h3 := storeLimit h2 l
              (Limit_withTotalVolume (limitAt h2 l)
                 (Limit_TotalVolume (limitAt h2 l) - Order_Size (orderAt h2 o))) in
  storeLimit h3 l
    (Limit_withOrders (limitAt h3 l)
       (sortBy (lessTimestamp h3) (Limit_Orders (limitAt h3 l)))).

Definition fillOrder (l : lid) (a b : oid) (h : Heap) : Heap * Match :=
  let '(bid, ask) := if Order_Bid (orderAt h a) then (a, b) else (b, a) in
  let '(h', sizeFilled) :=
    if (Order_Size (orderAt h a) >=? Order_Size (orderAt h b))%Z then
      let h1 := storeOrder h a
                  (Order_withSize (orderAt h a)
                     (Order_Size (orderAt h a) - Order_Size (orderAt h b))) in
      let sizeFilled := Order_Size (orderAt h1 b) in
      (storeOrder h1 b (Order_withSize (orderAt h1 b) 0), sizeFilled)
    else
      let h1 := storeOrder h b
                  (Order_withSize (orderAt h b)
                     (Order_Size (orderAt h b) - Order_Size (orderAt h a))) in
      let sizeFilled := Order_Size (orderAt h1 a) in
      (storeOrder h1 a (Order_withSize (orderAt h1 a) 0), sizeFilled) in
  (h', mkMatch ask bid sizeFilled (Limit_Price (limitAt h' l))).

(** The first loop of [Fill], over the residents as they are when the loop
    starts. *)
Fixpoint fillLoop (l : lid) (o : oid) (os : list oid) (h : Heap)
    (matches : list Match) (ordersToDelete : list oid)
  : Heap * list Match * list oid :=
  match os with
  | [] => (h, matches, ordersToDelete)
  | order :: rest =>
      if IsFilled h o then (h, matches, ordersToDelete)
      else
        let '(h1, m) := fillOrder l order o h in
        let h2 := storeLimit h1 l
                    (Limit_withTotalVolume (limitAt h1 l)
                       (Limit_TotalVolume (limitAt h1 l) - Match_SizeFilled m)) in
        fillLoop l o rest h2 (matches ++ [m])
          (if IsFilled h2 order then ordersToDelete ++ [order] else ordersToDelete)
  end.

Definition Fill (l : lid) (o : oid) (h : Heap) : Heap * list Match :=
  let '(h1, matches, ordersToDelete) :=
    fillLoop l o (Limit_Orders (limitAt h l)) h [] [] in
  (foldl (fun h' order => DeleteOrder l order h') h1 ordersToDelete, matches).

(** ** Orderbook *)

(** A slice of price levels: the backing array and the length of the slice.
    [ob.asks] and [ob.bids] are kept with their backing array because
    [PlaceMarketOrder] ranges over the slice while [clearLimit] shortens
    and overwrites it. *)
Record Slice := mkSlice {
  Slice_array : list lid;
  Slice_len : nat
}.

Definition view (s : Slice) : list lid := take (Slice_len s) (Slice_array s).

Definition emptySlice : Slice := mkSlice [] 0.

(** [append(s, x)]: what lies behind the end of the slice is never read
    again and is dropped. *)
Definition appendSlice (s : Slice) (x : lid) : Slice :=
  mkSlice (view s ++ [x]) (S (Slice_len s)).

(** [sort.Sort] on the slice: the elements of the slice are permuted in
    place, the rest of the array is not touched. *)
Definition sortSlice (less : lid -> lid -> bool) (s : Slice) : Slice :=
  mkSlice (sortBy less (view s) ++ drop (Slice_len s) (Slice_array s)) (Slice_len s).

Record Orderbook := mkOrderbook {
  asks : Slice;
  bids : Slice;
  Trades : list Trade;
  AskLimits : gmap Z lid;
  BidLimits : gmap Z lid;
  Orders : gmap Z oid
}.

Record World := mkWorld {
  heap : Heap;
  book : Orderbook
}.

Definition NewOrderbook : Orderbook :=
  mkOrderbook emptySlice emptySlice [] ∅ ∅ ∅.

Definition newWorld : World := mkWorld emptyHeap NewOrderbook.

Definition totalVolume (h : Heap) (s : Slice) : Z :=
  foldl (fun total l => (total + Limit_TotalVolume (limitAt h l))%Z) 0%Z (view s).

Definition BidTotalVolume (w : World) : Z := totalVolume (heap w) (bids (book w)).
Definition AskTotalVolume (w : World) : Z := totalVolume (heap w) (asks (book w)).

Definition lessAsk (h : Heap) (a b : lid) : bool :=
  (Limit_Price (limitAt h a) <? Limit_Price (limitAt h b))%Z.

Definition lessBid (h : Heap) (a b : lid) : bool :=
  (Limit_Price (limitAt h a) >? Limit_Price (limitAt h b))%Z.

(** [Asks] and [Bids] sort the slice of the book in place and return it:
    the caller then holds the same array as the book. *)
Definition Asks (w : World) : World :=
  let ob := book w in
  mkWorld (heap w)
    (mkOrderbook (sortSlice (lessAsk (heap w)) (asks ob)) (bids ob) (Trades ob)
                 (AskLimits ob) (BidLimits ob) (Orders ob)).

Definition Bids (w : World) : World :=
  let ob := book w in
  mkWorld (heap w)
    (mkOrderbook (asks ob) (sortSlice (lessBid (heap w)) (bids ob)) (Trades ob)
                 (AskLimits ob) (BidLimits ob) (Orders ob)).

Definition clearLimit (bid : bool) (l : lid) (w : World) : World :=
  let ob := book w in
  let price := Limit_Price (limitAt (heap w) l) in
  if bid then
    let '(a, n) := removeLoop l (Slice_len (bids ob)) 0
                     (Slice_array (bids ob)) (Slice_len (bids ob)) in
    mkWorld (heap w)
      (mkOrderbook (asks ob) (mkSlice a n) (Trades ob)
                   (AskLimits ob) (delete price (BidLimits ob)) (Orders ob))
  else
    let '(a, n) := removeLoop l (Slice_len (asks ob)) 0
                     (Slice_array (asks ob)) (Slice_len (asks ob)) in
    mkWorld (heap w)
      (mkOrderbook (mkSlice a n) (bids ob) (Trades ob)
                   (delete price (AskLimits ob)) (BidLimits ob) (Orders ob)).

(** The side a market order is matched against: the asks for a bid, the
    bids for an ask. *)
Definition opposite (bid : bool) (ob : Orderbook) : Slice :=
  if bid then asks ob else bids ob.

(** The loop [for _, limit := range ob.Asks()] (or [ob.Bids()]) of
    [PlaceMarketOrder].  The range fixes the number of iterations when it
    starts and reads element [k] of the backing array at iteration [k];
    [clearLimit] writes to that array in the meantime.  [bid] is the side of
    the incoming order. *)
Fixpoint sweep (bid : bool) (o : oid) (count : nat) (k : nat) (w : World)
    (matches : list Match) : World * list Match :=
  match count with
  | 0 => (w, matches)
  | S count' =>
      let limit := Slice_array (opposite bid (book w)) !!! k in
      let '(h1, limitMatches) := Fill limit o (heap w) in
      let w1 := mkWorld h1 (book w) in
      let w2 := if (length (Limit_Orders (limitAt h1 limit)) =? 0)%nat
                then clearLimit (negb bid) limit w1 else w1 in
      sweep bid o count' (S k) w2 (matches ++ limitMatches)
  end.

(** The trades of a call, one per match; [clock i] is the time read for the
    [i]-th of them. *)
Definition recordTrades (clock : nat -> Z) (bid : bool) (matches : list Match)
  : list Trade :=
  imap (fun i m => mkTrade (Match_Price m) (Match_SizeFilled m) bid (clock i)) matches.

Definition withTrades (ob : Orderbook) (ts : list Trade) : Orderbook :=
  mkOrderbook (asks ob) (bids ob) ts (AskLimits ob) (BidLimits ob) (Orders ob).

Definition PlaceMarketOrder (clock : nat -> Z) (o : oid) (w : World)
  : World * result (list Match) :=
  let bid := Order_Bid (orderAt (heap w) o) in
  let available := if bid then AskTotalVolume w else BidTotalVolume w in
  if (Order_Size (orderAt (heap w) o) >? available)%Z then
    (w, Panicked (NotEnoughVolume available (Order_Size (orderAt (heap w) o))))
  else
    let w1 := if bid then Asks w else Bids w in
    let '(w2, matches) :=
      sweep bid o (Slice_len (opposite bid (book w1))) 0 w1 [] in
    let trades := Trades (book w2)
                  ++ recordTrades clock (Order_Bid (orderAt (heap w2) o)) matches in
    let w3 := mkWorld (heap w2) (withTrades (book w2) trades) in
    match trades with
    | [] => (w3, Panicked (IndexOutOfRange (-1) 0))
    | _ :: _ => (w3, Returned matches)
    end.

Definition PlaceLimitOrder (price : Z) (o : oid) (w : World) : World :=
  let h := heap w in
  let ob := book w in
  let bid := Order_Bid (orderAt h o) in
  let limit := if bid then BidLimits ob !! price else AskLimits ob !! price in
  let '(h1, ob1, l) :=
    match limit with
    | Some l => (h, ob, l)
    | None =>
        let '(h', l) := NewLimit price h in
        if bid then
          (h', mkOrderbook (asks ob) (appendSlice (bids ob) l) (Trades ob)
                 (AskLimits ob) (<[price := l]> (BidLimits ob)) (Orders ob), l)
        else
          (h', mkOrderbook (appendSlice (asks ob) l) (bids ob) (Trades ob)
                 (<[price := l]> (AskLimits ob)) (BidLimits ob) (Orders ob), l)
    end in
  let ob2 := mkOrderbook (asks ob1) (bids ob1) (Trades ob1) (AskLimits ob1)
               (BidLimits ob1) (<[Order_ID (orderAt h1 o) := o]> (Orders ob1)) in
  mkWorld (AddOrder l o h1) ob2.

Definition CancelOrder (o : oid) (w : World) : World * result unit :=
  match Order_Limit (orderAt (heap w) o) with
  | None => (w, Panicked NilDereference)
  | Some limit =>
      let h1 := DeleteOrder limit o (heap w) in
      let ob := book w in
      let ob1 := mkOrderbook (asks ob) (bids ob) (Trades ob) (AskLimits ob)
                   (BidLimits ob) (delete (Order_ID (orderAt h1 o)) (Orders ob)) in
      let w1 := mkWorld h1 ob1 in
      if (length (Limit_Orders (limitAt h1 limit)) =? 0)%nat
      then (clearLimit (Order_Bid (orderAt h1 o)) limit w1, Returned tt)
      else (w1, Returned tt)
  end.

(** ** Building an order and placing it

    The callers of the package build an order with [NewOrder] and pass it
    to the book at once. *)

Definition placeNewLimit (price : Z) (bid : bool) (size userID id ts : Z) (w : World)
  : World * oid :=
  let '(h, o) := NewOrder bid size userID id ts (heap w) in
  (PlaceLimitOrder price o (mkWorld h (book w)), o).

Definition placeNewMarket (clock : nat -> Z) (bid : bool) (size userID id ts : Z)
    (w : World) : World * oid * result (list Match) :=
  let '(h, o) := NewOrder bid size userID id ts (heap w) in
  let '(w', r) := PlaceMarketOrder clock o (mkWorld h (book w)) in
  (w', o, r).

(** ** Sequences of operations

    An operation of a sequence builds its order with [NewOrder] and places
    it, as every caller of the package does, or cancels an order built
    before.  The id and the time stamps that [NewOrder] and the trades draw
    are part of the operation.  A call that panics leaves the world as it is
    at the panic, and the sequence goes on from there. *)

Inductive op :=
| OpLimit (price : Z) (bid : bool) (size userID id ts : Z)
| OpMarket (clock : nat -> Z) (bid : bool) (size userID id ts : Z)
| OpCancel (o : oid).

Definition step (w : World) (x : op) : World :=
  match x with
  | OpLimit price bid size userID id ts => (placeNewLimit price bid size userID id ts w).1
  | OpMarket clock bid size userID id ts => (placeNewMarket clock bid size userID id ts w).1.1
  | OpCancel o => (CancelOrder o w).1
  end.

Definition run (ops : list op) : World := foldl step newWorld ops.

(** Sequences in which every limit order has a positive size. *)
Definition positiveLimit (x : op) : Prop :=
  match x with
  | OpLimit _ _ size _ _ _ => (0 < size)%Z
  | _ => True
  end.

(** ** Notions of the statements *)

(** The price index and the slice of the side an order belongs to. *)
Definition ownLimits (bid : bool) (ob : Orderbook) : gmap Z lid :=
  if bid then BidLimits ob else AskLimits ob.

Definition ownSide (bid : bool) (ob : Orderbook) : Slice :=
  if bid then bids ob else asks ob.

(** The volume a market order is checked against. *)
Definition availableVolume (o : oid) (w : World) : Z :=
  if Order_Bid (orderAt (heap w) o) then AskTotalVolume w else BidTotalVolume w.

(** The world after the sort that starts the sweep for an order of side
    [bid]. *)
Definition sortedWorld (bid : bool) (w : World) : World := if bid then Asks w else Bids w.

(** The matches that the sweep of [PlaceMarketOrder] collects for [o],
    before they are recorded as trades. *)
Definition marketMatches (o : oid) (w : World) : list Match :=
  let bid := Order_Bid (orderAt (heap w) o) in
  let w1 := if bid then Asks w else Bids w in
  (sweep bid o (Slice_len (opposite bid (book w1))) 0 w1 []).2.

(** The order of a match that is not the incoming order [o]. *)
Definition resting (o : oid) (m : Match) : oid :=
  if (Match_Bid m =? o)%nat then Match_Ask m else Match_Bid m.

(** Ascending order of a key. *)
Definition keyLe {A : Type} (key : A -> Z) (x y : A) : Prop := (key x <= key y)%Z.

Definition timestamp (h : Heap) (o : oid) : Z := Order_Timestamp (orderAt h o).

(** Residents held oldest first. *)
Definition oldestFirst (h : Heap) (os : list oid) : Prop :=
  StronglySorted (keyLe (timestamp h)) os.

(** The key by which the side opposite to an incoming order is sorted:
    ascending price of the asks for a bid, descending price of the bids for
    an ask. *)
Definition sweepKey (bid : bool) (h : Heap) (l : lid) : Z :=
  if bid then Limit_Price (limitAt h l) else (- Limit_Price (limitAt h l))%Z.

Definition matchKey (bid : bool) (m : Match) : Z :=
  if bid then Match_Price m else (- Match_Price m)%Z.

Definition sumSizes (h : Heap) (os : list oid) : Z :=
  foldr (fun a acc => (Order_Size (orderAt h a) + acc)%Z) 0%Z os.

Definition sumFilled (ms : list Match) : Z :=
  foldr (fun m acc => (Match_SizeFilled m + acc)%Z) 0%Z ms.

(** The sum of the remaining sizes of the orders resident in the levels of
    a side. *)
Definition residentVolume (h : Heap) (s : Slice) : Z :=
  foldr (fun l acc => (sumSizes h (Limit_Orders (limitAt h l)) + acc)%Z) 0%Z (view s).

(** The cached volume of a list of levels. *)
Definition volumeOf (h : Heap) (ls : list lid) : Z :=
  foldr (fun l acc => (Limit_TotalVolume (limitAt h l) + acc)%Z) 0%Z ls.

(** One iteration of the first loop of [Fill]: the heap after the fill of
    [order] and the decrement of the cached volume. *)
Definition fillStep (l : lid) (order o : oid) (h : Heap) : Heap :=
  let h1 := (fillOrder l order o h).1 in
  storeLimit h1 l
    (Limit_withTotalVolume (limitAt h1 l)
       (Limit_TotalVolume (limitAt h1 l) - Match_SizeFilled (fillOrder l order o h).2)).

(** Two states of an order that differ at most in the size. *)
Definition sameButSize (x y : Order) : Prop :=
  Order_withSize x 0 = Order_withSize y 0.

(** ** Invariant of the store *)

Record heapInv (h : Heap) : Prop := mkHeapInv {
  (* the cached volume of a level is the sum of the sizes of its residents *)
  inv_volume : forall l,
    Limit_TotalVolume (limitAt h l) = sumSizes h (Limit_Orders (limitAt h l));
  (* an order is resident at most once *)
  inv_nodup : forall l, NoDup (Limit_Orders (limitAt h l));
  (* an order is resident in the level it points to, and only there *)
  inv_back : forall l o,
    o ∈ Limit_Orders (limitAt h l) <-> Order_Limit (orderAt h o) = Some l;
  (* what has not been allocated is zero *)
  inv_fresh_order : forall o, next_order h <= o -> orderAt h o = Order_zero;
  inv_fresh_limit : forall l, next_limit h <= l -> limitAt h l = Limit_zero
}.

(** The levels of the price indices have been allocated. *)
Definition indexed (w : World) : Prop :=
  forall bid p l, ownLimits bid (book w) !! p = Some l -> l < next_limit (heap w).

Definition worldInv (w : World) : Prop := heapInv (heap w) /\ indexed w.

(** What the first loop of [Fill] has done when it went over the residents
    [os] of level [l] for the incoming order [o], from the store [h] to the
    store [h1], with the matches [ms] and the orders to delete [del]. *)
Record fillPost (l : lid) (o : oid) (os : list oid) (h h1 : Heap)
    (ms : list Match) (del : list oid) : Prop := mkFillPost {
  fp_inv : heapInv h1;
  fp_orders : forall l', Limit_Orders (limitAt h1 l') = Limit_Orders (limitAt h l');
  fp_price : forall l', Limit_Price (limitAt h1 l') = Limit_Price (limitAt h l');
  fp_limits : forall l', l' ≠ l -> limitAt h1 l' = limitAt h l';
  fp_volume :
    Limit_TotalVolume (limitAt h1 l) = (Limit_TotalVolume (limitAt h l) - sumFilled ms)%Z;
  fp_fields : forall a, sameButSize (orderAt h1 a) (orderAt h a);
  fp_frame : forall a, a ∉ os -> a ≠ o -> orderAt h1 a = orderAt h a;
  fp_next_order : next_order h1 = next_order h;
  fp_next_limit : next_limit h1 = next_limit h;
  fp_prices : Forall (fun m => Match_Price m = Limit_Price (limitAt h l)) ms;
  fp_incoming :
    Order_Size (orderAt h1 o) = (Order_Size (orderAt h o) - sumFilled ms)%Z;
  fp_nonneg : (0 <= Order_Size (orderAt h o))%Z -> (0 <= Order_Size (orderAt h1 o))%Z;
  fp_del_nodup : NoDup del;
  fp_del_sub : forall a, a ∈ del -> a ∈ os;
  fp_del_zero : forall a, a ∈ del -> Order_Size (orderAt h1 a) = 0%Z;
  fp_positive :
    (forall a, a ∈ os -> (0 < Order_Size (orderAt h a))%Z) ->
    forall a, a ∈ os -> a ∉ del -> (0 < Order_Size (orderAt h1 a))%Z;
  fp_exhaust : Order_Size (orderAt h1 o) ≠ 0%Z -> forall a, a ∈ os -> a ∈ del;
  fp_idle : Order_Size (orderAt h o) = 0%Z -> h1 = h /\ ms = [] /\ del = []
}.

(** What [Fill] on level [l] for the incoming order [o] has done, from the
    store [h] to the store [h'], with the matches [ms]. *)
Record filled (l : lid) (o : oid) (h h' : Heap) (ms : list Match) : Prop := mkFilled {
  fl_inv : heapInv h';
  fl_incoming_nil : Order_Limit (orderAt h' o) = None;
  fl_next_order : next_order h' = next_order h;
  fl_next_limit : next_limit h' = next_limit h;
  fl_limits : forall l', l' ≠ l -> limitAt h' l' = limitAt h l';
  fl_price : forall l', Limit_Price (limitAt h' l') = Limit_Price (limitAt h l');
  fl_prices : Forall (fun m => Match_Price m = Limit_Price (limitAt h l)) ms;
  fl_incoming :
    Order_Size (orderAt h' o) = (Order_Size (orderAt h o) - sumFilled ms)%Z;
  fl_volume :
    Limit_TotalVolume (limitAt h' l) = (Limit_TotalVolume (limitAt h l) - sumFilled ms)%Z;
  fl_nonneg : (0 <= Order_Size (orderAt h o))%Z -> (0 <= Order_Size (orderAt h' o))%Z;
  fl_frame : forall a,
    a ∉ Limit_Orders (limitAt h l) -> a ≠ o -> orderAt h' a = orderAt h a;
  fl_bid : forall a, Order_Bid (orderAt h' a) = Order_Bid (orderAt h a);
  fl_sub : forall a,
    a ∈ Limit_Orders (limitAt h' l) -> a ∈ Limit_Orders (limitAt h l);
  fl_positive :
    (forall a, a ∈ Limit_Orders (limitAt h l) -> (0 < Order_Size (orderAt h a))%Z) ->
    forall a, a ∈ Limit_Orders (limitAt h' l) -> (0 < Order_Size (orderAt h' a))%Z;
  fl_exhaust : Order_Size (orderAt h' o) ≠ 0%Z -> Limit_Orders (limitAt h' l) = [];
  fl_idle : Order_Size (orderAt h o) = 0%Z -> h' = h /\ ms = []
}.

(** ** Invariant of the book *)

(** One side of the book: [b] is [true] for the bids. *)
Record sideInv (b : bool) (w : World) : Prop := mkSideInv {
  si_len : Slice_len (ownSide b (book w)) <= length (Slice_array (ownSide b (book w)));
  (* a level is in the slice once *)
  si_nodup : NoDup (view (ownSide b (book w)));
  (* no level of the slice is empty *)
  si_nonempty : forall l,
    l ∈ view (ownSide b (book w)) -> Limit_Orders (limitAt (heap w) l) ≠ [];
  (* the residents are of this side and have volume left *)
  si_residents : forall l a,
    l ∈ view (ownSide b (book w)) -> a ∈ Limit_Orders (limitAt (heap w) l) ->
    Order_Bid (orderAt (heap w) a) = b /\ (0 < Order_Size (orderAt (heap w) a))%Z;
  (* the price index holds exactly the levels of the slice, under their price *)
  si_index : forall p l,
    ownLimits b (book w) !! p = Some l <->
    l ∈ view (ownSide b (book w)) /\ Limit_Price (limitAt (heap w) l) = p
}.

(** A level with residents is in the slice of a side. *)
Definition listed (w : World) : Prop :=
  forall l, Limit_Orders (limitAt (heap w) l) ≠ [] ->
            exists b, l ∈ view (ownSide b (book w)).

Record bookInv (w : World) : Prop := mkBookInv {
  bi_world : worldInv w;
  bi_side : forall b, sideInv b w;
  bi_listed : listed w
}.

(** ** Invariants of the sweep

    [lv] is the slice of the opposite side as sorted when the sweep starts,
    [h0] the store at that time, [k] the number of levels visited so far. *)

(** What holds of every sweep. *)
Record sweepBase (bid : bool) (o : oid) (lv : list lid) (h0 : Heap)
    (k : nat) (w : World) : Prop := mkSweepBase {
  sw_book : bookInv w;
  sw_nil : Order_Limit (orderAt (heap w) o) = None;
  sw_alloc : o < next_order (heap w);
  (* the levels not visited yet are where the sort has put them *)
  sw_pristine : forall j, k <= j -> j < length lv ->
    Slice_array (opposite bid (book w)) !! j = lv !! j;
  (* and they are still levels of the side *)
  sw_ahead : forall l, l ∈ drop k lv -> l ∈ view (opposite bid (book w));
  sw_view : forall l, l ∈ view (opposite bid (book w)) -> l ∈ lv;
  sw_price : forall l, Limit_Price (limitAt (heap w) l) = Limit_Price (limitAt h0 l)
}.

(** What holds of the sweep for an order of non-negative size that the
    opposite side can fill; [r0] is the size of the order when the sweep
    starts, [ms] are the matches so far. *)
Record sweepMatch (bid : bool) (o : oid) (lv : list lid) (h0 : Heap) (r0 : Z)
    (k : nat) (w : World) (ms : list Match) : Prop := mkSweepMatch {
  sw_nonneg : (0 <= Order_Size (orderAt (heap w) o))%Z;
  sw_enough : (Order_Size (orderAt (heap w) o) <= volumeOf (heap w) (drop k lv))%Z;
  (* while the order is not filled, every level visited has been evicted *)
  sw_no_survivor : Order_Size (orderAt (heap w) o) ≠ 0%Z ->
    forall l, l ∈ view (opposite bid (book w)) -> l ∈ drop k lv;
  sw_filled : sumFilled ms = (r0 - Order_Size (orderAt (heap w) o))%Z;
  sw_sorted : StronglySorted (keyLe (matchKey bid)) ms;
  (* no level left on the side is better than a price that was matched *)
  sw_best : forall m l, m ∈ ms -> l ∈ view (opposite bid (book w)) ->
    (matchKey bid m <= sweepKey bid h0 l)%Z;
  sw_from : forall m, m ∈ ms ->
    exists l, l ∈ take k lv /\ Match_Price m = Limit_Price (limitAt h0 l)
}.

(** ** Stores and books of the examples *)

Definition zeroClock : nat -> Z := fun _ => 0%Z.


(** A level at 10000 with two resting asks, of size 3 (created at time 1)
    and of size 4 (created at time 2), and a bid of size 5 that has not
    been placed.  Addresses: the asks are 0 and 1, the bid is 2. *)
Definition twoResidents : Heap :=
  let '(h, l) := NewLimit 10000 emptyHeap in
  let '(h, a) := NewOrder false 3 0 1 1 h in
  let '(h, b) := NewOrder false 4 0 2 2 h in
  let h := AddOrder l a h in
  let h := AddOrder l b h in
  let '(h, _) := NewOrder true 5 0 3 3 h in
  h.

(** Two levels.  Level 0 (price 10000) holds C (size 10, created third) and
    then A (size 5, created first); level 1 (price 9000) holds B (size 8,
    created second).  Addresses: A = 0, B = 1, C = 2. *)
Definition twoLevels : Heap :=
  let '(h, l0) := NewLimit 10000 emptyHeap in
  let '(h, l1) := NewLimit 9000 h in
  let '(h, a) := NewOrder true 5 0 1 1 h in
  let '(h, b) := NewOrder true 8 0 2 2 h in
  let '(h, c) := NewOrder true 10 0 3 3 h in
  let h := AddOrder l0 c h in
  let h := AddOrder l0 a h in
  AddOrder l1 b h.

(** An empty book and a new bid of size 1, not yet placed. *)
Definition emptyBookWithBid : World :=
  mkWorld (NewOrder true 1 0 7 7 emptyHeap).1 NewOrderbook.

(** An empty book and a new bid of size 0, not yet placed. *)
Definition emptyBookWithZeroBid : World :=
  mkWorld (NewOrder true 0 0 7 7 emptyHeap).1 NewOrderbook.

(** One ask of size 4 at 10000, placed and then cancelled, as in
    [TestCancelOrderAsk]. *)
Definition cancelledAsk : World :=
  let '(w, o) := placeNewLimit 10000 false 4 0 11 1 newWorld in
  (CancelOrder o w).1.

(** The operations that build the book of [TestPlaceMarketOrderMultiFill]:
    bids of size 1 and 1 at 5000, of size 8 at 9000 and of size 5 at 10000. *)
Definition multiFillOps : list op :=
  [OpLimit 5000 true 1 0 103 3; OpLimit 5000 true 1 0 104 4;
   OpLimit 9000 true 8 0 102 2; OpLimit 10000 true 5 0 101 1].

Definition multiFillBook : World := run multiFillOps.

(** The market ask of size 10 of that test. *)
Definition multiFill : World * oid * result (list Match) :=
  placeNewMarket zeroClock false 10 0 105 5 multiFillBook.

(** The operations of [TestLastMarketTrades]: an ask of size 10 at 10000,
    then a market bid of size 10. *)
Definition lastTradeOps : list op :=
  [OpLimit 10000 false 10 0 21 1; OpMarket zeroClock true 10 0 22 2].

(** An ask of size 5 at 100, then a bid of size 5 at 200, which crosses it. *)
Definition crossingOps : list op :=
  [OpLimit 100 false 5 0 31 1; OpLimit 200 true 5 0 32 2].

(** ** Notions of the further properties *)

(** Two states of an order with the same identity: the fields that
    [NewOrder] sets and that are not the size or the back reference. *)
Definition sameIdentity (x y : Order) : Prop :=
  Order_ID x = Order_ID y /\ Order_UserID x = Order_UserID y /\
  Order_Bid x = Order_Bid y /\ Order_Timestamp x = Order_Timestamp y.

(** An ask of size 5 at 100 and a bid of size 5 at 90, then a market bid of
    size 3 and the cancellation of the ask. *)
Definition tradeThenCancelOps : list op :=
  [OpMarket zeroClock true 3 0 43 3; OpCancel 0].

Definition restingPairOps : list op :=
  [OpLimit 100 false 5 0 41 1; OpLimit 90 true 5 0 42 2].

(** The book of [multiFillOps] and the market ask of size 10, built and not
    yet placed (address 4). *)
Definition multiFillTaker : World :=
  mkWorld (NewOrder false 10 0 105 5 (heap multiFillBook)).1 (book multiFillBook).

(** The two orders of a match when the incoming order is of side [bid]:
    the incoming order and the order it met in the book. *)
Definition taker (bid : bool) (m : Match) : oid :=
  if bid then Match_Bid m else Match_Ask m.

Definition maker (bid : bool) (m : Match) : oid :=
  if bid then Match_Ask m else Match_Bid m.

(** A match of the incoming order [o] of side [bid] with an order that
    rested in a level of the opposite side of [w0]. *)
Definition matchOf (bid : bool) (o : oid) (w0 : World) (m : Match) : Prop :=
  taker bid m = o /\
  (exists l, l ∈ view (opposite bid (book w0)) /\
             maker bid m ∈ Limit_Orders (limitAt (heap w0) l) /\
             Match_Price m = Limit_Price (limitAt (heap w0) l)) /\
  (0 < Match_SizeFilled m <= Order_Size (orderAt (heap w0) (maker bid m)))%Z.

(** The accounts of the sweep for the incoming order [o] of side [bid];
    [w0] is the world when the sweep starts, [lv] the slice of the opposite
    side at that time, [k] the number of levels visited, [ms] the matches
    so far. *)
Record sweepLedger (bid : bool) (o : oid) (lv : list lid) (w0 : World)
    (k : nat) (w : World) (ms : list Match) : Prop := mkSweepLedger {
  sl_taker_bid : Order_Bid (orderAt (heap w) o) = bid;
  sl_nonneg : (0 <= Order_Size (orderAt (heap w) o))%Z;
  (* the levels not visited yet and their residents are untouched *)
  sl_ahead : forall l, l ∈ drop k lv -> limitAt (heap w) l = limitAt (heap w0) l;
  sl_ahead_orders : forall l a,
    l ∈ drop k lv -> a ∈ Limit_Orders (limitAt (heap w0) l) ->
    orderAt (heap w) a = orderAt (heap w0) a;
  (* the side of the incoming order is untouched *)
  sl_own_side : ownSide bid (book w) = ownSide bid (book w0);
  sl_own_index : ownLimits bid (book w) = ownLimits bid (book w0);
  sl_own_levels : forall l,
    l ∈ view (ownSide bid (book w0)) -> limitAt (heap w) l = limitAt (heap w0) l;
  sl_own_orders : forall l a,
    l ∈ view (ownSide bid (book w0)) -> a ∈ Limit_Orders (limitAt (heap w0) l) ->
    orderAt (heap w) a = orderAt (heap w0) a;
  sl_orders : Orders (book w) = Orders (book w0);
  (* what has been matched has left the opposite side and the incoming order *)
  sl_volume :
    volumeOf (heap w) (view (opposite bid (book w)))
    = (volumeOf (heap w0) (view (opposite bid (book w0))) - sumFilled ms)%Z;
  sl_size :
    Order_Size (orderAt (heap w) o)
    = (Order_Size (orderAt (heap w0) o) - sumFilled ms)%Z;
  sl_roles : Forall (matchOf bid o w0) ms
}.

(** Every level holds its residents oldest first. *)
Definition levelsOldestFirst (h : Heap) : Prop :=
  forall l, oldestFirst h (Limit_Orders (limitAt h l)).

(** The time stamp and the id that an operation gives to the order it
    builds. *)
Definition creationTime (x : op) : option Z :=
  match x with
  | OpLimit _ _ _ _ _ ts | OpMarket _ _ _ _ _ ts => Some ts
  | OpCancel _ => None
  end.

Definition creationTimes (ops : list op) : list Z := omap creationTime ops.

Definition orderID (x : op) : option Z :=
  match x with
  | OpLimit _ _ _ _ id _ | OpMarket _ _ _ _ id _ => Some id
  | OpCancel _ => None
  end.

Definition orderIDs (ops : list op) : list Z := omap orderID ops.

(** Three asks at 100 placed one after the other, the first one cancelled,
    then a market bid of size 2. *)
Definition queueOps : list op :=
  [OpLimit 100 false 5 0 51 1; OpLimit 100 false 3 0 52 2; OpLimit 100 false 2 0 53 3;
   OpCancel 0; OpMarket zeroClock true 2 0 54 4].

(** The id index finds the orders that rest in the book; [future] are the
    ids that the operations to come will draw. *)
Record idInv (w : World) (future : list Z) : Prop := mkIdInv {
  id_indexed : forall l a,
    a ∈ Limit_Orders (limitAt (heap w) l) ->
    Orders (book w) !! Order_ID (orderAt (heap w) a) = Some a;
  id_fresh : forall a,
    a < next_order (heap w) -> Order_ID (orderAt (heap w) a) ∉ future;
  id_inj : forall a b,
    a < next_order (heap w) -> b < next_order (heap w) ->
    Order_ID (orderAt (heap w) a) = Order_ID (orderAt (heap w) b) -> a = b
}.

(** ** Exact sizes

    The sizes of the definitions above are whole numbers, on which sums and
    differences are exact.  float64 holds every whole number of absolute
    value at most 2^53 and adds and subtracts two of them without rounding
    when the result is one of them again.  Every size, cached volume and
    total that the code computes along a sequence of operations is a sum of
    sizes of orders the sequence has built, each taken at most once, with a
    sign; so, when the absolute sizes of all these orders add up to at most
    2^53, the arithmetic of the code on them is the arithmetic of the
    definitions above.  The statements that depend on it name this
    condition; [Float64] below shows what the code does outside of it. *)

Definition opSize (x : op) : Z :=
  match x with
  | OpLimit _ _ size _ _ _ | OpMarket _ _ size _ _ _ => size
  | OpCancel _ => 0%Z
  end.

Definition totalSize (ops : list op) : Z :=
  foldr (fun x acc => (Z.abs (opSize x) + acc)%Z) 0%Z ops.

(** The orders of [ops], and those of [ops] with one more order of size
    [size], have sizes on which float64 is exact. *)
Definition exactSizes (ops : list op) : Prop := (totalSize ops <= 2 ^ 53)%Z.

Definition exactWith (ops : list op) (size : Z) : Prop :=
  (totalSize ops + Z.abs size <= 2 ^ 53)%Z.

(** Two whole numbers whose sum and difference float64 computes exactly. *)
Definition exactSum (a b : Z) : Prop := (Z.abs a + Z.abs b <= 2 ^ 53)%Z.

(** The sum of the absolute values of the sizes of the orders [os], and of
    all the orders of the store: no operation brings it above the sizes
    that were placed. *)
Definition sumAbs (h : Heap) (os : list oid) : Z :=
  foldr (fun a acc => (Z.abs (Order_Size (orderAt h a)) + acc)%Z) 0%Z os.

Definition mass (h : Heap) : Z := sumAbs h (seq 0 (next_order h)).

(** Residents held in the order of their arrival, by time stamps that are
    pairwise distinct. *)
Definition arrivalOrder (h : Heap) (os : list oid) : Prop :=
  StronglySorted (fun a b => (timestamp h a < timestamp h b)%Z) os.

(** The orders of the store carry time stamps that grow with their
    addresses, that is, with the order in which they were built. *)
Definition builtInOrder (h : Heap) : Prop :=
  forall a b, a < b -> b < next_order h -> (timestamp h a < timestamp h b)%Z.

(** Three asks of size 3 at 100, the second and the third with the same
    time stamp, and the cancellation of the first.  Addresses: 0, 1, 2 in
    the order of placement. *)
Definition tieOps : list op :=
  [OpLimit 100 false 3 0 61 1; OpLimit 100 false 3 0 62 2; OpLimit 100 false 3 0 63 2;
   OpCancel 0].

(** ** The same functions on float64

    The sizes, the prices and the volumes of the source are float64.  The
    definitions above compute with whole numbers; the module below is the
    same embedding, function by function, on the binary64 numbers of the
    kernel ([PrimFloat]), whose operations are the IEEE 754 operations that
    Go performs on float64.  It is used where rounding decides what the code
    does.  A price index is a Go map keyed by float64, which compares keys
    with [==]: it is an association list looked up with [PrimFloat.eqb]. *)

Module Float64.

Record Trade := mkTrade {
  Trade_Price : float;
  Trade_Size : float;
  Trade_Bid : bool;
  Trade_Timestamp : Z
}.

Record Match := mkMatch {
  Match_Ask : oid;
  Match_Bid : oid;
  Match_SizeFilled : float;
  Match_Price : float
}.

Record Order := mkOrder {
  Order_ID : Z;
  Order_UserID : Z;
  Order_Size : float;
  Order_Bid : bool;
  Order_Limit : option lid;
  Order_Timestamp : Z
}.

Record Limit := mkLimit {
  Limit_Price : float;
  Limit_Orders : list oid;
  Limit_TotalVolume : float
}.

Definition Order_withSize (x : Order) (size : float) : Order :=
  mkOrder (Order_ID x) (Order_UserID x) size (Order_Bid x) (Order_Limit x)
          (Order_Timestamp x).

Definition Order_withLimit (x : Order) (l : option lid) : Order :=
  mkOrder (Order_ID x) (Order_UserID x) (Order_Size x) (Order_Bid x) l
          (Order_Timestamp x).

Definition Limit_withOrders (x : Limit) (os : list oid) : Limit :=
  mkLimit (Limit_Price x) os (Limit_TotalVolume x).

Definition Limit_withTotalVolume (x : Limit) (v : float) : Limit :=
  mkLimit (Limit_Price x) (Limit_Orders x) v.

Record Heap := mkHeap {
  order_at : gmap nat Order;
  limit_at : gmap nat Limit;
  next_order : nat;
  next_limit : nat
}.

Definition Order_zero : Order := mkOrder 0 0 0%float false None 0.
Definition Limit_zero : Limit := mkLimit 0%float [] 0%float.

Definition emptyHeap : Heap := mkHeap ∅ ∅ 0 0.

Definition orderAt (h : Heap) (o : oid) : Order :=
  default Order_zero (order_at h !! o).

Definition limitAt (h : Heap) (l : lid) : Limit :=
  default Limit_zero (limit_at h !! l).

Definition storeOrder (h : Heap) (o : oid) (x : Order) : Heap :=
  mkHeap (<[o := x]> (order_at h)) (limit_at h) (next_order h) (next_limit h).

Definition storeLimit (h : Heap) (l : lid) (x : Limit) : Heap :=
  mkHeap (order_at h) (<[l := x]> (limit_at h)) (next_order h) (next_limit h).

Inductive panic :=
| NotEnoughVolume (available requested : float)
| NilDereference
| IndexOutOfRange (index : Z) (length : nat).

Inductive result (A : Type) :=
| Returned (a : A)
| Panicked (p : panic).
Arguments Returned {A} a.
Arguments Panicked {A} p.

Definition NewOrder (bid : bool) (size : float) (userID : Z) (id ts : Z) (h : Heap)
  : Heap * oid :=
  let o := next_order h in
  (mkHeap (<[o := mkOrder id userID size bid None ts]> (order_at h))
          (limit_at h) (S o) (next_limit h), o).

(** [o.Size == 0.0] *)
Definition IsFilled (h : Heap) (o : oid) : bool :=
  PrimFloat.eqb (Order_Size (orderAt h o)) 0%float.

Definition NewLimit (price : float) (h : Heap) : Heap * lid :=
  let l := next_limit h in
  (mkHeap (order_at h) (<[l := mkLimit price [] 0%float]> (limit_at h))
          (next_order h) (S l), l).

Definition AddOrder (l : lid) (o : oid) (h : Heap) : Heap :=
  let h1 := storeOrder h o (Order_withLimit (orderAt h o) (Some l)) in
  let h2 := storeLimit h1 l
              (Limit_withOrders (limitAt h1 l) (Limit_Orders (limitAt h1 l) ++ [o])) in
  storeLimit h2 l
    (Limit_withTotalVolume (limitAt h2 l)
       (PrimFloat.add (Limit_TotalVolume (limitAt h2 l)) (Order_Size (orderAt h2 o)))).

Definition lessTimestamp (h : Heap) (a b : oid) : bool :=
  (Order_Timestamp (orderAt h a) <? Order_Timestamp (orderAt h b))%Z.

Definition DeleteOrder (l : lid) (o : oid) (h : Heap) : Heap :=
  let os := Limit_Orders (limitAt h l) in
  let '(arr, n) := removeLoop o (length os) 0 os (length os) in
  let h1 := storeLimit h l (Limit_withOrders (limitAt h l) (take n arr)) in
  let h2 := storeOrder h1 o (Order_withLimit (orderAt h1 o) None) in
  let h3 := storeLimit h2 l
              (Limit_withTotalVolume (limitAt h2 l)
                 (PrimFloat.sub (Limit_TotalVolume (limitAt h2 l))
                                (Order_Size (orderAt h2 o)))) in
  storeLimit h3 l
    (Limit_withOrders (limitAt h3 l)
       (sortBy (lessTimestamp h3) (Limit_Orders (limitAt h3 l)))).

(** [a.Size >= b.Size] is [PrimFloat.leb] with the arguments exchanged. *)
Definition fillOrder (l : lid) (a b : oid) (h : Heap) : Heap * Match :=
  let '(bid, ask) := if Order_Bid (orderAt h a) then (a, b) else (b, a) in
  let '(h', sizeFilled) :=
    if PrimFloat.leb (Order_Size (orderAt h b)) (Order_Size (orderAt h a)) then
      let h1 := storeOrder h a
                  (Order_withSize (orderAt h a)
                     (PrimFloat.sub (Order_Size (orderAt h a)) (Order_Size (orderAt h b)))) in
      let sizeFilled := Order_Size (orderAt h1 b) in
      (storeOrder h1 b (Order_withSize (orderAt h1 b) 0%float), sizeFilled)
    else
      let h1 := storeOrder h b
                  (Order_withSize (orderAt h b)
                     (PrimFloat.sub (Order_Size (orderAt h b)) (Order_Size (orderAt h a)))) in
      let sizeFilled := Order_Size (orderAt h1 a) in
      (storeOrder h1 a (Order_withSize (orderAt h1 a) 0%float), sizeFilled) in
  (h', mkMatch ask bid sizeFilled (Limit_Price (limitAt h' l))).

Fixpoint fillLoop (l : lid) (o : oid) (os : list oid) (h : Heap)
    (matches : list Match) (ordersToDelete : list oid)
  : Heap * list Match * list oid :=
  match os with
  | [] => (h, matches, ordersToDelete)
  | order :: rest =>
      if IsFilled h o then (h, matches, ordersToDelete)
      else
        let '(h1, m) := fillOrder l order o h in
        let h2 := storeLimit h1 l
                    (Limit_withTotalVolume (limitAt h1 l)
                       (PrimFloat.sub (Limit_TotalVolume (limitAt h1 l))
                                      (Match_SizeFilled m))) in
        fillLoop l o rest h2 (matches ++ [m])
          (if IsFilled h2 order then ordersToDelete ++ [order] else ordersToDelete)
  end.

Definition Fill (l : lid) (o : oid) (h : Heap) : Heap * list Match :=
  let '(h1, matches, ordersToDelete) :=
    fillLoop l o (Limit_Orders (limitAt h l)) h [] [] in
  (foldl (fun h' order => DeleteOrder l order h') h1 ordersToDelete, matches).

(** A map keyed by float64. *)
Definition PriceIndex : Type := list (float * lid).

Definition lookupPrice (m : PriceIndex) (p : float) : option lid :=
  snd <$> find (fun kv => PrimFloat.eqb (fst kv) p) m.

Definition insertPrice (p : float) (l : lid) (m : PriceIndex) : PriceIndex :=
  if existsb (fun kv => PrimFloat.eqb (fst kv) p) m
  then map (fun kv => if PrimFloat.eqb (fst kv) p then (fst kv, l) else kv) m
  else (p, l) :: m.

Definition deletePrice (p : float) (m : PriceIndex) : PriceIndex :=
  filter (fun kv => PrimFloat.eqb (fst kv) p = false) m.

Record Orderbook := mkOrderbook {
  asks : Slice;
  bids : Slice;
  Trades : list Trade;
  AskLimits : PriceIndex;
  BidLimits : PriceIndex;
  Orders : gmap Z oid
}.

Record World := mkWorld {
  heap : Heap;
  book : Orderbook
}.

Definition NewOrderbook : Orderbook :=
  mkOrderbook emptySlice emptySlice [] [] [] ∅.

Definition newWorld : World := mkWorld emptyHeap NewOrderbook.

(** [totalVolume := 0.0; for i := 0; i < len(s); i++ { totalVolume += s[i].TotalVolume }]:
    the float64 sum in the order of the slice. *)
Definition totalVolume (h : Heap) (s : Slice) : float :=
  foldl (fun total l => PrimFloat.add total (Limit_TotalVolume (limitAt h l)))
        0%float (view s).

Definition BidTotalVolume (w : World) : float := totalVolume (heap w) (bids (book w)).
Definition AskTotalVolume (w : World) : float := totalVolume (heap w) (asks (book w)).

Definition lessAsk (h : Heap) (a b : lid) : bool :=
  PrimFloat.ltb (Limit_Price (limitAt h a)) (Limit_Price (limitAt h b)).

Definition lessBid (h : Heap) (a b : lid) : bool :=
  PrimFloat.ltb (Limit_Price (limitAt h b)) (Limit_Price (limitAt h a)).

Definition Asks (w : World) : World :=
  let ob := book w in
  mkWorld (heap w)
    (mkOrderbook (sortSlice (lessAsk (heap w)) (asks ob)) (bids ob) (Trades ob)
                 (AskLimits ob) (BidLimits ob) (Orders ob)).

Definition Bids (w : World) : World :=
  let ob := book w in
  mkWorld (heap w)
    (mkOrderbook (asks ob) (sortSlice (lessBid (heap w)) (bids ob)) (Trades ob)
                 (AskLimits ob) (BidLimits ob) (Orders ob)).

Definition clearLimit (bid : bool) (l : lid) (w : World) : World :=
  let ob := book w in
  let price := Limit_Price (limitAt (heap w) l) in
  if bid then
    let '(a, n) := removeLoop l (Slice_len (bids ob)) 0
                     (Slice_array (bids ob)) (Slice_len (bids ob)) in
    mkWorld (heap w)
      (mkOrderbook (asks ob) (mkSlice a n) (Trades ob)
                   (AskLimits ob) (deletePrice price (BidLimits ob)) (Orders ob))
  else
    let '(a, n) := removeLoop l (Slice_len (asks ob)) 0
                     (Slice_array (asks ob)) (Slice_len (asks ob)) in
    mkWorld (heap w)
      (mkOrderbook (mkSlice a n) (bids ob) (Trades ob)
                   (deletePrice price (AskLimits ob)) (BidLimits ob) (Orders ob)).

Definition opposite (bid : bool) (ob : Orderbook) : Slice :=
  if bid then asks ob else bids ob.

Fixpoint sweep (bid : bool) (o : oid) (count : nat) (k : nat) (w : World)
    (matches : list Match) : World * list Match :=
  match count with
  | 0 => (w, matches)
  | S count' =>
      let limit := Slice_array (opposite bid (book w)) !!! k in
      let '(h1, limitMatches) := Fill limit o (heap w) in
      let w1 := mkWorld h1 (book w) in
      let w2 := if (length (Limit_Orders (limitAt h1 limit)) =? 0)%nat
                then clearLimit (negb bid) limit w1 else w1 in
      sweep bid o count' (S k) w2 (matches ++ limitMatches)
  end.

Definition recordTrades (clock : nat -> Z) (bid : bool) (matches : list Match)
  : list Trade :=
  imap (fun i m => mkTrade (Match_Price m) (Match_SizeFilled m) bid (clock i)) matches.

Definition withTrades (ob : Orderbook) (ts : list Trade) : Orderbook :=
  mkOrderbook (asks ob) (bids ob) ts (AskLimits ob) (BidLimits ob) (Orders ob).

(** [o.Size > ob.AskTotalVolume()] is [PrimFloat.ltb] with the arguments
    exchanged. *)
Definition PlaceMarketOrder (clock : nat -> Z) (o : oid) (w : World)
  : World * result (list Match) :=
  let bid := Order_Bid (orderAt (heap w) o) in
  let available := if bid then AskTotalVolume w else BidTotalVolume w in
  if PrimFloat.ltb available (Order_Size (orderAt (heap w) o)) then
    (w, Panicked (NotEnoughVolume available (Order_Size (orderAt (heap w) o))))
  else
    let w1 := if bid then Asks w else Bids w in
    let '(w2, matches) :=
      sweep bid o (Slice_len (opposite bid (book w1))) 0 w1 [] in
    let trades := Trades (book w2)
                  ++ recordTrades clock (Order_Bid (orderAt (heap w2) o)) matches in
    let w3 := mkWorld (heap w2) (withTrades (book w2) trades) in
    match trades with
    | [] => (w3, Panicked (IndexOutOfRange (-1) 0))
    | _ :: _ => (w3, Returned matches)
    end.

Definition PlaceLimitOrder (price : float) (o : oid) (w : World) : World :=
  let h := heap w in
  let ob := book w in
  let bid := Order_Bid (orderAt h o) in
  let limit := if bid then lookupPrice (BidLimits ob) price
               else lookupPrice (AskLimits ob) price in
  let '(h1, ob1, l) :=
    match limit with
    | Some l => (h, ob, l)
    | None =>
        let '(h', l) := NewLimit price h in
        if bid then
          (h', mkOrderbook (asks ob) (appendSlice (bids ob) l) (Trades ob)
                 (AskLimits ob) (insertPrice price l (BidLimits ob)) (Orders ob), l)
        else
          (h', mkOrderbook (appendSlice (asks ob) l) (bids ob) (Trades ob)
                 (insertPrice price l (AskLimits ob)) (BidLimits ob) (Orders ob), l)
    end in
  let ob2 := mkOrderbook (asks ob1) (bids ob1) (Trades ob1) (AskLimits ob1)
               (BidLimits ob1) (<[Order_ID (orderAt h1 o) := o]> (Orders ob1)) in
  mkWorld (AddOrder l o h1) ob2.

Definition CancelOrder (o : oid) (w : World) : World * result unit :=
  match Order_Limit (orderAt (heap w) o) with
  | None => (w, Panicked NilDereference)
  | Some limit =>
      let h1 := DeleteOrder limit o (heap w) in
      let ob := book w in
      let ob1 := mkOrderbook (asks ob) (bids ob) (Trades ob) (AskLimits ob)
                   (BidLimits ob) (delete (Order_ID (orderAt h1 o)) (Orders ob)) in
      let w1 := mkWorld h1 ob1 in
      if (length (Limit_Orders (limitAt h1 limit)) =? 0)%nat
      then (clearLimit (Order_Bid (orderAt h1 o)) limit w1, Returned tt)
      else (w1, Returned tt)
  end.

Definition placeNewLimit (price : float) (bid : bool) (size : float) (userID id ts : Z)
    (w : World) : World * oid :=
  let '(h, o) := NewOrder bid size userID id ts (heap w) in
  (PlaceLimitOrder price o (mkWorld h (book w)), o).

Definition placeNewMarket (clock : nat -> Z) (bid : bool) (size : float) (userID id ts : Z)
    (w : World) : World * oid * result (list Match) :=
  let '(h, o) := NewOrder bid size userID id ts (heap w) in
  let '(w', r) := PlaceMarketOrder clock o (mkWorld h (book w)) in
  (w', o, r).

Inductive op :=
| OpLimit (price : float) (bid : bool) (size : float) (userID id ts : Z)
| OpMarket (clock : nat -> Z) (bid : bool) (size : float) (userID id ts : Z)
| OpCancel (o : oid).

Definition step (w : World) (x : op) : World :=
  match x with
  | OpLimit price bid size userID id ts => (placeNewLimit price bid size userID id ts w).1
  | OpMarket clock bid size userID id ts => (placeNewMarket clock bid size userID id ts w).1.1
  | OpCancel o => (CancelOrder o w).1
  end.

Definition run (ops : list op) : World := foldl step newWorld ops.

(** The float64 sum of the remaining sizes of the residents of a level, in
    the order of the level, and of the residents of a side, level by
    level. *)
Definition sumSizes (h : Heap) (os : list oid) : float :=
  foldl (fun total a => PrimFloat.add total (Order_Size (orderAt h a))) 0%float os.

Definition residentVolume (h : Heap) (s : Slice) : float :=
  foldl (fun total l => PrimFloat.add total (sumSizes h (Limit_Orders (limitAt h l))))
        0%float (view s).

Definition sumFilled (ms : list Match) : float :=
  foldl (fun total m => PrimFloat.add total (Match_SizeFilled m)) 0%float ms.

End Float64.

(** Two bids at 100, of sizes 2^53 and 1, and the cancellation of the
    first. *)
Definition largeBidOps : list Float64.op :=
  [Float64.OpLimit 100 true 9007199254740992 0 71 1;
   Float64.OpLimit 100 true 1 0 72 2;
   Float64.OpCancel 0].

(** Asks of sizes 0.1 and 0.2 at 100, and a market bid of size 0.3. *)
#[warnings="-inexact-float"]
Definition decimalAskOps : list Float64.op :=
  [Float64.OpLimit 100 false 0.1 0 73 1;
   Float64.OpLimit 100 false 0.2 0 74 2;
   Float64.OpMarket zeroClock true 0.3 0 75 3].

(** An ask of size 2^53 at 100 and an ask of size 3 at 101; the market bid
    placed on them has size 2^53 + 4. *)
Definition largeAskOps : list Float64.op :=
  [Float64.OpLimit 100 false 9007199254740992 0 81 1;
   Float64.OpLimit 101 false 3 0 82 2].

Definition largeAskFill
  : Float64.World * oid * Float64.result (list Float64.Match) :=
  Float64.placeNewMarket zeroClock true 9007199254740996 0 83 3 (Float64.run largeAskOps).

(** Asks of size 1.7 at 100 and 0.5 at 101; the market bid placed on them
    has size 2.2. *)
#[warnings="-inexact-float"]
Definition decimalAskLevels : list Float64.op :=
  [Float64.OpLimit 100 false 1.7 0 84 1;
   Float64.OpLimit 101 false 0.5 0 85 2].

#[warnings="-inexact-float"]
Definition decimalAskFill
  : Float64.World * oid * Float64.result (list Float64.Match) :=
  Float64.placeNewMarket zeroClock true 2.2 0 86 3 (Float64.run decimalAskLevels).

(** The operations and the market ask of [TestPlaceMarketOrderMultiFill] on
    float64. *)
Definition multiFillOps64 : list Float64.op :=
  [Float64.OpLimit 5000 true 1 0 103 3; Float64.OpLimit 5000 true 1 0 104 4;
   Float64.OpLimit 9000 true 8 0 102 2; Float64.OpLimit 10000 true 5 0 101 1].

Definition multiFill64
  : Float64.World * oid * Float64.result (list Float64.Match) :=
  Float64.placeNewMarket zeroClock false 10 0 105 5 (Float64.run multiFillOps64).

(** ** Whole numbers in binary64

    [bn z] is the binary64 number that the conversion of the whole number
    [z] gives, in the specification of the kernel floats, and [ofZ z] the
    float itself.  [is_rep v m e]: the mantissa [m], of 53 digits, and the
    exponent [e] represent the whole number [v]. *)
Definition is_rep (v : Z) (m : positive) (e : Z) : Prop :=
  (-52 <= e <= 1)%Z /\ (Zpos m * 2 ^ (e + 52) = v * 2 ^ 52)%Z /\
  Zpos (digits2_pos m) = 53%Z.

Definition bn (z : Z) : spec_float := binary_normalize prec emax z 0 false.

Definition ofZ (z : Z) : float := SF2Prim (bn z).

(** ** The whole-number embedding inside the float64 embedding

    A store, a match, a trade and an operation of the definitions on whole
    numbers, as the float64 definitions have them. *)
Definition float64Order (x : Order) : Float64.Order :=
  Float64.mkOrder (Order_ID x) (Order_UserID x) (ofZ (Order_Size x)) (Order_Bid x)
    (Order_Limit x) (Order_Timestamp x).

Definition float64Limit (x : Limit) : Float64.Limit :=
  Float64.mkLimit (ofZ (Limit_Price x)) (Limit_Orders x) (ofZ (Limit_TotalVolume x)).

Definition float64Match (m : Match) : Float64.Match :=
  Float64.mkMatch (Match_Ask m) (Match_Bid m) (ofZ (Match_SizeFilled m)) (ofZ (Match_Price m)).

Definition float64Trade (t : Trade) : Float64.Trade :=
  Float64.mkTrade (ofZ (Trade_Price t)) (ofZ (Trade_Size t)) (Trade_Bid t) (Trade_Timestamp t).

Definition float64Heap (h : Heap) : Float64.Heap :=
  Float64.mkHeap (float64Order <$> order_at h) (float64Limit <$> limit_at h)
    (next_order h) (next_limit h).

Definition float64Op (x : op) : Float64.op :=
  match x with
  | OpLimit price bid size userID id ts =>
      Float64.OpLimit (ofZ price) bid (ofZ size) userID id ts
  | OpMarket clock bid size userID id ts =>
      Float64.OpMarket clock bid (ofZ size) userID id ts
  | OpCancel o => Float64.OpCancel o
  end.

(** A whole number that float64 holds. *)
Definition exactZ (z : Z) : Prop := (Z.abs z <= 2 ^ 53)%Z.

(** The prices of the limit orders are whole numbers that float64 holds. *)
Definition exactPrice (x : op) : Prop :=
  match x with
  | OpLimit price _ _ _ _ _ => exactZ price
  | _ => True
  end.

(** A price index of the float64 embedding that holds what a price index on
    whole numbers holds. *)
Definition indexRel (m : gmap Z lid) (pl : Float64.PriceIndex) : Prop :=
  Forall (fun kv => exists p, exactZ p /\ kv.1 = ofZ p) pl /\
  forall p, exactZ p -> Float64.lookupPrice pl (ofZ p) = m !! p.

(** The world of the float64 embedding that corresponds to a world on whole
    numbers. *)
Record sim (w : World) (w' : Float64.World) : Prop := mkSim {
  sim_heap : Float64.heap w' = float64Heap (heap w);
  sim_asks : Float64.asks (Float64.book w') = asks (book w);
  sim_bids : Float64.bids (Float64.book w') = bids (book w);
  sim_Trades : Float64.Trades (Float64.book w') = float64Trade <$> Trades (book w);
  sim_Orders : Float64.Orders (Float64.book w') = Orders (book w);
  sim_AskLimits : indexRel (AskLimits (book w)) (Float64.AskLimits (Float64.book w'));
  sim_BidLimits : indexRel (BidLimits (book w)) (Float64.BidLimits (Float64.book w'))
}.

(** A store whose sizes and volumes float64 holds: the cached volumes are
    the sums of the sizes of the residents, and the sizes add up, in
    absolute value, to at most 2^53. *)
Definition exactHeap (h : Heap) : Prop := heapInv h /\ (mass h <= 2 ^ 53)%Z.

(** The prices of the levels are whole numbers that float64 holds. *)
Definition exactPrices (h : Heap) : Prop :=
  forall l, exactZ (Limit_Price (limitAt h l)).

(** The outcome of a market order in the float64 embedding. *)
Definition float64Panic (p : panic) : Float64.panic :=
  match p with
  | NotEnoughVolume available requested =>
      Float64.NotEnoughVolume (ofZ available) (ofZ requested)
  | NilDereference => Float64.NilDereference
  | IndexOutOfRange index length => Float64.IndexOutOfRange index length
  end.

Definition float64Matches (r : result (list Match)) : Float64.result (list Float64.Match) :=
  match r with
  | Returned ms => Float64.Returned (float64Match <$> ms)
  | Panicked p => Float64.Panicked (float64Panic p)
  end.

(** * Properties *)

(** ** The store *)

Lemma orderAt_storeOrder_eq h o x : orderAt (storeOrder h o x) o = x.
Proof. unfold orderAt, storeOrder; simpl. by rewrite lookup_insert_eq. Qed.

Lemma orderAt_storeOrder_ne h o o' x :
  o ≠ o' -> orderAt (storeOrder h o x) o' = orderAt h o'.
Proof. intros Hne. unfold orderAt, storeOrder; simpl. by rewrite lookup_insert_ne. Qed.

Lemma orderAt_storeLimit h l x o : orderAt (storeLimit h l x) o = orderAt h o.
Proof. reflexivity. Qed.

Lemma limitAt_storeLimit_eq h l x : limitAt (storeLimit h l x) l = x.
Proof. unfold limitAt, storeLimit; simpl. by rewrite lookup_insert_eq. Qed.

Lemma limitAt_storeLimit_ne h l l' x :
  l ≠ l' -> limitAt (storeLimit h l x) l' = limitAt h l'.
Proof. intros Hne. unfold limitAt, storeLimit; simpl. by rewrite lookup_insert_ne. Qed.

Lemma limitAt_storeOrder h o x l : limitAt (storeOrder h o x) l = limitAt h l.
Proof. reflexivity. Qed.

Lemma storeLimit_storeLimit h l x y :
  storeLimit (storeLimit h l x) l y = storeLimit h l y.
Proof. unfold storeLimit; simpl. by rewrite insert_insert_eq. Qed.

Lemma storeOrder_storeOrder h o x y :
  storeOrder (storeOrder h o x) o y = storeOrder h o y.
Proof. unfold storeOrder; simpl. by rewrite insert_insert_eq. Qed.

Create Rewrite HintDb store.
#[local] Hint Rewrite orderAt_storeOrder_eq orderAt_storeLimit limitAt_storeLimit_eq
  limitAt_storeOrder storeLimit_storeLimit storeOrder_storeOrder : store.

(** Closed decidable goals, by evaluation. *)
Ltac by_decide :=
  cbv zeta;
  match goal with |- ?P => apply (@bool_decide_unpack P _) end;
  vm_compute; exact I.

Ltac store :=
  repeat (autorewrite with store in *; simpl in *;
          try (rewrite orderAt_storeOrder_ne in * by congruence);
          try (rewrite limitAt_storeLimit_ne in * by congruence)).

(** ** fillOrder *)

Lemma fillOrder_limits l a b h l' :
  limitAt (fillOrder l a b h).1 l' = limitAt h l'.
Proof.
  unfold fillOrder.
  destruct (Order_Bid (orderAt h a)); destruct (_ >=? _)%Z; reflexivity.
Qed.

Lemma fillOrder_price l a b h :
  Match_Price (fillOrder l a b h).2 = Limit_Price (limitAt h l).
Proof.
  unfold fillOrder.
  destruct (Order_Bid (orderAt h a)); destruct (_ >=? _)%Z; reflexivity.
Qed.

Lemma fillOrder_other l a b h x :
  x ≠ a -> x ≠ b -> orderAt (fillOrder l a b h).1 x = orderAt h x.
Proof.
  intros Ha Hb. unfold fillOrder.
  destruct (Order_Bid (orderAt h a)); destruct (_ >=? _)%Z; simpl;
    rewrite !orderAt_storeOrder_ne by congruence; reflexivity.
Qed.

Lemma fillOrder_sizes l a b h :
  a ≠ b ->
  let sa := Order_Size (orderAt h a) in
  let sb := Order_Size (orderAt h b) in
  let f := if (sa >=? sb)%Z then sb else sa in
  Match_SizeFilled (fillOrder l a b h).2 = f /\
  orderAt (fillOrder l a b h).1 a = Order_withSize (orderAt h a) (sa - f) /\
  orderAt (fillOrder l a b h).1 b = Order_withSize (orderAt h b) (sb - f).
Proof.
  intros Hne sa sb f. unfold fillOrder. subst f sa sb.
  destruct (Order_Bid (orderAt h a)); destruct (_ >=? _)%Z eqn:E; simpl;
    store; repeat split; try reflexivity; f_equal; lia.
Qed.



(** ** Panics of the book operations *)

(** C1, as the specification states it, fails: a market bid of size 1 on an
    empty book exceeds the resting ask volume 0, and the call does not come
    back to its caller with an error, it panics. *)
Lemma PlaceMarketOrder_insufficient_panics :
  (Order_Size (orderAt (heap emptyBookWithBid) 0%nat) > availableVolume 0%nat emptyBookWithBid)%Z /\
  (PlaceMarketOrder zeroClock 0 emptyBookWithBid).2 = Panicked (NotEnoughVolume 0 1) /\
  ~ (exists matches, (PlaceMarketOrder zeroClock 0 emptyBookWithBid).2 = Returned matches).
Proof.
  split; [reflexivity |]. split; [reflexivity |].
  intros [ms H]. vm_compute in H. discriminate.
Qed.

(** C1, amended.  A market order larger than the resting volume of the
    opposite side makes [PlaceMarketOrder] panic with the not-enough-volume
    error, which carries the available and the requested volume.  The panic
    is raised before anything is written: the world after the call is the
    world before it, so no level, order, index or trade has changed. *)
Theorem PlaceMarketOrder_insufficient_liquidity
    (clock : nat -> Z) (o : oid) (w : World) :
  (Order_Size (orderAt (heap w) o) > availableVolume o w)%Z ->
  PlaceMarketOrder clock o w =
    (w, Panicked (NotEnoughVolume (availableVolume o w) (Order_Size (orderAt (heap w) o)))).
Proof.
  intros Hgt. unfold PlaceMarketOrder, availableVolume in *.
  destruct (Z.gtb_spec (Order_Size (orderAt (heap w) o))
              (if Order_Bid (orderAt (heap w) o) then AskTotalVolume w else BidTotalVolume w));
    [reflexivity | lia].
Qed.

Lemma PlaceMarketOrder_insufficient_liquidity_witness :
  PlaceMarketOrder zeroClock 0 emptyBookWithBid =
    (emptyBookWithBid, Panicked (NotEnoughVolume 0 1)).
Proof.
  apply (PlaceMarketOrder_insufficient_liquidity zeroClock 0 emptyBookWithBid).
  reflexivity.
Defined.

(** C7, as the specification states it, fails: cancelling the ask of
    [TestCancelOrderAsk] a second time does not report that the order was
    not found, it dereferences the nil level of the order and panics. *)
Lemma CancelOrder_twice_panics :
  Orders (book cancelledAsk) !! 11%Z = None /\
  (CancelOrder 0 cancelledAsk).2 = Panicked NilDereference /\
  (CancelOrder 0 cancelledAsk).2 ≠ Returned tt.
Proof. split; [reflexivity |]. split; [reflexivity | discriminate]. Qed.

Lemma DeleteOrder_clears_level l o h :
  Order_Limit (orderAt (DeleteOrder l o h) o) = None.
Proof.
  unfold DeleteOrder. destruct (removeLoop _ _ _ _ _) as [a n]. store. reflexivity.
Qed.

Lemma clearLimit_heap bid l w : heap (clearLimit bid l w) = heap w.
Proof.
  unfold clearLimit. destruct bid; destruct (removeLoop _ _ _ _ _); reflexivity.
Qed.

Lemma clearLimit_Trades bid l w : Trades (book (clearLimit bid l w)) = Trades (book w).
Proof.
  unfold clearLimit. destruct bid; destruct (removeLoop _ _ _ _ _); reflexivity.
Qed.

Lemma CancelOrder_returned_clears_level o w w' r :
  CancelOrder o w = (w', Returned r) ->
  Order_Limit (orderAt (heap w') o) = None.
Proof.
  unfold CancelOrder. destruct (Order_Limit (orderAt (heap w) o)) as [l|]; [| discriminate].
  destruct (_ =? _)%nat; intros [= <- _].
  - rewrite clearLimit_heap. simpl. apply DeleteOrder_clears_level.
  - simpl. apply DeleteOrder_clears_level.
Qed.

(** C7, amended.  An order that rests in no level has a nil back reference:
    it was never placed, or a call of [CancelOrder] has just removed it.
    [CancelOrder] on such an order panics on the nil level before anything
    is written, so the world stays as it is, and cancelling again any number
    of times does the same. *)
Theorem CancelOrder_not_resident (o : oid) (w : World) :
  (Order_Limit (orderAt (heap w) o) = None \/
   exists w0, CancelOrder o w0 = (w, Returned tt)) ->
  forall n : nat,
    Nat.iter n (fun w' => (CancelOrder o w').1) w = w /\
    CancelOrder o w = (w, Panicked NilDereference).
Proof.
  intros H.
  assert (Hnil : Order_Limit (orderAt (heap w) o) = None).
  { destruct H as [H | [w0 H]]; [exact H |].
    eapply CancelOrder_returned_clears_level; exact H. }
  assert (Hc : CancelOrder o w = (w, Panicked NilDereference)).
  { unfold CancelOrder. rewrite Hnil. reflexivity. }
  intros n. split; [| exact Hc].
  induction n as [| n IH]; simpl; [reflexivity |].
  rewrite IH, Hc. reflexivity.
Qed.

Lemma CancelOrder_not_resident_witness :
  Nat.iter 3 (fun w' => (CancelOrder 0 w').1) cancelledAsk = cancelledAsk /\
  CancelOrder 0 cancelledAsk = (cancelledAsk, Panicked NilDereference).
Proof.
  apply (CancelOrder_not_resident 0 cancelledAsk).
  right. exists (placeNewLimit 10000 false 4 0 11 1 newWorld).1.
  vm_compute. reflexivity.
Defined.

(** C8 does not hold of the code.  In [twoLevels], B (address 1, size 8) rests
    in level 1 and not in level 0.  [DeleteOrder] of B on level 0 still takes
    B's size off the cached volume of level 0 (15 becomes 7 while the
    residents still sum to 15), re-sorts the residents of level 0, and clears
    B's back reference although B remains in level 1. *)
Theorem DeleteOrder_not_resident_writes :
  let h := twoLevels in
  let h' := DeleteOrder 0 1 h in
  (1 ∉ Limit_Orders (limitAt h 0)) /\
  Limit_Orders (limitAt h 0) = [2; 0] /\
  Limit_Orders (limitAt h' 0) = [0; 2] /\
  Limit_TotalVolume (limitAt h 0) = 15%Z /\
  Limit_TotalVolume (limitAt h' 0) = 7%Z /\
  Order_Limit (orderAt h 1) = Some 1 /\
  Order_Limit (orderAt h' 1) = None /\
  Limit_Orders (limitAt h' 1) = [1].
Proof.
  vm_compute. split; [| repeat split; reflexivity].
  intros H. apply list_elem_of_In in H. simpl in H. intuition discriminate.
Qed.

(** ** The logging step of PlaceMarketOrder *)

Lemma Fill_filled l o h : IsFilled h o = true -> Fill l o h = (h, []).
Proof.
  intros Hf. unfold Fill.
  destruct (Limit_Orders (limitAt h l)) as [| order rest]; simpl; [reflexivity |].
  rewrite Hf. reflexivity.
Qed.

Lemma sweep_filled bid o count : forall k w matches,
  IsFilled (heap w) o = true ->
  heap (sweep bid o count k w matches).1 = heap w /\
  (sweep bid o count k w matches).2 = matches.
Proof.
  induction count as [| count IH]; intros k w matches Hf; simpl; [done |].
  rewrite (Fill_filled _ _ _ Hf).
  destruct (_ =? _)%nat.
  - destruct (IH (S k) (clearLimit (negb bid) (Slice_array (opposite bid (book w)) !!! k)
                          (mkWorld (heap w) (book w))) (matches ++ [])) as [H1 H2].
    { rewrite clearLimit_heap. exact Hf. }
    rewrite H1, H2, clearLimit_heap, app_nil_r. done.
  - destruct (IH (S k) (mkWorld (heap w) (book w)) (matches ++ [])) as [H1 H2]; [exact Hf |].
    rewrite H1, H2, app_nil_r. done.
Qed.

Lemma sweep_Trades bid o count : forall k w matches,
  Trades (book (sweep bid o count k w matches).1) = Trades (book w).
Proof.
  induction count as [| count IH]; intros k w matches; simpl; [done |].
  destruct (Fill _ o (heap w)) as [h1 ms].
  destruct (_ =? _)%nat; rewrite IH; [rewrite clearLimit_Trades |]; reflexivity.
Qed.

Lemma marketMatches_filled o w :
  Order_Size (orderAt (heap w) o) = 0%Z -> marketMatches o w = [].
Proof.
  intros Hz. unfold marketMatches.
  apply sweep_filled. unfold IsFilled.
  destruct (Order_Bid (orderAt (heap w) o)); simpl; rewrite Hz; reflexivity.
Qed.

(** C10.  When the trade history is empty and the sweep yields no match (as
    it does for an order of size zero, which passes the volume check as soon
    as the opposite volume is not negative), [PlaceMarketOrder] does not
    return the empty list of matches: it panics on the index -1 of the empty
    trade history.  Whenever it does return, the trade history is not empty
    afterwards. *)
Theorem PlaceMarketOrder_logging_needs_trade (clock : nat -> Z) (o : oid) (w : World) :
  ((Order_Size (orderAt (heap w) o) <= availableVolume o w)%Z ->
   Trades (book w) = [] ->
   marketMatches o w = [] \/ Order_Size (orderAt (heap w) o) = 0%Z ->
   (PlaceMarketOrder clock o w).2 = Panicked (IndexOutOfRange (-1) 0)) /\
  (forall matches,
     (PlaceMarketOrder clock o w).2 = Returned matches ->
     Trades (book (PlaceMarketOrder clock o w).1) ≠ []).
Proof.
  split.
  - intros Hle Ht Hm.
    assert (Hnil : marketMatches o w = []).
    { destruct Hm as [Hm | Hz]; [exact Hm | by apply marketMatches_filled]. }
    unfold PlaceMarketOrder, marketMatches, availableVolume in *.
    destruct (Z.gtb_spec (Order_Size (orderAt (heap w) o))
                (if Order_Bid (orderAt (heap w) o) then AskTotalVolume w else BidTotalVolume w));
      [lia |].
    set (bid := Order_Bid (orderAt (heap w) o)) in *.
    set (w1 := if bid then Asks w else Bids w) in *.
    pose proof (sweep_Trades bid o (Slice_len (opposite bid (book w1))) 0 w1 []) as HT.
    destruct (sweep bid o _ 0 w1 []) as [w2 ms]. simpl in *. subst ms.
    assert (Trades (book w1) = []) as HT1 by (subst w1; destruct bid; exact Ht).
    rewrite HT, HT1. reflexivity.
  - intros matches. unfold PlaceMarketOrder.
    destruct (_ >? _)%Z; [discriminate |].
    destruct (sweep _ o _ 0 _ []) as [w2 ms].
    destruct (Trades (book w2) ++ _) eqn:E; [discriminate |].
    intros _. simpl. discriminate.
Qed.

Lemma PlaceMarketOrder_logging_needs_trade_witness :
  (PlaceMarketOrder zeroClock 0 emptyBookWithZeroBid).2 = Panicked (IndexOutOfRange (-1) 0).
Proof.
  apply (PlaceMarketOrder_logging_needs_trade zeroClock 0 emptyBookWithZeroBid).
  - vm_compute. discriminate.
  - reflexivity.
  - right. reflexivity.
Defined.

(** ** PlaceLimitOrder *)

(** C9.  [PlaceLimitOrder] matches nothing, whatever the price.  With [l] the
    level at [price] on the side of the order - the one the price index
    already has, or else a new one, which is then appended to the side and
    entered in the index - the call appends the order to [l], adds its size
    to the cached volume of [l], points the order at [l] and registers it in
    the id index.  No size changes, the order's own included; every other
    order, every other level, the slice and the index of the opposite side
    and the trade history are exactly as before. *)
Theorem PlaceLimitOrder_rests (price : Z) (o : oid) (w : World) :
  let w' := PlaceLimitOrder price o w in
  let bid := Order_Bid (orderAt (heap w) o) in
  let found := ownLimits bid (book w) !! price in
  exists l : lid,
    ownLimits bid (book w') !! price = Some l /\
    match found with
    | Some l0 =>
        l = l0 /\
        ownSide bid (book w') = ownSide bid (book w) /\
        ownLimits bid (book w') = ownLimits bid (book w) /\
        Limit_Price (limitAt (heap w') l) = Limit_Price (limitAt (heap w) l) /\
        Limit_Orders (limitAt (heap w') l) = Limit_Orders (limitAt (heap w) l) ++ [o] /\
        Limit_TotalVolume (limitAt (heap w') l) =
          (Limit_TotalVolume (limitAt (heap w) l) + Order_Size (orderAt (heap w) o))%Z
    | None =>
        l = next_limit (heap w) /\
        ownSide bid (book w') = appendSlice (ownSide bid (book w)) l /\
        ownLimits bid (book w') = <[price := l]> (ownLimits bid (book w)) /\
        limitAt (heap w') l = mkLimit price [o] (Order_Size (orderAt (heap w) o))
    end /\
    Orders (book w') = <[Order_ID (orderAt (heap w) o) := o]> (Orders (book w)) /\
    orderAt (heap w') o = Order_withLimit (orderAt (heap w) o) (Some l) /\
    (forall o', o' ≠ o -> orderAt (heap w') o' = orderAt (heap w) o') /\
    (forall l', l' ≠ l -> limitAt (heap w') l' = limitAt (heap w) l') /\
    ownSide (negb bid) (book w') = ownSide (negb bid) (book w) /\
    ownLimits (negb bid) (book w') = ownLimits (negb bid) (book w) /\
    Trades (book w') = Trades (book w).
Proof.
  intros w' bid found. subst w'. unfold PlaceLimitOrder.
  fold bid. unfold ownLimits in found.
  assert (Hfound : (if bid then BidLimits (book w) !! price else AskLimits (book w) !! price)
                   = found) by (subst found; destruct bid; reflexivity).
  rewrite Hfound. clearbody found bid.
  destruct found as [l0 |].
  - exists l0. unfold AddOrder, ownLimits, ownSide. simpl.
    destruct bid; simpl in *; store;
      (split; [exact Hfound |]);
      (split; [repeat split; reflexivity |]);
      (split; [reflexivity |]);
      (split; [reflexivity |]);
      (split; [intros o' Ho'; store; reflexivity |]);
      (split; [intros l' Hl'; store; reflexivity |]);
      repeat split; reflexivity.
  - exists (next_limit (heap w)). unfold AddOrder, NewLimit, ownLimits, ownSide. simpl.
    assert (Hl : forall h' : Heap,
               limitAt (mkHeap (order_at h')
                          (<[next_limit (heap w) := mkLimit price [] 0]> (limit_at h'))
                          (next_order h') (S (next_limit (heap w)))) (next_limit (heap w))
               = mkLimit price [] 0).
    { intros h'. unfold limitAt. simpl. by rewrite lookup_insert_eq. }
    assert (Hl' : forall (h' : Heap) l', l' ≠ next_limit (heap w) ->
               limitAt (mkHeap (order_at h')
                          (<[next_limit (heap w) := mkLimit price [] 0]> (limit_at h'))
                          (next_order h') (S (next_limit (heap w)))) l'
               = limitAt h' l').
    { intros h' l' Hne. unfold limitAt. simpl. by rewrite lookup_insert_ne. }
    destruct bid; simpl in *; store; rewrite ?Hl;
      (split; [by rewrite lookup_insert_eq |]);
      (split; [repeat split; reflexivity |]);
      (split; [reflexivity |]);
      (split; [reflexivity |]);
      (split; [intros o' Ho'; store; reflexivity |]);
      (split; [intros l' Hl2; store; rewrite Hl' by done; reflexivity |]);
      repeat split; reflexivity.
Qed.

(** A bid above the resting ask is not matched: both orders rest with their
    whole size and no trade is recorded. *)
Lemma crossing_limit_rests :
  let w := run crossingOps in
  Trades (book w) = [] /\
  AskTotalVolume w = 5%Z /\ BidTotalVolume w = 5%Z /\
  map (fun a => Order_Size (orderAt (heap w) a)) [0; 1] = [5; 5]%Z.
Proof. vm_compute. repeat split; reflexivity. Qed.

(** ** sort.Sort: an ordered permutation *)

Section SortFacts.
Context {A : Type} (less : A -> A -> bool) (key : A -> Z).
Hypothesis less_key : forall x y, less x y = (key x <? key y)%Z.

Lemma insertSorted_perm x l : insertSorted less x l ≡ₚ x :: l.
Proof.
  induction l as [| y l IH]; simpl; [done |].
  destruct (less y x); [| done].
  rewrite IH. apply perm_swap.
Qed.

Lemma sortBy_perm l : sortBy less l ≡ₚ l.
Proof.
  induction l as [| x l IH]; simpl; [done |].
  by rewrite insertSorted_perm, IH.
Qed.

Lemma insertSorted_sorted x l :
  StronglySorted (keyLe key) l -> StronglySorted (keyLe key) (insertSorted less x l).
Proof.
  induction 1 as [| y l Hs IH Hall]; simpl.
  - constructor; constructor.
  - rewrite less_key. destruct (Z.ltb_spec (key y) (key x)) as [Hlt | Hge].
    + constructor; [exact IH |].
      rewrite insertSorted_perm. constructor; [unfold keyLe; lia | exact Hall].
    + constructor; [by constructor |].
      constructor; [exact Hge |].
      eapply Forall_impl; [exact Hall |]. unfold keyLe. intros; simpl in *; lia.
Qed.

Lemma sortBy_sorted l : StronglySorted (keyLe key) (sortBy less l).
Proof.
  induction l as [| x l IH]; simpl; [constructor | by apply insertSorted_sorted].
Qed.

Lemma sortBy_id l : StronglySorted (keyLe key) l -> sortBy less l = l.
Proof.
  induction 1 as [| x l Hs IH Hall]; simpl; [done |].
  rewrite IH. destruct l as [| y l]; simpl; [done |].
  rewrite less_key. apply Forall_cons in Hall as [Hxy _]. unfold keyLe in Hxy.
  destruct (Z.ltb_spec (key y) (key x)); [lia | done].
Qed.
End SortFacts.

(** ** The removal loop *)

Lemma removeLoop_absent x steps : forall i a m,
  m <= length a ->
  (forall j, i <= j < m -> a !! j ≠ Some x) ->
  removeLoop x steps i a m = (a, m).
Proof.
  induction steps as [| steps IH]; intros i a m Hm Habs; simpl; [done |].
  destruct (Nat.ltb_spec i m) as [Hlt | Hge]; [| done].
  destruct (Nat.eqb_spec (a !!! i) x) as [Heq | Hne].
  - exfalso. apply (Habs i); [lia |].
    rewrite <- Heq. apply list_lookup_lookup_total_lt. lia.
  - apply IH; [done |]. intros j Hj. apply Habs. lia.
Qed.

Lemma removeLoop_found x steps : forall i a m p,
  m <= length a ->
  i <= p < m ->
  a !! p = Some x ->
  (forall j, i <= j < m -> j ≠ p -> a !! j ≠ Some x) ->
  p - i < steps ->
  removeLoop x steps i a m = (<[p := a !!! (m - 1)]> a, m - 1).
Proof.
  induction steps as [| steps IH]; intros i a m p Hm Hp Hx Huniq Hsteps; simpl; [lia |].
  destruct (Nat.ltb_spec i m) as [Hlt | Hge]; [| lia].
  destruct (Nat.eqb_spec (a !!! i) x) as [Heq | Hne].
  - assert (i = p) as ->.
    { destruct (decide (i = p)) as [| Hip]; [done |]. exfalso.
      apply (Huniq i); [lia | done |].
      rewrite <- Heq. apply list_lookup_lookup_total_lt. lia. }
    apply removeLoop_absent.
    + rewrite length_insert. lia.
    + intros j Hj. rewrite list_lookup_insert_ne by lia. apply Huniq; lia.
  - assert (i ≠ p) as Hip.
    { intros ->. apply Hne. by apply list_lookup_total_correct. }
    apply IH; [done | lia | done | | lia].
    intros j Hj. apply Huniq. lia.
Qed.

(** The number of steps given to the loop is enough: more steps change
    nothing, so the loop ends because [i] reaches the length. *)
Lemma removeLoop_steps x steps : forall i a m extra,
  m - i <= steps ->
  removeLoop x (steps + extra) i a m = removeLoop x steps i a m.
Proof.
  induction steps as [| steps IH]; intros i a m extra Hs; simpl.
  - destruct extra; simpl; [done |].
    destruct (Nat.ltb_spec i m); [lia | done].
  - destruct (i <? m); [| done].
    destruct (_ =? _); apply IH; lia.
Qed.

Lemma swap_last_perm (t : list nat) p x :
  NoDup t -> t !! p = Some x ->
  t ≡ₚ x :: take (length t - 1) (<[p := t !!! (length t - 1)]> t).
Proof.
  intros Hnd Hp.
  assert (Hlt : p < length t) by (by eapply lookup_lt_Some).
  destruct (decide (p = length t - 1)) as [-> | Hne].
  - rewrite take_insert_ge by lia.
    rewrite <- (take_drop (length t - 1) t) at 1.
    rewrite (drop_S t x (length t - 1)) by done.
    rewrite drop_ge by lia. by rewrite <- Permutation_cons_append.
  - rewrite take_insert_lt by lia.
    assert (Hlast : t !! (length t - 1) = Some (t !!! (length t - 1))).
    { apply list_lookup_lookup_total_lt. lia. }
    set (y := t !!! (length t - 1)) in *.
    set (r := take (length t - 1) t).
    assert (Ht : t = r ++ [y]).
    { subst r. rewrite <- (take_drop (length t - 1) t) at 1.
      rewrite (drop_S t y (length t - 1)) by done. by rewrite drop_ge by lia. }
    assert (Hr : r !! p = Some x).
    { subst r. rewrite lookup_take_lt by lia. done. }
    assert (Hlen : length (take p r) = p).
    { rewrite length_take. apply lookup_lt_Some in Hr. lia. }
    assert (Hins : <[p := y]> r = take p r ++ y :: drop (S p) r).
    { rewrite <- (take_drop_middle r p x Hr) at 1.
      rewrite insert_app_r_alt by lia. rewrite Hlen, Nat.sub_diag. done. }
    rewrite Hins, Ht. rewrite <- (take_drop_middle r p x Hr) at 1.
    rewrite <- Permutation_cons_append.
    rewrite <- !Permutation_middle. apply perm_swap.
Qed.

(** Removing an element that occurs once in the slice: the slice loses
    exactly that element, and the array is only written where it stood. *)
Lemma removeLoop_present x a m :
  m <= length a -> NoDup (take m a) -> x ∈ take m a ->
  exists p, p < m /\ a !! p = Some x /\
    removeLoop x m 0 a m = (<[p := a !!! (m - 1)]> a, m - 1) /\
    take m a ≡ₚ x :: take (m - 1) (<[p := a !!! (m - 1)]> a).
Proof.
  intros Hm Hnd Hin.
  apply list_elem_of_lookup in Hin as [p Hp].
  assert (Hpm : p < m).
  { apply lookup_lt_Some in Hp. rewrite length_take in Hp. lia. }
  assert (Hap : a !! p = Some x) by (by rewrite lookup_take_lt in Hp).
  exists p. split; [done |]. split; [done |]. split.
  - apply removeLoop_found; try done; try lia.
    intros j Hj Hjp Hax. apply Hjp.
    eapply NoDup_lookup; [exact Hnd | |]; rewrite lookup_take_lt by lia; done.
  - pose proof (swap_last_perm (take m a) p x Hnd Hp) as H.
    rewrite length_take, Nat.min_l in H by lia.
    rewrite H at 1. constructor.
    assert (Hv : take m a !!! (m - 1) = a !!! (m - 1)).
    { rewrite !list_lookup_total_alt, lookup_take_lt by lia. done. }
    rewrite Hv. destruct (decide (p < m - 1)).
    + rewrite !take_insert_lt by lia. rewrite take_take, Nat.min_l by lia. done.
    + rewrite !take_insert_ge by lia. rewrite take_take, Nat.min_l by lia. done.
Qed.

Lemma removeLoop_missing x a m :
  m <= length a -> x ∉ take m a -> removeLoop x m 0 a m = (a, m).
Proof.
  intros Hm Hnin. apply removeLoop_absent; [done |].
  intros j Hj Hx. apply Hnin. apply list_elem_of_lookup. exists j.
  rewrite lookup_take_lt by lia. done.
Qed.

(** ** DeleteOrder *)

Lemma lessTimestamp_key h x y : lessTimestamp h x y = (timestamp h x <? timestamp h y)%Z.
Proof. reflexivity. Qed.

Lemma DeleteOrder_unfold l x h :
  let os := Limit_Orders (limitAt h l) in
  let r := removeLoop x (length os) 0 os (length os) in
  let h2 := storeOrder h x (Order_withLimit (orderAt h x) None) in
  DeleteOrder l x h =
    storeLimit h2 l
      (mkLimit (Limit_Price (limitAt h l))
               (sortBy (lessTimestamp h2) (take r.2 r.1))
               (Limit_TotalVolume (limitAt h l) - Order_Size (orderAt h x))).
Proof.
  intros os r h2. unfold DeleteOrder. fold os. subst r.
  destruct (removeLoop x (length os) 0 os (length os)) as [a n]. simpl.
  unfold Limit_withOrders, Limit_withTotalVolume. store.
  unfold storeLimit, storeOrder. simpl. rewrite !insert_insert_eq. reflexivity.
Qed.

Lemma DeleteOrder_other_orders l x h a :
  a ≠ x -> orderAt (DeleteOrder l x h) a = orderAt h a.
Proof. intros Hne. rewrite DeleteOrder_unfold. simpl. store. reflexivity. Qed.

Lemma DeleteOrder_order l x h :
  orderAt (DeleteOrder l x h) x = Order_withLimit (orderAt h x) None.
Proof. rewrite DeleteOrder_unfold. simpl. store. reflexivity. Qed.

Lemma DeleteOrder_size l x h a :
  Order_Size (orderAt (DeleteOrder l x h) a) = Order_Size (orderAt h a).
Proof.
  destruct (decide (a = x)) as [-> | Hne].
  - rewrite DeleteOrder_order. reflexivity.
  - by rewrite DeleteOrder_other_orders.
Qed.

Lemma DeleteOrder_timestamp l x h a :
  timestamp (DeleteOrder l x h) a = timestamp h a.
Proof.
  unfold timestamp. destruct (decide (a = x)) as [-> | Hne].
  - rewrite DeleteOrder_order. reflexivity.
  - by rewrite DeleteOrder_other_orders.
Qed.

Lemma DeleteOrder_bid l x h a :
  Order_Bid (orderAt (DeleteOrder l x h) a) = Order_Bid (orderAt h a).
Proof.
  destruct (decide (a = x)) as [-> | Hne].
  - rewrite DeleteOrder_order. reflexivity.
  - by rewrite DeleteOrder_other_orders.
Qed.

Lemma DeleteOrder_other_limits l x h l' :
  l' ≠ l -> limitAt (DeleteOrder l x h) l' = limitAt h l'.
Proof. intros Hne. rewrite DeleteOrder_unfold. simpl. store. reflexivity. Qed.

Lemma DeleteOrder_price l x h l' :
  Limit_Price (limitAt (DeleteOrder l x h) l') = Limit_Price (limitAt h l').
Proof.
  destruct (decide (l' = l)) as [-> | Hne].
  - rewrite DeleteOrder_unfold. simpl. store. reflexivity.
  - by rewrite DeleteOrder_other_limits.
Qed.

Lemma DeleteOrder_volume l x h :
  Limit_TotalVolume (limitAt (DeleteOrder l x h) l) =
    (Limit_TotalVolume (limitAt h l) - Order_Size (orderAt h x))%Z.
Proof. rewrite DeleteOrder_unfold. simpl. store. reflexivity. Qed.

Lemma DeleteOrder_next l x h :
  next_order (DeleteOrder l x h) = next_order h /\
  next_limit (DeleteOrder l x h) = next_limit h.
Proof. rewrite DeleteOrder_unfold. simpl. done. Qed.

Lemma DeleteOrder_sorted l x h :
  oldestFirst (DeleteOrder l x h) (Limit_Orders (limitAt (DeleteOrder l x h) l)).
Proof.
  unfold oldestFirst.
  assert (Hk : keyLe (timestamp (DeleteOrder l x h))
               = keyLe (timestamp (storeOrder h x (Order_withLimit (orderAt h x) None)))).
  { rewrite DeleteOrder_unfold. reflexivity. }
  rewrite Hk. rewrite DeleteOrder_unfold. simpl. store.
  apply sortBy_sorted. apply lessTimestamp_key.
Qed.

Lemma DeleteOrder_present l x h :
  NoDup (Limit_Orders (limitAt h l)) ->
  x ∈ Limit_Orders (limitAt h l) ->
  Limit_Orders (limitAt h l) ≡ₚ x :: Limit_Orders (limitAt (DeleteOrder l x h) l).
Proof.
  intros Hnd Hin. rewrite DeleteOrder_unfold. simpl. store.
  revert Hnd Hin. generalize (Limit_Orders (limitAt h l)). intros os Hnd Hin.
  assert (Hos : take (length os) os = os) by (by rewrite take_ge).
  assert (Hnd' : NoDup (take (length os) os)) by (by rewrite Hos).
  assert (Hin' : x ∈ take (length os) os) by (by rewrite Hos).
  destruct (removeLoop_present x os (length os) (le_n _) Hnd' Hin')
    as (p & _ & _ & Hr & Hperm).
  rewrite Hr. simpl. rewrite sortBy_perm. by rewrite Hos in Hperm.
Qed.

Lemma DeleteOrder_absent l x h :
  x ∉ Limit_Orders (limitAt h l) ->
  Limit_Orders (limitAt (DeleteOrder l x h) l) ≡ₚ Limit_Orders (limitAt h l).
Proof.
  intros Hnin. rewrite DeleteOrder_unfold. simpl. store.
  revert Hnin. generalize (Limit_Orders (limitAt h l)). intros os Hnin.
  rewrite removeLoop_missing; [| done | by rewrite take_ge].
  simpl. rewrite sortBy_perm. by rewrite take_ge.
Qed.

(** ** The first loop of Fill *)

Lemma fillLoop_cons l o order rest h ms del :
  fillLoop l o (order :: rest) h ms del =
    if IsFilled h o then (h, ms, del)
    else fillLoop l o rest (fillStep l order o h) (ms ++ [(fillOrder l order o h).2])
           (if IsFilled (fillStep l order o h) order then del ++ [order] else del).
Proof.
  simpl. destruct (IsFilled h o); [done |].
  unfold fillStep. destruct (fillOrder l order o h) as [h1 m]. reflexivity.
Qed.

Lemma fillLoop_filled l o os h ms del :
  IsFilled h o = true -> fillLoop l o os h ms del = (h, ms, del).
Proof. intros Hf. destruct os; simpl; [done |]. by rewrite Hf. Qed.

Lemma fillStep_other l order o h a :
  a ≠ order -> a ≠ o -> orderAt (fillStep l order o h) a = orderAt h a.
Proof. intros. unfold fillStep. store. by apply fillOrder_other. Qed.

Lemma fillStep_other_limits l order o h l' :
  l' ≠ l -> limitAt (fillStep l order o h) l' = limitAt h l'.
Proof. intros. unfold fillStep. store. apply fillOrder_limits. Qed.

Lemma fillStep_limit l order o h :
  limitAt (fillStep l order o h) l =
    Limit_withTotalVolume (limitAt h l)
      (Limit_TotalVolume (limitAt h l) - Match_SizeFilled (fillOrder l order o h).2).
Proof. unfold fillStep. store. by rewrite fillOrder_limits. Qed.

Lemma fillStep_next l order o h :
  next_order (fillStep l order o h) = next_order h /\
  next_limit (fillStep l order o h) = next_limit h.
Proof.
  unfold fillStep, fillOrder.
  destruct (Order_Bid (orderAt h order)); destruct (_ >=? _)%Z; done.
Qed.

(** What one step does to the two orders it pairs. *)
Lemma fillStep_sizes l order o h :
  order ≠ o ->
  let s := Order_Size (orderAt h order) in
  let r := Order_Size (orderAt h o) in
  let f := if (s >=? r)%Z then r else s in
  Match_SizeFilled (fillOrder l order o h).2 = f /\
  orderAt (fillStep l order o h) order = Order_withSize (orderAt h order) (s - f) /\
  orderAt (fillStep l order o h) o = Order_withSize (orderAt h o) (r - f).
Proof.
  intros Hne s r f. unfold fillStep. store. by apply fillOrder_sizes.
Qed.

Lemma fillStep_resting l order o h :
  order ≠ o -> resting o (fillOrder l order o h).2 = order.
Proof.
  intros Hne. unfold resting, fillOrder.
  destruct (Order_Bid (orderAt h order)); destruct (_ >=? _)%Z; simpl.
  - destruct (Nat.eqb_spec order o); done.
  - destruct (Nat.eqb_spec order o); done.
  - by rewrite Nat.eqb_refl.
  - by rewrite Nat.eqb_refl.
Qed.

(** A step that leaves the incoming order unfilled has exhausted the
    resident. *)
Lemma fillStep_exhausts l order o h :
  order ≠ o ->
  IsFilled (fillStep l order o h) o = false ->
  Order_Size (orderAt (fillStep l order o h) order) = 0%Z.
Proof.
  intros Hne. unfold IsFilled.
  destruct (fillStep_sizes l order o h Hne) as (_ & Hs & Hr).
  rewrite Hs, Hr. simpl. destruct (_ >=? _)%Z; [| lia].
  rewrite Z.sub_diag. discriminate.
Qed.

Lemma fillLoop_frame l o : forall os h ms del a,
  a ∉ os -> a ≠ o ->
  orderAt (fillLoop l o os h ms del).1.1 a = orderAt h a.
Proof.
  induction os as [| order rest IH]; intros h ms del a Hnin Hne; [done |].
  rewrite fillLoop_cons. destruct (IsFilled h o); [done |].
  apply not_elem_of_cons in Hnin as [Hao Hrest].
  rewrite IH by done. by apply fillStep_other.
Qed.

Lemma fillLoop_trace l o : forall os h ms del,
  o ∉ os -> NoDup os ->
  exists ms',
    (fillLoop l o os h ms del).1.2 = ms ++ ms' /\
    map (resting o) ms' = take (length ms') os /\
    (forall i a, os !! i = Some a -> S i < length ms' ->
       Order_Size (orderAt (fillLoop l o os h ms del).1.1 a) = 0%Z) /\
    (forall a, a ∈ drop (length ms') os ->
       orderAt (fillLoop l o os h ms del).1.1 a = orderAt h a).
Proof.
  induction os as [| order rest IH]; intros h ms del Ho Hnd.
  - exists []. simpl. rewrite app_nil_r. repeat split; done.
  - rewrite fillLoop_cons.
    apply not_elem_of_cons in Ho as [Hoo Ho].
    apply NoDup_cons in Hnd as [Hord Hnd].
    destruct (IsFilled h o) eqn:Hf.
    { exists []. simpl. rewrite app_nil_r. repeat split; try done. intros; lia. }
    set (h1 := fillStep l order o h).
    set (m := (fillOrder l order o h).2).
    set (del1 := if IsFilled h1 order then del ++ [order] else del).
    destruct (IH h1 (ms ++ [m]) del1 Ho Hnd) as (ms' & Hms & Hres & Hzero & Hrest).
    exists (m :: ms'). rewrite Hms, <- app_assoc. simpl.
    split; [done |]. split; [| split].
    + rewrite Hres. f_equal. subst m. by apply fillStep_resting.
    + intros [| i] a Hi Hlt; simpl in Hi.
      * injection Hi as <-.
        rewrite fillLoop_frame by done.
        apply fillStep_exhausts; [done |].
        destruct (IsFilled h1 o) eqn:Hf1; [| done].
        rewrite (fillLoop_filled _ _ _ _ _ _ Hf1) in Hms. simpl in Hms.
        apply (f_equal length) in Hms. rewrite !length_app in Hms. simpl in *. lia.
      * apply (Hzero i a Hi). lia.
    + intros a Ha. rewrite Hrest by done.
      assert (a ∈ rest) as Har.
      { apply list_elem_of_lookup in Ha as [i Hi]. rewrite lookup_drop in Hi.
        by eapply list_elem_of_lookup_2. }
      apply fillStep_other; intros ->; done.
Qed.

Lemma foldl_DeleteOrder_size l del : forall h a,
  Order_Size (orderAt (foldl (fun h' order => DeleteOrder l order h') h del) a)
  = Order_Size (orderAt h a).
Proof.
  induction del as [| x del IH]; intros h a; simpl; [done |].
  by rewrite IH, DeleteOrder_size.
Qed.

Lemma foldl_DeleteOrder_timestamp l del : forall h a,
  timestamp (foldl (fun h' order => DeleteOrder l order h') h del) a = timestamp h a.
Proof.
  induction del as [| x del IH]; intros h a; simpl; [done |].
  by rewrite IH, DeleteOrder_timestamp.
Qed.

Lemma StronglySorted_take {A} (R : A -> A -> Prop) (l : list A) n :
  StronglySorted R l -> StronglySorted R (take n l).
Proof.
  intros Hs. rewrite <- (take_drop n l) in Hs. by apply StronglySorted_app_1_l in Hs.
Qed.

Lemma filter_all {A} (P : A -> Prop) `{forall x, Decision (P x)} (l : list A) :
  Forall P l -> filter P l = l.
Proof.
  induction 1 as [| x l Hx Hl IH]; [done |].
  rewrite filter_cons_True by done. by rewrite IH.
Qed.

Lemma Fill_unfold l o h :
  Fill l o h =
    (foldl (fun h' order => DeleteOrder l order h')
       (fillLoop l o (Limit_Orders (limitAt h l)) h [] []).1.1
       (fillLoop l o (Limit_Orders (limitAt h l)) h [] []).2,
     (fillLoop l o (Limit_Orders (limitAt h l)) h [] []).1.2).
Proof.
  unfold Fill. by destruct (fillLoop l o _ h [] []) as [[h1 ms] del].
Qed.

(** *** Residents with distinct time stamps *)

Lemma arrivalOrder_oldestFirst h os : arrivalOrder h os -> oldestFirst h os.
Proof.
  unfold arrivalOrder, oldestFirst. induction 1 as [| x l Hs IH Hall]; constructor; [done |].
  eapply Forall_impl; [exact Hall |]. unfold keyLe. intros y Hy. simpl in Hy. lia.
Qed.

Lemma arrivalOrder_same h h' os :
  (forall a, timestamp h' a = timestamp h a) -> arrivalOrder h os -> arrivalOrder h' os.
Proof.
  intros Hts. unfold arrivalOrder. induction 1 as [| x l Hs IH Hall]; constructor; [done |].
  eapply Forall_impl; [exact Hall |]. intros y. by rewrite !Hts.
Qed.

Lemma arrivalOrder_inj h os a b :
  arrivalOrder h os -> a ∈ os -> b ∈ os -> timestamp h a = timestamp h b -> a = b.
Proof.
  unfold arrivalOrder. induction 1 as [| x l Hs IH Hall]; intros Ha Hb E.
  { by apply elem_of_nil in Ha. }
  rewrite Forall_forall in Hall.
  apply elem_of_cons in Ha as [-> | Ha]; apply elem_of_cons in Hb as [-> | Hb].
  - done.
  - specialize (Hall b Hb). simpl in Hall. lia.
  - specialize (Hall a Ha). simpl in Hall. lia.
  - by apply IH.
Qed.

Lemma arrivalOrder_NoDup h os : arrivalOrder h os -> NoDup os.
Proof.
  unfold arrivalOrder. induction 1 as [| x l Hs IH Hall]; constructor; [| done].
  intros Hx. rewrite Forall_forall in Hall. specialize (Hall x Hx). simpl in Hall. lia.
Qed.

Lemma arrivalOrder_filter h (P : oid -> Prop) `{forall a, Decision (P a)} os :
  arrivalOrder h os -> arrivalOrder h (filter P os).
Proof.
  unfold arrivalOrder. induction 1 as [| x l Hs IH Hall]; [constructor |].
  rewrite filter_cons. destruct (decide (P x)); [| done].
  constructor; [done |]. rewrite Forall_forall in Hall. apply Forall_forall.
  intros y Hy. apply Hall. by apply list_elem_of_filter in Hy as [_ ?].
Qed.

(** C3 does not hold of the code as it is stated: the order of a level is
    the order of the time stamps, and two orders can carry the same time
    stamp.  Of three asks placed one after the other at one price, the
    second (address 1) and the third (address 2) with the same time stamp,
    the cancellation of the first leaves the level as [2; 1]: the removal
    has moved the last order to the front and the sort on the time stamps
    leaves the two where they are.  The level is sorted by time stamp, and
    [Fill] for a bid of size 3 matches order 2 alone: the order that arrived
    after order 1 is filled while order 1 keeps its whole size. *)
Lemma Fill_ties_invert_arrival :
  let w := run tieOps in
  let h := (NewOrder true 3 0 64 3 (heap w)).1 in
  let o := (NewOrder true 3 0 64 3 (heap w)).2 in
  Limit_Orders (limitAt (heap (run (take 3 tieOps))) 0) = [0; 1; 2] /\
  Limit_Orders (limitAt h 0) = [2; 1] /\
  map (timestamp h) [2; 1] = [2; 2]%Z /\
  oldestFirst h (Limit_Orders (limitAt h 0)) /\
  (o ∉ Limit_Orders (limitAt h 0)) /\
  map (resting o) (Fill 0 o h).2 = [2] /\
  Order_Size (orderAt (Fill 0 o h).1 2) = 0%Z /\
  Order_Size (orderAt (Fill 0 o h).1 1) = 3%Z /\
  ~ (map (resting o) (Fill 0 o h).2 = take 1 [1; 2]).
Proof.
  cbv zeta.
  split; [vm_compute; reflexivity |]. split; [vm_compute; reflexivity |].
  split; [vm_compute; reflexivity |].
  split; [vm_compute; repeat constructor; vm_compute; discriminate |].
  split; [by_decide |]. split; [vm_compute; reflexivity |].
  split; [vm_compute; reflexivity |]. split; [vm_compute; reflexivity |].
  vm_compute. discriminate.
Qed.

(** C3, amended.  [Fill] on a level whose residents carry pairwise distinct
    time stamps, are held in ascending order of them and do not include the
    incoming order: the matches pair the incoming order with the residents
    in the order of the slice, one match per resident, so in the order of
    their creation; whenever a resident is matched, every resident before it
    has been brought to size zero; the residents after the last match keep
    their size.  [DeleteOrder] of any order leaves exactly the other
    residents, in the order they had. *)
Theorem Fill_time_priority (l : lid) (o : oid) (h : Heap) :
  let os := Limit_Orders (limitAt h l) in
  o ∉ os -> arrivalOrder h os ->
  let h' := (Fill l o h).1 in
  let ms := (Fill l o h).2 in
  map (resting o) ms = take (length ms) os /\
  arrivalOrder h (map (resting o) ms) /\
  (forall i a, os !! i = Some a -> S i < length ms ->
     Order_Size (orderAt h' a) = 0%Z) /\
  (forall a, a ∈ drop (length ms) os ->
     Order_Size (orderAt h' a) = Order_Size (orderAt h a)) /\
  (forall x,
     let h'' := DeleteOrder l x h in
     Limit_Orders (limitAt h'' l) = filter (.≠ x) os /\
     arrivalOrder h'' (Limit_Orders (limitAt h'' l))).
Proof.
  intros os Ho Hsorted h' ms. subst h' ms. rewrite Fill_unfold. simpl.
  pose proof (arrivalOrder_NoDup h os Hsorted) as Hnd.
  destruct (fillLoop_trace l o os h [] [] Ho Hnd) as (ms' & Hms & Hres & Hzero & Hrest).
  fold os. simpl in Hms. rewrite Hms.
  split; [exact Hres |]. split; [| split; [| split]].
  - rewrite Hres. by apply StronglySorted_take.
  - intros i a Hi Hlt. rewrite foldl_DeleteOrder_size. by apply (Hzero i a).
  - intros a Ha. rewrite foldl_DeleteOrder_size. by rewrite Hrest.
  - intros x.
    assert (Hperm : Limit_Orders (limitAt (DeleteOrder l x h) l) ≡ₚ filter (.≠ x) os).
    { destruct (decide (x ∈ os)) as [Hin | Hnin].
      + pose proof (DeleteOrder_present l x h Hnd Hin) as Hp. fold os in Hp.
        assert (Hnd' : NoDup (x :: Limit_Orders (limitAt (DeleteOrder l x h) l))).
        { by rewrite <- Hp. }
        apply NoDup_cons in Hnd' as [Hx _].
        rewrite Hp. rewrite filter_cons_False by (intros Hxx; by apply Hxx).
        rewrite filter_all; [done |].
        apply Forall_forall. intros y Hy ->. done.
      + rewrite DeleteOrder_absent by done. fold os.
        rewrite filter_all; [done |].
        apply Forall_forall. intros y Hy ->. done. }
    assert (Hkept : arrivalOrder (DeleteOrder l x h) (filter (.≠ x) os)).
    { apply (arrivalOrder_same h); [intros a; apply DeleteOrder_timestamp |].
      by apply arrivalOrder_filter. }
    assert (Heq : Limit_Orders (limitAt (DeleteOrder l x h) l) = filter (.≠ x) os).
    { apply (StronglySorted_unique_strong (keyLe (timestamp (DeleteOrder l x h)))).
      - intros a b Ha Hb Hab Hba. unfold keyLe in Hab, Hba.
        rewrite Hperm in Ha.
        apply (arrivalOrder_inj (DeleteOrder l x h) (filter (.≠ x) os)); [done .. |]. lia.
      - apply DeleteOrder_sorted.
      - by apply arrivalOrder_oldestFirst.
      - exact Hperm. }
    split; [exact Heq |]. rewrite Heq. exact Hkept.
Qed.

Lemma Fill_time_priority_witness :
  map (resting 2) (Fill 0 2 twoResidents).2 = [0; 1] /\
  Order_Size (orderAt (Fill 0 2 twoResidents).1 0) = 0%Z /\
  Limit_Orders (limitAt (DeleteOrder 0 0 twoResidents) 0) = [1].
Proof.
  destruct (Fill_time_priority 0 2 twoResidents) as (H1 & _ & H3 & _ & H5).
  - by_decide.
  - vm_compute. repeat constructor; vm_compute; reflexivity.
  - split; [| split].
    + rewrite H1. reflexivity.
    + apply (H3 0 0); [reflexivity |]. vm_compute. lia.
    + rewrite (proj1 (H5 0)). reflexivity.
Defined.

(** ** Sums of sizes *)

Lemma sumSizes_same h h' os :
  (forall a, a ∈ os -> Order_Size (orderAt h' a) = Order_Size (orderAt h a)) ->
  sumSizes h' os = sumSizes h os.
Proof.
  induction os as [| x os IH]; intros Hs; simpl; [done |].
  rewrite Hs by left. rewrite IH; [done |]. intros a Ha. apply Hs. by right.
Qed.

Lemma sumSizes_perm h os os' : os ≡ₚ os' -> sumSizes h os = sumSizes h os'.
Proof.
  induction 1 as [| x l l' _ IH | x y l | l l' l'' _ IH1 _ IH2]; simpl; lia.
Qed.

Lemma sumSizes_change h h' os x d :
  NoDup os -> x ∈ os ->
  Order_Size (orderAt h' x) = (Order_Size (orderAt h x) - d)%Z ->
  (forall a, a ∈ os -> a ≠ x -> Order_Size (orderAt h' a) = Order_Size (orderAt h a)) ->
  sumSizes h' os = (sumSizes h os - d)%Z.
Proof.
  intros Hnd Hin Hx Hrest.
  apply elem_of_Permutation in Hin as [os' Hp].
  rewrite (sumSizes_perm h' _ _ Hp), (sumSizes_perm h _ _ Hp). simpl.
  rewrite Hp in Hnd. apply NoDup_cons in Hnd as [Hx' _].
  rewrite Hx. rewrite (sumSizes_same h h' os'); [lia |].
  intros a Ha. apply Hrest; [rewrite Hp; by right | by intros ->].
Qed.

(** ** The invariant of the store is kept *)

Lemma heapInv_empty : heapInv emptyHeap.
Proof.
  split; try done.
  - intros l. apply NoDup_nil_2.
  - intros l o. split; [by intros H%elem_of_nil | done].
Qed.

Lemma heapInv_not_resident h o l :
  heapInv h -> Order_Limit (orderAt h o) = None -> o ∉ Limit_Orders (limitAt h l).
Proof. intros Hi Hn Hin. apply (inv_back h Hi) in Hin. congruence. Qed.

Lemma heapInv_resident_allocated h o l :
  heapInv h -> o ∈ Limit_Orders (limitAt h l) -> o < next_order h /\ l < next_limit h.
Proof.
  intros Hi Hin. split.
  - destruct (decide (o < next_order h)) as [| Hge]; [done |].
    apply (inv_back h Hi) in Hin. rewrite (inv_fresh_order h Hi) in Hin by lia. done.
  - destruct (decide (l < next_limit h)) as [| Hge]; [done |].
    rewrite (inv_fresh_limit h Hi) in Hin by lia. by apply elem_of_nil in Hin.
Qed.

Lemma NewOrder_orderAt bid size userID id ts h a :
  orderAt (NewOrder bid size userID id ts h).1 a =
    if decide (a = next_order h) then mkOrder id userID size bid None ts else orderAt h a.
Proof.
  unfold NewOrder, orderAt. simpl. destruct (decide (a = next_order h)) as [-> | Hne].
  - by rewrite lookup_insert_eq.
  - by rewrite lookup_insert_ne.
Qed.

Lemma heapInv_NewOrder bid size userID id ts h :
  heapInv h -> heapInv (NewOrder bid size userID id ts h).1.
Proof.
  intros Hi.
  assert (Hfresh : forall l, next_order h ∉ Limit_Orders (limitAt h l)).
  { intros l. apply heapInv_not_resident; [done |].
    by rewrite (inv_fresh_order h Hi). }
  split.
  - intros l. change (limitAt (NewOrder bid size userID id ts h).1 l) with (limitAt h l).
    rewrite (inv_volume h Hi). symmetry. apply sumSizes_same.
    intros a Ha. rewrite NewOrder_orderAt. destruct (decide _) as [-> |]; [| done].
    by apply Hfresh in Ha.
  - intros l. apply (inv_nodup h Hi).
  - intros l o. change (limitAt (NewOrder bid size userID id ts h).1 l) with (limitAt h l).
    rewrite NewOrder_orderAt. destruct (decide _) as [-> |]; [| apply (inv_back h Hi)].
    split; [intros Ha; by apply Hfresh in Ha | done].
  - intros o Ho. simpl in Ho. rewrite NewOrder_orderAt.
    destruct (decide _); [lia |]. apply (inv_fresh_order h Hi). lia.
  - intros l Hl. apply (inv_fresh_limit h Hi l Hl).
Qed.

Lemma NewLimit_limitAt price h l :
  limitAt (NewLimit price h).1 l =
    if decide (l = next_limit h) then mkLimit price [] 0 else limitAt h l.
Proof.
  unfold NewLimit, limitAt. simpl. destruct (decide (l = next_limit h)) as [-> | Hne].
  - by rewrite lookup_insert_eq.
  - by rewrite lookup_insert_ne.
Qed.

Lemma heapInv_NewLimit price h : heapInv h -> heapInv (NewLimit price h).1.
Proof.
  intros Hi.
  assert (Hz : limitAt h (next_limit h) = Limit_zero).
  { by apply (inv_fresh_limit h Hi). }
  split.
  - intros l. rewrite NewLimit_limitAt. destruct (decide _); [done |].
    apply (inv_volume h Hi).
  - intros l. rewrite NewLimit_limitAt. destruct (decide _); [apply NoDup_nil_2 |].
    apply (inv_nodup h Hi).
  - intros l o. rewrite NewLimit_limitAt.
    change (orderAt (NewLimit price h).1 o) with (orderAt h o).
    destruct (decide _) as [-> |]; [| apply (inv_back h Hi)].
    rewrite <- (inv_back h Hi), Hz. done.
  - intros o Ho. apply (inv_fresh_order h Hi o Ho).
  - intros l Hl. simpl in Hl. rewrite NewLimit_limitAt.
    destruct (decide _); [lia |]. apply (inv_fresh_limit h Hi). lia.
Qed.

Lemma AddOrder_orderAt l o h a :
  orderAt (AddOrder l o h) a =
    if decide (a = o) then Order_withLimit (orderAt h o) (Some l) else orderAt h a.
Proof.
  unfold AddOrder. store. destruct (decide (a = o)) as [-> | Hne]; store; done.
Qed.

Lemma AddOrder_limitAt l o h l' :
  limitAt (AddOrder l o h) l' =
    if decide (l' = l)
    then mkLimit (Limit_Price (limitAt h l)) (Limit_Orders (limitAt h l) ++ [o])
                 (Limit_TotalVolume (limitAt h l) + Order_Size (orderAt h o))
    else limitAt h l'.
Proof.
  unfold AddOrder. destruct (decide (l' = l)) as [-> | Hne]; store; [| done].
  reflexivity.
Qed.

Lemma AddOrder_size l o h a :
  Order_Size (orderAt (AddOrder l o h) a) = Order_Size (orderAt h a).
Proof. rewrite AddOrder_orderAt. by destruct (decide _) as [-> |]. Qed.

Lemma AddOrder_next l o h :
  next_order (AddOrder l o h) = next_order h /\
  next_limit (AddOrder l o h) = next_limit h.
Proof. done. Qed.

Lemma heapInv_AddOrder l o h :
  heapInv h -> o < next_order h -> l < next_limit h ->
  Order_Limit (orderAt h o) = None ->
  heapInv (AddOrder l o h).
Proof.
  intros Hi Ho Hl Hnil.
  assert (Hfresh : forall l', o ∉ Limit_Orders (limitAt h l')).
  { intros l'. by apply heapInv_not_resident. }
  split.
  - intros l'. rewrite AddOrder_limitAt. destruct (decide (l' = l)) as [-> | Hne]; simpl.
    + rewrite (sumSizes_perm _ _ (o :: Limit_Orders (limitAt h l)))
        by (by rewrite <- Permutation_cons_append).
      simpl. rewrite AddOrder_size, (inv_volume h Hi).
      rewrite (sumSizes_same h (AddOrder l o h)); [lia |].
      intros; apply AddOrder_size.
    + rewrite (inv_volume h Hi). symmetry. apply sumSizes_same.
      intros; apply AddOrder_size.
  - intros l'. rewrite AddOrder_limitAt. destruct (decide (l' = l)) as [-> | Hne]; simpl.
    + apply NoDup_app. split; [apply (inv_nodup h Hi) |].
      split; [| apply NoDup_singleton].
      intros a Ha Ha'. apply list_elem_of_singleton in Ha' as ->. by apply Hfresh in Ha.
    + apply (inv_nodup h Hi).
  - intros l' a. rewrite AddOrder_limitAt, AddOrder_orderAt.
    destruct (decide (l' = l)) as [-> | Hne]; destruct (decide (a = o)) as [-> | Hne']; simpl.
    + split; [done |]. intros _. apply elem_of_app. right. by apply list_elem_of_singleton.
    + rewrite elem_of_app, list_elem_of_singleton, (inv_back h Hi). intuition.
    + split; [intros Ha; by apply Hfresh in Ha | congruence].
    + apply (inv_back h Hi).
  - intros a Ha. simpl in Ha. rewrite AddOrder_orderAt.
    destruct (decide (a = o)); [lia |]. by apply (inv_fresh_order h Hi).
  - intros l' Hl'. simpl in Hl'. rewrite AddOrder_limitAt.
    destruct (decide (l' = l)); [lia |]. by apply (inv_fresh_limit h Hi).
Qed.

Lemma DeleteOrder_limit_back l x h a :
  Order_Limit (orderAt (DeleteOrder l x h) a) =
    if decide (a = x) then None else Order_Limit (orderAt h a).
Proof.
  destruct (decide (a = x)) as [-> | Hne].
  - by rewrite DeleteOrder_order.
  - by rewrite DeleteOrder_other_orders.
Qed.

Lemma heapInv_DeleteOrder l x h :
  heapInv h -> x ∈ Limit_Orders (limitAt h l) -> heapInv (DeleteOrder l x h).
Proof.
  intros Hi Hin.
  pose proof (DeleteOrder_present l x h (inv_nodup h Hi l) Hin) as Hp.
  assert (Hnd : NoDup (x :: Limit_Orders (limitAt (DeleteOrder l x h) l))).
  { rewrite <- Hp. apply (inv_nodup h Hi). }
  apply NoDup_cons in Hnd as [Hx Hnd].
  destruct (heapInv_resident_allocated h x l Hi Hin) as [Hxa Hla].
  split.
  - intros l'. destruct (decide (l' = l)) as [-> | Hne].
    + rewrite DeleteOrder_volume, (inv_volume h Hi), (sumSizes_perm h _ _ Hp). simpl.
      rewrite (sumSizes_same h (DeleteOrder l x h)); [lia |].
      intros; apply DeleteOrder_size.
    + rewrite DeleteOrder_other_limits by done. rewrite (inv_volume h Hi).
      symmetry. apply sumSizes_same. intros; apply DeleteOrder_size.
  - intros l'. destruct (decide (l' = l)) as [-> | Hne]; [done |].
    rewrite DeleteOrder_other_limits by done. apply (inv_nodup h Hi).
  - intros l' a. rewrite DeleteOrder_limit_back.
    destruct (decide (l' = l)) as [-> | Hne].
    + destruct (decide (a = x)) as [-> | Hne']; [done |].
      rewrite <- (inv_back h Hi), Hp. rewrite elem_of_cons. intuition.
    + rewrite DeleteOrder_other_limits by done.
      destruct (decide (a = x)) as [-> | Hne']; [| apply (inv_back h Hi)].
      split; [| done]. intros Ha.
      apply (inv_back h Hi) in Ha. apply (inv_back h Hi) in Hin. congruence.
  - intros a Ha. rewrite (proj1 (DeleteOrder_next l x h)) in Ha.
    rewrite DeleteOrder_other_orders by lia. by apply (inv_fresh_order h Hi).
  - intros l' Hl'. rewrite (proj2 (DeleteOrder_next l x h)) in Hl'.
    rewrite DeleteOrder_other_limits by lia. by apply (inv_fresh_limit h Hi).
Qed.

(** ** The invariant through Fill *)

Lemma sameButSize_refl x : sameButSize x x.
Proof. done. Qed.

Lemma sameButSize_trans x y z : sameButSize x y -> sameButSize y z -> sameButSize x z.
Proof. unfold sameButSize. congruence. Qed.

Lemma sameButSize_withSize x s : sameButSize (Order_withSize x s) x.
Proof. done. Qed.

Lemma sameButSize_limit x y : sameButSize x y -> Order_Limit x = Order_Limit y.
Proof. unfold sameButSize. intros H. by injection H. Qed.

Lemma sameButSize_bid x y : sameButSize x y -> Order_Bid x = Order_Bid y.
Proof. unfold sameButSize. intros H. by injection H. Qed.

Lemma fillStep_fields l order o h a :
  order ≠ o -> sameButSize (orderAt (fillStep l order o h) a) (orderAt h a).
Proof.
  intros Hne. destruct (fillStep_sizes l order o h Hne) as (_ & Hs & Hr).
  destruct (decide (a = order)) as [-> | Ha]; [rewrite Hs; done |].
  destruct (decide (a = o)) as [-> | Ha']; [rewrite Hr; done |].
  rewrite fillStep_other by done. done.
Qed.

Lemma fillStep_orders l order o h l' :
  Limit_Orders (limitAt (fillStep l order o h) l') = Limit_Orders (limitAt h l').
Proof.
  destruct (decide (l' = l)) as [-> | Hne].
  - by rewrite fillStep_limit.
  - by rewrite fillStep_other_limits.
Qed.

Lemma fillStep_limit_price l order o h l' :
  Limit_Price (limitAt (fillStep l order o h) l') = Limit_Price (limitAt h l').
Proof.
  destruct (decide (l' = l)) as [-> | Hne].
  - by rewrite fillStep_limit.
  - by rewrite fillStep_other_limits.
Qed.

Lemma heapInv_fillStep l order o h :
  heapInv h -> order ∈ Limit_Orders (limitAt h l) ->
  Order_Limit (orderAt h o) = None -> o < next_order h ->
  heapInv (fillStep l order o h).
Proof.
  intros Hi Hin Hnil Ho.
  assert (Hfresh : forall l', o ∉ Limit_Orders (limitAt h l')).
  { intros l'. by apply heapInv_not_resident. }
  assert (Hne : order ≠ o) by (intros ->; by apply Hfresh in Hin).
  destruct (heapInv_resident_allocated h order l Hi Hin) as [Horda Hla].
  destruct (fillStep_sizes l order o h Hne) as (Hf & Hs & Hr).
  split.
  - intros l'. rewrite fillStep_orders. destruct (decide (l' = l)) as [-> | Hl'].
    + rewrite fillStep_limit. simpl. rewrite Hf, (inv_volume h Hi).
      symmetry. apply sumSizes_change with (x := order);
        [apply (inv_nodup h Hi) | done | by rewrite Hs |].
      intros a Ha Hao. rewrite fillStep_other; [done | done |].
      intros ->. by apply Hfresh in Ha.
    + rewrite fillStep_other_limits by done. rewrite (inv_volume h Hi).
      symmetry. apply sumSizes_same. intros a Ha.
      rewrite fillStep_other; [done | |].
      * intros ->. apply (inv_back h Hi) in Ha. apply (inv_back h Hi) in Hin. congruence.
      * intros ->. by apply Hfresh in Ha.
  - intros l'. rewrite fillStep_orders. apply (inv_nodup h Hi).
  - intros l' a. rewrite fillStep_orders.
    rewrite (sameButSize_limit _ _ (fillStep_fields l order o h a Hne)).
    apply (inv_back h Hi).
  - intros a Ha. rewrite (proj1 (fillStep_next l order o h)) in Ha.
    rewrite fillStep_other by lia. by apply (inv_fresh_order h Hi).
  - intros l' Hl'. rewrite (proj2 (fillStep_next l order o h)) in Hl'.
    rewrite fillStep_other_limits by lia. by apply (inv_fresh_limit h Hi).
Qed.

Lemma IsFilled_true h o : IsFilled h o = true <-> Order_Size (orderAt h o) = 0%Z.
Proof. unfold IsFilled. apply Z.eqb_eq. Qed.

Lemma IsFilled_false h o : IsFilled h o = false <-> Order_Size (orderAt h o) ≠ 0%Z.
Proof. unfold IsFilled. apply Z.eqb_neq. Qed.

Lemma fillPost_nil l o h : heapInv h -> fillPost l o [] h h [] [].
Proof.
  intros Hi.
  split; try done; simpl; try lia; try apply NoDup_nil_2;
    try (intros a Ha; by apply elem_of_nil in Ha);
    try (intros Hpos a Ha _; by apply Hpos).
Qed.

Lemma fillPost_stop l o os h :
  heapInv h -> IsFilled h o = true -> fillPost l o os h h [] [].
Proof.
  intros Hi Hf. apply IsFilled_true in Hf.
  split; try done; simpl; try lia; try apply NoDup_nil_2;
    try (intros a Ha; by apply elem_of_nil in Ha);
    try (intros Hpos a Ha _; by apply Hpos).
Qed.

Lemma fillLoop_spec l o : forall os h ms0 del0,
  heapInv h -> Order_Limit (orderAt h o) = None -> o < next_order h ->
  NoDup os -> (forall a, a ∈ os -> a ∈ Limit_Orders (limitAt h l)) ->
  exists h1 ms del,
    fillLoop l o os h ms0 del0 = (h1, ms0 ++ ms, del0 ++ del) /\
    fillPost l o os h h1 ms del.
Proof.
  induction os as [| order rest IH]; intros h ms0 del0 Hi Hnil Ho Hnd Hsub.
  { exists h, [], []. simpl. rewrite !app_nil_r. split; [done | by apply fillPost_nil]. }
  rewrite fillLoop_cons. destruct (IsFilled h o) eqn:Hf.
  { exists h, [], []. rewrite !app_nil_r. split; [done | by apply fillPost_stop]. }
  apply NoDup_cons in Hnd as [Hord Hnd].
  assert (Hin : order ∈ Limit_Orders (limitAt h l)) by (apply Hsub; left).
  assert (Hne : order ≠ o).
  { intros ->. by apply (heapInv_not_resident h o l Hi Hnil). }
  set (h2 := fillStep l order o h).
  set (m := (fillOrder l order o h).2).
  destruct (fillStep_sizes l order o h Hne) as (Hmf & Hs & Hr).
  fold h2 in Hs, Hr. fold m in Hmf.
  assert (Hi2 : heapInv h2) by (by apply heapInv_fillStep).
  assert (Hnil2 : Order_Limit (orderAt h2 o) = None).
  { subst h2. rewrite (sameButSize_limit _ _ (fillStep_fields l order o h o Hne)). done. }
  assert (Ho2 : o < next_order h2).
  { subst h2. by rewrite (proj1 (fillStep_next l order o h)). }
  assert (Hsub2 : forall a, a ∈ rest -> a ∈ Limit_Orders (limitAt h2 l)).
  { intros a Ha. subst h2. rewrite fillStep_orders. apply Hsub. by right. }
  assert (Hrest2 : forall a, a ∈ rest -> orderAt h2 a = orderAt h a).
  { intros a Ha. apply fillStep_other; [by intros -> |].
    intros ->. apply (heapInv_not_resident h o l Hi Hnil). apply Hsub. by right. }
  assert (Hs2 : (0 <= Order_Size (orderAt h2 order))%Z).
  { rewrite Hs. simpl. destruct (_ >=? _)%Z eqn:E; lia. }
  assert (Hr2 : (0 <= Order_Size (orderAt h2 o))%Z).
  { rewrite Hr. simpl. destruct (_ >=? _)%Z eqn:E; lia. }
  set (d := if IsFilled h2 order then [order] else []).
  destruct (IH h2 (ms0 ++ [m]) (if IsFilled h2 order then del0 ++ [order] else del0)
              Hi2 Hnil2 Ho2 Hnd Hsub2) as (h1 & ms & del & Heq & Hpost).
  exists h1, (m :: ms), (d ++ del). split.
  { rewrite Heq. f_equal; [f_equal; by rewrite <- app_assoc |].
    subst d. destruct (IsFilled h2 order); [by rewrite <- app_assoc | done]. }
  destruct Hpost.
  assert (Hord1 : orderAt h1 order = orderAt h2 order) by (by apply fp_frame0).
  split.
  - done.
  - intros l'. rewrite fp_orders0. apply fillStep_orders.
  - intros l'. rewrite fp_price0. apply fillStep_limit_price.
  - intros l' Hl'. rewrite fp_limits0 by done. by apply fillStep_other_limits.
  - rewrite fp_volume0. subst h2. rewrite fillStep_limit. simpl. fold m. lia.
  - intros a. eapply sameButSize_trans; [apply fp_fields0 |]. by apply fillStep_fields.
  - intros a Ha Hao. apply not_elem_of_cons in Ha as [Ha1 Ha2].
    rewrite fp_frame0 by done. by apply fillStep_other.
  - rewrite fp_next_order0. apply fillStep_next.
  - rewrite fp_next_limit0. apply fillStep_next.
  - constructor; [apply fillOrder_price |].
    eapply Forall_impl; [exact fp_prices0 |]. simpl. intros x ->.
    apply fillStep_limit_price.
  - rewrite fp_incoming0, Hr. simpl. rewrite Hmf. lia.
  - intros _. by apply fp_nonneg0.
  - apply NoDup_app. split; [subst d; destruct (IsFilled h2 order);
                              [apply NoDup_singleton | apply NoDup_nil_2] |].
    split; [| done]. intros a Ha Ha'. apply fp_del_sub0 in Ha'.
    subst d. destruct (IsFilled h2 order); [| by apply elem_of_nil in Ha].
    apply list_elem_of_singleton in Ha as ->. done.
  - intros a Ha. apply elem_of_app in Ha as [Ha | Ha]; [| right; by apply fp_del_sub0].
    subst d. destruct (IsFilled h2 order); [| by apply elem_of_nil in Ha].
    apply list_elem_of_singleton in Ha as ->. left.
  - intros a Ha. apply elem_of_app in Ha as [Ha | Ha]; [| by apply fp_del_zero0].
    subst d. destruct (IsFilled h2 order) eqn:E; [| by apply elem_of_nil in Ha].
    apply list_elem_of_singleton in Ha as ->. rewrite Hord1. by apply IsFilled_true.
  - intros Hpos a Ha Hdel. apply not_elem_of_app in Hdel as [Hd Hdel].
    apply elem_of_cons in Ha as [-> | Ha].
    + rewrite Hord1. subst d. destruct (IsFilled h2 order) eqn:E.
      * exfalso. apply Hd. by apply list_elem_of_singleton.
      * apply IsFilled_false in E. lia.
    + apply fp_positive0; [| done | done].
      intros b Hb. rewrite Hrest2 by done. apply Hpos. by right.
  - intros Hne1 a Ha.
    assert (Hf2 : IsFilled h2 o = false).
    { destruct (IsFilled h2 o) eqn:E; [| done]. apply IsFilled_true in E.
      destruct (fp_idle0 E) as (-> & _ & _). done. }
    apply elem_of_app. apply elem_of_cons in Ha as [-> | Ha].
    + left. subst d.
      pose proof (fillStep_exhausts l order o h Hne Hf2) as Hz.
      apply IsFilled_true in Hz. fold h2 in Hz. rewrite Hz. by apply list_elem_of_singleton.
    + right. by apply fp_exhaust0.
  - intros Hz. apply IsFilled_false in Hf. done.
Qed.

Lemma deletions_spec l : forall del h,
  heapInv h -> NoDup del ->
  (forall a, a ∈ del -> a ∈ Limit_Orders (limitAt h l)) ->
  let h' := foldl (fun h' order => DeleteOrder l order h') h del in
  heapInv h' /\
  Limit_Orders (limitAt h l) ≡ₚ del ++ Limit_Orders (limitAt h' l) /\
  (forall l', l' ≠ l -> limitAt h' l' = limitAt h l') /\
  (forall l', Limit_Price (limitAt h' l') = Limit_Price (limitAt h l')) /\
  Limit_TotalVolume (limitAt h' l) = (Limit_TotalVolume (limitAt h l) - sumSizes h del)%Z /\
  (forall a, a ∉ del -> orderAt h' a = orderAt h a) /\
  (forall a, Order_Bid (orderAt h' a) = Order_Bid (orderAt h a)) /\
  next_order h' = next_order h /\ next_limit h' = next_limit h.
Proof.
  induction del as [| x del IH]; intros h Hi Hnd Hsub; simpl.
  { split; [exact Hi |]. repeat split; try done. lia. }
  apply NoDup_cons in Hnd as [Hx Hnd].
  assert (Hin : x ∈ Limit_Orders (limitAt h l)) by (apply Hsub; left).
  pose proof (DeleteOrder_present l x h (inv_nodup h Hi l) Hin) as Hp.
  assert (Hsub1 : forall a, a ∈ del -> a ∈ Limit_Orders (limitAt (DeleteOrder l x h) l)).
  { intros a Ha. assert (a ∈ Limit_Orders (limitAt h l)) as Ha' by (apply Hsub; by right).
    rewrite Hp in Ha'. apply elem_of_cons in Ha' as [-> | Ha']; done. }
  destruct (IH (DeleteOrder l x h) (heapInv_DeleteOrder l x h Hi Hin) Hnd Hsub1)
    as (H1 & H2 & H3 & H4 & H5 & H6 & H7 & H8 & H9).
  split; [exact H1 |]. split; [by rewrite Hp, H2 |].
  split; [intros l' Hl'; rewrite H3 by done; by apply DeleteOrder_other_limits |].
  split; [intros l'; rewrite H4; apply DeleteOrder_price |].
  split.
  { rewrite H5, DeleteOrder_volume.
    rewrite (sumSizes_same h (DeleteOrder l x h) del); [lia |].
    intros; apply DeleteOrder_size. }
  split.
  { intros a Ha. apply not_elem_of_cons in Ha as [Ha1 Ha2].
    rewrite H6 by done. by apply DeleteOrder_other_orders. }
  split; [intros a; rewrite H7; apply DeleteOrder_bid |].
  split; [rewrite H8 | rewrite H9]; apply DeleteOrder_next.
Qed.

Lemma sumSizes_zero h os :
  (forall a, a ∈ os -> Order_Size (orderAt h a) = 0%Z) -> sumSizes h os = 0%Z.
Proof.
  induction os as [| x os IH]; intros Hz; simpl; [done |].
  rewrite Hz by left. rewrite IH; [done |]. intros a Ha. apply Hz. by right.
Qed.

Lemma Fill_spec l o h :
  heapInv h -> Order_Limit (orderAt h o) = None -> o < next_order h ->
  filled l o h (Fill l o h).1 (Fill l o h).2.
Proof.
  intros Hi Hnil Ho.
  destruct (fillLoop_spec l o (Limit_Orders (limitAt h l)) h [] [] Hi Hnil Ho
              (inv_nodup h Hi l) (fun a Ha => Ha)) as (h1 & ms & del & Heq & Hpost).
  rewrite Fill_unfold, Heq. simpl. destruct Hpost.
  assert (Hsub : forall a, a ∈ del -> a ∈ Limit_Orders (limitAt h1 l)).
  { intros a Ha. rewrite fp_orders0. by apply fp_del_sub0. }
  destruct (deletions_spec l del h1 fp_inv0 fp_del_nodup0 Hsub)
    as (H1 & H2 & H3 & H4 & H5 & H6 & H7 & H8 & H9).
  set (h' := foldl (fun h' order => DeleteOrder l order h') h1 del) in *.
  assert (Hsize : forall a, Order_Size (orderAt h' a) = Order_Size (orderAt h1 a)).
  { intros a. apply foldl_DeleteOrder_size. }
  assert (Ho_del : o ∉ del).
  { intros Hd. apply fp_del_sub0 in Hd. by apply (heapInv_not_resident h o l Hi Hnil). }
  assert (Hnd' : NoDup (del ++ Limit_Orders (limitAt h' l))).
  { rewrite <- H2. apply (inv_nodup h1 fp_inv0). }
  apply NoDup_app in Hnd' as (_ & Hdisj & _).
  assert (Hsub' : forall a, a ∈ Limit_Orders (limitAt h' l) ->
                            a ∈ Limit_Orders (limitAt h l) /\ a ∉ del).
  { intros a Ha. split.
    - rewrite <- fp_orders0, H2. apply elem_of_app. by right.
    - intros Hd. by apply (Hdisj a Hd). }
  split.
  - exact H1.
  - rewrite H6 by done. rewrite (sameButSize_limit _ _ (fp_fields0 o)). done.
  - by rewrite H8.
  - by rewrite H9.
  - intros l' Hl'. rewrite H3 by done. by apply fp_limits0.
  - intros l'. by rewrite H4.
  - done.
  - by rewrite Hsize.
  - rewrite H5, fp_volume0, sumSizes_zero; [lia | done].
  - rewrite Hsize. done.
  - intros a Ha Hao. rewrite H6; [by apply fp_frame0 |].
    intros Hd. apply Ha. by apply fp_del_sub0.
  - intros a. rewrite H7. apply (sameButSize_bid _ _ (fp_fields0 a)).
  - intros a Ha. by apply Hsub'.
  - intros Hpos a Ha. rewrite Hsize. destruct (Hsub' a Ha). by apply fp_positive0.
  - rewrite Hsize. intros Hne.
    destruct (Limit_Orders (limitAt h' l)) as [| a rest] eqn:E; [done |].
    exfalso. destruct (Hsub' a) as [Ha Hd]; [left |]. apply Hd. by apply fp_exhaust0.
  - intros Hz. destruct (fp_idle0 Hz) as (-> & -> & ->). done.
Qed.

(** ** The invariant of the store through the operations of the book *)

Lemma clearLimit_ownLimits b bid l w :
  ownLimits b (book (clearLimit bid l w)) =
    if bool_decide (b = bid)
    then delete (Limit_Price (limitAt (heap w) l)) (ownLimits b (book w))
    else ownLimits b (book w).
Proof.
  unfold clearLimit. destruct bid, b; destruct (removeLoop _ _ _ _ _); reflexivity.
Qed.

Lemma clearLimit_Orders bid l w : Orders (book (clearLimit bid l w)) = Orders (book w).
Proof.
  unfold clearLimit. destruct bid; destruct (removeLoop _ _ _ _ _); reflexivity.
Qed.

Lemma worldInv_clearLimit bid l w : worldInv w -> worldInv (clearLimit bid l w).
Proof.
  intros [Hi Hx]. split; [by rewrite clearLimit_heap |].
  intros b p l'. rewrite clearLimit_heap, clearLimit_ownLimits.
  destruct (bool_decide (b = bid)); [| apply Hx].
  intros Hd. apply lookup_delete_Some in Hd as [_ Hd]. by apply (Hx b p).
Qed.

Lemma worldInv_sweep bid o count : forall k w ms,
  worldInv w -> Order_Limit (orderAt (heap w) o) = None -> o < next_order (heap w) ->
  worldInv (sweep bid o count k w ms).1.
Proof.
  induction count as [| count IH]; intros k w ms Hw Hnil Ho; simpl; [done |].
  destruct Hw as [Hi Hx].
  set (limit := Slice_array (opposite bid (book w)) !!! k).
  pose proof (Fill_spec limit o (heap w) Hi Hnil Ho) as Hf.
  destruct (Fill limit o (heap w)) as [h1 lms]. simpl in Hf. destruct Hf.
  assert (Hw1 : worldInv (mkWorld h1 (book w))).
  { split; [done |]. intros b p l' Hl'. simpl in *. rewrite fl_next_limit0.
    by apply (Hx b p). }
  destruct (_ =? _)%nat.
  - apply IH.
    + by apply worldInv_clearLimit.
    + by rewrite clearLimit_heap.
    + rewrite clearLimit_heap. simpl. by rewrite fl_next_order0.
  - apply IH; [done | done |]. simpl. by rewrite fl_next_order0.
Qed.

Lemma worldInv_PlaceMarketOrder clock o w :
  worldInv w -> Order_Limit (orderAt (heap w) o) = None -> o < next_order (heap w) ->
  worldInv (PlaceMarketOrder clock o w).1.
Proof.
  intros Hw Hnil Ho. unfold PlaceMarketOrder.
  destruct (_ >? _)%Z; [done |].
  set (bid := Order_Bid (orderAt (heap w) o)).
  set (w1 := if bid then Asks w else Bids w).
  assert (Hw1 : worldInv w1) by (subst w1; destruct bid; exact Hw).
  assert (Hh1 : heap w1 = heap w) by (subst w1; by destruct bid).
  pose proof (worldInv_sweep bid o (Slice_len (opposite bid (book w1))) 0 w1 [] Hw1) as Hs.
  rewrite Hh1 in Hs. specialize (Hs Hnil Ho).
  destruct (sweep bid o _ 0 w1 []) as [w2 ms]. simpl in Hs.
  destruct (Trades (book w2) ++ _); exact Hs.
Qed.

Lemma worldInv_PlaceLimitOrder price o w :
  worldInv w -> Order_Limit (orderAt (heap w) o) = None -> o < next_order (heap w) ->
  worldInv (PlaceLimitOrder price o w).
Proof.
  intros [Hi Hx] Hnil Ho. unfold PlaceLimitOrder.
  set (bid := Order_Bid (orderAt (heap w) o)).
  assert (Hfound : (if bid then BidLimits (book w) !! price else AskLimits (book w) !! price)
                   = ownLimits bid (book w) !! price) by (by destruct bid).
  rewrite Hfound. destruct (ownLimits bid (book w) !! price) as [l |] eqn:E.
  - split; simpl.
    + apply heapInv_AddOrder; try done. by apply (Hx bid price).
    + intros b p l'. apply (Hx b p l').
  - pose proof (heapInv_NewLimit price (heap w) Hi) as Hi'.
    assert (Hadd : heapInv (AddOrder (next_limit (heap w)) o (NewLimit price (heap w)).1)).
    { apply heapInv_AddOrder; try done. simpl. lia. }
    assert (Hold : forall b p l', ownLimits b (book w) !! p = Some l' ->
                     l' < S (next_limit (heap w))).
    { intros b p l' Hl. apply Hx in Hl. lia. }
    destruct bid; (split; simpl; [exact Hadd |]); intros b p l' Hl; destruct b; simpl in Hl; simpl.
    + apply lookup_insert_Some in Hl as [[_ <-] | [_ Hl]]; [lia | exact (Hold true p l' Hl)].
    + exact (Hold false p l' Hl).
    + exact (Hold true p l' Hl).
    + apply lookup_insert_Some in Hl as [[_ <-] | [_ Hl]]; [lia | exact (Hold false p l' Hl)].
Qed.

Lemma worldInv_CancelOrder o w : worldInv w -> worldInv (CancelOrder o w).1.
Proof.
  intros [Hi Hx]. unfold CancelOrder.
  destruct (Order_Limit (orderAt (heap w) o)) as [l |] eqn:E; [| done].
  assert (Hin : o ∈ Limit_Orders (limitAt (heap w) l)) by (by apply (inv_back _ Hi)).
  assert (Hw1 : worldInv
            (mkWorld (DeleteOrder l o (heap w))
               (mkOrderbook (asks (book w)) (bids (book w)) (Trades (book w))
                  (AskLimits (book w)) (BidLimits (book w))
                  (delete (Order_ID (orderAt (DeleteOrder l o (heap w)) o))
                     (Orders (book w)))))).
  { split; simpl; [by apply heapInv_DeleteOrder |].
    intros b p l' Hl. unfold indexed in Hx. simpl.
    rewrite (proj2 (DeleteOrder_next l o (heap w))).
    destruct b; [exact (Hx true p l' Hl) | exact (Hx false p l' Hl)]. }
  destruct (_ =? _)%nat; simpl; [by apply worldInv_clearLimit | done].
Qed.

Lemma worldInv_new : worldInv newWorld.
Proof. split; [apply heapInv_empty |]. intros b p l. by destruct b. Qed.

Lemma worldInv_NewOrder bid size userID id ts w :
  worldInv w ->
  let w' := mkWorld (NewOrder bid size userID id ts (heap w)).1 (book w) in
  let o := (NewOrder bid size userID id ts (heap w)).2 in
  worldInv w' /\ Order_Limit (orderAt (heap w') o) = None /\ o < next_order (heap w').
Proof.
  intros [Hi Hx]. cbv zeta. cbn [heap book]. split; [split |]; [| | split].
  - by apply heapInv_NewOrder.
  - intros b p l. apply (Hx b p l).
  - rewrite NewOrder_orderAt. destruct (decide _) as [| Hne]; [done |].
    exfalso. apply Hne. reflexivity.
  - simpl. lia.
Qed.

Lemma worldInv_step w x : worldInv w -> worldInv (step w x).
Proof.
  intros Hw. destruct x as [price bid size userID id ts | clock bid size userID id ts | o]; simpl.
  - destruct (worldInv_NewOrder bid size userID id ts w Hw) as (Hw' & Hnil & Ho).
    unfold placeNewLimit. simpl. by apply worldInv_PlaceLimitOrder.
  - destruct (worldInv_NewOrder bid size userID id ts w Hw) as (Hw' & Hnil & Ho).
    unfold placeNewMarket. simpl.
    pose proof (worldInv_PlaceMarketOrder clock _ _ Hw' Hnil Ho) as H.
    destruct (PlaceMarketOrder clock _ _). exact H.
  - by apply worldInv_CancelOrder.
Qed.

Lemma worldInv_foldl ops : forall w, worldInv w -> worldInv (foldl step w ops).
Proof.
  induction ops as [| x ops IH]; intros w Hw; simpl; [done |].
  apply IH. by apply worldInv_step.
Qed.

Lemma worldInv_run ops : worldInv (run ops).
Proof. apply worldInv_foldl, worldInv_new. Qed.

Lemma totalVolume_resident h s :
  heapInv h -> totalVolume h s = residentVolume h s.
Proof.
  intros Hi. unfold totalVolume, residentVolume.
  assert (Hgen : forall ls acc,
             foldl (fun total l => (total + Limit_TotalVolume (limitAt h l))%Z) acc ls
             = (acc + foldr (fun l a => (sumSizes h (Limit_Orders (limitAt h l)) + a)%Z)
                        0%Z ls)%Z).
  { induction ls as [| l ls IH]; intros acc; simpl; [lia |].
    rewrite IH, (inv_volume h Hi). lia. }
  rewrite Hgen. lia.
Qed.

(** C2 does not hold of the code as it is stated: the volumes are float64
    sums, kept up to date by additions and subtractions that round.  With a
    bid of size 2^53 and a bid of size 1 at one price, the cached volume of
    the level is 2^53 (2^53 + 1 is not a float64), and the cancellation of
    the first bid leaves the cached volume and the total of the side at 0
    while the resident bid has size 1.  With asks of sizes 0.1 and 0.2 at
    one price and a market bid of size 0.3, the cached volume and the total
    of the side end at 5.55e-17 while the resident ask has 2.78e-17. *)
Lemma volume_conservation_rounding :
  (let w := Float64.run largeBidOps in
   Float64.Limit_Orders (Float64.limitAt (Float64.heap w) 0) = [1] /\
   view (Float64.bids (Float64.book w)) = [0] /\
   Float64.Order_Size (Float64.orderAt (Float64.heap w) 1) = 1%float /\
   Float64.residentVolume (Float64.heap w) (Float64.bids (Float64.book w)) = 1%float /\
   Float64.Limit_TotalVolume (Float64.limitAt (Float64.heap w) 0) = 0%float /\
   Float64.BidTotalVolume w = 0%float /\
   PrimFloat.eqb (Float64.BidTotalVolume w)
     (Float64.residentVolume (Float64.heap w) (Float64.bids (Float64.book w))) = false) /\
  (let w := Float64.run decimalAskOps in
   Float64.Limit_Orders (Float64.limitAt (Float64.heap w) 0) = [1] /\
   view (Float64.asks (Float64.book w)) = [0] /\
   PrimFloat.eqb (Float64.Limit_TotalVolume (Float64.limitAt (Float64.heap w) 0))
     (Float64.sumSizes (Float64.heap w)
        (Float64.Limit_Orders (Float64.limitAt (Float64.heap w) 0))) = false /\
   PrimFloat.eqb (Float64.AskTotalVolume w)
     (Float64.residentVolume (Float64.heap w) (Float64.asks (Float64.book w))) = false /\
   PrimFloat.ltb
     (Float64.residentVolume (Float64.heap w) (Float64.asks (Float64.book w)))
     (Float64.AskTotalVolume w) = true).
Proof. vm_compute. repeat split. Qed.

(** C2, amended.  When the sizes of the orders are whole numbers whose
    absolute values add up to at most 2^53, on which the float64 sums and
    differences of the code are exact: after any sequence of operations from
    a new book, the total volume reported for a side is the sum of the
    remaining sizes of the orders resident in the levels of that side, and
    the cached volume of every level is the sum of the sizes of its
    residents. *)
Theorem volume_conservation (ops : list op) :
  exactSizes ops ->
  let w := run ops in
  BidTotalVolume w = residentVolume (heap w) (bids (book w)) /\
  AskTotalVolume w = residentVolume (heap w) (asks (book w)) /\
  forall l, Limit_TotalVolume (limitAt (heap w) l)
            = sumSizes (heap w) (Limit_Orders (limitAt (heap w) l)).
Proof.
  intros _ w. destruct (worldInv_run ops) as [Hi _]. fold w in Hi.
  split; [by apply totalVolume_resident |].
  split; [by apply totalVolume_resident |].
  apply (inv_volume _ Hi).
Qed.

Lemma volume_conservation_witness :
  let w := run queueOps in
  BidTotalVolume w = residentVolume (heap w) (bids (book w)) /\
  AskTotalVolume w = residentVolume (heap w) (asks (book w)) /\
  forall l, Limit_TotalVolume (limitAt (heap w) l)
            = sumSizes (heap w) (Limit_Orders (limitAt (heap w) l)).
Proof.
  apply (volume_conservation queueOps).
  vm_compute. discriminate.
Defined.

(** ** clearLimit *)

Lemma opposite_ownSide bid ob : opposite bid ob = ownSide (negb bid) ob.
Proof. by destruct bid. Qed.

Lemma sides_disjoint w b l :
  sideInv b w -> sideInv (negb b) w ->
  l ∈ view (ownSide b (book w)) -> l ∉ view (ownSide (negb b) (book w)).
Proof.
  intros Hs Hs' Hin Hin'.
  destruct (Limit_Orders (limitAt (heap w) l)) as [| a rest] eqn:E.
  - by apply (si_nonempty b w Hs l Hin).
  - assert (Ha : a ∈ Limit_Orders (limitAt (heap w) l)) by (rewrite E; left).
    destruct (si_residents b w Hs l a Hin Ha) as [H1 _].
    destruct (si_residents _ w Hs' l a Hin' Ha) as [H2 _].
    destruct b; simpl in *; congruence.
Qed.

Lemma clearLimit_ownSide_other b l w :
  ownSide (negb b) (book (clearLimit b l w)) = ownSide (negb b) (book w).
Proof.
  unfold clearLimit. destruct b; destruct (removeLoop _ _ _ _ _); reflexivity.
Qed.

Lemma clearLimit_ownSide b l w :
  ownSide b (book (clearLimit b l w)) =
    mkSlice
      (removeLoop l (Slice_len (ownSide b (book w))) 0
         (Slice_array (ownSide b (book w))) (Slice_len (ownSide b (book w)))).1
      (removeLoop l (Slice_len (ownSide b (book w))) 0
         (Slice_array (ownSide b (book w))) (Slice_len (ownSide b (book w)))).2.
Proof.
  unfold clearLimit. destruct b; simpl; destruct (removeLoop _ _ _ _ _); reflexivity.
Qed.

(** Clearing a level that is in the slice of its side: the slice loses that
    level, the array keeps its length and is only written at a place of the
    slice where the level stood, and the price of the level leaves the
    index. *)
Lemma clearLimit_spec b l w :
  sideInv b w -> l ∈ view (ownSide b (book w)) ->
  let s := ownSide b (book w) in
  let s' := ownSide b (book (clearLimit b l w)) in
  view s ≡ₚ l :: view s' /\
  Slice_len s' = Slice_len s - 1 /\
  length (Slice_array s') = length (Slice_array s) /\
  (forall j, Slice_array s' !! j ≠ Slice_array s !! j ->
             j < Slice_len s /\ Slice_array s !! j = Some l).
Proof.
  intros Hs Hin s s'. subst s'. rewrite clearLimit_ownSide. fold s.
  destruct (removeLoop_present l (Slice_array s) (Slice_len s)
              (si_len b w Hs) (si_nodup b w Hs) Hin) as (p & Hp & Hap & Hr & Hperm).
  rewrite Hr. simpl. split; [exact Hperm |]. split; [done |].
  split; [by rewrite length_insert |].
  intros j Hj. destruct (decide (j = p)) as [-> | Hne]; [done |].
  rewrite list_lookup_insert_ne in Hj by done. done.
Qed.

Lemma sideInv_clearLimit b l w :
  sideInv b w -> l ∈ view (ownSide b (book w)) -> sideInv b (clearLimit b l w).
Proof.
  intros Hs Hin.
  destruct (clearLimit_spec b l w Hs Hin) as (Hperm & Hlen & Harr & _).
  assert (Hnd : NoDup (l :: view (ownSide b (book (clearLimit b l w))))).
  { rewrite <- Hperm. apply (si_nodup b w Hs). }
  apply NoDup_cons in Hnd as [Hl Hnd].
  assert (Hsub : forall l', l' ∈ view (ownSide b (book (clearLimit b l w))) ->
                            l' ∈ view (ownSide b (book w)) /\ l' ≠ l).
  { intros l' Hl'. split; [rewrite Hperm; by right | by intros ->]. }
  split.
  - rewrite Hlen, Harr. pose proof (si_len b w Hs). lia.
  - exact Hnd.
  - intros l' Hl'. rewrite clearLimit_heap. apply (si_nonempty b w Hs). by apply Hsub.
  - intros l' a Hl'. rewrite clearLimit_heap. apply (si_residents b w Hs). by apply Hsub.
  - intros p l'. rewrite clearLimit_heap, clearLimit_ownLimits.
    rewrite bool_decide_eq_true_2 by done.
    rewrite lookup_delete_Some, (si_index b w Hs). split.
    + intros (Hp & Hl' & Hprice). split; [| done].
      rewrite Hperm in Hl'. apply elem_of_cons in Hl' as [-> | Hl']; [congruence | done].
    + intros (Hl' & Hprice). destruct (Hsub l' Hl') as [Hv Hne].
      split; [| done]. intros Hp. apply Hne.
      assert (ownLimits b (book w) !! p = Some l') as H1.
      { apply (si_index b w Hs). done. }
      assert (ownLimits b (book w) !! p = Some l) as H2.
      { apply (si_index b w Hs). done. }
      congruence.
Qed.

Lemma sideInv_clearLimit_other b l w :
  sideInv (negb b) w -> sideInv (negb b) (clearLimit b l w).
Proof.
  intros Hs.
  assert (Hm : ownLimits (negb b) (book (clearLimit b l w)) = ownLimits (negb b) (book w)).
  { rewrite clearLimit_ownLimits. rewrite bool_decide_eq_false_2; [done |]. by destruct b. }
  destruct Hs. split; rewrite ?clearLimit_ownSide_other, ?clearLimit_heap, ?Hm; done.
Qed.

(** ** The invariant of the book: frame and one step of the sweep *)

Lemma sideInv_frame b w w' :
  sideInv b w ->
  ownSide b (book w') = ownSide b (book w) ->
  ownLimits b (book w') = ownLimits b (book w) ->
  (forall l, l ∈ view (ownSide b (book w)) ->
     limitAt (heap w') l = limitAt (heap w) l /\
     forall a, a ∈ Limit_Orders (limitAt (heap w) l) ->
               orderAt (heap w') a = orderAt (heap w) a) ->
  sideInv b w'.
Proof.
  intros Hs Hside Hmap Hsame. destruct Hs. split; rewrite ?Hside, ?Hmap.
  - done.
  - done.
  - intros l Hl. rewrite (proj1 (Hsame l Hl)). by apply si_nonempty0.
  - intros l a Hl. destruct (Hsame l Hl) as [H1 H2]. rewrite H1. intros Ha.
    rewrite (H2 a Ha). by apply (si_residents0 l a).
  - intros p l. rewrite si_index0. split; intros [Hl Hp]; (split; [done |]).
    + by rewrite (proj1 (Hsame l Hl)).
    + by rewrite <- (proj1 (Hsame l Hl)).
Qed.

Lemma clearLimit_book b l h h1 bk :
  Limit_Price (limitAt h1 l) = Limit_Price (limitAt h l) ->
  book (clearLimit b l (mkWorld h1 bk)) = book (clearLimit b l (mkWorld h bk)).
Proof.
  intros Hp. unfold clearLimit. simpl. rewrite Hp.
  destruct b; destruct (removeLoop _ _ _ _ _); reflexivity.
Qed.

Lemma resident_elsewhere h l l' a :
  heapInv h -> a ∈ Limit_Orders (limitAt h l') -> l' ≠ l ->
  a ∉ Limit_Orders (limitAt h l).
Proof.
  intros Hi Ha Hne Ha'. apply (inv_back h Hi) in Ha, Ha'. congruence.
Qed.

Lemma sweep_step_spec bid o limit w :
  bookInv w -> Order_Limit (orderAt (heap w) o) = None -> o < next_order (heap w) ->
  limit ∈ view (opposite bid (book w)) ->
  let h1 := (Fill limit o (heap w)).1 in
  let w1 := mkWorld h1 (book w) in
  let cleared := (length (Limit_Orders (limitAt h1 limit)) =? 0)%nat in
  let w2 := if cleared then clearLimit (negb bid) limit w1 else w1 in
  bookInv w2 /\ heap w2 = h1 /\ Trades (book w2) = Trades (book w) /\
  filled limit o (heap w) h1 (Fill limit o (heap w)).2 /\
  if cleared
  then book w2 = book (clearLimit (negb bid) limit w)
  else book w2 = book w.
Proof.
  intros Hb Hnil Ho Hin h1 w1 cleared w2.
  destruct Hb as [[Hi Hx] Hside Hlisted].
  rewrite opposite_ownSide in Hin. set (b := negb bid) in *.
  pose proof (Fill_spec limit o (heap w) Hi Hnil Ho) as Hf. fold h1 in Hf.
  pose proof Hf as Hf'. destruct Hf'.
  assert (Hother : forall l a, l ≠ limit -> a ∈ Limit_Orders (limitAt (heap w) l) ->
                     orderAt h1 a = orderAt (heap w) a).
  { intros l a Hl Ha. apply fl_frame0.
    - by apply (resident_elsewhere (heap w) limit l a).
    - intros ->. by apply (heapInv_not_resident (heap w) o l Hi Hnil). }
  assert (Hw1 : worldInv w1).
  { split; [done |]. intros b' p l' Hl'. simpl in *. rewrite fl_next_limit0.
    by apply (Hx b' p). }
  assert (Hside1 : sideInv (negb b) w1).
  { apply (sideInv_frame (negb b) w w1 (Hside (negb b))); [done | done |].
    intros l Hl. simpl.
    assert (l ≠ limit) as Hne.
    { intros ->. by apply (sides_disjoint w b limit (Hside b) (Hside (negb b))). }
    split; [by apply fl_limits0 |]. intros a Ha. by apply (Hother l a). }
  assert (Hprice : Limit_Price (limitAt h1 limit) = Limit_Price (limitAt (heap w) limit)).
  { apply fl_price0. }
  assert (Hw2h : heap w2 = h1).
  { subst w2. destruct cleared; [by rewrite clearLimit_heap | done]. }
  assert (Hw2t : Trades (book w2) = Trades (book w)).
  { subst w2. destruct cleared; [by rewrite clearLimit_Trades | done]. }
  split; [| split; [done | split; [done | split; [done |]]]].
  2: { subst w2. destruct cleared; [| done]. subst w1. by apply clearLimit_book. }
  subst w2 cleared. destruct (Nat.eqb_spec (length (Limit_Orders (limitAt h1 limit))) 0) as [He | Hne].
  - (* the level is exhausted and cleared *)
    apply length_zero_iff_nil in He.
    pose proof (sideInv_clearLimit b limit w (Hside b) Hin) as Hsc.
    destruct (clearLimit_spec b limit w (Hside b) Hin) as (Hperm & _).
    assert (Hbook : book (clearLimit b limit w1) = book (clearLimit b limit w)).
    { subst w1. by apply clearLimit_book. }
    assert (Hnd : NoDup (limit :: view (ownSide b (book (clearLimit b limit w))))).
    { rewrite <- Hperm. apply (si_nodup b w (Hside b)). }
    apply NoDup_cons in Hnd as [Hlim _].
    split.
    + by apply worldInv_clearLimit.
    + intros b'. destruct (decide (b' = b)) as [-> | Hb'].
      * apply (sideInv_frame b (clearLimit b limit w)); [done | by rewrite Hbook .. |].
        intros l Hl. rewrite !clearLimit_heap. simpl.
        assert (l ≠ limit) as Hne by (by intros ->).
        split; [by apply fl_limits0 |]. intros a Ha. by apply (Hother l a).
      * assert (b' = negb b) as -> by (destruct b', b; done).
        by apply sideInv_clearLimit_other.
    + intros l Hl. rewrite clearLimit_heap in Hl. simpl in Hl.
      assert (l ≠ limit) as Hne by (intros ->; by rewrite He in Hl).
      rewrite fl_limits0 in Hl by done.
      destruct (Hlisted l Hl) as [b' Hb'].
      exists b'. rewrite Hbook. destruct (decide (b' = b)) as [-> | Hbb].
      * rewrite Hperm in Hb'. apply elem_of_cons in Hb' as [-> | Hb']; done.
      * assert (b' = negb b) as -> by (destruct b', b; done).
        by rewrite clearLimit_ownSide_other.
  - (* the level keeps residents *)
    assert (Hne' : Limit_Orders (limitAt h1 limit) ≠ []).
    { intros E. by rewrite E in Hne. }
    split.
    + done.
    + intros b'. destruct (decide (b' = b)) as [-> | Hb'].
      * destruct (Hside b). split; simpl; try done.
        -- intros l Hl. destruct (decide (l = limit)) as [-> | Hl']; [done |].
           rewrite fl_limits0 by done. by apply si_nonempty0.
        -- intros l a Hl. destruct (decide (l = limit)) as [-> | Hl'].
           ++ intros Ha. rewrite fl_bid0. split.
              ** apply (si_residents0 limit a Hl). by apply fl_sub0.
              ** apply fl_positive0; [| done]. intros a' Ha'.
                 by apply (si_residents0 limit a' Hl).
           ++ rewrite fl_limits0 by done. intros Ha.
              rewrite (Hother l a) by done. by apply (si_residents0 l a).
        -- intros p l. rewrite fl_price0. apply si_index0.
      * assert (b' = negb b) as -> by (destruct b', b; done). done.
    + intros l Hl. simpl in *. destruct (decide (l = limit)) as [-> | Hl'].
      * by exists b.
      * rewrite fl_limits0 in Hl by done. by apply Hlisted.
Qed.

(** ** The sweep *)

Lemma sumFilled_app ms ms' : sumFilled (ms ++ ms') = (sumFilled ms + sumFilled ms')%Z.
Proof. induction ms as [| m ms IH]; simpl; [done |]. rewrite IH. lia. Qed.

Lemma sumSizes_nonneg h os :
  (forall a, a ∈ os -> (0 < Order_Size (orderAt h a))%Z) -> (0 <= sumSizes h os)%Z.
Proof.
  induction os as [| x os IH]; intros Hp; simpl; [done |].
  assert (0 < Order_Size (orderAt h x))%Z by (apply Hp; left).
  assert (0 <= sumSizes h os)%Z by (apply IH; intros a Ha; apply Hp; by right). lia.
Qed.

Lemma volumeOf_nonneg h ls :
  (forall l, l ∈ ls -> (0 <= Limit_TotalVolume (limitAt h l))%Z) -> (0 <= volumeOf h ls)%Z.
Proof.
  induction ls as [| x ls IH]; intros Hp; simpl; [done |].
  assert (0 <= Limit_TotalVolume (limitAt h x))%Z by (apply Hp; left).
  assert (0 <= volumeOf h ls)%Z by (apply IH; intros a Ha; apply Hp; by right). lia.
Qed.

Lemma volumeOf_same h h' ls :
  (forall l, l ∈ ls -> limitAt h' l = limitAt h l) -> volumeOf h' ls = volumeOf h ls.
Proof.
  induction ls as [| x ls IH]; intros Hs; simpl; [done |].
  rewrite Hs by left. rewrite IH; [done |]. intros a Ha. apply Hs. by right.
Qed.

Lemma volumeOf_perm h ls ls' : ls ≡ₚ ls' -> volumeOf h ls = volumeOf h ls'.
Proof.
  induction 1 as [| x l l' _ IH | x y l | l l' l'' _ IH1 _ IH2]; simpl; lia.
Qed.

Lemma level_volume_nonneg b w l :
  bookInv w -> l ∈ view (ownSide b (book w)) ->
  (0 <= Limit_TotalVolume (limitAt (heap w) l))%Z.
Proof.
  intros [[Hi _] Hside _] Hl. rewrite (inv_volume _ Hi).
  apply sumSizes_nonneg. intros a Ha. by apply (si_residents b w (Hside b) l a).
Qed.

Lemma StronglySorted_constant {A} (key : A -> Z) (c : Z) (l : list A) :
  Forall (fun x => key x = c) l -> StronglySorted (keyLe key) l.
Proof.
  induction 1 as [| x l Hx Hl IH]; constructor; [done |].
  eapply Forall_impl; [exact Hl |]. unfold keyLe. simpl. intros; lia.
Qed.

Section Sweep.
Variables (bid : bool) (o : oid) (lv : list lid) (h0 : Heap).
Hypothesis lv_nodup : NoDup lv.
Hypothesis lv_sorted : StronglySorted (keyLe (sweepKey bid h0)) lv.

Lemma lv_split k lk :
  lv !! k = Some lk -> drop k lv = lk :: drop (S k) lv /\ lk ∉ drop (S k) lv.
Proof.
  intros Hk. pose proof (drop_S lv lk k Hk) as Hd. split; [done |].
  assert (Hnd : NoDup (drop k lv)).
  { eapply sublist_NoDup; [exact lv_nodup | apply sublist_drop]. }
  rewrite Hd in Hnd. by apply NoDup_cons in Hnd as [? _].
Qed.

Lemma lv_ahead_key k lk l :
  lv !! k = Some lk -> l ∈ drop k lv -> (sweepKey bid h0 lk <= sweepKey bid h0 l)%Z.
Proof.
  intros Hk Hl. destruct (lv_split k lk Hk) as [Hd _]. rewrite Hd in Hl.
  apply elem_of_cons in Hl as [-> | Hl]; [lia |].
  assert (Hs : StronglySorted (keyLe (sweepKey bid h0)) (drop k lv)).
  { rewrite <- (take_drop k lv) in lv_sorted. by apply StronglySorted_app_1_r in lv_sorted. }
  rewrite Hd in Hs. apply StronglySorted_cons in Hs as [Hall _].
  rewrite Forall_forall in Hall. by apply Hall.
Qed.

(** The level the sweep visits at step [k]. *)
Lemma sweep_visits k w lk :
  sweepBase bid o lv h0 k w -> lv !! k = Some lk ->
  Slice_array (opposite bid (book w)) !!! k = lk /\
  lk ∈ view (opposite bid (book w)).
Proof.
  intros Hb Hk. destruct Hb. split.
  - apply list_lookup_total_correct. rewrite sw_pristine0; [done | lia |].
    by eapply lookup_lt_Some.
  - apply sw_ahead0. destruct (lv_split k lk Hk) as [-> _]. left.
Qed.

Lemma sweepBase_step k w lk :
  sweepBase bid o lv h0 k w -> lv !! k = Some lk ->
  let h1 := (Fill lk o (heap w)).1 in
  let w1 := mkWorld h1 (book w) in
  let w2 := if (length (Limit_Orders (limitAt h1 lk)) =? 0)%nat
            then clearLimit (negb bid) lk w1 else w1 in
  sweepBase bid o lv h0 (S k) w2.
Proof.
  intros Hb Hk h1 w1 w2. destruct (sweep_visits k w lk Hb Hk) as [_ Hin].
  destruct Hb.
  destruct (sweep_step_spec bid o lk w sw_book0 sw_nil0 sw_alloc0 Hin)
    as (Hbook & Hheap & _ & Hf & Hcase).
  fold h1 w1 w2 in Hbook, Hheap, Hf, Hcase. destruct Hf.
  destruct (lv_split k lk Hk) as [Hd Hlk].
  assert (Hin' : lk ∈ view (ownSide (negb bid) (book w))) by (by rewrite <- opposite_ownSide).
  pose proof (clearLimit_spec (negb bid) lk w (bi_side w sw_book0 (negb bid)) Hin')
    as (Hperm & _ & _ & Hwrites).
  rewrite <- !opposite_ownSide in Hperm, Hwrites.
  split.
  - done.
  - by rewrite Hheap.
  - by rewrite Hheap, fl_next_order0.
  - intros j Hj Hlt. destruct (_ =? _)%nat; rewrite Hcase; [| apply sw_pristine0; lia].
    destruct (decide (Slice_array (opposite bid (book (clearLimit (negb bid) lk w))) !! j
                      = Slice_array (opposite bid (book w)) !! j)) as [-> | Hw].
    { apply sw_pristine0; lia. }
    exfalso. destruct (Hwrites j Hw) as [_ Hjl].
    rewrite sw_pristine0 in Hjl by lia.
    assert (j = k) by (eapply NoDup_lookup; done). lia.
  - intros l Hl.
    assert (l ∈ view (opposite bid (book w))) as Hv.
    { apply sw_ahead0. rewrite Hd. by right. }
    destruct (_ =? _)%nat; rewrite Hcase; [| done].
    rewrite Hperm in Hv. apply elem_of_cons in Hv as [-> | Hv]; done.
  - intros l Hl. apply sw_view0.
    destruct (_ =? _)%nat; rewrite Hcase in Hl; [| done].
    rewrite Hperm. by right.
  - intros l. by rewrite Hheap, fl_price0.
Qed.
End Sweep.

Section SweepMatch.
Variables (bid : bool) (o : oid) (lv : list lid) (h0 : Heap) (r0 : Z).
Hypothesis lv_nodup : NoDup lv.
Hypothesis lv_sorted : StronglySorted (keyLe (sweepKey bid h0)) lv.

Lemma sweepMatch_step k w ms lk :
  sweepBase bid o lv h0 k w -> sweepMatch bid o lv h0 r0 k w ms ->
  lv !! k = Some lk ->
  let h1 := (Fill lk o (heap w)).1 in
  let lms := (Fill lk o (heap w)).2 in
  let w1 := mkWorld h1 (book w) in
  let w2 := if (length (Limit_Orders (limitAt h1 lk)) =? 0)%nat
            then clearLimit (negb bid) lk w1 else w1 in
  sweepMatch bid o lv h0 r0 (S k) w2 (ms ++ lms).
Proof.
  intros Hb Hm Hk h1 lms w1 w2.
  destruct (sweep_visits bid o lv h0 lv_nodup k w lk Hb Hk) as [_ Hin].
  pose proof (sweepBase_step bid o lv h0 lv_nodup k w lk Hb Hk) as Hb2.
  fold h1 w1 w2 in Hb2.
  destruct Hb, Hm.
  destruct (sweep_step_spec bid o lk w sw_book0 sw_nil0 sw_alloc0 Hin)
    as (Hbook & Hheap & _ & Hf & Hcase).
  fold h1 w1 w2 lms in Hbook, Hheap, Hf, Hcase. destruct Hf.
  destruct (lv_split lv lv_nodup k lk Hk) as [Hd Hlk].
  assert (Hin' : lk ∈ view (ownSide (negb bid) (book w))) by (by rewrite <- opposite_ownSide).
  pose proof (clearLimit_spec (negb bid) lk w (bi_side w sw_book0 (negb bid)) Hin')
    as (Hperm & _).
  rewrite <- !opposite_ownSide in Hperm.
  assert (Hnd : NoDup (lk :: view (opposite bid (book (clearLimit (negb bid) lk w))))).
  { rewrite <- Hperm, opposite_ownSide. apply (si_nodup _ w (bi_side w sw_book0 (negb bid))). }
  apply NoDup_cons in Hnd as [Hgone _].
  assert (Hsubview : forall l, l ∈ view (opposite bid (book w2)) ->
                               l ∈ view (opposite bid (book w))).
  { intros l Hl. destruct (_ =? _)%nat; rewrite Hcase in Hl; [| done].
    rewrite Hperm. by right. }
  assert (Hidle : lms ≠ [] -> Order_Size (orderAt (heap w) o) ≠ 0%Z).
  { intros Hne Hz. by destruct (fl_idle0 Hz) as [_ ?]. }
  assert (Hlk_price : Forall (fun m => matchKey bid m = sweepKey bid h0 lk) lms).
  { eapply Forall_impl; [exact fl_prices0 |]. simpl. intros m Hm.
    unfold matchKey, sweepKey. rewrite Hm, sw_price0. done. }
  assert (Hvol_rest : volumeOf h1 (drop (S k) lv) = volumeOf (heap w) (drop (S k) lv)).
  { apply volumeOf_same. intros l Hl. apply fl_limits0. by intros ->. }
  assert (Hvol : volumeOf (heap w) (drop k lv)
                 = (Limit_TotalVolume (limitAt (heap w) lk)
                    + volumeOf (heap w) (drop (S k) lv))%Z).
  { by rewrite Hd. }
  split; rewrite ?Hheap.
  - by apply fl_nonneg0.
  - rewrite Hvol_rest. destruct (decide (Order_Size (orderAt h1 o) = 0%Z)) as [-> | Hne].
    + apply volumeOf_nonneg. intros l Hl.
      apply (level_volume_nonneg (negb bid) w l sw_book0).
      rewrite <- opposite_ownSide. apply sw_ahead0. rewrite Hd. by right.
    + pose proof (fl_exhaust0 Hne) as He.
      pose proof (inv_volume h1 fl_inv0 lk) as Hv. rewrite He in Hv. simpl in Hv.
      rewrite fl_incoming0. lia.
  - intros Hne l Hl.
    assert (Hne0 : Order_Size (orderAt (heap w) o) ≠ 0%Z).
    { intros Hz. destruct (fl_idle0 Hz) as [Hh _]. rewrite Hh in Hne. done. }
    pose proof (fl_exhaust0 Hne) as He.
    assert (Hc : (length (Limit_Orders (limitAt h1 lk)) =? 0)%nat = true).
    { by rewrite He. }
    rewrite Hc in Hcase. rewrite Hcase in Hl.
    assert (l ∈ drop k lv) as Hlk'.
    { apply sw_no_survivor0; [done |]. rewrite Hperm. by right. }
    rewrite Hd in Hlk'. apply elem_of_cons in Hlk' as [-> | Hlk']; done.
  - rewrite sumFilled_app, sw_filled0, fl_incoming0. lia.
  - apply StronglySorted_app. split; [| split; [done |]].
    + intros m1 m2 H1 H2. rewrite Forall_forall in Hlk_price.
      unfold keyLe. rewrite (Hlk_price m2 H2). by apply sw_best0.
    + by eapply StronglySorted_constant.
  - intros m l Hm Hl. apply Hsubview in Hl.
    apply elem_of_app in Hm as [Hm | Hm]; [by apply sw_best0 |].
    rewrite Forall_forall in Hlk_price. rewrite (Hlk_price m Hm).
    apply (lv_ahead_key bid lv h0 lv_nodup lv_sorted k lk l Hk).
    apply sw_no_survivor0; [| done].
    apply Hidle. intros E. rewrite E in Hm. by apply elem_of_nil in Hm.
  - intros m Hm. apply elem_of_app in Hm as [Hm | Hm].
    + destruct (sw_from0 m Hm) as (l & Hl & Hp). exists l. split; [| done].
      rewrite (take_S_r lv k lk Hk). apply elem_of_app. by left.
    + exists lk. split.
      * rewrite (take_S_r lv k lk Hk). apply elem_of_app. right. by apply list_elem_of_singleton.
      * rewrite Forall_forall in fl_prices0. rewrite (fl_prices0 m Hm). apply sw_price0.
Qed.

(** The whole loop: from step [k] to the end of the slice. *)
Lemma sweep_run count : forall k w ms,
  k + count = length lv ->
  sweepBase bid o lv h0 k w -> sweepMatch bid o lv h0 r0 k w ms ->
  sweepBase bid o lv h0 (length lv) (sweep bid o count k w ms).1 /\
  sweepMatch bid o lv h0 r0 (length lv)
    (sweep bid o count k w ms).1 (sweep bid o count k w ms).2.
Proof.
  induction count as [| count IH]; intros k w ms Hlen Hb Hm; simpl.
  { assert (k = length lv) as -> by lia. done. }
  destruct (lookup_lt_is_Some_2 lv k) as [lk Hk]; [lia |].
  destruct (sweep_visits bid o lv h0 lv_nodup k w lk Hb Hk) as [Hlimit _].
  rewrite Hlimit.
  pose proof (sweepBase_step bid o lv h0 lv_nodup k w lk Hb Hk) as Hb2.
  pose proof (sweepMatch_step k w ms lk Hb Hm Hk) as Hm2.
  simpl in Hb2, Hm2.
  destruct (Fill lk o (heap w)) as [h1 lms]. simpl in *.
  apply IH; [lia | done | done].
Qed.

Lemma sweepBase_run count : forall k w ms,
  k + count = length lv ->
  sweepBase bid o lv h0 k w ->
  sweepBase bid o lv h0 (length lv) (sweep bid o count k w ms).1.
Proof.
  induction count as [| count IH]; intros k w ms Hlen Hb; simpl.
  { assert (k = length lv) as -> by lia. done. }
  destruct (lookup_lt_is_Some_2 lv k) as [lk Hk]; [lia |].
  destruct (sweep_visits bid o lv h0 lv_nodup k w lk Hb Hk) as [Hlimit _].
  rewrite Hlimit.
  pose proof (sweepBase_step bid o lv h0 lv_nodup k w lk Hb Hk) as Hb2.
  simpl in Hb2.
  destruct (Fill lk o (heap w)) as [h1 lms]. simpl in *.
  apply IH; [lia | done].
Qed.
End SweepMatch.

(** ** The invariant of the book through the operations *)

Lemma view_length s :
  Slice_len s <= length (Slice_array s) -> length (view s) = Slice_len s.
Proof. intros H. unfold view. rewrite length_take. lia. Qed.

Lemma view_sortSlice less s :
  Slice_len s <= length (Slice_array s) ->
  view (sortSlice less s) = sortBy less (view s) /\
  Slice_len (sortSlice less s) <= length (Slice_array (sortSlice less s)).
Proof.
  intros H. unfold sortSlice, view at 1. simpl.
  assert (Hl : length (sortBy less (view s)) = Slice_len s).
  { rewrite (Permutation_length (sortBy_perm less (view s))). by apply view_length. }
  split.
  - rewrite take_app_le by lia. rewrite take_ge by lia. done.
  - rewrite length_app, Hl. lia.
Qed.

Lemma view_appendSlice s x :
  Slice_len s <= length (Slice_array s) ->
  view (appendSlice s x) = view s ++ [x] /\
  Slice_len (appendSlice s x) <= length (Slice_array (appendSlice s x)).
Proof.
  intros H. unfold appendSlice, view at 1. simpl.
  pose proof (view_length s H) as Hl.
  split.
  - rewrite take_ge; [done |]. rewrite length_app. simpl. lia.
  - rewrite length_app. simpl. lia.
Qed.

(** Permuting the slice of a side keeps its invariant. *)
Lemma sideInv_perm b w w' :
  sideInv b w -> heap w' = heap w ->
  ownLimits b (book w') = ownLimits b (book w) ->
  view (ownSide b (book w')) ≡ₚ view (ownSide b (book w)) ->
  Slice_len (ownSide b (book w')) <= length (Slice_array (ownSide b (book w'))) ->
  sideInv b w'.
Proof.
  intros Hs Hh Hm Hp Hlen. destruct Hs. split; rewrite ?Hh, ?Hm.
  - done.
  - by rewrite Hp.
  - intros l. rewrite Hp. apply si_nonempty0.
  - intros l a. rewrite Hp. apply si_residents0.
  - intros p l. rewrite Hp. apply si_index0.
Qed.

Lemma sortedWorld_heap bid w : heap (sortedWorld bid w) = heap w.
Proof. by destruct bid. Qed.

Lemma sortedWorld_Trades bid w : Trades (book (sortedWorld bid w)) = Trades (book w).
Proof. by destruct bid. Qed.

Lemma lessBid_key h x y :
  lessBid h x y = (sweepKey false h x <? sweepKey false h y)%Z.
Proof.
  unfold lessBid, sweepKey. rewrite Z.gtb_ltb.
  destruct (Z.ltb_spec (Limit_Price (limitAt h y)) (Limit_Price (limitAt h x)));
    destruct (Z.ltb_spec (- Limit_Price (limitAt h x)) (- Limit_Price (limitAt h y))); lia.
Qed.

Lemma lessAsk_key h x y :
  lessAsk h x y = (sweepKey true h x <? sweepKey true h y)%Z.
Proof. reflexivity. Qed.

Lemma sortedWorld_view bid w :
  sideInv (negb bid) w ->
  view (opposite bid (book (sortedWorld bid w))) ≡ₚ view (opposite bid (book w)) /\
  StronglySorted (keyLe (sweepKey bid (heap w))) (view (opposite bid (book (sortedWorld bid w)))) /\
  Slice_len (opposite bid (book (sortedWorld bid w))) = Slice_len (opposite bid (book w)) /\
  Slice_len (opposite bid (book (sortedWorld bid w)))
    <= length (Slice_array (opposite bid (book (sortedWorld bid w)))).
Proof.
  intros Hs. pose proof (si_len _ w Hs) as Hlen. destruct bid; simpl in *.
  - destruct (view_sortSlice (lessAsk (heap w)) (asks (book w)) Hlen) as [Hv Hl].
    rewrite Hv. split; [apply sortBy_perm |]. split; [| done].
    apply sortBy_sorted. apply lessAsk_key.
  - destruct (view_sortSlice (lessBid (heap w)) (bids (book w)) Hlen) as [Hv Hl].
    rewrite Hv. split; [apply sortBy_perm |]. split; [| done].
    apply sortBy_sorted. apply lessBid_key.
Qed.

Lemma bookInv_sortedWorld bid w : bookInv w -> bookInv (sortedWorld bid w).
Proof.
  intros [Hw Hside Hlisted].
  destruct (sortedWorld_view bid w (Hside (negb bid))) as (Hp & _ & _ & Hlen).
  rewrite (opposite_ownSide bid (book w)) in Hp.
  rewrite (opposite_ownSide bid (book (sortedWorld bid w))) in Hp, Hlen.
  assert (Hother : ownSide bid (book (sortedWorld bid w)) = ownSide bid (book w)).
  { by destruct bid. }
  assert (Hmaps : forall b, ownLimits b (book (sortedWorld bid w)) = ownLimits b (book w)).
  { intros b. by destruct bid, b. }
  split.
  - destruct Hw as [Hi Hx]. split; [by rewrite sortedWorld_heap |].
    intros b p l. rewrite Hmaps, sortedWorld_heap. apply Hx.
  - intros b. destruct (decide (b = negb bid)) as [-> | Hb].
    + apply (sideInv_perm (negb bid) w); try done. apply sortedWorld_heap.
    + assert (b = bid) as -> by (destruct b, bid; done).
      apply (sideInv_frame bid w); try done.
      intros l Hl. rewrite sortedWorld_heap. done.
  - intros l Hl. rewrite sortedWorld_heap in Hl. destruct (Hlisted l Hl) as [b Hb].
    exists b. destruct (decide (b = negb bid)) as [-> | Hb'].
    + by rewrite Hp.
    + assert (b = bid) as -> by (destruct b, bid; done). by rewrite Hother.
Qed.

Lemma bookInv_withTrades w ts :
  bookInv w -> bookInv (mkWorld (heap w) (withTrades (book w) ts)).
Proof.
  intros [[Hi Hx] Hside Hlisted]. split.
  - split; [done |]. intros b p l Hl.
    destruct b; [exact (Hx true p l Hl) | exact (Hx false p l Hl)].
  - intros b. apply (sideInv_frame b w); try done; by destruct b.
  - intros l Hl. destruct (Hlisted l Hl) as [b Hb]. exists b. by destruct b.
Qed.

Lemma bookInv_new : bookInv newWorld.
Proof.
  split; [apply worldInv_new | |].
  - intros b. split; destruct b; simpl; try done; try apply NoDup_nil_2.
    all: try (intros l Hl; by apply elem_of_nil in Hl).
    all: try (intros l a Hl; by apply elem_of_nil in Hl).
    all: intros p l; split; [done | intros [Hl _]; by apply elem_of_nil in Hl].
  - intros l Hl. done.
Qed.

Lemma bookInv_NewOrder bid size userID id ts w :
  bookInv w -> bookInv (mkWorld (NewOrder bid size userID id ts (heap w)).1 (book w)).
Proof.
  intros [Hw Hside Hlisted]. split.
  - by apply worldInv_NewOrder.
  - intros b. apply (sideInv_frame b w); try done.
    intros l Hl. split; [done |]. intros a Ha. cbn [heap].
    rewrite NewOrder_orderAt. destruct (decide _) as [-> |]; [| done].
    destruct Hw as [Hi _]. apply (heapInv_resident_allocated _ _ _ Hi) in Ha. lia.
  - intros l Hl. by apply Hlisted.
Qed.

Lemma PlaceLimitOrder_found price o w l :
  ownLimits (Order_Bid (orderAt (heap w) o)) (book w) !! price = Some l ->
  heap (PlaceLimitOrder price o w) = AddOrder l o (heap w) /\
  forall b, ownSide b (book (PlaceLimitOrder price o w)) = ownSide b (book w) /\
            ownLimits b (book (PlaceLimitOrder price o w)) = ownLimits b (book w).
Proof.
  intros Hl. unfold PlaceLimitOrder.
  assert (Hfound : (if Order_Bid (orderAt (heap w) o)
                    then BidLimits (book w) !! price else AskLimits (book w) !! price)
                   = Some l).
  { rewrite <- Hl. by destruct (Order_Bid (orderAt (heap w) o)). }
  rewrite Hfound. simpl. split; [done |]. intros b. by destruct b.
Qed.

Lemma PlaceLimitOrder_new price o w :
  let b := Order_Bid (orderAt (heap w) o) in
  let l := next_limit (heap w) in
  ownLimits b (book w) !! price = None ->
  heap (PlaceLimitOrder price o w) = AddOrder l o (NewLimit price (heap w)).1 /\
  ownSide b (book (PlaceLimitOrder price o w)) = appendSlice (ownSide b (book w)) l /\
  ownLimits b (book (PlaceLimitOrder price o w)) = <[price := l]> (ownLimits b (book w)) /\
  ownSide (negb b) (book (PlaceLimitOrder price o w)) = ownSide (negb b) (book w) /\
  ownLimits (negb b) (book (PlaceLimitOrder price o w)) = ownLimits (negb b) (book w).
Proof.
  intros b l Hl. unfold PlaceLimitOrder. fold b.
  assert (Hfound : (if b then BidLimits (book w) !! price else AskLimits (book w) !! price)
                   = None).
  { rewrite <- Hl. by destruct b. }
  rewrite Hfound. simpl. destruct b; simpl; done.
Qed.

Lemma bookInv_PlaceLimitOrder price o w :
  bookInv w -> Order_Limit (orderAt (heap w) o) = None -> o < next_order (heap w) ->
  (0 < Order_Size (orderAt (heap w) o))%Z ->
  bookInv (PlaceLimitOrder price o w).
Proof.
  intros [Hw Hside Hlisted] Hnil Ho Hpos.
  pose proof (worldInv_PlaceLimitOrder price o w Hw Hnil Ho) as Hw'.
  destruct Hw as [Hi Hx].
  set (b := Order_Bid (orderAt (heap w) o)) in *.
  assert (Hfresh : forall l a, a ∈ Limit_Orders (limitAt (heap w) l) -> a ≠ o).
  { intros l a Ha ->. by apply (heapInv_not_resident (heap w) o l Hi Hnil). }
  destruct (ownLimits b (book w) !! price) as [l |] eqn:E.
  - (* the level exists *)
    destruct (PlaceLimitOrder_found price o w l E) as [Hh Hb].
    assert (Hl : l ∈ view (ownSide b (book w)) /\ Limit_Price (limitAt (heap w) l) = price).
    { by apply (si_index b w (Hside b)). }
    destruct Hl as [Hl Hprice].
    split; [done | |].
    + intros b'. destruct (decide (b' = b)) as [-> | Hb'].
      * destruct (Hside b). destruct (Hb b) as [Hs Hm].
        split; rewrite ?Hs, ?Hm, ?Hh; try done.
        -- intros l' Hl'. rewrite AddOrder_limitAt. destruct (decide (l' = l)) as [-> |].
           ++ simpl. by destruct (Limit_Orders (limitAt (heap w) l)).
           ++ by apply si_nonempty0.
        -- intros l' a Hl'. rewrite AddOrder_limitAt, AddOrder_orderAt.
           destruct (decide (l' = l)) as [-> | Hne]; simpl.
           ++ intros Ha. apply elem_of_app in Ha as [Ha | Ha].
              ** destruct (decide (a = o)) as [-> | Hao]; [by apply Hfresh in Ha |].
                 by apply (si_residents0 l a).
              ** apply list_elem_of_singleton in Ha as ->.
                 destruct (decide (o = o)); [done | done].
           ++ intros Ha. destruct (decide (a = o)) as [-> | Hao]; [by apply Hfresh in Ha |].
              by apply (si_residents0 l' a).
        -- intros p l'. rewrite si_index0, AddOrder_limitAt.
           destruct (decide (l' = l)) as [-> |]; done.
      * assert (b' = negb b) as -> by (destruct b', b; done).
        destruct (Hb (negb b)) as [Hs Hm].
        apply (sideInv_frame (negb b) w); try done.
        intros l' Hl'. rewrite Hh, AddOrder_limitAt.
        assert (l' ≠ l) as Hne.
        { intros ->. by apply (sides_disjoint w b l (Hside b) (Hside (negb b))). }
        destruct (decide (l' = l)); [done |]. split; [done |].
        intros a Ha. rewrite AddOrder_orderAt.
        destruct (decide (a = o)) as [-> |]; [by apply Hfresh in Ha | done].
    + intros l' Hl'. rewrite Hh, AddOrder_limitAt in Hl'.
      destruct (decide (l' = l)) as [-> | Hne].
      * exists b. by rewrite (proj1 (Hb b)).
      * destruct (Hlisted l' Hl') as [b' Hb']. exists b'. by rewrite (proj1 (Hb b')).
  - (* a new level *)
    destruct (PlaceLimitOrder_new price o w E) as (Hh & Hs & Hm & Hs' & Hm').
    fold b in Hs, Hm, Hs', Hm'.
    set (l := next_limit (heap w)) in *.
    assert (Hz : limitAt (heap w) l = Limit_zero) by (by apply (inv_fresh_limit _ Hi)).
    assert (Hnew : forall b' l', l' ∈ view (ownSide b' (book w)) -> l' ≠ l).
    { intros b' l' Hl' ->. apply (si_nonempty b' w (Hside b') l Hl'). by rewrite Hz. }
    assert (Hlim : forall l', limitAt (heap (PlaceLimitOrder price o w)) l' =
               if decide (l' = l)
               then mkLimit price [o] (Order_Size (orderAt (heap w) o))
               else limitAt (heap w) l').
    { intros l'. rewrite Hh, AddOrder_limitAt, !NewLimit_limitAt. subst l.
      destruct (decide (l' = next_limit (heap w))) as [-> |]; [| done].
      destruct (decide (next_limit (heap w) = next_limit (heap w))); [reflexivity | done]. }
    assert (Hord : forall a, orderAt (heap (PlaceLimitOrder price o w)) a =
               if decide (a = o) then Order_withLimit (orderAt (heap w) o) (Some l)
               else orderAt (heap w) a).
    { intros a. rewrite Hh, AddOrder_orderAt. done. }
    destruct (view_appendSlice (ownSide b (book w)) l (si_len b w (Hside b))) as [Hv Hlen].
    split; [done | |].
    + intros b'. destruct (decide (b' = b)) as [-> | Hb'].
      * destruct (Hside b). split; rewrite ?Hs, ?Hm, ?Hv; try done.
        -- apply NoDup_app. split; [done |]. split; [| apply NoDup_singleton].
           intros l' Hl' Hl''. apply list_elem_of_singleton in Hl''.
           by apply (Hnew b l').
        -- intros l' Hl'. rewrite Hlim. destruct (decide (l' = l)); [done |].
           apply si_nonempty0. apply elem_of_app in Hl' as [Hl' | Hl']; [done |].
           by apply list_elem_of_singleton in Hl'.
        -- intros l' a Hl'. rewrite Hlim, Hord. destruct (decide (l' = l)) as [-> | Hne]; simpl.
           ++ intros Ha. apply list_elem_of_singleton in Ha as ->.
              destruct (decide (o = o)); done.
           ++ intros Ha. destruct (decide (a = o)) as [-> | Hao]; [by apply Hfresh in Ha |].
              apply (si_residents0 l' a); [| done].
              apply elem_of_app in Hl' as [Hl' | Hl']; [done |].
              by apply list_elem_of_singleton in Hl'.
        -- intros p l'. rewrite Hlim, lookup_insert_Some, elem_of_app, list_elem_of_singleton.
           rewrite si_index0. destruct (decide (l' = l)) as [-> | Hne]; simpl.
           ++ split.
              ** intros [[-> _] | [_ [Hl' _]]]; [by split; [right |] |].
                 by apply (Hnew b l) in Hl'.
              ** intros [_ <-]. by left.
           ++ split.
              ** intros [[_ ->] | [Hp [Hl' Hpr]]]; [done |]. split; [by left | done].
              ** intros [[Hl' | ->] Hpr]; [| done]. right. split; [| done].
                 intros <-. assert (ownLimits b (book w) !! price = Some l') as H1.
                 { by apply si_index0. }
                 congruence.
      * assert (b' = negb b) as -> by (destruct b', b; done).
        apply (sideInv_frame (negb b) w); try done.
        intros l' Hl'. rewrite Hlim.
        destruct (decide (l' = l)) as [-> |]; [by apply (Hnew (negb b) l) in Hl' |].
        split; [done |]. intros a Ha. rewrite Hord.
        destruct (decide (a = o)) as [-> |]; [by apply Hfresh in Ha | done].
    + intros l' Hl'. rewrite Hlim in Hl'. destruct (decide (l' = l)) as [-> | Hne].
      * exists b. rewrite Hs, Hv. apply elem_of_app. right. by apply list_elem_of_singleton.
      * destruct (Hlisted l' Hl') as [b' Hb']. exists b'.
        destruct (decide (b' = b)) as [-> | Hbb].
        -- rewrite Hs, Hv. apply elem_of_app. by left.
        -- assert (b' = negb b) as -> by (destruct b', b; done). by rewrite Hs'.
Qed.

Lemma bookInv_CancelOrder o w : bookInv w -> bookInv (CancelOrder o w).1.
Proof.
  intros Hb. pose proof (worldInv_CancelOrder o w (bi_world w Hb)) as Hw'.
  revert Hw'. unfold CancelOrder.
  destruct (Order_Limit (orderAt (heap w) o)) as [l |] eqn:E; [| done].
  destruct Hb as [[Hi Hx] Hside Hlisted].
  assert (Hin : o ∈ Limit_Orders (limitAt (heap w) l)) by (by apply (inv_back _ Hi)).
  destruct (Hlisted l) as [b Hl];
    [intros E'; rewrite E' in Hin; by apply elem_of_nil in Hin |].
  destruct (si_residents b w (Hside b) l o Hl Hin) as [Hbid _].
  set (h1 := DeleteOrder l o (heap w)).
  set (bk1 := mkOrderbook (asks (book w)) (bids (book w)) (Trades (book w))
                (AskLimits (book w)) (BidLimits (book w))
                (delete (Order_ID (orderAt h1 o)) (Orders (book w)))).
  assert (Hbid1 : Order_Bid (orderAt h1 o) = b) by (subst h1; by rewrite DeleteOrder_bid).
  rewrite Hbid1.
  pose proof (DeleteOrder_present l o (heap w) (inv_nodup _ Hi l) Hin) as Hperm.
  fold h1 in Hperm.
  assert (Hnd : NoDup (o :: Limit_Orders (limitAt h1 l))).
  { rewrite <- Hperm. apply (inv_nodup _ Hi). }
  apply NoDup_cons in Hnd as [Hgone _].
  assert (Hord : forall a, a ≠ o -> orderAt h1 a = orderAt (heap w) a).
  { intros a Ha. by apply DeleteOrder_other_orders. }
  assert (Hlim : forall l', l' ≠ l -> limitAt h1 l' = limitAt (heap w) l').
  { intros l' Hl'. by apply DeleteOrder_other_limits. }
  assert (Hother : forall l' a, l' ≠ l -> a ∈ Limit_Orders (limitAt (heap w) l') -> a ≠ o).
  { intros l' a Hl' Ha ->. by apply (resident_elsewhere (heap w) l l' o Hi Ha). }
  assert (Hsides : forall b', ownSide b' bk1 = ownSide b' (book w) /\
                              ownLimits b' bk1 = ownLimits b' (book w)).
  { intros b'. by destruct b'. }
  assert (Hframe : forall b' (w' : World),
             heap w' = h1 ->
             sideInv b' (mkWorld (heap w) (book w')) ->
             l ∉ view (ownSide b' (book w')) ->
             (forall l', l' ∈ view (ownSide b' (book w')) -> l' ∈ view (ownSide b' (book w))) ->
             sideInv b' w').
  { intros b' w' Hh Hs Hnl Hsub.
    apply (sideInv_frame b' (mkWorld (heap w) (book w'))); try done.
    intros l' Hl'. simpl in *. rewrite Hh.
    assert (l' ≠ l) as Hne by (by intros ->).
    split; [by apply Hlim |]. intros a Ha. apply Hord. by apply (Hother l' a). }
  assert (Hmid : forall b', sideInv b' (mkWorld (heap w) bk1)).
  { intros b'. apply (sideInv_frame b' w); try done; apply Hsides. }
  assert (Hdis : l ∉ view (ownSide (negb b) (book w))).
  { by apply (sides_disjoint w b l (Hside b) (Hside (negb b))). }
  destruct (Nat.eqb_spec (length (Limit_Orders (limitAt h1 l))) 0) as [He | Hne];
    simpl; intros Hw'.
  - apply length_zero_iff_nil in He.
    assert (Hl1 : l ∈ view (ownSide b (book (mkWorld (heap w) bk1)))).
    { simpl. by rewrite (proj1 (Hsides b)). }
    pose proof (sideInv_clearLimit b l _ (Hmid b) Hl1) as Hsc.
    destruct (clearLimit_spec b l _ (Hmid b) Hl1) as (Hp & _).
    simpl in Hp. rewrite (proj1 (Hsides b)) in Hp.
    assert (Hbook : book (clearLimit b l (mkWorld h1 bk1))
                    = book (clearLimit b l (mkWorld (heap w) bk1))).
    { apply clearLimit_book. subst h1. apply DeleteOrder_price. }
    assert (Hnd : NoDup (l :: view (ownSide b (book (clearLimit b l (mkWorld (heap w) bk1)))))).
    { rewrite <- Hp. apply (si_nodup b w (Hside b)). }
    apply NoDup_cons in Hnd as [Hlgone _].
    split; [done | |].
    + intros b'. destruct (decide (b' = b)) as [-> | Hb'].
      * apply Hframe.
        -- by rewrite clearLimit_heap.
        -- rewrite Hbook.
           apply (sideInv_frame b (clearLimit b l (mkWorld (heap w) bk1))); try done.
           intros l' Hl'. by rewrite clearLimit_heap.
        -- by rewrite Hbook.
        -- intros l' Hl'. rewrite Hbook in Hl'. rewrite Hp. by right.
      * assert (b' = negb b) as -> by (destruct b', b; done).
        apply sideInv_clearLimit_other. apply (Hframe (negb b) (mkWorld h1 bk1)); done.
    + intros l' Hl'. rewrite clearLimit_heap in Hl'. simpl in Hl'.
      assert (l' ≠ l) as Hne by (intros ->; by rewrite He in Hl').
      rewrite Hlim in Hl' by done. destruct (Hlisted l' Hl') as [b' Hb'].
      exists b'. rewrite Hbook. destruct (decide (b' = b)) as [-> | Hbb].
      * rewrite Hp in Hb'. apply elem_of_cons in Hb' as [-> | Hb']; done.
      * assert (b' = negb b) as -> by (destruct b', b; done).
        rewrite clearLimit_ownSide_other. simpl. by rewrite (proj1 (Hsides (negb b))).
  - assert (Hne' : Limit_Orders (limitAt h1 l) ≠ []).
    { intros E'. by rewrite E' in Hne. }
    split; [done | |].
    + intros b'. destruct (decide (b' = b)) as [-> | Hb'].
      * destruct (Hside b). destruct (Hsides b) as [Hs Hm].
        split; simpl; rewrite ?Hs, ?Hm; try done.
        -- intros l' Hl'. destruct (decide (l' = l)) as [-> |]; [done |].
           rewrite Hlim by done. by apply si_nonempty0.
        -- intros l' a Hl'. destruct (decide (l' = l)) as [-> | Hl'ne].
           ++ intros Ha. assert (a ≠ o) as Hao by (by intros ->).
              rewrite Hord by done. apply (si_residents0 l a Hl').
              rewrite Hperm. by right.
           ++ rewrite Hlim by done. intros Ha.
              rewrite Hord by (by apply (Hother l' a)). by apply (si_residents0 l' a).
        -- intros p l'. subst h1. rewrite DeleteOrder_price. apply si_index0.
      * assert (b' = negb b) as -> by (destruct b', b; done).
        apply (Hframe (negb b) (mkWorld h1 bk1)); done.
    + intros l' Hl'. simpl in *. destruct (decide (l' = l)) as [-> | Hl'ne].
      * exists b. by rewrite (proj1 (Hsides b)).
      * rewrite Hlim in Hl' by done. destruct (Hlisted l' Hl') as [b' Hb'].
        exists b'. by rewrite (proj1 (Hsides b')).
Qed.

Lemma PlaceMarketOrder_unfold clock o w :
  let bid := Order_Bid (orderAt (heap w) o) in
  let w1 := sortedWorld bid w in
  let r := sweep bid o (Slice_len (opposite bid (book w1))) 0 w1 [] in
  let trades := Trades (book r.1) ++ recordTrades clock (Order_Bid (orderAt (heap r.1) o)) r.2 in
  PlaceMarketOrder clock o w =
    if (Order_Size (orderAt (heap w) o) >? availableVolume o w)%Z
    then (w, Panicked (NotEnoughVolume (availableVolume o w) (Order_Size (orderAt (heap w) o))))
    else (mkWorld (heap r.1) (withTrades (book r.1) trades),
          match trades with
          | [] => Panicked (IndexOutOfRange (-1) 0)
          | _ :: _ => Returned r.2
          end).
Proof.
  intros bid w1 r trades. unfold PlaceMarketOrder. fold bid.
  change (if bid then AskTotalVolume w else BidTotalVolume w) with (availableVolume o w).
  destruct (_ >? _)%Z; [done |].
  change (if bid then Asks w else Bids w) with w1. subst trades r.
  destruct (sweep bid o _ 0 w1 []) as [w2 ms]. simpl.
  by destruct (Trades (book w2) ++ _).
Qed.

Lemma sweepBase_init bid o w :
  bookInv w -> Order_Limit (orderAt (heap w) o) = None -> o < next_order (heap w) ->
  let w1 := sortedWorld bid w in
  let lv := view (opposite bid (book w1)) in
  NoDup lv /\
  StronglySorted (keyLe (sweepKey bid (heap w1))) lv /\
  length lv = Slice_len (opposite bid (book w1)) /\
  sweepBase bid o lv (heap w1) 0 w1.
Proof.
  intros Hb Hnil Ho w1 lv.
  pose proof (bookInv_sortedWorld bid w Hb) as Hb1. fold w1 in Hb1.
  destruct (sortedWorld_view bid w (bi_side w Hb (negb bid))) as (_ & Hsorted & _ & Hlen).
  fold w1 in Hsorted, Hlen. fold lv in Hsorted.
  assert (Hh : heap w1 = heap w) by apply sortedWorld_heap.
  assert (Hll : length lv = Slice_len (opposite bid (book w1))) by (by apply view_length).
  split; [| split; [by rewrite Hh | split; [done |]]].
  { subst lv. rewrite opposite_ownSide. apply (si_nodup _ w1 (bi_side w1 Hb1 (negb bid))). }
  split; try done.
  - by rewrite Hh.
  - by rewrite Hh.
  - intros j _ Hj. subst lv. unfold view. rewrite lookup_take_lt; [done | lia].
Qed.

Lemma bookInv_PlaceMarketOrder clock o w :
  bookInv w -> Order_Limit (orderAt (heap w) o) = None -> o < next_order (heap w) ->
  bookInv (PlaceMarketOrder clock o w).1.
Proof.
  intros Hb Hnil Ho. rewrite PlaceMarketOrder_unfold.
  destruct (_ >? _)%Z; [done |]. simpl.
  set (bid := Order_Bid (orderAt (heap w) o)).
  destruct (sweepBase_init bid o w Hb Hnil Ho) as (Hnd & _ & Hlen & Hbase).
  apply bookInv_withTrades.
  eapply sw_book. rewrite <- Hlen.
  apply (sweepBase_run bid o _ _ Hnd); [lia | exact Hbase].
Qed.

Lemma placeNewLimit_eq price bid size userID id ts w :
  placeNewLimit price bid size userID id ts w =
    (PlaceLimitOrder price (next_order (heap w))
       (mkWorld (NewOrder bid size userID id ts (heap w)).1 (book w)),
     next_order (heap w)).
Proof. reflexivity. Qed.

Lemma placeNewMarket_eq clock bid size userID id ts w :
  placeNewMarket clock bid size userID id ts w =
    ((PlaceMarketOrder clock (next_order (heap w))
        (mkWorld (NewOrder bid size userID id ts (heap w)).1 (book w))).1,
     next_order (heap w),
     (PlaceMarketOrder clock (next_order (heap w))
        (mkWorld (NewOrder bid size userID id ts (heap w)).1 (book w))).2).
Proof.
  unfold placeNewMarket. simpl.
  by destruct (PlaceMarketOrder clock (next_order (heap w)) _).
Qed.

Lemma NewOrder_new bid size userID id ts h :
  orderAt (NewOrder bid size userID id ts h).1 (next_order h)
  = mkOrder id userID size bid None ts.
Proof. rewrite NewOrder_orderAt. by destruct (decide _). Qed.

Lemma bookInv_step w x : positiveLimit x -> bookInv w -> bookInv (step w x).
Proof.
  intros Hx Hb.
  destruct x as [price bid size userID id ts | clock bid size userID id ts | o];
    cbn [step].
  - pose proof (bookInv_NewOrder bid size userID id ts w Hb) as Hb'.
    destruct (worldInv_NewOrder bid size userID id ts w (bi_world w Hb)) as (_ & Hnil & Ho).
    rewrite placeNewLimit_eq. cbn [fst].
    apply bookInv_PlaceLimitOrder; try done.
    cbn [heap]. by rewrite NewOrder_new.
  - pose proof (bookInv_NewOrder bid size userID id ts w Hb) as Hb'.
    destruct (worldInv_NewOrder bid size userID id ts w (bi_world w Hb)) as (_ & Hnil & Ho).
    rewrite placeNewMarket_eq. cbn [fst].
    by apply bookInv_PlaceMarketOrder.
  - by apply bookInv_CancelOrder.
Qed.

Lemma bookInv_foldl ops : forall w,
  Forall positiveLimit ops -> bookInv w -> bookInv (foldl step w ops).
Proof.
  induction ops as [| x ops IH]; intros w Hp Hb; simpl; [done |].
  apply Forall_cons in Hp as [Hx Hp]. apply IH; [done |]. by apply bookInv_step.
Qed.

Lemma bookInv_run ops : Forall positiveLimit ops -> bookInv (run ops).
Proof. intros Hp. by apply bookInv_foldl; [| apply bookInv_new]. Qed.

(** ** A market order that the opposite side can fill *)

Lemma totalVolume_volumeOf h s : totalVolume h s = volumeOf h (view s).
Proof.
  unfold totalVolume, volumeOf.
  assert (Hgen : forall ls acc,
             foldl (fun total l => (total + Limit_TotalVolume (limitAt h l))%Z) acc ls
             = (acc + foldr (fun l a => (Limit_TotalVolume (limitAt h l) + a)%Z) 0%Z ls)%Z).
  { induction ls as [| l ls IH]; intros acc; simpl; [lia |]. rewrite IH. lia. }
  rewrite Hgen. lia.
Qed.

Lemma availableVolume_opposite o w :
  availableVolume o w
  = totalVolume (heap w) (opposite (Order_Bid (orderAt (heap w) o)) (book w)).
Proof. unfold availableVolume. by destruct (Order_Bid (orderAt (heap w) o)). Qed.

Lemma sumFilled_nil_zero ms : ms = [] -> sumFilled ms = 0%Z.
Proof. by intros ->. Qed.

Lemma recordTrades_length clock bid ms : length (recordTrades clock bid ms) = length ms.
Proof. unfold recordTrades. apply length_imap. Qed.

Lemma market_sweep clock o w :
  bookInv w -> Order_Limit (orderAt (heap w) o) = None -> o < next_order (heap w) ->
  (0 < Order_Size (orderAt (heap w) o))%Z ->
  (Order_Size (orderAt (heap w) o) <= availableVolume o w)%Z ->
  let bid := Order_Bid (orderAt (heap w) o) in
  let w' := (PlaceMarketOrder clock o w).1 in
  exists ms,
    (PlaceMarketOrder clock o w).2 = Returned ms /\ ms ≠ [] /\
    (forall m, m ∈ ms ->
       exists l, l ∈ view (opposite bid (book w)) /\
                 Match_Price m = Limit_Price (limitAt (heap w) l)) /\
    StronglySorted (keyLe (matchKey bid)) ms /\
    (forall m l, m ∈ ms -> l ∈ view (opposite bid (book w')) ->
       (matchKey bid m <= sweepKey bid (heap w') l)%Z) /\
    Order_Size (orderAt (heap w') o) = 0%Z /\
    sumFilled ms = Order_Size (orderAt (heap w) o) /\
    bookInv w'.
Proof.
  intros Hb Hnil Ho Hpos Hle bid w'. subst w'. rewrite PlaceMarketOrder_unfold. fold bid.
  destruct (Z.gtb_spec (Order_Size (orderAt (heap w) o)) (availableVolume o w)); [lia |].
  destruct (sweepBase_init bid o w Hb Hnil Ho) as (Hnd & Hsorted & Hlen & Hbase).
  destruct (sortedWorld_view bid w (bi_side w Hb (negb bid))) as (Hperm & _).
  set (w1 := sortedWorld bid w) in *.
  set (lv := view (opposite bid (book w1))) in *.
  assert (Hh : heap w1 = heap w) by apply sortedWorld_heap.
  assert (Hmatch : sweepMatch bid o lv (heap w1) (Order_Size (orderAt (heap w) o)) 0 w1 []).
  { split; rewrite ?Hh; simpl; try done; try lia.
    - rewrite drop_0. rewrite availableVolume_opposite, totalVolume_volumeOf in Hle.
      fold bid in Hle. rewrite <- (volumeOf_perm (heap w) _ _ Hperm) in Hle. done.
    - constructor.
    - intros m l Hm. by apply elem_of_nil in Hm.
    - intros m Hm. by apply elem_of_nil in Hm. }
  destruct (sweep_run bid o lv (heap w1) (Order_Size (orderAt (heap w) o)) Hnd Hsorted
              (length lv) 0 w1 [] eq_refl Hbase Hmatch) as [Hbase' Hmatch'].
  rewrite <- Hlen.
  set (r := sweep bid o (length lv) 0 w1 []) in *.
  destruct Hbase', Hmatch'.
  rewrite drop_all in sw_enough0. simpl in sw_enough0.
  assert (Hz : Order_Size (orderAt (heap r.1) o) = 0%Z) by lia.
  assert (Hsum : sumFilled r.2 = Order_Size (orderAt (heap w) o)) by lia.
  assert (Hne : r.2 ≠ []).
  { intros E. apply sumFilled_nil_zero in E. lia. }
  exists r.2. cbn [fst snd heap book].
  split.
  { destruct (Trades (book r.1) ++ _) eqn:E; [| done]. exfalso.
    apply (f_equal length) in E. rewrite length_app, recordTrades_length in E.
    simpl in E. destruct r.2; [done | simpl in E; lia]. }
  split; [done |]. split.
  { intros m Hm. destruct (sw_from0 m Hm) as (l & Hl & Hp). exists l.
    rewrite Hh in Hp. split; [| done].
    rewrite <- Hperm. fold lv. apply elem_of_take in Hl as (i & Hi & _).
    by eapply list_elem_of_lookup_2. }
  split; [done |]. split.
  { intros m l Hm Hl.
    assert (Hk : sweepKey bid (heap r.1) l = sweepKey bid (heap w1) l).
    { unfold sweepKey. by rewrite sw_price0. }
    rewrite Hk. apply sw_best0; [done |]. by destruct bid. }
  split; [done |]. split; [done |].
  by apply bookInv_withTrades.
Qed.

Lemma NewOrder_limitAt bid size userID id ts h l :
  limitAt (NewOrder bid size userID id ts h).1 l = limitAt h l.
Proof. reflexivity. Qed.

(** C4 does not hold of the code as it is stated: the volume check compares
    the size of the order with a float64 sum, and the sweep subtracts the
    sizes one by one.  With an ask of size 2^53 at 100 and an ask of size 3
    at 101 the total of the asks is 2^53 + 4 (2^53 + 3 is not a float64); a
    market bid of size 2^53 + 4 passes the check, is matched with both asks,
    best price first, and returns with size 1 left, the ask side empty.
    With asks of 1.7 at 100 and 0.5 at 101, a market bid of size 2.2 passes
    the check and returns with 2.2e-16 left. *)
Lemma market_order_rounding_residue :
  (Float64.AskTotalVolume (Float64.run largeAskOps) = 9007199254740996%float /\
   largeAskFill.2 =
     Float64.Returned [Float64.mkMatch 0 2 9007199254740992 100; Float64.mkMatch 1 2 3 101] /\
   Float64.Order_Size (Float64.orderAt (Float64.heap largeAskFill.1.1) 2) = 1%float /\
   Float64.IsFilled (Float64.heap largeAskFill.1.1) 2 = false /\
   view (Float64.asks (Float64.book largeAskFill.1.1)) = []) /\
  (PrimFloat.ltb (Float64.AskTotalVolume (Float64.run decimalAskLevels))
     (Float64.Order_Size (Float64.orderAt (Float64.heap decimalAskFill.1.1) 2)) = false /\
   length (match decimalAskFill.2 with Float64.Returned ms => ms | _ => [] end) = 2 /\
   Float64.IsFilled (Float64.heap decimalAskFill.1.1) 2 = false /\
   PrimFloat.ltb 0 (Float64.Order_Size (Float64.orderAt (Float64.heap decimalAskFill.1.1) 2))
     = true /\
   view (Float64.asks (Float64.book decimalAskFill.1.1)) = []).
Proof. vm_compute. repeat split. Qed.

(** On float64 the scenario of the specification gives the numbers that it
    gives on whole numbers. *)
Lemma multiFill_float64 :
  Float64.BidTotalVolume (Float64.run multiFillOps64) = 15%float /\
  multiFill64.2
    = Float64.Returned [Float64.mkMatch 4 3 5 10000; Float64.mkMatch 4 2 5 9000] /\
  Float64.BidTotalVolume multiFill64.1.1 = 5%float /\
  map (Float64.limitAt (Float64.heap multiFill64.1.1))
      (view (Float64.bids (Float64.book multiFill64.1.1)))
    = [Float64.mkLimit 5000 [0; 1] 2; Float64.mkLimit 9000 [2] 3] /\
  map (fun a => Float64.Order_Size (Float64.orderAt (Float64.heap multiFill64.1.1) a))
      [0; 1; 2; 3; 4] = [1; 1; 3; 0; 0]%float.
Proof. vm_compute. repeat split. Qed.

(** C4, amended.  On a book built from a new one by any operations whose
    limit orders have a positive size, a new market order of positive size
    that does not exceed the volume of the opposite side returns with
    matches that

    - are made at prices of levels of the opposite side,
    - come best price first (ascending for a bid, descending for an ask),
      and no level left on the opposite side has a better price than any of
      them,
    - fill the order, when the sizes of the orders are whole numbers whose
      absolute values add up to at most 2^53, on which the float64
      arithmetic of the code is exact: its size is zero afterwards and the
      matches add up to the size it had;

    and afterwards no level of either side is empty and the price index of a
    side holds exactly the levels of its slice, so every level the sweep
    emptied is gone from both.  For the book of the multi-fill test, the
    market ask of size 10 gives the two matches 5 at 10000 and 5 at 9000,
    leaves the bid volume 5 and the two levels 5000 (untouched) and 9000
    (with 3 remaining). *)
Theorem market_order_sweeps_best_price_first :
  (forall (ops : list op) (clock : nat -> Z) (bid : bool) (size userID id ts : Z),
     Forall positiveLimit ops ->
     let w := run ops in
     (0 < size)%Z ->
     (size <= totalVolume (heap w) (opposite bid (book w)))%Z ->
     let r := placeNewMarket clock bid size userID id ts w in
     let w' := r.1.1 in
     let o := r.1.2 in
     exists ms,
       r.2 = Returned ms /\ ms ≠ [] /\
       (forall m, m ∈ ms ->
          exists l, l ∈ view (opposite bid (book w)) /\
                    Match_Price m = Limit_Price (limitAt (heap w) l)) /\
       StronglySorted (keyLe (matchKey bid)) ms /\
       (forall m l, m ∈ ms -> l ∈ view (opposite bid (book w')) ->
          (matchKey bid m <= sweepKey bid (heap w') l)%Z) /\
       (exactWith ops size ->
        Order_Size (orderAt (heap w') o) = 0%Z /\ sumFilled ms = size) /\
       (forall b l, l ∈ view (ownSide b (book w')) ->
          Limit_Orders (limitAt (heap w') l) ≠ []) /\
       (forall b p l,
          ownLimits b (book w') !! p = Some l <->
          l ∈ view (ownSide b (book w')) /\ Limit_Price (limitAt (heap w') l) = p)) /\
  (BidTotalVolume multiFillBook = 15%Z /\
   multiFill.2 = Returned [mkMatch 4 3 5 10000; mkMatch 4 2 5 9000] /\
   BidTotalVolume multiFill.1.1 = 5%Z /\
   map (limitAt (heap multiFill.1.1)) (view (bids (book multiFill.1.1)))
     = [mkLimit 5000 [0; 1] 2; mkLimit 9000 [2] 3] /\
   map (fun a => Order_Size (orderAt (heap multiFill.1.1) a)) [0; 1; 2] = [1; 1; 3]%Z /\
   map (fun p => BidLimits (book multiFill.1.1) !! p) [5000; 9000; 10000]%Z
     = [Some 0; Some 1; None]).
Proof.
  split.
  - intros ops clock bid size userID id ts Hops w Hpos Hle r w' o.
    subst w' o r. rewrite placeNewMarket_eq. cbn [fst snd].
    set (wn := mkWorld (NewOrder bid size userID id ts (heap w)).1 (book w)).
    set (o := next_order (heap w)).
    pose proof (bookInv_run ops Hops) as Hb. fold w in Hb.
    pose proof (bookInv_NewOrder bid size userID id ts w Hb) as Hbn. fold wn in Hbn.
    destruct (worldInv_NewOrder bid size userID id ts w (bi_world w Hb)) as (_ & Hnil & Ho).
    fold wn in Hnil, Ho. change (NewOrder bid size userID id ts (heap w)).2 with o in Hnil, Ho.
    assert (Hord : orderAt (heap wn) o = mkOrder id userID size bid None ts).
    { subst wn o. cbn [heap]. apply NewOrder_new. }
    assert (Hav : availableVolume o wn = totalVolume (heap w) (opposite bid (book w))).
    { rewrite availableVolume_opposite, Hord. reflexivity. }
    destruct (market_sweep clock o wn Hbn Hnil Ho) as (ms & H1 & H2 & H3 & H4 & H5 & H6 & H7 & H8).
    { rewrite Hord. cbn [Order_Size]. done. }
    { rewrite Hord, Hav. cbn [Order_Size]. done. }
    rewrite Hord in H3, H4, H5, H7. cbn [Order_Size Order_Bid] in H3, H4, H5, H7.
    exists ms. split; [done |]. split; [done |]. split; [done |]. split; [done |].
    split; [done |]. split; [intros _; by split |]. split.
    + intros b l. apply (si_nonempty b _ (bi_side _ H8 b)).
    + intros b p l. apply (si_index b _ (bi_side _ H8 b)).
  - vm_compute. repeat (split; [reflexivity |]). reflexivity.
Qed.

Lemma market_order_sweeps_best_price_first_witness :
  exists ms, multiFill.2 = Returned ms /\ ms ≠ [] /\ sumFilled ms = 10%Z.
Proof.
  destruct (proj1 market_order_sweeps_best_price_first multiFillOps zeroClock false
              10%Z 0%Z 105%Z 5%Z)
    as (ms & H1 & H2 & _ & _ & _ & H6 & _).
  - unfold multiFillOps. repeat constructor.
  - lia.
  - vm_compute. discriminate.
  - destruct H6 as [_ H7]; [vm_compute; discriminate |].
    exists ms. split; [| split; [exact H2 | exact H7]].
    rewrite <- H1. reflexivity.
Defined.

(** ** The id index after a fill *)

(** On books built with limit orders of positive size, no level of either
    side is empty and the price index of a side holds the levels of its
    slice. *)
Lemma no_empty_level_reachable (ops : list op) (b : bool) (l : lid) :
  Forall positiveLimit ops ->
  (l ∈ view (ownSide b (book (run ops))) ->
   Limit_Orders (limitAt (heap (run ops)) l) ≠ []) /\
  (forall p, ownLimits b (book (run ops)) !! p = Some l ->
             l ∈ view (ownSide b (book (run ops)))).
Proof.
  intros Hops. pose proof (bookInv_run ops Hops) as Hb. split.
  - apply (si_nonempty b _ (bi_side _ Hb b)).
  - intros p Hp. by apply (si_index b _ (bi_side _ Hb b)) in Hp as [? _].
Qed.

(** C6 does not hold of the code.  After the two operations of
    [TestLastMarketTrades] the ask (address 0, id 21) has been filled by the
    market bid: [Fill] has removed it from its level and the level has been
    evicted, but nothing has taken it out of the id index, which
    [CancelOrder] does for the orders it removes.  The index still maps 21 to
    an order that rests in no level, and cancelling that order panics. *)
Theorem filled_order_stays_in_index :
  let w := run lastTradeOps in
  Orders (book w) !! 21%Z = Some 0 /\
  Order_Size (orderAt (heap w) 0) = 0%Z /\
  Order_Limit (orderAt (heap w) 0) = None /\
  (forall l, 0 ∉ Limit_Orders (limitAt (heap w) l)) /\
  view (asks (book w)) = [] /\
  view (bids (book w)) = [] /\
  CancelOrder 0 w = (w, Panicked NilDereference).
Proof.
  intros w.
  assert (Hnil : Order_Limit (orderAt (heap w) 0) = None) by (vm_compute; reflexivity).
  split; [vm_compute; reflexivity |].
  split; [vm_compute; reflexivity |].
  split; [exact Hnil |].
  split.
  { intros l. apply heapInv_not_resident; [| exact Hnil]. apply worldInv_run. }
  split; [vm_compute; reflexivity |].
  split; [vm_compute; reflexivity |].
  unfold CancelOrder. rewrite Hnil. reflexivity.
Qed.

(** * Further properties of the code *)

(** ** What no function writes: the identity of an order *)

Lemma sameIdentity_refl x : sameIdentity x x.
Proof. done. Qed.

Lemma sameIdentity_trans x y z : sameIdentity x y -> sameIdentity y z -> sameIdentity x z.
Proof. unfold sameIdentity. intuition congruence. Qed.

Lemma sameButSize_identity x y : sameButSize x y -> sameIdentity x y.
Proof. unfold sameButSize, sameIdentity. intros H. injection H. intuition. Qed.

Lemma storeOrder_fields h o s x :
  sameButSize (orderAt (storeOrder h o (Order_withSize (orderAt h o) s)) x) (orderAt h x).
Proof.
  destruct (decide (o = x)) as [-> | Hne].
  - rewrite orderAt_storeOrder_eq. done.
  - rewrite orderAt_storeOrder_ne by done. done.
Qed.

Lemma fillOrder_fields l a b h x :
  sameButSize (orderAt (fillOrder l a b h).1 x) (orderAt h x).
Proof.
  unfold fillOrder.
  destruct (Order_Bid (orderAt h a)); destruct (_ >=? _)%Z; cbn [fst];
    (eapply sameButSize_trans; [apply storeOrder_fields | apply storeOrder_fields]).
Qed.

Lemma fillLoop_fields l o : forall os h ms del x,
  sameButSize (orderAt (fillLoop l o os h ms del).1.1 x) (orderAt h x).
Proof.
  induction os as [| order rest IH]; intros h ms del x; [done |].
  rewrite fillLoop_cons. destruct (IsFilled h o); [done |].
  eapply sameButSize_trans; [apply IH |].
  unfold fillStep. rewrite orderAt_storeLimit. apply fillOrder_fields.
Qed.

Lemma fillLoop_next l o : forall os h ms del,
  next_order (fillLoop l o os h ms del).1.1 = next_order h.
Proof.
  induction os as [| order rest IH]; intros h ms del; [done |].
  rewrite fillLoop_cons. destruct (IsFilled h o); [done |].
  rewrite IH. apply fillStep_next.
Qed.

Lemma DeleteOrder_identity l x h a :
  sameIdentity (orderAt (DeleteOrder l x h) a) (orderAt h a).
Proof.
  destruct (decide (a = x)) as [-> | Hne].
  - rewrite DeleteOrder_order. done.
  - rewrite DeleteOrder_other_orders by done. done.
Qed.

Lemma deletions_identity l del : forall h a,
  sameIdentity (orderAt (foldl (fun h' order => DeleteOrder l order h') h del) a)
               (orderAt h a) /\
  next_order (foldl (fun h' order => DeleteOrder l order h') h del) = next_order h.
Proof.
  induction del as [| x del IH]; intros h a; simpl; [done |].
  destruct (IH (DeleteOrder l x h) a) as [H1 H2]. split.
  - eapply sameIdentity_trans; [exact H1 | apply DeleteOrder_identity].
  - rewrite H2. apply DeleteOrder_next.
Qed.

Lemma Fill_identity l o h a :
  sameIdentity (orderAt (Fill l o h).1 a) (orderAt h a) /\
  next_order (Fill l o h).1 = next_order h.
Proof.
  rewrite Fill_unfold. cbn [fst].
  destruct (deletions_identity l (fillLoop l o (Limit_Orders (limitAt h l)) h [] []).2
              (fillLoop l o (Limit_Orders (limitAt h l)) h [] []).1.1 a) as [H1 H2].
  split.
  - eapply sameIdentity_trans; [exact H1 |].
    apply sameButSize_identity, fillLoop_fields.
  - rewrite H2. apply fillLoop_next.
Qed.

Lemma sweep_identity bid o count : forall k w ms a,
  sameIdentity (orderAt (heap (sweep bid o count k w ms).1) a) (orderAt (heap w) a) /\
  next_order (heap (sweep bid o count k w ms).1) = next_order (heap w).
Proof.
  induction count as [| count IH]; intros k w ms a; simpl; [done |].
  set (limit := Slice_array (opposite bid (book w)) !!! k).
  destruct (Fill_identity limit o (heap w) a) as [H1 H2].
  destruct (Fill limit o (heap w)) as [h1 lms]. simpl in H1, H2.
  destruct (_ =? _)%nat.
  - destruct (IH (S k) (clearLimit (negb bid) limit (mkWorld h1 (book w))) (ms ++ lms) a)
      as [H3 H4].
    rewrite clearLimit_heap in H3, H4. simpl in H3, H4. split.
    + eapply sameIdentity_trans; [exact H3 | exact H1].
    + by rewrite H4.
  - destruct (IH (S k) (mkWorld h1 (book w)) (ms ++ lms) a) as [H3 H4].
    simpl in H3, H4. split.
    + eapply sameIdentity_trans; [exact H3 | exact H1].
    + by rewrite H4.
Qed.

Lemma PlaceMarketOrder_identity clock o w a :
  sameIdentity (orderAt (heap (PlaceMarketOrder clock o w).1) a) (orderAt (heap w) a) /\
  next_order (heap (PlaceMarketOrder clock o w).1) = next_order (heap w).
Proof.
  rewrite PlaceMarketOrder_unfold. cbv zeta.
  destruct (_ >? _)%Z; [done |]. cbn [fst heap].
  pose proof (sweep_identity (Order_Bid (orderAt (heap w) o)) o
                (Slice_len (opposite (Order_Bid (orderAt (heap w) o))
                              (book (sortedWorld (Order_Bid (orderAt (heap w) o)) w))))
                0 (sortedWorld (Order_Bid (orderAt (heap w) o)) w) [] a) as H.
  rewrite sortedWorld_heap in H. exact H.
Qed.

Lemma PlaceLimitOrder_heap price o w :
  exists l h1,
    heap (PlaceLimitOrder price o w) = AddOrder l o h1 /\
    (forall a, orderAt h1 a = orderAt (heap w) a) /\
    next_order h1 = next_order (heap w).
Proof.
  destruct (ownLimits (Order_Bid (orderAt (heap w) o)) (book w) !! price) as [l |] eqn:E.
  - exists l, (heap w). by destruct (PlaceLimitOrder_found price o w l E) as [-> _].
  - exists (next_limit (heap w)), (NewLimit price (heap w)).1.
    by destruct (PlaceLimitOrder_new price o w E) as [-> _].
Qed.

Lemma PlaceLimitOrder_identity price o w a :
  sameIdentity (orderAt (heap (PlaceLimitOrder price o w)) a) (orderAt (heap w) a) /\
  next_order (heap (PlaceLimitOrder price o w)) = next_order (heap w).
Proof.
  destruct (PlaceLimitOrder_heap price o w) as (l & h1 & -> & Ho & Hn).
  split; [| exact Hn].
  rewrite AddOrder_orderAt. destruct (decide (a = o)) as [-> |]; rewrite Ho; done.
Qed.

Lemma CancelOrder_heap o w :
  heap (CancelOrder o w).1 =
    match Order_Limit (orderAt (heap w) o) with
    | Some l => DeleteOrder l o (heap w)
    | None => heap w
    end.
Proof.
  unfold CancelOrder. destruct (Order_Limit (orderAt (heap w) o)) as [l |]; [| done].
  destruct (_ =? _)%nat; cbn [fst]; [by rewrite clearLimit_heap | done].
Qed.

Lemma CancelOrder_identity o w a :
  sameIdentity (orderAt (heap (CancelOrder o w).1) a) (orderAt (heap w) a) /\
  next_order (heap (CancelOrder o w).1) = next_order (heap w).
Proof.
  rewrite CancelOrder_heap. destruct (Order_Limit (orderAt (heap w) o)) as [l |]; [| done].
  split; [apply DeleteOrder_identity | apply DeleteOrder_next].
Qed.

Lemma step_identity w x a :
  a < next_order (heap w) ->
  sameIdentity (orderAt (heap (step w x)) a) (orderAt (heap w) a) /\
  a < next_order (heap (step w x)).
Proof.
  intros Ha.
  assert (Hnew : forall bid size userID id ts,
            orderAt (NewOrder bid size userID id ts (heap w)).1 a = orderAt (heap w) a).
  { intros. rewrite NewOrder_orderAt. destruct (decide _); [lia | done]. }
  destruct x as [price bid size userID id ts | clock bid size userID id ts | o]; cbn [step].
  - rewrite placeNewLimit_eq. cbn [fst].
    destruct (PlaceLimitOrder_identity price (next_order (heap w))
                (mkWorld (NewOrder bid size userID id ts (heap w)).1 (book w)) a) as [H1 H2].
    cbn [heap] in H1, H2. rewrite Hnew in H1. split; [exact H1 |].
    rewrite H2. simpl. lia.
  - rewrite placeNewMarket_eq. cbn [fst].
    destruct (PlaceMarketOrder_identity clock (next_order (heap w))
                (mkWorld (NewOrder bid size userID id ts (heap w)).1 (book w)) a) as [H1 H2].
    cbn [heap] in H1, H2. rewrite Hnew in H1. split; [exact H1 |].
    rewrite H2. simpl. lia.
  - destruct (CancelOrder_identity o w a) as [H1 H2]. split; [exact H1 | lia].
Qed.

Lemma foldl_identity ops : forall w a,
  a < next_order (heap w) ->
  sameIdentity (orderAt (heap (foldl step w ops)) a) (orderAt (heap w) a).
Proof.
  induction ops as [| x ops IH]; intros w a Ha; simpl; [done |].
  destruct (step_identity w x a Ha) as [H1 H2].
  eapply sameIdentity_trans; [by apply IH | exact H1].
Qed.

(** X1.  No operation of the book writes the id, the user, the side or the
    time stamp of an order: once an order has been built, these fields are
    the same after any further sequence of placements, market orders and
    cancellations, whether they return or panic. *)
Theorem order_identity_immutable (ops ops' : list op) (a : oid) :
  a < next_order (heap (run ops)) ->
  let x := orderAt (heap (run ops)) a in
  let y := orderAt (heap (run (ops ++ ops'))) a in
  Order_ID y = Order_ID x /\ Order_UserID y = Order_UserID x /\
  Order_Bid y = Order_Bid x /\ Order_Timestamp y = Order_Timestamp x.
Proof.
  intros Ha. cbv zeta. unfold run. rewrite foldl_app.
  apply (foldl_identity ops' _ a Ha).
Qed.

Lemma order_identity_immutable_witness :
  let x := orderAt (heap (run restingPairOps)) 0 in
  let y := orderAt (heap (run (restingPairOps ++ tradeThenCancelOps))) 0 in
  Order_ID y = Order_ID x /\ Order_UserID y = Order_UserID x /\
  Order_Bid y = Order_Bid x /\ Order_Timestamp y = Order_Timestamp x.
Proof.
  apply (order_identity_immutable restingPairOps tradeThenCancelOps 0).
  vm_compute. lia.
Defined.

(** ** The trade history *)

Lemma PlaceLimitOrder_Trades price o w :
  Trades (book (PlaceLimitOrder price o w)) = Trades (book w) /\
  Orders (book (PlaceLimitOrder price o w))
    = <[Order_ID (orderAt (heap w) o) := o]> (Orders (book w)).
Proof.
  unfold PlaceLimitOrder.
  destruct (Order_Bid (orderAt (heap w) o)); cbn iota;
    destruct (_ !! price); simpl; done.
Qed.

Lemma CancelOrder_Trades o w : Trades (book (CancelOrder o w).1) = Trades (book w).
Proof.
  unfold CancelOrder. destruct (Order_Limit (orderAt (heap w) o)) as [l |]; [| done].
  destruct (_ =? _)%nat; cbn [fst]; [by rewrite clearLimit_Trades | done].
Qed.

Lemma PlaceMarketOrder_Trades clock o w :
  Trades (book (PlaceMarketOrder clock o w).1) =
    Trades (book w) ++
    if (Order_Size (orderAt (heap w) o) >? availableVolume o w)%Z then []
    else recordTrades clock (Order_Bid (orderAt (heap w) o)) (marketMatches o w).
Proof.
  rewrite PlaceMarketOrder_unfold. cbv zeta.
  destruct (_ >? _)%Z; cbn [fst]; [by rewrite app_nil_r |].
  cbn [book withTrades Trades].
  rewrite sweep_Trades, sortedWorld_Trades.
  destruct (sweep_identity (Order_Bid (orderAt (heap w) o)) o
              (Slice_len (opposite (Order_Bid (orderAt (heap w) o))
                            (book (sortedWorld (Order_Bid (orderAt (heap w) o)) w))))
              0 (sortedWorld (Order_Bid (orderAt (heap w) o)) w) [] o) as [(_ & _ & Hb & _) _].
  rewrite sortedWorld_heap in Hb. rewrite Hb. reflexivity.
Qed.

Lemma PlaceMarketOrder_matches clock o w ms :
  (PlaceMarketOrder clock o w).2 = Returned ms ->
  ms = marketMatches o w /\
  (Order_Size (orderAt (heap w) o) >? availableVolume o w)%Z = false.
Proof.
  rewrite PlaceMarketOrder_unfold. cbv zeta.
  destruct (_ >? _)%Z; cbn [snd]; [discriminate |].
  destruct (_ ++ _); [discriminate |]. intros H. injection H as <-. done.
Qed.

Lemma step_Trades w x :
  Trades (book w) `prefix_of` Trades (book (step w x)).
Proof.
  destruct x as [price bid size userID id ts | clock bid size userID id ts | o]; cbn [step].
  - rewrite placeNewLimit_eq. cbn [fst].
    by rewrite (proj1 (PlaceLimitOrder_Trades _ _ _)).
  - rewrite placeNewMarket_eq. cbn [fst]. rewrite PlaceMarketOrder_Trades.
    cbn [book]. by apply prefix_app_r.
  - by rewrite CancelOrder_Trades.
Qed.

Lemma foldl_Trades ops : forall w,
  Trades (book w) `prefix_of` Trades (book (foldl step w ops)).
Proof.
  induction ops as [| x ops IH]; intros w; simpl; [done |].
  etrans; [apply step_Trades | apply IH].
Qed.

(** X2.  The trade history only grows, and only by market orders: after any
    further operations the trades recorded so far are a prefix of the
    history, and neither a limit placement nor a cancellation changes it. *)
Theorem trades_append_only (ops ops' : list op) (w : World)
    (price : Z) (bid : bool) (size userID id ts : Z) (o : oid) :
  Trades (book (run ops)) `prefix_of` Trades (book (run (ops ++ ops'))) /\
  Trades (book (step w (OpLimit price bid size userID id ts))) = Trades (book w) /\
  Trades (book (step w (OpCancel o))) = Trades (book w).
Proof.
  split; [| split].
  - unfold run. rewrite foldl_app. apply foldl_Trades.
  - cbn [step]. rewrite placeNewLimit_eq. cbn [fst].
    by rewrite (proj1 (PlaceLimitOrder_Trades _ _ _)).
  - apply CancelOrder_Trades.
Qed.

(** X3.  When [PlaceMarketOrder] returns, it has appended one trade per
    match, in the order of the matches: the trade has the price and the
    filled size of the match, the side of the incoming order, and the time
    read for it. *)
Theorem PlaceMarketOrder_records_trades
    (clock : nat -> Z) (o : oid) (w : World) (ms : list Match) :
  (PlaceMarketOrder clock o w).2 = Returned ms ->
  let w' := (PlaceMarketOrder clock o w).1 in
  let bid := Order_Bid (orderAt (heap w) o) in
  Trades (book w') =
    Trades (book w) ++
    imap (fun i m => mkTrade (Match_Price m) (Match_SizeFilled m) bid (clock i)) ms /\
  length (Trades (book w')) = length (Trades (book w)) + length ms.
Proof.
  intros Hr. cbv zeta.
  destruct (PlaceMarketOrder_matches clock o w ms Hr) as [-> Hle].
  rewrite PlaceMarketOrder_Trades, Hle. split; [reflexivity |].
  by rewrite length_app, recordTrades_length.
Qed.

Lemma PlaceMarketOrder_records_trades_witness :
  let w' := (PlaceMarketOrder zeroClock 4 multiFillTaker).1 in
  let bid := Order_Bid (orderAt (heap multiFillTaker) 4) in
  Trades (book w') =
    Trades (book multiFillTaker) ++
    imap (fun i m => mkTrade (Match_Price m) (Match_SizeFilled m) bid (zeroClock i))
      [mkMatch 4 3 5 10000; mkMatch 4 2 5 9000] /\
  length (Trades (book w')) = length (Trades (book multiFillTaker)) + 2.
Proof.
  apply (PlaceMarketOrder_records_trades zeroClock 4 multiFillTaker
           [mkMatch 4 3 5 10000; mkMatch 4 2 5 9000]).
  vm_compute. reflexivity.
Defined.

(** ** Asks and Bids *)

(** X4.  [Asks] and [Bids] reorder the levels of their side in place and do
    nothing else: the slice holds the same levels, by ascending price for
    the asks and by descending price for the bids; the store, the other
    side, the indices and the trades are as before. *)
Theorem Asks_Bids_sorted (w : World) :
  Slice_len (asks (book w)) <= length (Slice_array (asks (book w))) ->
  Slice_len (bids (book w)) <= length (Slice_array (bids (book w))) ->
  (view (asks (book (Asks w))) ≡ₚ view (asks (book w)) /\
   StronglySorted (keyLe (fun l => Limit_Price (limitAt (heap w) l)))
     (view (asks (book (Asks w)))) /\
   Asks w = mkWorld (heap w)
              (mkOrderbook (asks (book (Asks w))) (bids (book w)) (Trades (book w))
                 (AskLimits (book w)) (BidLimits (book w)) (Orders (book w)))) /\
  (view (bids (book (Bids w))) ≡ₚ view (bids (book w)) /\
   StronglySorted (keyLe (fun l => (- Limit_Price (limitAt (heap w) l))%Z))
     (view (bids (book (Bids w)))) /\
   Bids w = mkWorld (heap w)
              (mkOrderbook (asks (book w)) (bids (book (Bids w))) (Trades (book w))
                 (AskLimits (book w)) (BidLimits (book w)) (Orders (book w)))).
Proof.
  intros Ha Hb. split.
  - destruct (view_sortSlice (lessAsk (heap w)) (asks (book w)) Ha) as [Hv _].
    assert (Hp : view (asks (book (Asks w))) ≡ₚ view (asks (book w))).
    { simpl. rewrite Hv. apply sortBy_perm. }
    split; [exact Hp |]. split; [| reflexivity].
    simpl. rewrite Hv. apply sortBy_sorted. apply lessAsk_key.
  - destruct (view_sortSlice (lessBid (heap w)) (bids (book w)) Hb) as [Hv _].
    assert (Hp : view (bids (book (Bids w))) ≡ₚ view (bids (book w))).
    { simpl. rewrite Hv. apply sortBy_perm. }
    split; [exact Hp |]. split; [| reflexivity].
    simpl. rewrite Hv. apply sortBy_sorted. apply lessBid_key.
Qed.

Lemma Asks_Bids_sorted_witness :
  map (fun l => Limit_Price (limitAt (heap multiFillBook) l))
      (view (bids (book (Bids multiFillBook)))) = [10000; 9000; 5000]%Z /\
  view (bids (book (Bids multiFillBook))) ≡ₚ view (bids (book multiFillBook)).
Proof.
  destruct (Asks_Bids_sorted multiFillBook) as [_ (Hp & _ & _)].
  - vm_compute. lia.
  - vm_compute. lia.
  - split; [vm_compute; reflexivity | exact Hp].
Defined.

(** ** The levels and the residents of a reachable book *)

(** X5.  On a book built by operations whose limit orders have a positive
    size, a side holds each of its levels once, holds one level per price,
    and shares no level with the other side. *)
Theorem levels_unique (ops : list op) (b : bool) :
  Forall positiveLimit ops ->
  let w := run ops in
  NoDup (view (ownSide b (book w))) /\
  NoDup (map (fun l => Limit_Price (limitAt (heap w) l)) (view (ownSide b (book w)))) /\
  (forall l, l ∈ view (ownSide b (book w)) -> l ∉ view (ownSide (negb b) (book w))).
Proof.
  intros Hops w. pose proof (bookInv_run ops Hops) as Hb. fold w in Hb.
  pose proof (bi_side w Hb b) as Hs.
  split; [apply (si_nodup b w Hs) |]. split.
  - apply NoDup_fmap_2_strong; [| apply (si_nodup b w Hs)].
    intros l1 l2 H1 H2 Hp.
    assert (E1 : ownLimits b (book w) !! Limit_Price (limitAt (heap w) l1) = Some l1).
    { by apply (si_index b w Hs). }
    assert (E2 : ownLimits b (book w) !! Limit_Price (limitAt (heap w) l1) = Some l2).
    { by apply (si_index b w Hs). }
    congruence.
  - intros l Hl. by apply (sides_disjoint w b l Hs (bi_side w Hb (negb b))).
Qed.

Lemma levels_unique_witness :
  let w := run multiFillOps in
  NoDup (view (ownSide true (book w))) /\
  NoDup (map (fun l => Limit_Price (limitAt (heap w) l)) (view (ownSide true (book w)))) /\
  (forall l, l ∈ view (ownSide true (book w)) -> l ∉ view (ownSide false (book w))).
Proof.
  apply (levels_unique multiFillOps true).
  unfold multiFillOps. repeat constructor.
Defined.

(** X6.  On such a book an order points to a level exactly when it is
    resident there, and an order that rests is allocated, rests once, has
    size left, and its level is a level of the slice of its own side. *)
Theorem resting_orders_consistent (ops : list op) (a : oid) (l : lid) :
  Forall positiveLimit ops ->
  let w := run ops in
  (Order_Limit (orderAt (heap w) a) = Some l <-> a ∈ Limit_Orders (limitAt (heap w) l)) /\
  (a ∈ Limit_Orders (limitAt (heap w) l) ->
   l ∈ view (ownSide (Order_Bid (orderAt (heap w) a)) (book w)) /\
   (0 < Order_Size (orderAt (heap w) a))%Z /\
   a < next_order (heap w) /\
   NoDup (Limit_Orders (limitAt (heap w) l)) /\
   forall l', a ∈ Limit_Orders (limitAt (heap w) l') -> l' = l).
Proof.
  intros Hops w. pose proof (bookInv_run ops Hops) as [[Hi Hx] Hside Hlisted]. fold w in Hi, Hx, Hside, Hlisted.
  split; [symmetry; apply (inv_back _ Hi) |].
  intros Hin.
  destruct (Hlisted l) as [b Hl]; [intros E; rewrite E in Hin; by apply elem_of_nil in Hin |].
  destruct (si_residents b w (Hside b) l a Hl Hin) as [Hbid Hpos].
  rewrite Hbid. split; [exact Hl |]. split; [exact Hpos |].
  split; [apply (heapInv_resident_allocated _ _ _ Hi Hin) |].
  split; [apply (inv_nodup _ Hi) |].
  intros l' Hin'. apply (inv_back _ Hi) in Hin, Hin'. congruence.
Qed.

Lemma resting_orders_consistent_witness :
  let w := run multiFillOps in
  (Order_Limit (orderAt (heap w) 2) = Some 1 <-> 2 ∈ Limit_Orders (limitAt (heap w) 1)) /\
  (2 ∈ Limit_Orders (limitAt (heap w) 1) ->
   1 ∈ view (ownSide (Order_Bid (orderAt (heap w) 2)) (book w)) /\
   (0 < Order_Size (orderAt (heap w) 2))%Z /\
   2 < next_order (heap w) /\
   NoDup (Limit_Orders (limitAt (heap w) 1)) /\
   forall l', 2 ∈ Limit_Orders (limitAt (heap w) l') -> l' = 1).
Proof.
  apply (resting_orders_consistent multiFillOps 2 1).
  unfold multiFillOps. repeat constructor.
Defined.

(** ** The total volume of a side through the operations *)

Lemma volumeOf_app h ls ls' : volumeOf h (ls ++ ls') = (volumeOf h ls + volumeOf h ls')%Z.
Proof. induction ls as [| l ls IH]; simpl; [done |]. rewrite IH. lia. Qed.

Lemma volumeOf_agree h h' ls :
  (forall l, l ∈ ls -> Limit_TotalVolume (limitAt h' l) = Limit_TotalVolume (limitAt h l)) ->
  volumeOf h' ls = volumeOf h ls.
Proof.
  induction ls as [| l ls IH]; intros H; simpl; [done |].
  rewrite H by (by left). rewrite IH; [done |]. intros l' Hl'. apply H. by right.
Qed.

Lemma volumeOf_update h h' ls l :
  NoDup ls -> l ∈ ls ->
  (forall l', l' ∈ ls -> l' ≠ l ->
     Limit_TotalVolume (limitAt h' l') = Limit_TotalVolume (limitAt h l')) ->
  volumeOf h' ls =
    (volumeOf h ls - Limit_TotalVolume (limitAt h l) + Limit_TotalVolume (limitAt h' l))%Z.
Proof.
  intros Hnd Hin Hsame.
  apply elem_of_Permutation in Hin as [ls' Hp].
  rewrite Hp in Hnd. apply NoDup_cons in Hnd as [Hl _].
  rewrite (volumeOf_perm h' _ _ Hp), (volumeOf_perm h _ _ Hp). simpl.
  rewrite (volumeOf_agree h h' ls'); [lia |].
  intros l' Hl'. apply Hsame; [rewrite Hp; by right | by intros ->].
Qed.

Lemma side_volume b w :
  totalVolume (heap w) (ownSide b (book w)) = if b then BidTotalVolume w else AskTotalVolume w.
Proof. by destruct b. Qed.

(** What [CancelOrder] does with an order that rests in level [l]. *)
Lemma CancelOrder_level_spec o w l :
  bookInv w -> Order_Limit (orderAt (heap w) o) = Some l ->
  let b := Order_Bid (orderAt (heap w) o) in
  let w' := (CancelOrder o w).1 in
  (CancelOrder o w).2 = Returned tt /\
  heap w' = DeleteOrder l o (heap w) /\
  Orders (book w') = delete (Order_ID (orderAt (heap w) o)) (Orders (book w)) /\
  l ∈ view (ownSide b (book w)) /\
  Limit_Orders (limitAt (heap w) l) ≡ₚ o :: Limit_Orders (limitAt (heap w') l) /\
  ownSide (negb b) (book w') = ownSide (negb b) (book w) /\
  (if decide (Limit_Orders (limitAt (heap w') l) = [])
   then view (ownSide b (book w)) ≡ₚ l :: view (ownSide b (book w'))
   else ownSide b (book w') = ownSide b (book w)).
Proof.
  intros Hb E. cbv zeta.
  destruct Hb as [[Hi Hx] Hside Hlisted].
  assert (Hin : o ∈ Limit_Orders (limitAt (heap w) l)) by (by apply (inv_back _ Hi)).
  destruct (Hlisted l) as [b Hl];
    [intros E'; rewrite E' in Hin; by apply elem_of_nil in Hin |].
  destruct (si_residents b w (Hside b) l o Hl Hin) as [Hbid _].
  rewrite Hbid.
  pose proof (DeleteOrder_present l o (heap w) (inv_nodup _ Hi l) Hin) as Hperm.
  unfold CancelOrder. rewrite E.
  set (h1 := DeleteOrder l o (heap w)) in *.
  assert (Hbid1 : Order_Bid (orderAt h1 o) = b) by (subst h1; by rewrite DeleteOrder_bid).
  assert (Hid1 : Order_ID (orderAt h1 o) = Order_ID (orderAt (heap w) o)).
  { subst h1. by rewrite DeleteOrder_order. }
  rewrite Hbid1, Hid1.
  set (bk1 := mkOrderbook (asks (book w)) (bids (book w)) (Trades (book w))
                (AskLimits (book w)) (BidLimits (book w))
                (delete (Order_ID (orderAt (heap w) o)) (Orders (book w)))).
  assert (Hsides : forall b', ownSide b' bk1 = ownSide b' (book w)).
  { intros b'. by destruct b'. }
  destruct (Nat.eqb_spec (length (Limit_Orders (limitAt h1 l))) 0) as [He | Hne];
    cbn [fst snd].
  - apply length_zero_iff_nil in He.
    rewrite clearLimit_heap, clearLimit_Orders, clearLimit_ownSide_other. cbn [heap book].
    rewrite decide_True by done.
    split; [done |]. split; [done |]. split; [done |]. split; [exact Hl |].
    split; [exact Hperm |]. split; [apply Hsides |].
    rewrite clearLimit_ownSide. cbn [book]. rewrite Hsides.
    destruct (removeLoop_present l (Slice_array (ownSide b (book w)))
                (Slice_len (ownSide b (book w)))
                (si_len b w (Hside b)) (si_nodup b w (Hside b)) Hl) as (p & _ & _ & Hr & Hp).
    rewrite Hr. exact Hp.
  - cbn [heap book]. rewrite decide_False by (intros E'; by rewrite E' in Hne).
    split; [done |]. split; [done |]. split; [done |]. split; [exact Hl |].
    split; [exact Hperm |]. split; apply Hsides.
Qed.

Lemma CancelOrder_volume o w l :
  bookInv w -> Order_Limit (orderAt (heap w) o) = Some l ->
  let b := Order_Bid (orderAt (heap w) o) in
  let w' := (CancelOrder o w).1 in
  totalVolume (heap w') (ownSide b (book w'))
    = (totalVolume (heap w) (ownSide b (book w)) - Order_Size (orderAt (heap w) o))%Z /\
  totalVolume (heap w') (ownSide (negb b) (book w'))
    = totalVolume (heap w) (ownSide (negb b) (book w)).
Proof.
  intros Hb E. cbv zeta.
  destruct (CancelOrder_level_spec o w l Hb E)
    as (_ & Hh & _ & Hl & Hperm & Hother & Hown).
  destruct Hb as [[Hi Hx] Hside Hlisted].
  set (b := Order_Bid (orderAt (heap w) o)) in *.
  set (w' := (CancelOrder o w).1) in *.
  assert (Hlim : forall l', l' ≠ l -> limitAt (heap w') l' = limitAt (heap w) l').
  { intros l' Hl'. rewrite Hh. by apply DeleteOrder_other_limits. }
  assert (Hvol : Limit_TotalVolume (limitAt (heap w') l)
                 = (Limit_TotalVolume (limitAt (heap w) l) - Order_Size (orderAt (heap w) o))%Z).
  { rewrite Hh. apply DeleteOrder_volume. }
  rewrite !totalVolume_volumeOf. split.
  - destruct (decide (Limit_Orders (limitAt (heap w') l) = [])) as [He | Hne].
    + assert (Hnd : NoDup (l :: view (ownSide b (book w')))).
      { rewrite <- Hown. apply (si_nodup b w (Hside b)). }
      apply NoDup_cons in Hnd as [Hgone _].
      rewrite (volumeOf_perm (heap w) _ _ Hown). simpl.
      rewrite (volumeOf_agree (heap w) (heap w')).
      2:{ intros l' Hl'. rewrite Hlim; [done | by intros ->]. }
      rewrite He in Hperm.
      rewrite (inv_volume _ Hi l), (sumSizes_perm _ _ _ Hperm). simpl. lia.
    + rewrite Hown.
      rewrite (volumeOf_update (heap w) (heap w') _ l (si_nodup b w (Hside b)) Hl).
      * rewrite Hvol. lia.
      * intros l' _ Hl'. by rewrite Hlim.
  - rewrite Hother. apply volumeOf_agree. intros l' Hl'.
    rewrite Hlim; [done |]. intros ->.
    by apply (sides_disjoint w b l (Hside b) (Hside (negb b))).
Qed.

(** X7.  On a book built by operations whose limit orders have a positive
    size, cancelling an order that rests in a level returns and takes the
    order out of its level and out of the id index; the level is evicted
    from the slice exactly when no other order rests there, and the other
    orders and the other levels are as before.  When the sizes are whole
    numbers whose absolute values add up to at most 2^53, on which the
    float64 arithmetic of the code is exact, the total volume of its side
    goes down by its remaining size and that of the other side is as
    before. *)
Theorem CancelOrder_resident (ops : list op) (o : oid) (l : lid) :
  Forall positiveLimit ops ->
  let w := run ops in
  Order_Limit (orderAt (heap w) o) = Some l ->
  let b := Order_Bid (orderAt (heap w) o) in
  let size := Order_Size (orderAt (heap w) o) in
  let w' := (CancelOrder o w).1 in
  (CancelOrder o w).2 = Returned tt /\
  orderAt (heap w') o = Order_withLimit (orderAt (heap w) o) None /\
  (forall l', o ∉ Limit_Orders (limitAt (heap w') l')) /\
  Limit_Orders (limitAt (heap w) l) ≡ₚ o :: Limit_Orders (limitAt (heap w') l) /\
  Orders (book w') = delete (Order_ID (orderAt (heap w) o)) (Orders (book w)) /\
  (exactSizes ops ->
   BidTotalVolume w' = (BidTotalVolume w - if b then size else 0)%Z /\
   AskTotalVolume w' = (AskTotalVolume w - if b then 0 else size)%Z) /\
  (l ∈ view (ownSide b (book w')) <-> Limit_Orders (limitAt (heap w') l) ≠ []) /\
  (forall a, a ≠ o -> orderAt (heap w') a = orderAt (heap w) a) /\
  (forall l', l' ≠ l -> limitAt (heap w') l' = limitAt (heap w) l').
Proof.
  intros Hops w E. cbv zeta.
  pose proof (bookInv_run ops Hops) as Hb. fold w in Hb.
  destruct (CancelOrder_level_spec o w l Hb E)
    as (Hr & Hh & Hidx & Hl & Hperm & Hother & Hown).
  destruct (CancelOrder_volume o w l Hb E) as [Hv1 Hv2].
  pose proof (bookInv_CancelOrder o w Hb) as Hb'.
  set (b := Order_Bid (orderAt (heap w) o)) in *.
  set (w' := (CancelOrder o w).1) in *.
  destruct Hb' as [[Hi' Hx'] Hside' Hlisted'].
  assert (Ho : orderAt (heap w') o = Order_withLimit (orderAt (heap w) o) None).
  { rewrite Hh. apply DeleteOrder_order. }
  split; [exact Hr |]. split; [exact Ho |].
  split; [intros l'; apply (heapInv_not_resident _ _ _ Hi'); by rewrite Ho |].
  split; [exact Hperm |]. split; [exact Hidx |].
  rewrite !side_volume in Hv1, Hv2.
  split; [intros _; split; destruct b; simpl in *; lia |].
  split; [| split].
  - split; [apply (si_nonempty b w' (Hside' b)) |].
    intros Hne. destruct (Hlisted' l Hne) as [b' Hb'].
    destruct (decide (b' = b)) as [-> | Hbb]; [done |].
    assert (b' = negb b) as -> by (destruct b', b; done).
    rewrite Hother in Hb'. exfalso.
    by apply (sides_disjoint w b l (bi_side w Hb b) (bi_side w Hb (negb b))).
  - intros a Ha. rewrite Hh. by apply DeleteOrder_other_orders.
  - intros l' Hl'. rewrite Hh. by apply DeleteOrder_other_limits.
Qed.

Lemma CancelOrder_resident_witness :
  let w := run multiFillOps in
  let w' := (CancelOrder 3 w).1 in
  (CancelOrder 3 w).2 = Returned tt /\
  BidTotalVolume w' = (BidTotalVolume w - 5)%Z /\
  AskTotalVolume w' = (AskTotalVolume w - 0)%Z /\
  (2 ∈ view (ownSide true (book w')) <-> Limit_Orders (limitAt (heap w') 2) ≠ []).
Proof.
  destruct (CancelOrder_resident multiFillOps 3 2)
    as (H1 & _ & _ & _ & _ & H6 & H8 & _).
  - unfold multiFillOps. repeat constructor.
  - vm_compute. reflexivity.
  - destruct H6 as [H6 H7]; [vm_compute; discriminate |].
    split; [exact H1 |]. split; [exact H6 |]. split; [exact H7 | exact H8].
Defined.

Lemma indexed_view b w l :
  bookInv w -> l ∈ view (ownSide b (book w)) -> l < next_limit (heap w).
Proof.
  intros [[Hi Hx] Hside _] Hl.
  apply (Hx b (Limit_Price (limitAt (heap w) l)) l).
  by apply (si_index b w (Hside b)).
Qed.

Lemma PlaceLimitOrder_volume price o w :
  bookInv w ->
  let b := Order_Bid (orderAt (heap w) o) in
  let w' := PlaceLimitOrder price o w in
  totalVolume (heap w') (ownSide b (book w'))
    = (totalVolume (heap w) (ownSide b (book w)) + Order_Size (orderAt (heap w) o))%Z /\
  totalVolume (heap w') (ownSide (negb b) (book w'))
    = totalVolume (heap w) (ownSide (negb b) (book w)).
Proof.
  intros Hb. cbv zeta. set (b := Order_Bid (orderAt (heap w) o)).
  pose proof (bi_side w Hb) as Hside.
  rewrite !totalVolume_volumeOf.
  destruct (ownLimits b (book w) !! price) as [l |] eqn:E.
  - destruct (PlaceLimitOrder_found price o w l E) as [Hh Hs].
    destruct (Hs b) as [-> _]. destruct (Hs (negb b)) as [-> _]. rewrite Hh.
    apply (si_index b w (Hside b)) in E as [Hl _].
    split.
    + rewrite (volumeOf_update (heap w) (AddOrder l o (heap w)) _ l
                 (si_nodup b w (Hside b)) Hl).
      * rewrite AddOrder_limitAt, decide_True by done. simpl. lia.
      * intros l' _ Hl'. by rewrite AddOrder_limitAt, decide_False.
    + apply volumeOf_agree. intros l' Hl'.
      rewrite AddOrder_limitAt, decide_False; [done |]. intros ->.
      by apply (sides_disjoint w b l (Hside b) (Hside (negb b))).
  - destruct (PlaceLimitOrder_new price o w E) as (Hh & Hs & _ & Hs' & _).
    fold b in Hs, Hs'. rewrite Hh, Hs, Hs'.
    destruct (view_appendSlice (ownSide b (book w)) (next_limit (heap w))
                (si_len b w (Hside b))) as [-> _].
    assert (Hold : forall b' l', l' ∈ view (ownSide b' (book w)) ->
              limitAt (AddOrder (next_limit (heap w)) o (NewLimit price (heap w)).1) l'
              = limitAt (heap w) l').
    { intros b' l' Hl'. pose proof (indexed_view b' w l' Hb Hl') as Hlt.
      rewrite AddOrder_limitAt, decide_False by lia.
      rewrite NewLimit_limitAt, decide_False by lia. done. }
    split.
    + assert (Hnew : Limit_TotalVolume
                       (limitAt (AddOrder (next_limit (heap w)) o (NewLimit price (heap w)).1)
                          (next_limit (heap w)))
                     = Order_Size (orderAt (heap w) o)).
      { rewrite AddOrder_limitAt, decide_True by done. cbn [Limit_TotalVolume].
        rewrite NewLimit_limitAt, decide_True by done. cbn [Limit_TotalVolume].
        change (orderAt (NewLimit price (heap w)).1 o) with (orderAt (heap w) o). lia. }
      rewrite volumeOf_app.
      rewrite (volumeOf_agree (heap w)) by (intros l' Hl'; by rewrite (Hold b)).
      unfold volumeOf at 2. cbn [foldr]. rewrite Hnew. lia.
    + apply volumeOf_agree. intros l' Hl'. by rewrite (Hold (negb b)).
Qed.

Lemma placeNewLimit_volume price bid size userID id ts w :
  bookInv w ->
  let w' := (placeNewLimit price bid size userID id ts w).1 in
  BidTotalVolume w' = (BidTotalVolume w + if bid then size else 0)%Z /\
  AskTotalVolume w' = (AskTotalVolume w + if bid then 0 else size)%Z.
Proof.
  intros Hb. cbv zeta. rewrite placeNewLimit_eq. cbn [fst].
  pose proof (bookInv_NewOrder bid size userID id ts w Hb) as Hb0.
  destruct (PlaceLimitOrder_volume price (next_order (heap w)) _ Hb0) as [H1 H2].
  cbn [heap book] in H1, H2. rewrite NewOrder_new in H1, H2. cbn [Order_Bid Order_Size] in H1, H2.
  rewrite !side_volume in H1, H2.
  assert (Hv : forall s, totalVolume (NewOrder bid size userID id ts (heap w)).1 s
                         = totalVolume (heap w) s).
  { intros s. rewrite !totalVolume_volumeOf. by apply volumeOf_agree. }
  unfold BidTotalVolume, AskTotalVolume in *. cbn [heap book] in H1, H2.
  rewrite !Hv in H1, H2.
  destruct bid; simpl in *; lia.
Qed.

(** X8.  On a book built by operations whose limit orders have a positive
    size, placing a new limit order leaves the trades as they are; when the
    sizes, that of the new order included, are whole numbers whose absolute
    values add up to at most 2^53, on which the float64 arithmetic of the
    code is exact, it adds its size to the total volume of its side,
    whether it joins a level or opens one, and leaves the total volume of
    the other side as it is. *)
Theorem PlaceLimitOrder_adds_volume
    (ops : list op) (price : Z) (bid : bool) (size userID id ts : Z) :
  Forall positiveLimit ops ->
  let w := run ops in
  let w' := (placeNewLimit price bid size userID id ts w).1 in
  (exactWith ops size ->
   BidTotalVolume w' = (BidTotalVolume w + if bid then size else 0)%Z /\
   AskTotalVolume w' = (AskTotalVolume w + if bid then 0 else size)%Z) /\
  Trades (book w') = Trades (book w).
Proof.
  intros Hops w. cbv zeta.
  split;
    [intros _; exact (placeNewLimit_volume price bid size userID id ts w (bookInv_run ops Hops)) |].
  rewrite placeNewLimit_eq. cbn [fst].
  by rewrite (proj1 (PlaceLimitOrder_Trades _ _ _)).
Qed.

Lemma PlaceLimitOrder_adds_volume_witness :
  let w := run multiFillOps in
  let w' := (placeNewLimit 9000 true 7 0 106 6 w).1 in
  BidTotalVolume w' = (BidTotalVolume w + 7)%Z /\
  AskTotalVolume w' = (AskTotalVolume w + 0)%Z /\
  Trades (book w') = Trades (book w).
Proof.
  destruct (PlaceLimitOrder_adds_volume multiFillOps 9000 true 7 0 106 6) as [H1 H2].
  - unfold multiFillOps. repeat constructor.
  - destruct H1 as [H1 H3]; [vm_compute; discriminate |].
    split; [exact H1 |]. split; [exact H3 | exact H2].
Defined.

(** ** A level: adding an order and taking it out again *)

Lemma oldestFirst_same h h' os :
  (forall a, timestamp h' a = timestamp h a) -> oldestFirst h os -> oldestFirst h' os.
Proof.
  intros Hts. unfold oldestFirst. induction 1 as [| x l Hs IH Hall]; constructor; [done |].
  eapply Forall_impl; [exact Hall |]. unfold keyLe. intros y. by rewrite !Hts.
Qed.

Lemma removeLoop_last x os :
  x ∉ os ->
  removeLoop x (length (os ++ [x])) 0 (os ++ [x]) (length (os ++ [x])) = (os ++ [x], length os).
Proof.
  intros Hx.
  assert (Hlast : (os ++ [x]) !! length os = Some x).
  { rewrite lookup_app_r by lia. by rewrite Nat.sub_diag. }
  rewrite (removeLoop_found x _ 0 (os ++ [x]) _ (length os)).
  - rewrite length_app. simpl.
    replace (length os + 1 - 1) with (length os) by lia.
    rewrite (list_lookup_total_correct _ _ _ Hlast).
    by rewrite list_insert_id.
  - done.
  - rewrite length_app. simpl. lia.
  - exact Hlast.
  - intros j Hj Hne Hjx. rewrite length_app in Hj. simpl in Hj.
    rewrite lookup_app_l in Hjx by lia. apply Hx. by eapply list_elem_of_lookup_2.
  - rewrite length_app. simpl. lia.
Qed.

(** [AddOrder] and then [DeleteOrder] of the same order on one level. *)
Lemma AddOrder_DeleteOrder_level (l : lid) (o : oid) (h : Heap) :
  o ∉ Limit_Orders (limitAt h l) ->
  let h' := DeleteOrder l o (AddOrder l o h) in
  Limit_Price (limitAt h' l) = Limit_Price (limitAt h l) /\
  Limit_TotalVolume (limitAt h' l) = Limit_TotalVolume (limitAt h l) /\
  Limit_Orders (limitAt h' l) ≡ₚ Limit_Orders (limitAt h l) /\
  oldestFirst h' (Limit_Orders (limitAt h' l)) /\
  (oldestFirst h (Limit_Orders (limitAt h l)) -> limitAt h' l = limitAt h l) /\
  orderAt h' o = Order_withLimit (orderAt h o) None /\
  (forall a, a ≠ o -> orderAt h' a = orderAt h a) /\
  (forall l', l' ≠ l -> limitAt h' l' = limitAt h l').
Proof.
  intros Hx h'.
  assert (Hts : forall a hx, timestamp (storeOrder (AddOrder l o h) o
                                (Order_withLimit (orderAt (AddOrder l o h) o) hx)) a
                             = timestamp h a).
  { intros a hx. unfold timestamp.
    destruct (decide (a = o)) as [-> | Hne].
    - rewrite orderAt_storeOrder_eq, AddOrder_orderAt, decide_True by done. done.
    - rewrite orderAt_storeOrder_ne, AddOrder_orderAt, decide_False by done. done. }
  assert (Hl : limitAt h' l =
               mkLimit (Limit_Price (limitAt h l))
                 (sortBy (lessTimestamp (storeOrder (AddOrder l o h) o
                            (Order_withLimit (orderAt (AddOrder l o h) o) None)))
                    (Limit_Orders (limitAt h l)))
                 (Limit_TotalVolume (limitAt h l))).
  { subst h'. rewrite DeleteOrder_unfold. cbv zeta. rewrite limitAt_storeLimit_eq.
    rewrite AddOrder_size. rewrite AddOrder_limitAt, decide_True by done.
    cbn [Limit_Orders Limit_Price Limit_TotalVolume].
    rewrite (removeLoop_last o _ Hx). cbn [fst snd].
    rewrite take_app_length. f_equal. lia. }
  rewrite Hl. cbn [Limit_Price Limit_TotalVolume Limit_Orders].
  split; [done |]. split; [done |]. split; [apply sortBy_perm |].
  split; [| split; [| split; [| split]]].
  - pose proof (DeleteOrder_sorted l o (AddOrder l o h)) as Hs. fold h' in Hs.
    by rewrite Hl in Hs.
  - intros Hs. rewrite (sortBy_id _ (timestamp (storeOrder (AddOrder l o h) o
                            (Order_withLimit (orderAt (AddOrder l o h) o) None)))).
    + by destruct (limitAt h l).
    + apply lessTimestamp_key.
    + eapply oldestFirst_same; [| exact Hs]. intros a. apply Hts.
  - subst h'. rewrite DeleteOrder_order, AddOrder_orderAt, decide_True by done. done.
  - intros a Ha. subst h'.
    rewrite DeleteOrder_other_orders, AddOrder_orderAt, decide_False by done. done.
  - intros l' Hl'. subst h'.
    rewrite DeleteOrder_other_limits, AddOrder_limitAt, decide_False by done. done.
Qed.

(** X9.  Adding an order to a level in which it does not rest and deleting
    it again leaves the price of the level, leaves the same orders resident,
    held by ascending time stamp, and leaves the order pointing to no
    level; nothing else in the store is written.  When the residents were
    held in the order of pairwise distinct time stamps, they are the very
    same sequence afterwards.  When the cached volume and the size of the
    order are whole numbers whose absolute values add up to at most 2^53,
    so that float64 adds and subtracts them exactly, the cached volume is as
    before. *)
Theorem AddOrder_DeleteOrder_round_trip (l : lid) (o : oid) (h : Heap) :
  o ∉ Limit_Orders (limitAt h l) ->
  let h' := DeleteOrder l o (AddOrder l o h) in
  Limit_Price (limitAt h' l) = Limit_Price (limitAt h l) /\
  (exactSum (Limit_TotalVolume (limitAt h l)) (Order_Size (orderAt h o)) ->
   Limit_TotalVolume (limitAt h' l) = Limit_TotalVolume (limitAt h l)) /\
  Limit_Orders (limitAt h' l) ≡ₚ Limit_Orders (limitAt h l) /\
  oldestFirst h' (Limit_Orders (limitAt h' l)) /\
  (arrivalOrder h (Limit_Orders (limitAt h l)) ->
   Limit_Orders (limitAt h' l) = Limit_Orders (limitAt h l)) /\
  orderAt h' o = Order_withLimit (orderAt h o) None /\
  (forall a, a ≠ o -> orderAt h' a = orderAt h a) /\
  (forall l', l' ≠ l -> limitAt h' l' = limitAt h l').
Proof.
  intros Hx h'.
  destruct (AddOrder_DeleteOrder_level l o h Hx)
    as (H1 & H2 & H3 & H4 & H5 & H6 & H7 & H8).
  fold h' in H1, H2, H3, H4, H5, H6, H7, H8.
  split; [exact H1 |]. split; [intros _; exact H2 |]. split; [exact H3 |].
  split; [exact H4 |]. split; [| split; [exact H6 | split; [exact H7 | exact H8]]].
  intros Hs. by rewrite (H5 (arrivalOrder_oldestFirst h _ Hs)).
Qed.

Lemma AddOrder_DeleteOrder_round_trip_witness :
  let h' := DeleteOrder 0 2 (AddOrder 0 2 twoResidents) in
  Limit_TotalVolume (limitAt h' 0) = Limit_TotalVolume (limitAt twoResidents 0) /\
  Limit_Orders (limitAt h' 0) = Limit_Orders (limitAt twoResidents 0) /\
  orderAt h' 2 = Order_withLimit (orderAt twoResidents 2) None.
Proof.
  destruct (AddOrder_DeleteOrder_round_trip 0 2 twoResidents)
    as (_ & H2 & _ & _ & H5 & H6 & _).
  - by_decide.
  - split; [apply H2; vm_compute; discriminate |]. split; [| exact H6].
    apply H5. vm_compute. repeat constructor; vm_compute; reflexivity.
Defined.

(** ** The parties and the sizes of the matches *)

Lemma fillOrder_parties l a b h :
  Match_Bid (fillOrder l a b h).2 = (if Order_Bid (orderAt h a) then a else b) /\
  Match_Ask (fillOrder l a b h).2 = (if Order_Bid (orderAt h a) then b else a).
Proof.
  unfold fillOrder.
  destruct (Order_Bid (orderAt h a)); destruct (_ >=? _)%Z; done.
Qed.

Lemma fillLoop_matches bid l o : forall os h ms0 del0,
  o ∉ os -> NoDup os ->
  Order_Bid (orderAt h o) = bid -> (0 <= Order_Size (orderAt h o))%Z ->
  (forall a, a ∈ os ->
     Order_Bid (orderAt h a) = negb bid /\ (0 < Order_Size (orderAt h a))%Z) ->
  exists ms',
    (fillLoop l o os h ms0 del0).1.2 = ms0 ++ ms' /\
    Forall (fun m => taker bid m = o /\ maker bid m ∈ os /\
                     (0 < Match_SizeFilled m <= Order_Size (orderAt h (maker bid m)))%Z) ms'.
Proof.
  induction os as [| order rest IH]; intros h ms0 del0 Ho Hnd Hbid Hnn Hres.
  { exists []. by rewrite app_nil_r. }
  rewrite fillLoop_cons. destruct (IsFilled h o) eqn:Hf.
  { exists []. by rewrite app_nil_r. }
  apply IsFilled_false in Hf.
  apply not_elem_of_cons in Ho as [Hne Ho]. apply NoDup_cons in Hnd as [Hfresh Hnd].
  assert (Hne' : order ≠ o) by done.
  destruct (Hres order) as [Hob Hpos]; [by left |].
  destruct (fillStep_sizes l order o h Hne') as (Hsz & Hso & Hsi). cbv zeta in Hsz, Hso, Hsi.
  destruct (fillOrder_parties l order o h) as [Hmb Hma]. rewrite Hob in Hmb, Hma.
  set (m := (fillOrder l order o h).2) in *.
  set (h2 := fillStep l order o h) in *.
  assert (Hm : taker bid m = o /\ maker bid m = order).
  { unfold taker, maker. destruct bid; simpl in *; by rewrite Hmb, Hma. }
  assert (Hfill : (0 < Match_SizeFilled m <= Order_Size (orderAt h order))%Z).
  { rewrite Hsz. destruct (Z.geb_spec (Order_Size (orderAt h order)) (Order_Size (orderAt h o))); lia. }
  destruct (IH h2 (ms0 ++ [m])
              (if IsFilled h2 order then del0 ++ [order] else del0)) as (ms' & Hms & Hall).
  - exact Ho.
  - exact Hnd.
  - subst h2. rewrite (sameButSize_bid _ _ (fillStep_fields l order o h o Hne')). exact Hbid.
  - subst h2. rewrite Hsi. simpl.
    destruct (Z.geb_spec (Order_Size (orderAt h order)) (Order_Size (orderAt h o))); lia.
  - intros a Ha. subst h2. rewrite fillStep_other.
    + apply Hres. by right.
    + by intros ->.
    + by intros ->.
  - exists (m :: ms'). split; [by rewrite Hms, <- app_assoc |].
    destruct Hm as [Hm1 Hm2]. constructor.
    + split; [exact Hm1 |]. rewrite Hm2. split; [by left | exact Hfill].
    + eapply Forall_impl; [exact Hall |]. intros m' (H1 & H2 & H3).
      split; [exact H1 |]. split; [by right |].
      subst h2. rewrite fillStep_other in H3; [exact H3 | |].
      * intros E. rewrite E in H2. done.
      * intros E. rewrite E in H2. done.
Qed.

Lemma Fill_matches bid l o h :
  heapInv h -> Order_Limit (orderAt h o) = None ->
  Order_Bid (orderAt h o) = bid -> (0 <= Order_Size (orderAt h o))%Z ->
  (forall a, a ∈ Limit_Orders (limitAt h l) ->
     Order_Bid (orderAt h a) = negb bid /\ (0 < Order_Size (orderAt h a))%Z) ->
  Forall (fun m => taker bid m = o /\ maker bid m ∈ Limit_Orders (limitAt h l) /\
                   (0 < Match_SizeFilled m <= Order_Size (orderAt h (maker bid m)))%Z)
    (Fill l o h).2.
Proof.
  intros Hi Hnil Hbid Hnn Hres. rewrite Fill_unfold. cbn [snd].
  destruct (fillLoop_matches bid l o (Limit_Orders (limitAt h l)) h [] [])
    as (ms' & -> & Hall); try done.
  - by apply heapInv_not_resident.
  - apply (inv_nodup _ Hi).
Qed.

(** ** The accounts of the sweep *)

Section SweepLedger.
Variables (bid : bool) (o : oid) (lv : list lid) (w0 : World).
Hypothesis lv_nodup : NoDup lv.
Hypothesis lv_view : forall l, l ∈ lv -> l ∈ view (opposite bid (book w0)).

Lemma sweepLedger_init :
  Order_Bid (orderAt (heap w0) o) = bid -> (0 <= Order_Size (orderAt (heap w0) o))%Z ->
  sweepLedger bid o lv w0 0 w0 [].
Proof. intros Hbid Hnn. split; try done; simpl; lia. Qed.

Lemma sweepLedger_step k w ms lk :
  sweepBase bid o lv (heap w0) k w -> sweepLedger bid o lv w0 k w ms ->
  lv !! k = Some lk ->
  let h1 := (Fill lk o (heap w)).1 in
  let lms := (Fill lk o (heap w)).2 in
  let w1 := mkWorld h1 (book w) in
  let w2 := if (length (Limit_Orders (limitAt h1 lk)) =? 0)%nat
            then clearLimit (negb bid) lk w1 else w1 in
  sweepLedger bid o lv w0 (S k) w2 (ms ++ lms).
Proof.
  intros Hb Hm Hk h1 lms w1 w2.
  destruct (sweep_visits bid o lv (heap w0) lv_nodup k w lk Hb Hk) as [_ Hin].
  destruct Hb, Hm.
  destruct (sweep_step_spec bid o lk w sw_book0 sw_nil0 sw_alloc0 Hin)
    as (Hbook & Hheap & _ & Hf & Hcase).
  fold h1 w1 w2 lms in Hbook, Hheap, Hf, Hcase. clearbody w2. destruct Hf.
  destruct (lv_split lv lv_nodup k lk Hk) as [Hd Hlk].
  destruct (bi_world w sw_book0) as [Hi Hx].
  pose proof (bi_side w sw_book0) as Hside.
  assert (Hin' : lk ∈ view (ownSide (negb bid) (book w))) by (by rewrite <- opposite_ownSide).
  pose proof (clearLimit_spec (negb bid) lk w (Hside (negb bid)) Hin') as (Hperm & _).
  rewrite <- !opposite_ownSide in Hperm.
  assert (Hnd : NoDup (view (opposite bid (book w)))).
  { rewrite opposite_ownSide. apply (si_nodup _ w (Hside (negb bid))). }
  assert (Hgone : lk ∉ view (opposite bid (book (clearLimit (negb bid) lk w)))).
  { rewrite Hperm in Hnd. by apply NoDup_cons in Hnd as [? _]. }
  assert (Hother : forall l a, l ≠ lk -> a ∈ Limit_Orders (limitAt (heap w) l) ->
                     orderAt h1 a = orderAt (heap w) a).
  { intros l a Hl Ha. apply fl_frame0.
    - by apply (resident_elsewhere (heap w) lk l a).
    - intros ->. by apply (heapInv_not_resident (heap w) o l Hi sw_nil0). }
  assert (Hlk0 : limitAt (heap w) lk = limitAt (heap w0) lk).
  { apply sl_ahead0. rewrite Hd. by left. }
  assert (Hown : forall l, l ∈ view (ownSide bid (book w0)) -> l ≠ lk).
  { intros l Hl ->. rewrite <- sl_own_side0 in Hl.
    by apply (sides_disjoint w bid lk (Hside bid) (Hside (negb bid)) Hl). }
  assert (Hbk : ownSide bid (book w2) = ownSide bid (book w) /\
                ownLimits bid (book w2) = ownLimits bid (book w) /\
                Orders (book w2) = Orders (book w)).
  { destruct (_ =? _)%nat; rewrite Hcase; [| done]. split; [| split].
    - pose proof (clearLimit_ownSide_other (negb bid) lk w) as H.
      by rewrite negb_involutive in H.
    - rewrite clearLimit_ownLimits. rewrite bool_decide_eq_false_2; [done |]. by destruct bid.
    - apply clearLimit_Orders. }
  destruct Hbk as (Hbk1 & Hbk2 & Hbk3).
  split; rewrite ?Hheap.
  - by rewrite fl_bid0.
  - by apply fl_nonneg0.
  - intros l Hl. assert (l ≠ lk) by (by intros ->).
    rewrite fl_limits0 by done. apply sl_ahead0. rewrite Hd. by right.
  - intros l a Hl Ha. assert (l ≠ lk) by (by intros ->).
    assert (Hl' : l ∈ drop k lv) by (rewrite Hd; by right).
    rewrite (Hother l a); [by apply (sl_ahead_orders0 l a) | done |].
    by rewrite sl_ahead0.
  - by rewrite Hbk1.
  - by rewrite Hbk2.
  - intros l Hl. rewrite fl_limits0 by (by apply Hown). by apply sl_own_levels0.
  - intros l a Hl Ha.
    rewrite (Hother l a); [by apply (sl_own_orders0 l a) | by apply Hown |].
    by rewrite sl_own_levels0.
  - by rewrite Hbk3.
  - rewrite sumFilled_app.
    destruct (Nat.eqb_spec (length (Limit_Orders (limitAt h1 lk))) 0) as [He | Hne];
      rewrite Hcase.
    + apply length_zero_iff_nil in He.
      pose proof (inv_volume h1 fl_inv0 lk) as Hv. rewrite He in Hv. simpl in Hv.
      rewrite (volumeOf_perm (heap w) _ _ Hperm) in sl_volume0. simpl in sl_volume0.
      rewrite (volumeOf_agree (heap w) h1).
      * lia.
      * intros l Hl. rewrite fl_limits0; [done | by intros ->].
    + rewrite (volumeOf_update (heap w) h1 _ lk Hnd Hin).
      * lia.
      * intros l _ Hl. by rewrite fl_limits0.
  - rewrite sumFilled_app, fl_incoming0, sl_size0. lia.
  - apply Forall_app. split; [exact sl_roles0 |].
    pose proof (Fill_matches bid lk o (heap w) Hi sw_nil0 sl_taker_bid0 sl_nonneg0) as Hfm.
    fold lms in Hfm.
    assert (Hall : Forall (fun m => Match_Price m = Limit_Price (limitAt (heap w) lk) /\
                     taker bid m = o /\ maker bid m ∈ Limit_Orders (limitAt (heap w) lk) /\
                     (0 < Match_SizeFilled m
                      <= Order_Size (orderAt (heap w) (maker bid m)))%Z) lms).
    { apply Forall_and. split; [exact fl_prices0 |]. apply Hfm.
      intros a Ha. by apply (si_residents (negb bid) w (Hside (negb bid)) lk a). }
    eapply Forall_impl; [exact Hall |]. intros m (Hp & Ht & Hmk & Hsz).
    rewrite Hlk0 in Hp, Hmk.
    split; [exact Ht |]. split.
    + exists lk. split; [| done]. apply lv_view. by eapply list_elem_of_lookup_2.
    + rewrite (sl_ahead_orders0 lk (maker bid m)) in Hsz; [done | | done].
      rewrite Hd. by left.
Qed.

Lemma sweepLedger_run count : forall k w ms,
  k + count = length lv ->
  sweepBase bid o lv (heap w0) k w -> sweepLedger bid o lv w0 k w ms ->
  sweepLedger bid o lv w0 (length lv)
    (sweep bid o count k w ms).1 (sweep bid o count k w ms).2.
Proof.
  induction count as [| count IH]; intros k w ms Hlen Hb Hm; simpl.
  { assert (k = length lv) as -> by lia. done. }
  destruct (lookup_lt_is_Some_2 lv k) as [lk Hk]; [lia |].
  destruct (sweep_visits bid o lv (heap w0) lv_nodup k w lk Hb Hk) as [Hlimit _].
  rewrite Hlimit.
  pose proof (sweepBase_step bid o lv (heap w0) lv_nodup k w lk Hb Hk) as Hb2.
  pose proof (sweepLedger_step k w ms lk Hb Hm Hk) as Hm2.
  simpl in Hb2, Hm2.
  destruct (Fill lk o (heap w)) as [h1 lms]. simpl in *.
  apply IH; [lia | done | done].
Qed.
End SweepLedger.

(** ** A market order on a reachable book *)

Lemma sortedWorld_own bid w :
  ownSide bid (book (sortedWorld bid w)) = ownSide bid (book w) /\
  (forall b, ownLimits b (book (sortedWorld bid w)) = ownLimits b (book w)) /\
  Orders (book (sortedWorld bid w)) = Orders (book w).
Proof. destruct bid; (split; [done |]); (split; [intros b; by destruct b | done]). Qed.

Lemma PlaceMarketOrder_passed clock o w :
  (Order_Size (orderAt (heap w) o) >? availableVolume o w)%Z = false ->
  let bid := Order_Bid (orderAt (heap w) o) in
  let w1 := sortedWorld bid w in
  let r := sweep bid o (Slice_len (opposite bid (book w1))) 0 w1 [] in
  heap (PlaceMarketOrder clock o w).1 = heap r.1 /\
  (forall b, ownSide b (book (PlaceMarketOrder clock o w).1) = ownSide b (book r.1)) /\
  (forall b, ownLimits b (book (PlaceMarketOrder clock o w).1) = ownLimits b (book r.1)) /\
  Orders (book (PlaceMarketOrder clock o w).1) = Orders (book r.1).
Proof.
  intros H. rewrite PlaceMarketOrder_unfold. cbv zeta. rewrite H. cbn [fst heap book].
  split; [done |]. split; [intros b; by destruct b |]. split; [intros b; by destruct b | done].
Qed.

Lemma market_ledger o w :
  bookInv w -> Order_Limit (orderAt (heap w) o) = None -> o < next_order (heap w) ->
  (0 <= Order_Size (orderAt (heap w) o))%Z ->
  let bid := Order_Bid (orderAt (heap w) o) in
  let w1 := sortedWorld bid w in
  let lv := view (opposite bid (book w1)) in
  let r := sweep bid o (Slice_len (opposite bid (book w1))) 0 w1 [] in
  sweepLedger bid o lv w1 (length lv) r.1 r.2.
Proof.
  intros Hb Hnil Ho Hnn bid w1 lv r.
  destruct (sweepBase_init bid o w Hb Hnil Ho) as (Hnd & _ & Hlen & Hbase).
  fold w1 lv in Hnd, Hlen, Hbase.
  subst r. rewrite <- Hlen.
  apply (sweepLedger_run bid o lv w1 Hnd); [done | lia | exact Hbase |].
  apply sweepLedger_init; subst w1; rewrite sortedWorld_heap; done.
Qed.

(** What a market order built with [NewOrder] and placed on [w] leaves,
    when the volume check lets it pass. *)
Lemma placeNewMarket_ledger clock bid size userID id ts w :
  bookInv w -> (0 <= size)%Z ->
  let r := placeNewMarket clock bid size userID id ts w in
  (size >? totalVolume (heap w) (opposite bid (book w)))%Z = false ->
  let w' := r.1.1 in
  let o := r.1.2 in
  let ms := marketMatches o (mkWorld (NewOrder bid size userID id ts (heap w)).1 (book w)) in
  o = next_order (heap w) /\
  volumeOf (heap w') (view (opposite bid (book w')))
    = (volumeOf (heap w) (view (opposite bid (book w))) - sumFilled ms)%Z /\
  Order_Size (orderAt (heap w') o) = (size - sumFilled ms)%Z /\
  ownSide bid (book w') = ownSide bid (book w) /\
  ownLimits bid (book w') = ownLimits bid (book w) /\
  Orders (book w') = Orders (book w) /\
  (forall l, l ∈ view (ownSide bid (book w)) -> limitAt (heap w') l = limitAt (heap w) l) /\
  (forall l a, l ∈ view (ownSide bid (book w)) -> a ∈ Limit_Orders (limitAt (heap w) l) ->
     orderAt (heap w') a = orderAt (heap w) a) /\
  Forall (matchOf bid o w) ms.
Proof.
  intros Hb Hnn r Hpass. subst r. cbv zeta. rewrite placeNewMarket_eq. cbn [fst snd].
  set (o := next_order (heap w)).
  set (w0 := mkWorld (NewOrder bid size userID id ts (heap w)).1 (book w)).
  pose proof (bookInv_NewOrder bid size userID id ts w Hb) as Hb0. fold w0 in Hb0.
  assert (Ho : orderAt (heap w0) o = mkOrder id userID size bid None ts).
  { subst w0 o. cbn [heap]. apply NewOrder_new. }
  assert (Hold : forall a, a < next_order (heap w) -> orderAt (heap w0) a = orderAt (heap w) a).
  { intros a Ha. subst w0. cbn [heap]. rewrite NewOrder_orderAt.
    destruct (decide _); [lia | done]. }
  assert (Hlim : forall l, limitAt (heap w0) l = limitAt (heap w) l) by done.
  assert (Hpass0 : (Order_Size (orderAt (heap w0) o) >? availableVolume o w0)%Z = false).
  { rewrite availableVolume_opposite, Ho. cbn [Order_Size Order_Bid].
    subst w0. cbn [heap book]. rewrite totalVolume_volumeOf.
    rewrite totalVolume_volumeOf in Hpass. exact Hpass. }
  destruct (PlaceMarketOrder_passed clock o w0 Hpass0) as (Hh & Hs & Hm & Hor).
  pose proof (market_ledger o w0 Hb0) as Hled.
  rewrite Ho in Hled, Hh, Hs, Hm, Hor. cbn [Order_Limit Order_Size Order_Bid] in Hled, Hh, Hs, Hm, Hor.
  specialize (Hled eq_refl). 
  assert (Hal : o < next_order (heap w0)) by (subst o w0; simpl; lia).
  specialize (Hled Hal Hnn). cbv zeta in Hled.
  assert (Hmm : marketMatches o w0
                = (sweep bid o (Slice_len (opposite bid (book (sortedWorld bid w0)))) 0
                     (sortedWorld bid w0) []).2).
  { unfold marketMatches. rewrite Ho. reflexivity. }
  rewrite Hmm.
  set (r := sweep bid o (Slice_len (opposite bid (book (sortedWorld bid w0)))) 0
              (sortedWorld bid w0) []) in *.
  destruct Hled.
  destruct (sortedWorld_own bid w0) as (Hso1 & Hso2 & Hso3).
  destruct (sortedWorld_view bid w0 (bi_side w0 Hb0 (negb bid))) as (Hperm & _).
  rewrite sortedWorld_heap in *.
  split; [done |]. split; [| split; [| split; [| split; [| split; [| split; [| split]]]]]].
  - rewrite Hh, opposite_ownSide, Hs, <- opposite_ownSide, sl_volume0.
    rewrite (volumeOf_perm _ _ _ Hperm). done.
  - rewrite Hh, sl_size0, Ho. done.
  - by rewrite Hs, sl_own_side0, Hso1.
  - by rewrite Hm, sl_own_index0, Hso2.
  - by rewrite Hor, sl_orders0, Hso3.
  - intros l Hl. rewrite Hh. rewrite sl_own_levels0; [done |]. by rewrite Hso1.
  - intros l a Hl Ha. rewrite Hh. rewrite (sl_own_orders0 l a); [| by rewrite Hso1 | done].
    apply Hold. by apply (heapInv_resident_allocated _ _ l (proj1 (bi_world w Hb))).
  - eapply Forall_impl; [exact sl_roles0 |]. intros m (Ht & (l & Hl & Hmk & Hp) & Hsz).
    rewrite sortedWorld_heap in Hmk, Hp, Hsz.
    split; [exact Ht |]. split.
    + exists l. rewrite Hperm in Hl. split; [exact Hl | done].
    + rewrite Hold in Hsz; [done |].
      by apply (heapInv_resident_allocated _ _ l (proj1 (bi_world w Hb))).
Qed.

Lemma placeNewMarket_returned clock bid size userID id ts w ms :
  (placeNewMarket clock bid size userID id ts w).2 = Returned ms ->
  ms = marketMatches (next_order (heap w))
         (mkWorld (NewOrder bid size userID id ts (heap w)).1 (book w)) /\
  (size >? totalVolume (heap w) (opposite bid (book w)))%Z = false.
Proof.
  rewrite placeNewMarket_eq. cbn [snd]. intros Hr.
  apply PlaceMarketOrder_matches in Hr as [Hms Hpass]. split; [exact Hms |].
  rewrite availableVolume_opposite in Hpass. cbn [heap book] in Hpass.
  rewrite NewOrder_new in Hpass. cbn [Order_Size Order_Bid] in Hpass.
  rewrite totalVolume_volumeOf in Hpass. rewrite totalVolume_volumeOf. exact Hpass.
Qed.

Lemma placeNewMarket_fills clock bid size userID id ts w ms :
  bookInv w -> (0 <= size)%Z ->
  (placeNewMarket clock bid size userID id ts w).2 = Returned ms ->
  sumFilled ms = size.
Proof.
  intros Hb Hnn Hr.
  destruct (placeNewMarket_returned _ _ _ _ _ _ _ _ Hr) as [Hms Hpass].
  rewrite placeNewMarket_eq in Hr. cbn [snd] in Hr.
  set (o := next_order (heap w)) in *.
  set (w0 := mkWorld (NewOrder bid size userID id ts (heap w)).1 (book w)) in *.
  assert (Ho : orderAt (heap w0) o = mkOrder id userID size bid None ts).
  { subst w0 o. cbn [heap]. apply NewOrder_new. }
  destruct (decide (size = 0%Z)) as [-> | Hne].
  - rewrite Hms, marketMatches_filled; [done |]. by rewrite Ho.
  - destruct (market_sweep clock o w0) as (ms' & Hr' & _ & _ & _ & _ & _ & Hsum & _).
    + by apply bookInv_NewOrder.
    + by rewrite Ho.
    + subst o w0. simpl. lia.
    + rewrite Ho. simpl. lia.
    + rewrite availableVolume_opposite, Ho. cbn [Order_Size Order_Bid].
      subst w0. cbn [heap book]. rewrite totalVolume_volumeOf.
      rewrite totalVolume_volumeOf in Hpass.
      destruct (Z.gtb_spec size (volumeOf (heap w) (view (opposite bid (book w)))));
        [discriminate | done].
    + rewrite Hr in Hr'. injection Hr' as <-. by rewrite Hsum, Ho.
Qed.

(** X10.  On a book built by operations whose limit orders have a positive
    size, a new market order of non-negative size that returns leaves the
    side of the order, the levels and the price index of that side and the
    id index as before.  When the sizes, that of the market order included,
    are whole numbers whose absolute values add up to at most 2^53, on
    which the float64 arithmetic of the code is exact, the order has been
    filled in full: the sizes of its matches add up to its size, its size
    is zero, and the total volume of the opposite side has gone down by
    exactly that size while that of its own side is as before. *)
Theorem market_order_accounting (ops : list op) (clock : nat -> Z) (bid : bool)
    (size userID id ts : Z) (ms : list Match) :
  Forall positiveLimit ops -> (0 <= size)%Z ->
  let w := run ops in
  let r := placeNewMarket clock bid size userID id ts w in
  r.2 = Returned ms ->
  let w' := r.1.1 in
  (exactWith ops size ->
   sumFilled ms = size /\
   Order_Size (orderAt (heap w') r.1.2) = 0%Z /\
   AskTotalVolume w' = (AskTotalVolume w - if bid then size else 0)%Z /\
   BidTotalVolume w' = (BidTotalVolume w - if bid then 0 else size)%Z) /\
  ownSide bid (book w') = ownSide bid (book w) /\
  ownLimits bid (book w') = ownLimits bid (book w) /\
  Orders (book w') = Orders (book w) /\
  (forall l, l ∈ view (ownSide bid (book w)) -> limitAt (heap w') l = limitAt (heap w) l).
Proof.
  intros Hops Hnn w r Hr w'.
  pose proof (bookInv_run ops Hops) as Hb. fold w in Hb.
  pose proof (placeNewMarket_fills clock bid size userID id ts w ms Hb Hnn Hr) as Hsum.
  destruct (placeNewMarket_returned _ _ _ _ _ _ _ _ Hr) as [Hms Hpass].
  destruct (placeNewMarket_ledger clock bid size userID id ts w Hb Hnn Hpass)
    as (Ho & Hvol & Hsz & Hside & Hidx & Hor & Hlev & _ & _).
  fold r w' in Ho, Hvol, Hsz, Hside, Hidx, Hor, Hlev.
  rewrite Ho, <- Hms, Hsum in Hvol, Hsz.
  assert (Hown : totalVolume (heap w') (ownSide bid (book w'))
                 = totalVolume (heap w) (ownSide bid (book w))).
  { rewrite !totalVolume_volumeOf, Hside. by apply volumeOf_same. }
  rewrite <- !totalVolume_volumeOf in Hvol.
  split; [intros _ | done].
  split; [exact Hsum |]. split; [rewrite Ho, Hsz; lia |].
  split.
  - unfold AskTotalVolume. destruct bid; simpl in *; lia.
  - unfold BidTotalVolume. destruct bid; simpl in *; lia.
Qed.

Lemma market_order_accounting_witness :
  let w := run multiFillOps in
  let r := placeNewMarket zeroClock false 10 0 105 5 w in
  sumFilled [mkMatch 4 3 5 10000; mkMatch 4 2 5 9000] = 10%Z /\
  Order_Size (orderAt (heap r.1.1) r.1.2) = 0%Z /\
  AskTotalVolume r.1.1 = (AskTotalVolume w - 0)%Z /\
  BidTotalVolume r.1.1 = (BidTotalVolume w - 10)%Z.
Proof.
  destruct (market_order_accounting multiFillOps zeroClock false 10 0 105 5
              [mkMatch 4 3 5 10000; mkMatch 4 2 5 9000])
    as (H & _).
  - unfold multiFillOps. repeat constructor.
  - lia.
  - vm_compute. reflexivity.
  - apply H. vm_compute. discriminate.
Defined.

(** X11.  In every match of such a market order the incoming order stands
    on its own side and meets an order of the other side that rested, when
    the order came in, in a level of the opposite slice; the match has the
    price of that level and a positive size, at most the size the resting
    order had. *)
Theorem market_match_parties (ops : list op) (clock : nat -> Z) (bid : bool)
    (size userID id ts : Z) (ms : list Match) (m : Match) :
  Forall positiveLimit ops -> (0 <= size)%Z ->
  let w := run ops in
  let r := placeNewMarket clock bid size userID id ts w in
  r.2 = Returned ms -> m ∈ ms ->
  let o := r.1.2 in
  let a := maker bid m in
  taker bid m = o /\ a ≠ o /\
  Order_Bid (orderAt (heap w) a) = negb bid /\
  (exists l, l ∈ view (opposite bid (book w)) /\
             a ∈ Limit_Orders (limitAt (heap w) l) /\
             Match_Price m = Limit_Price (limitAt (heap w) l)) /\
  (0 < Match_SizeFilled m <= Order_Size (orderAt (heap w) a))%Z.
Proof.
  intros Hops Hnn w r Hr Hm o a.
  pose proof (bookInv_run ops Hops) as Hb. fold w in Hb.
  destruct (placeNewMarket_returned _ _ _ _ _ _ _ _ Hr) as [Hms Hpass].
  destruct (placeNewMarket_ledger clock bid size userID id ts w Hb Hnn Hpass)
    as (Ho & _ & _ & _ & _ & _ & _ & _ & Hroles).
  fold r o in Ho, Hroles. rewrite Ho, <- Hms in Hroles.
  rewrite Forall_forall in Hroles.
  destruct (Hroles m Hm) as (Ht & (l & Hl & Hmk & Hp) & Hsz). fold a in Hmk, Hsz.
  pose proof (heapInv_resident_allocated _ _ l (proj1 (bi_world w Hb)) Hmk) as [Hlt _].
  rewrite opposite_ownSide in Hl.
  destruct (si_residents (negb bid) w (bi_side w Hb (negb bid)) l a Hl Hmk) as [Hbid _].
  rewrite <- opposite_ownSide in Hl.
  split; [by rewrite Ho |]. split; [rewrite Ho; lia |]. split; [exact Hbid |].
  split; [| exact Hsz]. by exists l.
Qed.

Lemma market_match_parties_witness :
  let w := run multiFillOps in
  let m := mkMatch 4 2 5 9000 in
  taker false m = 4 /\ maker false m ≠ 4 /\
  Order_Bid (orderAt (heap w) (maker false m)) = true /\
  (0 < Match_SizeFilled m <= Order_Size (orderAt (heap w) (maker false m)))%Z.
Proof.
  destruct (market_match_parties multiFillOps zeroClock false 10 0 105 5
              [mkMatch 4 3 5 10000; mkMatch 4 2 5 9000] (mkMatch 4 2 5 9000))
    as (H1 & H2 & H3 & _ & H5).
  - unfold multiFillOps. repeat constructor.
  - lia.
  - vm_compute. reflexivity.
  - right. left.
  - split; [exact H1 |]. split; [exact H2 |]. split; [exact H3 | exact H5].
Defined.

(** ** Levels with volume *)

Lemma sumSizes_pos h os :
  os ≠ [] -> (forall a, a ∈ os -> (0 < Order_Size (orderAt h a))%Z) -> (0 < sumSizes h os)%Z.
Proof.
  destruct os as [| x os]; [done |]. intros _ Hp. simpl.
  assert (0 < Order_Size (orderAt h x))%Z by (apply Hp; left).
  assert (0 <= sumSizes h os)%Z by (apply sumSizes_nonneg; intros a Ha; apply Hp; by right).
  lia.
Qed.

Lemma residents_positive w l a :
  bookInv w -> a ∈ Limit_Orders (limitAt (heap w) l) ->
  (0 < Order_Size (orderAt (heap w) a))%Z.
Proof.
  intros [_ Hside Hlisted] Ha.
  destruct (Hlisted l) as [b Hl]; [intros E; rewrite E in Ha; by apply elem_of_nil in Ha |].
  by apply (si_residents b w (Hside b) l a).
Qed.

Lemma level_volume_pos b w l :
  bookInv w -> l ∈ view (ownSide b (book w)) ->
  (0 < Limit_TotalVolume (limitAt (heap w) l))%Z.
Proof.
  intros Hb Hl. rewrite (inv_volume _ (proj1 (bi_world w Hb))).
  apply sumSizes_pos.
  - apply (si_nonempty b w (bi_side w Hb b) l Hl).
  - intros a Ha. by apply (residents_positive w l a).
Qed.

(** X12.  On a book built by operations whose limit orders have a positive
    size, and whose sizes are whole numbers whose absolute values add up to
    at most 2^53, on which the float64 arithmetic of the code is exact,
    every level of a side has a positive cached volume, so the total
    volume of a side is never negative and is zero exactly when the side
    has no level. *)
Theorem levels_have_volume (ops : list op) (b : bool) :
  Forall positiveLimit ops -> exactSizes ops ->
  let w := run ops in
  let total := if b then BidTotalVolume w else AskTotalVolume w in
  (forall l, l ∈ view (ownSide b (book w)) ->
             (0 < Limit_TotalVolume (limitAt (heap w) l))%Z) /\
  (0 <= total)%Z /\
  (total = 0%Z <-> view (ownSide b (book w)) = []).
Proof.
  intros Hops _ w total. pose proof (bookInv_run ops Hops) as Hb. fold w in Hb.
  assert (Hpos : forall l, l ∈ view (ownSide b (book w)) ->
                   (0 < Limit_TotalVolume (limitAt (heap w) l))%Z).
  { intros l Hl. by apply (level_volume_pos b w l). }
  assert (Ht : total = volumeOf (heap w) (view (ownSide b (book w)))).
  { subst total. rewrite <- side_volume. apply totalVolume_volumeOf. }
  split; [exact Hpos |]. rewrite Ht.
  destruct (view (ownSide b (book w))) as [| l ls]; simpl.
  - split; [lia | done].
  - assert (0 < Limit_TotalVolume (limitAt (heap w) l))%Z by (apply Hpos; left).
    assert (0 <= volumeOf (heap w) ls)%Z.
    { apply volumeOf_nonneg. intros l' Hl'.
      assert (0 < Limit_TotalVolume (limitAt (heap w) l'))%Z by (apply Hpos; by right). lia. }
    split; [lia |]. split; [lia | done].
Qed.

Lemma levels_have_volume_witness :
  let w := run multiFillOps in
  view (ownSide true (book w)) = [0; 1; 2] /\
  (forall l, l ∈ view (ownSide true (book w)) ->
             (0 < Limit_TotalVolume (limitAt (heap w) l))%Z) /\
  (0 <= BidTotalVolume w)%Z /\
  (BidTotalVolume w = 0%Z <-> view (ownSide true (book w)) = []).
Proof.
  split; [vm_compute; reflexivity |].
  apply (levels_have_volume multiFillOps true).
  - unfold multiFillOps. repeat constructor.
  - vm_compute. discriminate.
Defined.

(** ** A market order does not rest *)

Lemma sweep_Orders bid o count : forall k w ms,
  Orders (book (sweep bid o count k w ms).1) = Orders (book w).
Proof.
  induction count as [| count IH]; intros k w ms; simpl; [done |].
  destruct (Fill _ o (heap w)) as [h1 lms].
  destruct (_ =? _)%nat; rewrite IH; [rewrite clearLimit_Orders |]; reflexivity.
Qed.

Lemma PlaceMarketOrder_Orders clock o w :
  Orders (book (PlaceMarketOrder clock o w).1) = Orders (book w).
Proof.
  rewrite PlaceMarketOrder_unfold. cbv zeta. destruct (_ >? _)%Z; [done |].
  cbn [fst book withTrades Orders]. rewrite sweep_Orders.
  apply sortedWorld_own.
Qed.

(** X13.  A market order never rests in the book, whether the call returns
    or panics: after it the order points to no level, is resident in none,
    and the id index is as it was before the call (the order is not
    entered, and the orders it has filled are not taken out). *)
Theorem market_order_never_rests (ops : list op) (clock : nat -> Z) (bid : bool)
    (size userID id ts : Z) :
  let w := run ops in
  let r := placeNewMarket clock bid size userID id ts w in
  let w' := r.1.1 in
  let o := r.1.2 in
  Order_Limit (orderAt (heap w') o) = None /\
  (forall l, o ∉ Limit_Orders (limitAt (heap w') l)) /\
  Orders (book w') = Orders (book w).
Proof.
  intros w r w' o. subst r w' o. rewrite placeNewMarket_eq. cbn [fst snd].
  destruct (worldInv_NewOrder bid size userID id ts w (worldInv_run ops)) as (Hw0 & Hnil & Ho).
  cbv zeta in Hw0, Hnil, Ho. cbn [snd NewOrder] in Hnil, Ho.
  set (w0 := mkWorld (NewOrder bid size userID id ts (heap w)).1 (book w)) in *.
  change (next_order (heap (run ops))) with (next_order (heap w)) in *.
  assert (Hw' : worldInv (PlaceMarketOrder clock (next_order (heap w)) w0).1).
  { by apply worldInv_PlaceMarketOrder. }
  assert (Hnil' : Order_Limit (orderAt (heap (PlaceMarketOrder clock (next_order (heap w)) w0).1)
                                 (next_order (heap w))) = None).
  { rewrite PlaceMarketOrder_unfold. cbv zeta. destruct (_ >? _)%Z; [exact Hnil |].
    cbn [fst heap].
    set (b := Order_Bid (orderAt (heap w0) (next_order (heap w)))).
    assert (Hgen : forall count k w1 ms,
              worldInv w1 -> Order_Limit (orderAt (heap w1) (next_order (heap w))) = None ->
              next_order (heap w) < next_order (heap w1) ->
              Order_Limit (orderAt (heap (sweep b (next_order (heap w)) count k w1 ms).1)
                             (next_order (heap w))) = None).
    { induction count as [| count IH]; intros k w1 ms [Hi Hx] Hn Hlt; simpl; [done |].
      set (limit := Slice_array (opposite b (book w1)) !!! k).
      pose proof (Fill_spec limit (next_order (heap w)) (heap w1) Hi Hn Hlt) as Hf.
      destruct (Fill limit (next_order (heap w)) (heap w1)) as [h1 lms]. simpl in Hf.
      destruct Hf.
      assert (Hw1 : worldInv (mkWorld h1 (book w1))).
      { split; [done |]. intros b' p l' Hl'. simpl in *. rewrite fl_next_limit0.
        by apply (Hx b' p). }
      destruct (_ =? _)%nat.
      - apply IH.
        + by apply worldInv_clearLimit.
        + by rewrite clearLimit_heap.
        + rewrite clearLimit_heap. simpl. by rewrite fl_next_order0.
      - apply IH; [done | done |]. simpl. by rewrite fl_next_order0. }
    apply Hgen.
    - destruct Hw0 as [Hi Hx]. split; [by rewrite sortedWorld_heap |].
      intros b' p l. rewrite (proj1 (proj2 (sortedWorld_own b w0)) b'), sortedWorld_heap.
      apply Hx.
    - by rewrite sortedWorld_heap.
    - by rewrite sortedWorld_heap. }
  split; [exact Hnil' |]. split.
  - intros l. by apply (heapInv_not_resident _ _ _ (proj1 Hw')).
  - by rewrite PlaceMarketOrder_Orders.
Qed.

(** ** What Fill takes from a level *)

Lemma sumSizes_zero_nil h os :
  (forall a, a ∈ os -> (0 < Order_Size (orderAt h a))%Z) -> sumSizes h os = 0%Z -> os = [].
Proof.
  intros Hp Hz. destruct os as [| x os]; [done |].
  pose proof (sumSizes_pos h (x :: os) ltac:(done) Hp). lia.
Qed.

Lemma Fill_min l o h :
  heapInv h -> Order_Limit (orderAt h o) = None -> o < next_order h ->
  (0 <= Order_Size (orderAt h o))%Z ->
  (forall a, a ∈ Limit_Orders (limitAt h l) -> (0 < Order_Size (orderAt h a))%Z) ->
  let taken := Z.min (Order_Size (orderAt h o)) (Limit_TotalVolume (limitAt h l)) in
  sumFilled (Fill l o h).2 = taken /\
  Limit_TotalVolume (limitAt (Fill l o h).1 l) = (Limit_TotalVolume (limitAt h l) - taken)%Z /\
  Order_Size (orderAt (Fill l o h).1 o) = (Order_Size (orderAt h o) - taken)%Z /\
  (Limit_Orders (limitAt (Fill l o h).1 l) = [] <->
   (Limit_TotalVolume (limitAt h l) <= Order_Size (orderAt h o))%Z).
Proof.
  intros Hi Hnil Ho Hnn Hpos taken.
  destruct (Fill_spec l o h Hi Hnil Ho).
  set (h' := (Fill l o h).1) in *. set (ms := (Fill l o h).2) in *.
  pose proof (inv_volume h' fl_inv0 l) as Hv.
  pose proof (fl_positive0 Hpos) as Hpos'.
  pose proof (sumSizes_nonneg h' _ Hpos') as Hge.
  pose proof (fl_nonneg0 Hnn) as Hnn'.
  assert (Hsum : sumFilled ms = taken /\
                 (Limit_Orders (limitAt h' l) = [] <->
                  (Limit_TotalVolume (limitAt h l) <= Order_Size (orderAt h o))%Z)).
  { destruct (decide (Order_Size (orderAt h' o) = 0%Z)) as [Hz | Hnz].
    - split; [subst taken; lia |]. split.
      + intros E. rewrite E in Hv. simpl in Hv. lia.
      + intros Hle. apply (sumSizes_zero_nil h' _ Hpos'). lia.
    - pose proof (fl_exhaust0 Hnz) as E. rewrite E in Hv. simpl in Hv.
      split; [subst taken; lia |]. split; [lia | done]. }
  destruct Hsum as [Hsum Hiff]. rewrite Hsum in fl_volume0, fl_incoming0. done.
Qed.

(** X14.  On a book built by operations whose limit orders have a positive
    size, with sizes that are whole numbers whose absolute values add up,
    with the size of the new order, to at most 2^53, on which the float64
    arithmetic of the code is exact, [Fill] of a level for a new order of
    non-negative size takes the
    smaller of the size of the order and the cached volume of the level:
    that much is matched, and that much leaves the order and the level.
    The level is left without residents exactly when its volume was at
    most the size of the order. *)
Theorem Fill_consumes_min (ops : list op) (bid : bool) (size userID id ts : Z) (l : lid) :
  Forall positiveLimit ops -> exactWith ops size -> (0 <= size)%Z ->
  let w := run ops in
  let h := (NewOrder bid size userID id ts (heap w)).1 in
  let o := (NewOrder bid size userID id ts (heap w)).2 in
  let volume := Limit_TotalVolume (limitAt (heap w) l) in
  let taken := Z.min size volume in
  sumFilled (Fill l o h).2 = taken /\
  Limit_TotalVolume (limitAt (Fill l o h).1 l) = (volume - taken)%Z /\
  Order_Size (orderAt (Fill l o h).1 o) = (size - taken)%Z /\
  (Limit_Orders (limitAt (Fill l o h).1 l) = [] <-> (volume <= size)%Z).
Proof.
  intros Hops _ Hnn w h o volume taken.
  pose proof (bookInv_run ops Hops) as Hb. fold w in Hb.
  pose proof (bookInv_NewOrder bid size userID id ts w Hb) as Hb0.
  assert (Ho : orderAt h o = mkOrder id userID size bid None ts).
  { subst h o. apply NewOrder_new. }
  destruct (Fill_min l o h) as (H1 & H2 & H3 & H4).
  - apply (bi_world _ Hb0).
  - by rewrite Ho.
  - subst h o. simpl. lia.
  - by rewrite Ho.
  - intros a Ha. by apply (residents_positive _ l a Hb0).
  - rewrite Ho in H1, H2, H3, H4. done.
Qed.

Lemma Fill_consumes_min_witness :
  let w := run multiFillOps in
  let h := (NewOrder false 10 0 105 5 (heap w)).1 in
  sumFilled (Fill 2 4 h).2 = 5%Z /\
  Limit_TotalVolume (limitAt (Fill 2 4 h).1 2) = 0%Z /\
  Order_Size (orderAt (Fill 2 4 h).1 4) = 5%Z.
Proof.
  destruct (Fill_consumes_min multiFillOps false 10 0 105 5 2) as (H1 & H2 & H3 & _).
  - unfold multiFillOps. repeat constructor.
  - vm_compute. discriminate.
  - lia.
  - split; [exact H1 |]. split; [exact H2 | exact H3].
Defined.

(** ** Time priority through the operations *)

Lemma oldestFirst_agree h h' os :
  (forall a, a ∈ os -> timestamp h' a = timestamp h a) ->
  oldestFirst h os -> oldestFirst h' os.
Proof.
  intros Hts Hs. unfold oldestFirst in *.
  induction Hs as [| x l Hs IH Hall]; constructor.
  - apply IH. intros a Ha. apply Hts. by right.
  - rewrite Forall_forall in Hall. apply Forall_forall. intros y Hy.
    unfold keyLe. rewrite !Hts; [by apply Hall | by right | by left].
Qed.

Lemma fillLoop_orders l o : forall os h ms del l',
  Limit_Orders (limitAt (fillLoop l o os h ms del).1.1 l') = Limit_Orders (limitAt h l').
Proof.
  induction os as [| order rest IH]; intros h ms del l'; [done |].
  rewrite fillLoop_cons. destruct (IsFilled h o); [done |].
  rewrite IH. apply fillStep_orders.
Qed.

Lemma DeleteOrder_keeps_order l x h :
  levelsOldestFirst h -> levelsOldestFirst (DeleteOrder l x h).
Proof.
  intros Hs l'. destruct (decide (l' = l)) as [-> | Hne]; [apply DeleteOrder_sorted |].
  rewrite DeleteOrder_other_limits by done.
  eapply oldestFirst_same; [| apply Hs]. intros a. apply DeleteOrder_timestamp.
Qed.

Lemma deletions_keep_order l del : forall h,
  levelsOldestFirst h ->
  levelsOldestFirst (foldl (fun h' order => DeleteOrder l order h') h del).
Proof.
  induction del as [| x del IH]; intros h Hs; simpl; [done |].
  apply IH. by apply DeleteOrder_keeps_order.
Qed.

Lemma Fill_keeps_order l o h : levelsOldestFirst h -> levelsOldestFirst (Fill l o h).1.
Proof.
  intros Hs. rewrite Fill_unfold. cbn [fst]. apply deletions_keep_order.
  intros l'. rewrite fillLoop_orders.
  eapply oldestFirst_same; [| apply Hs]. intros a. unfold timestamp.
  by destruct (sameButSize_identity _ _ (fillLoop_fields l o (Limit_Orders (limitAt h l))
                                          h [] [] a)) as (_ & _ & _ & ->).
Qed.

Lemma sweep_keeps_order bid o count : forall k w ms,
  levelsOldestFirst (heap w) -> levelsOldestFirst (heap (sweep bid o count k w ms).1).
Proof.
  induction count as [| count IH]; intros k w ms Hs; simpl; [done |].
  set (limit := Slice_array (opposite bid (book w)) !!! k).
  pose proof (Fill_keeps_order limit o (heap w) Hs) as Hf.
  destruct (Fill limit o (heap w)) as [h1 lms]. simpl in Hf.
  destruct (_ =? _)%nat; apply IH; [by rewrite clearLimit_heap | done].
Qed.

Lemma PlaceMarketOrder_keeps_order clock o w :
  levelsOldestFirst (heap w) -> levelsOldestFirst (heap (PlaceMarketOrder clock o w).1).
Proof.
  intros Hs. rewrite PlaceMarketOrder_unfold. cbv zeta. destruct (_ >? _)%Z; [done |].
  cbn [fst heap]. apply sweep_keeps_order. by rewrite sortedWorld_heap.
Qed.

Lemma CancelOrder_keeps_order o w :
  levelsOldestFirst (heap w) -> levelsOldestFirst (heap (CancelOrder o w).1).
Proof.
  intros Hs. rewrite CancelOrder_heap.
  destruct (Order_Limit (orderAt (heap w) o)); [by apply DeleteOrder_keeps_order | done].
Qed.

Lemma PlaceLimitOrder_store price o w :
  heapInv (heap w) ->
  exists l h1,
    heap (PlaceLimitOrder price o w) = AddOrder l o h1 /\
    (forall a, orderAt h1 a = orderAt (heap w) a) /\
    (forall l', Limit_Orders (limitAt h1 l') = Limit_Orders (limitAt (heap w) l')) /\
    next_order h1 = next_order (heap w).
Proof.
  intros Hi.
  destruct (ownLimits (Order_Bid (orderAt (heap w) o)) (book w) !! price) as [l |] eqn:E.
  - exists l, (heap w). by destruct (PlaceLimitOrder_found price o w l E) as [-> _].
  - exists (next_limit (heap w)), (NewLimit price (heap w)).1.
    destruct (PlaceLimitOrder_new price o w E) as [-> _].
    split; [done |]. split; [done |]. split; [| done].
    intros l'. rewrite NewLimit_limitAt. destruct (decide _) as [-> |]; [| done].
    by rewrite (inv_fresh_limit _ Hi).
Qed.

Lemma PlaceLimitOrder_keeps_order price o w :
  heapInv (heap w) -> Order_Limit (orderAt (heap w) o) = None ->
  levelsOldestFirst (heap w) ->
  (forall a, a < next_order (heap w) -> a ≠ o ->
     (timestamp (heap w) a <= timestamp (heap w) o)%Z) ->
  levelsOldestFirst (heap (PlaceLimitOrder price o w)).
Proof.
  intros Hi Hnil Hs Hold.
  destruct (PlaceLimitOrder_store price o w Hi) as (l & h1 & -> & Ho & Hl & _).
  assert (Hts : forall a, timestamp (AddOrder l o h1) a = timestamp (heap w) a).
  { intros a. unfold timestamp. rewrite AddOrder_orderAt.
    destruct (decide (a = o)) as [-> |]; by rewrite Ho. }
  intros l'. rewrite AddOrder_limitAt.
  destruct (decide (l' = l)) as [-> | Hne].
  - cbn [Limit_Orders]. rewrite Hl. apply StronglySorted_app.
    split; [| split].
    + intros a b Ha Hb. apply list_elem_of_singleton in Hb as ->.
      unfold keyLe. rewrite !Hts. apply Hold.
      * by apply (heapInv_resident_allocated _ _ l Hi).
      * intros ->. by apply (heapInv_not_resident _ _ l Hi Hnil).
    + eapply oldestFirst_same; [| apply Hs]. exact Hts.
    + repeat constructor.
  - rewrite Hl. eapply oldestFirst_same; [| apply Hs]. exact Hts.
Qed.

Lemma step_timestamps w x a :
  a < next_order (heap (step w x)) ->
  (a < next_order (heap w) /\ timestamp (heap (step w x)) a = timestamp (heap w) a) \/
  creationTime x = Some (timestamp (heap (step w x)) a).
Proof.
  intros Ha.
  destruct (decide (a < next_order (heap w))) as [Hlt | Hge].
  { left. split; [done |]. unfold timestamp.
    by destruct (step_identity w x a Hlt) as [(_ & _ & _ & ->) _]. }
  right. revert Ha.
  destruct x as [price bid size userID id ts | clock bid size userID id ts | o]; cbn [step].
  - rewrite placeNewLimit_eq. cbn [fst creationTime].
    destruct (PlaceLimitOrder_identity price (next_order (heap w))
                (mkWorld (NewOrder bid size userID id ts (heap w)).1 (book w)) a)
      as [(_ & _ & _ & Ht) Hn].
    rewrite Hn. intros Ha. cbn [heap NewOrder fst next_order] in Ha.
    assert (a = next_order (heap w)) as -> by lia.
    unfold timestamp. rewrite Ht. cbn [heap]. by rewrite NewOrder_new.
  - rewrite placeNewMarket_eq. cbn [fst creationTime].
    destruct (PlaceMarketOrder_identity clock (next_order (heap w))
                (mkWorld (NewOrder bid size userID id ts (heap w)).1 (book w)) a)
      as [(_ & _ & _ & Ht) Hn].
    rewrite Hn. intros Ha. cbn [heap NewOrder fst next_order] in Ha.
    assert (a = next_order (heap w)) as -> by lia.
    unfold timestamp. rewrite Ht. cbn [heap]. by rewrite NewOrder_new.
  - destruct (CancelOrder_identity o w a) as [_ Hn]. rewrite Hn. lia.
Qed.

Lemma step_keeps_order w x :
  worldInv w -> levelsOldestFirst (heap w) ->
  (forall t a, creationTime x = Some t -> a < next_order (heap w) ->
     (timestamp (heap w) a <= t)%Z) ->
  levelsOldestFirst (heap (step w x)).
Proof.
  intros Hw Hs Hold.
  destruct x as [price bid size userID id ts | clock bid size userID id ts | o]; cbn [step].
  - rewrite placeNewLimit_eq. cbn [fst].
    destruct (worldInv_NewOrder bid size userID id ts w Hw) as ([Hi0 _] & Hnil & _).
    cbv zeta in Hi0, Hnil. cbn [snd NewOrder] in Hnil.
    set (w0 := mkWorld (NewOrder bid size userID id ts (heap w)).1 (book w)) in *.
    assert (Hts : forall a, a ≠ next_order (heap w) ->
              timestamp (heap w0) a = timestamp (heap w) a).
    { intros a Ha. unfold timestamp. subst w0. cbn [heap]. rewrite NewOrder_orderAt.
      destruct (decide _); done. }
    assert (Hres : forall l a, a ∈ Limit_Orders (limitAt (heap w) l) ->
              a ≠ next_order (heap w)).
    { intros l a Ha. pose proof (heapInv_resident_allocated _ _ _ (proj1 Hw) Ha). lia. }
    apply PlaceLimitOrder_keeps_order; [exact Hi0 | exact Hnil | |].
    + intros l. change (limitAt (heap w0) l) with (limitAt (heap w) l).
      eapply oldestFirst_agree; [| apply Hs]. intros a Ha. apply Hts. by apply (Hres l).
    + intros a Ha Hne. rewrite Hts by done.
      unfold timestamp at 2. subst w0. cbn [heap]. rewrite NewOrder_new. cbn [Order_Timestamp].
      apply Hold; [done |]. cbn [heap NewOrder fst next_order] in Ha. lia.
  - rewrite placeNewMarket_eq. cbn [fst].
    apply PlaceMarketOrder_keeps_order. cbn [heap].
    intros l. change (limitAt (NewOrder bid size userID id ts (heap w)).1 l)
                with (limitAt (heap w) l).
    eapply oldestFirst_agree; [| apply Hs]. intros a Ha.
    unfold timestamp. rewrite NewOrder_orderAt.
    destruct (decide _) as [-> |]; [| done].
    pose proof (heapInv_resident_allocated _ _ _ (proj1 Hw) Ha). lia.
  - by apply CancelOrder_keeps_order.
Qed.

Lemma foldl_keeps_order ops : forall w,
  worldInv w -> levelsOldestFirst (heap w) ->
  StronglySorted Z.le (creationTimes ops) ->
  Forall (fun t => forall a, a < next_order (heap w) -> (timestamp (heap w) a <= t)%Z)
    (creationTimes ops) ->
  levelsOldestFirst (heap (foldl step w ops)).
Proof.
  induction ops as [| x ops IH]; intros w Hw Hs Hsorted Hbound; simpl; [done |].
  unfold creationTimes in Hsorted, Hbound. simpl in Hsorted, Hbound.
  fold (creationTimes ops) in Hsorted, Hbound.
  rewrite Forall_forall in Hbound.
  apply IH.
  - by apply worldInv_step.
  - apply step_keeps_order; [done | done |].
    intros t a Ht Ha. rewrite Ht in Hbound. apply Hbound; [by left | done].
  - destruct (creationTime x); [by apply StronglySorted_cons in Hsorted as [_ ?] | done].
  - apply Forall_forall. intros t Ht a Ha.
    destruct (step_timestamps w x a Ha) as [[Hlt ->] | Hnew].
    + apply Hbound; [| done]. destruct (creationTime x); [by right | done].
    + rewrite Hnew in Hsorted. apply StronglySorted_cons in Hsorted as [Hall _].
      rewrite Forall_forall in Hall. by apply Hall.
Qed.

Lemma step_old_timestamp w x a :
  a < next_order (heap w) -> timestamp (heap (step w x)) a = timestamp (heap w) a.
Proof.
  intros Ha. unfold timestamp.
  by destruct (step_identity w x a Ha) as [(_ & _ & _ & ->) _].
Qed.

Lemma step_new_timestamp w x a :
  a < next_order (heap (step w x)) -> ~ a < next_order (heap w) ->
  a = next_order (heap w) /\ creationTime x = Some (timestamp (heap (step w x)) a).
Proof.
  intros Ha Hge. revert Ha.
  destruct x as [price bid size userID id ts | clock bid size userID id ts | o]; cbn [step].
  - rewrite placeNewLimit_eq. cbn [fst creationTime].
    destruct (PlaceLimitOrder_identity price (next_order (heap w))
                (mkWorld (NewOrder bid size userID id ts (heap w)).1 (book w)) a)
      as [(_ & _ & _ & Ht) Hn].
    rewrite Hn. intros Ha. cbn [heap NewOrder fst next_order] in Ha.
    assert (a = next_order (heap w)) as -> by lia. split; [done |].
    unfold timestamp. rewrite Ht. cbn [heap]. by rewrite NewOrder_new.
  - rewrite placeNewMarket_eq. cbn [fst creationTime].
    destruct (PlaceMarketOrder_identity clock (next_order (heap w))
                (mkWorld (NewOrder bid size userID id ts (heap w)).1 (book w)) a)
      as [(_ & _ & _ & Ht) Hn].
    rewrite Hn. intros Ha. cbn [heap NewOrder fst next_order] in Ha.
    assert (a = next_order (heap w)) as -> by lia. split; [done |].
    unfold timestamp. rewrite Ht. cbn [heap]. by rewrite NewOrder_new.
  - destruct (CancelOrder_identity o w a) as [_ Hn]. rewrite Hn. lia.
Qed.

Lemma foldl_built_in_order ops : forall w,
  builtInOrder (heap w) ->
  StronglySorted Z.lt (creationTimes ops) ->
  Forall (fun t => forall a, a < next_order (heap w) -> (timestamp (heap w) a < t)%Z)
    (creationTimes ops) ->
  builtInOrder (heap (foldl step w ops)).
Proof.
  induction ops as [| x ops IH]; intros w Hw Hsorted Hbound; simpl; [done |].
  unfold creationTimes in Hsorted, Hbound. simpl in Hsorted, Hbound.
  fold (creationTimes ops) in Hsorted, Hbound.
  rewrite Forall_forall in Hbound.
  apply IH.
  - intros a b Hab Hb.
    destruct (decide (b < next_order (heap w))) as [Hlt | Hge].
    + rewrite !step_old_timestamp by lia. by apply Hw.
    + destruct (step_new_timestamp w x b Hb Hge) as [-> Hnew].
      rewrite (step_old_timestamp w x a) by done.
      rewrite Hnew in Hbound. apply Hbound; [by left | done].
  - destruct (creationTime x); [by apply StronglySorted_cons in Hsorted as [_ ?] | done].
  - apply Forall_forall. intros t Ht a Ha.
    destruct (decide (a < next_order (heap w))) as [Hlt | Hge].
    + rewrite step_old_timestamp by done.
      apply Hbound; [| done]. destruct (creationTime x); [by right | done].
    + destruct (step_new_timestamp w x a Ha Hge) as [_ Hnew].
      rewrite Hnew in Hsorted. apply StronglySorted_cons in Hsorted as [Hall _].
      rewrite Forall_forall in Hall. by apply Hall.
Qed.

Lemma built_in_order_arrival h os :
  builtInOrder h -> (forall a, a ∈ os -> a < next_order h) -> NoDup os ->
  oldestFirst h os ->
  arrivalOrder h os /\ StronglySorted lt os.
Proof.
  intros Hb. unfold oldestFirst, arrivalOrder.
  induction os as [| x os IH]; intros Hall Hnd Hs; [split; constructor |].
  apply NoDup_cons in Hnd as [Hx Hnd].
  apply StronglySorted_cons in Hs as [Hle Hs].
  destruct IH as [IH1 IH2]; [intros a Ha; apply Hall; by right | done | done |].
  rewrite Forall_forall in Hle.
  assert (Hlt : forall y, y ∈ os -> (timestamp h x < timestamp h y)%Z /\ x < y).
  { intros y Hy. specialize (Hle y Hy). unfold keyLe in Hle.
    assert (x ≠ y) by (intros ->; done).
    destruct (decide (x < y)) as [Hxy | Hyx].
    - split; [| done]. apply Hb; [done |]. apply Hall. by right.
    - assert (timestamp h y < timestamp h x)%Z; [| lia].
      apply Hb; [lia |]. apply Hall. by left. }
  split; (constructor; [done |]); apply Forall_forall; intros y Hy; by apply Hlt.
Qed.

Lemma strictly_sorted_times ts : StronglySorted Z.lt ts -> StronglySorted Z.le ts.
Proof.
  induction 1 as [| x l Hs IH Hall]; constructor; [done |].
  eapply Forall_impl; [exact Hall |]. intros y Hy. simpl in Hy. lia.
Qed.

(** X15.  When the orders are built with time stamps that grow strictly
    (every operation that builds an order draws a time stamp greater than
    those drawn before), every level holds its residents in the order of
    their arrival after any sequence of operations: by strictly ascending
    time stamp, which is also the order in which the orders were built
    (ascending address). *)
Theorem levels_oldest_first (ops : list op) (l : lid) :
  StronglySorted Z.lt (creationTimes ops) ->
  let w := run ops in
  arrivalOrder (heap w) (Limit_Orders (limitAt (heap w) l)) /\
  StronglySorted lt (Limit_Orders (limitAt (heap w) l)).
Proof.
  intros Hsorted w.
  pose proof (worldInv_run ops) as [Hi _]. fold w in Hi.
  apply built_in_order_arrival.
  - subst w. unfold run. apply foldl_built_in_order; [| exact Hsorted |].
    + intros a b _ Hb. simpl in Hb. lia.
    + apply Forall_forall. intros t _ a Ha. simpl in Ha. lia.
  - intros a Ha. by apply (heapInv_resident_allocated _ _ l Hi).
  - apply (inv_nodup _ Hi).
  - subst w. unfold run.
    apply (foldl_keeps_order ops newWorld worldInv_new);
      [| by apply strictly_sorted_times |].
    + intros l'. constructor.
    + apply Forall_forall. intros t _ a Ha. simpl in Ha. lia.
Qed.

Lemma levels_oldest_first_witness :
  let w := run queueOps in
  Limit_Orders (limitAt (heap w) 0) = [1; 2] /\
  arrivalOrder (heap w) (Limit_Orders (limitAt (heap w) 0)) /\
  StronglySorted lt (Limit_Orders (limitAt (heap w) 0)).
Proof.
  split; [vm_compute; reflexivity |].
  apply (levels_oldest_first queueOps 0).
  vm_compute. repeat constructor; vm_compute; reflexivity.
Defined.

(** ** The id index and the orders that rest *)

Lemma sweep_residents bid o count : forall k w ms,
  worldInv w -> Order_Limit (orderAt (heap w) o) = None -> o < next_order (heap w) ->
  forall l a,
    a ∈ Limit_Orders (limitAt (heap (sweep bid o count k w ms).1) l) ->
    a ∈ Limit_Orders (limitAt (heap w) l).
Proof.
  induction count as [| count IH]; intros k w ms [Hi Hx] Hnil Ho l a; simpl; [done |].
  set (limit := Slice_array (opposite bid (book w)) !!! k).
  pose proof (Fill_spec limit o (heap w) Hi Hnil Ho) as Hf.
  destruct (Fill limit o (heap w)) as [h1 lms]. simpl in Hf. destruct Hf.
  assert (Hw1 : worldInv (mkWorld h1 (book w))).
  { split; [done |]. intros b' p l' Hl'. simpl in *. rewrite fl_next_limit0.
    by apply (Hx b' p). }
  assert (Hsub : a ∈ Limit_Orders (limitAt h1 l) -> a ∈ Limit_Orders (limitAt (heap w) l)).
  { destruct (decide (l = limit)) as [-> | Hne]; [apply fl_sub0 |].
    by rewrite fl_limits0. }
  intros Ha. apply Hsub. revert Ha.
  destruct (_ =? _)%nat; intros Ha.
  - apply IH in Ha.
    + by rewrite clearLimit_heap in Ha.
    + by apply worldInv_clearLimit.
    + by rewrite clearLimit_heap.
    + rewrite clearLimit_heap. simpl. by rewrite fl_next_order0.
  - apply IH in Ha; [done | done | done |]. simpl. by rewrite fl_next_order0.
Qed.

Lemma PlaceMarketOrder_residents clock o w l a :
  worldInv w -> Order_Limit (orderAt (heap w) o) = None -> o < next_order (heap w) ->
  a ∈ Limit_Orders (limitAt (heap (PlaceMarketOrder clock o w).1) l) ->
  a ∈ Limit_Orders (limitAt (heap w) l).
Proof.
  intros Hw Hnil Ho. rewrite PlaceMarketOrder_unfold. cbv zeta.
  destruct (_ >? _)%Z; [done |]. cbn [fst heap]. intros Ha.
  apply sweep_residents in Ha.
  - by rewrite sortedWorld_heap in Ha.
  - destruct Hw as [Hi Hx]. split; [by rewrite sortedWorld_heap |].
    intros b' p l'.
    rewrite (proj1 (proj2 (sortedWorld_own (Order_Bid (orderAt (heap w) o)) w)) b'),
      sortedWorld_heap.
    apply Hx.
  - by rewrite sortedWorld_heap.
  - by rewrite sortedWorld_heap.
Qed.

(** The order that a placement builds, after the placement. *)
Lemma step_new_order w x i :
  orderID x = Some i ->
  next_order (heap (step w x)) = S (next_order (heap w)) /\
  Order_ID (orderAt (heap (step w x)) (next_order (heap w))) = i.
Proof.
  destruct x as [price bid size userID id ts | clock bid size userID id ts | o];
    cbn [step orderID]; [| | discriminate]; intros [= <-].
  - rewrite placeNewLimit_eq. cbn [fst].
    destruct (PlaceLimitOrder_identity price (next_order (heap w))
                (mkWorld (NewOrder bid size userID id ts (heap w)).1 (book w))
                (next_order (heap w))) as [(Hid & _) Hn].
    rewrite Hn, Hid. cbn [heap]. by rewrite NewOrder_new.
  - rewrite placeNewMarket_eq. cbn [fst].
    destruct (PlaceMarketOrder_identity clock (next_order (heap w))
                (mkWorld (NewOrder bid size userID id ts (heap w)).1 (book w))
                (next_order (heap w))) as [(Hid & _) Hn].
    rewrite Hn, Hid. cbn [heap]. by rewrite NewOrder_new.
Qed.

Lemma step_same_orders w x :
  orderID x = None -> next_order (heap (step w x)) = next_order (heap w).
Proof.
  destruct x as [price bid size userID id ts | clock bid size userID id ts | o];
    cbn [step orderID]; [discriminate | discriminate |]. intros _.
  apply CancelOrder_identity. exact 0.
Qed.

Lemma step_ID w x a :
  a < next_order (heap w) ->
  Order_ID (orderAt (heap (step w x)) a) = Order_ID (orderAt (heap w) a).
Proof. intros Ha. by destruct (step_identity w x a Ha) as [(-> & _) _]. Qed.

(** The ids of the orders built so far stay distinct and unused by the
    operations to come. *)
Lemma step_ids w x future :
  (forall a, a < next_order (heap w) ->
     Order_ID (orderAt (heap w) a) ∉ from_option (fun i => i :: future) future (orderID x)) ->
  (forall a b, a < next_order (heap w) -> b < next_order (heap w) ->
     Order_ID (orderAt (heap w) a) = Order_ID (orderAt (heap w) b) -> a = b) ->
  NoDup (from_option (fun i => i :: future) future (orderID x)) ->
  (forall a, a < next_order (heap (step w x)) ->
     Order_ID (orderAt (heap (step w x)) a) ∉ future) /\
  (forall a b, a < next_order (heap (step w x)) -> b < next_order (heap (step w x)) ->
     Order_ID (orderAt (heap (step w x)) a) = Order_ID (orderAt (heap (step w x)) b) ->
     a = b).
Proof.
  intros Hfresh Hinj Hnd.
  destruct (orderID x) as [i |] eqn:E; simpl in Hfresh, Hnd.
  - destruct (step_new_order w x i E) as [Hn Hid]. rewrite Hn.
    apply NoDup_cons in Hnd as [Hi _].
    assert (Hold : forall a, a < next_order (heap w) ->
              Order_ID (orderAt (heap (step w x)) a) ≠ i /\
              Order_ID (orderAt (heap (step w x)) a) ∉ future).
    { intros a Ha. rewrite step_ID by done. specialize (Hfresh a Ha).
      apply not_elem_of_cons in Hfresh. done. }
    split.
    + intros a Ha. destruct (decide (a = next_order (heap w))) as [-> | Hne].
      * by rewrite Hid.
      * apply Hold. lia.
    + intros a b Ha Hb.
      destruct (decide (a = next_order (heap w))) as [-> | Hna];
        destruct (decide (b = next_order (heap w))) as [-> | Hnb]; try done.
      * rewrite Hid. intros E'. exfalso. symmetry in E'. revert E'. apply Hold. lia.
      * rewrite Hid. intros E'. exfalso. revert E'. apply Hold. lia.
      * rewrite !step_ID by lia. apply Hinj; lia.
  - rewrite (step_same_orders w x E). split.
    + intros a Ha. rewrite step_ID by done. by apply Hfresh.
    + intros a b Ha Hb. rewrite !step_ID by done. by apply Hinj.
Qed.

Lemma CancelOrder_Orders o w :
  Orders (book (CancelOrder o w).1) =
    match Order_Limit (orderAt (heap w) o) with
    | Some _ => delete (Order_ID (orderAt (heap w) o)) (Orders (book w))
    | None => Orders (book w)
    end.
Proof.
  unfold CancelOrder. destruct (Order_Limit (orderAt (heap w) o)) as [l |]; [| done].
  destruct (_ =? _)%nat; cbn [fst]; rewrite ?clearLimit_Orders; cbn [book Orders];
    by rewrite DeleteOrder_order.
Qed.

Lemma step_indexed w x future :
  worldInv w ->
  idInv w (from_option (fun i => i :: future) future (orderID x)) ->
  forall l a,
    a ∈ Limit_Orders (limitAt (heap (step w x)) l) ->
    Orders (book (step w x)) !! Order_ID (orderAt (heap (step w x)) a) = Some a.
Proof.
  intros Hw [Hidx Hfresh Hinj] l a.
  pose proof (fun l a => heapInv_resident_allocated (heap w) a l (proj1 Hw)) as Halloc.
  destruct x as [price bid size userID id ts | clock bid size userID id ts | o].
  - destruct (step_new_order w (OpLimit price bid size userID id ts) id eq_refl) as [_ Hid].
    pose proof (step_ID w (OpLimit price bid size userID id ts)) as HID.
    revert Hid HID. cbn [step]. rewrite placeNewLimit_eq. cbn [fst]. intros Hid HID.
    destruct (worldInv_NewOrder bid size userID id ts w Hw) as ([Hi0 _] & _ & _).
    cbv zeta in Hi0.
    set (w0 := mkWorld (NewOrder bid size userID id ts (heap w)).1 (book w)) in *.
    rewrite (proj2 (PlaceLimitOrder_Trades price (next_order (heap w)) w0)).
    assert (Ho : Order_ID (orderAt (heap w0) (next_order (heap w))) = id).
    { subst w0. cbn [heap]. by rewrite NewOrder_new. }
    rewrite Ho.
    destruct (PlaceLimitOrder_store price (next_order (heap w)) w0 Hi0)
      as (l0 & h1 & Hh & _ & Hl & _).
    intros Ha.
    assert (Hcases : a = next_order (heap w) \/ a ∈ Limit_Orders (limitAt (heap w) l)).
    { rewrite Hh, AddOrder_limitAt in Ha. destruct (decide (l = l0)) as [-> |].
      - cbn [Limit_Orders] in Ha. apply elem_of_app in Ha as [Ha | Ha].
        + right. by rewrite Hl in Ha.
        + left. by apply list_elem_of_singleton in Ha.
      - right. by rewrite Hl in Ha. }
    destruct Hcases as [-> | Hres].
    + rewrite Hid. apply lookup_insert_eq.
    + destruct (Halloc l a Hres) as [Hlt _]. rewrite HID by done.
      rewrite lookup_insert_ne.
      * by apply (Hidx l a).
      * intros E. specialize (Hfresh a Hlt). simpl in Hfresh.
        apply not_elem_of_cons in Hfresh as [Hne _]. by rewrite E in Hne.
  - pose proof (step_ID w (OpMarket clock bid size userID id ts)) as HID.
    revert HID. cbn [step]. rewrite placeNewMarket_eq. cbn [fst]. intros HID.
    destruct (worldInv_NewOrder bid size userID id ts w Hw) as (Hw0 & Hnil & Ho).
    cbv zeta in Hw0, Hnil, Ho. cbn [snd NewOrder] in Hnil, Ho.
    rewrite PlaceMarketOrder_Orders. cbn [book]. intros Ha.
    apply PlaceMarketOrder_residents in Ha; [| done | done | done].
    change (a ∈ Limit_Orders (limitAt (heap w) l)) in Ha.
    destruct (Halloc l a Ha) as [Hlt _]. rewrite HID by done. by apply (Hidx l a).
  - pose proof (step_ID w (OpCancel o)) as HID. revert HID. cbn [step]. intros HID.
    rewrite CancelOrder_Orders, CancelOrder_heap.
    destruct (Order_Limit (orderAt (heap w) o)) as [lo |] eqn:E.
    2:{ intros Ha. rewrite CancelOrder_heap, E in HID.
        destruct (Halloc l a Ha) as [Hlt _]. by apply (Hidx l a). }
    assert (Hin : o ∈ Limit_Orders (limitAt (heap w) lo)) by (by apply (inv_back _ (proj1 Hw))).
    intros Ha.
    assert (Hres : a ∈ Limit_Orders (limitAt (heap w) l) /\ a ≠ o).
    { destruct (decide (l = lo)) as [-> | Hne].
      - pose proof (DeleteOrder_present lo o (heap w) (inv_nodup _ (proj1 Hw) lo) Hin) as Hp.
        assert (Hnd : NoDup (o :: Limit_Orders (limitAt (DeleteOrder lo o (heap w)) lo))).
        { rewrite <- Hp. apply (inv_nodup _ (proj1 Hw)). }
        apply NoDup_cons in Hnd as [Hgone _].
        split; [rewrite Hp; by right | by intros ->].
      - rewrite DeleteOrder_other_limits in Ha by done. split; [done |].
        intros ->. by apply (resident_elsewhere (heap w) lo l o (proj1 Hw) Ha). }
    destruct Hres as [Hres Hne].
    destruct (Halloc l a Hres) as [Hlt _]. destruct (Halloc lo o Hin) as [Hlo _].
    rewrite DeleteOrder_other_orders by done.
    rewrite lookup_delete_ne; [by apply (Hidx l a) |].
    intros E'. apply Hne. symmetry. by apply Hinj.
Qed.

Lemma idInv_step w x future :
  worldInv w ->
  idInv w (from_option (fun i => i :: future) future (orderID x)) ->
  NoDup (from_option (fun i => i :: future) future (orderID x)) ->
  idInv (step w x) future.
Proof.
  intros Hw Hinv Hnd.
  destruct (step_ids w x future (id_fresh _ _ Hinv) (id_inj _ _ Hinv) Hnd) as [Hf Hi].
  split; [by apply (step_indexed w x future) | exact Hf | exact Hi].
Qed.

Lemma idInv_foldl ops : forall w,
  worldInv w -> idInv w (orderIDs ops) -> NoDup (orderIDs ops) ->
  idInv (foldl step w ops) [].
Proof.
  induction ops as [| x ops IH]; intros w Hw Hinv Hnd; simpl; [done |].
  assert (Hids : orderIDs (x :: ops)
                 = from_option (fun i => i :: orderIDs ops) (orderIDs ops) (orderID x)).
  { unfold orderIDs. simpl. by destruct (orderID x). }
  rewrite Hids in Hinv, Hnd.
  apply IH.
  - by apply worldInv_step.
  - by apply idInv_step.
  - destruct (orderID x); [by apply NoDup_cons in Hnd as [_ ?] | done].
Qed.

(** X16.  When the operations draw distinct ids, the id index finds every
    order that rests in the book: after any sequence of operations, an
    order resident in a level is the entry of the index under its id, and
    no two orders have the same id. *)
Theorem resting_orders_indexed (ops : list op) :
  NoDup (orderIDs ops) ->
  let w := run ops in
  (forall l a, a ∈ Limit_Orders (limitAt (heap w) l) ->
     Orders (book w) !! Order_ID (orderAt (heap w) a) = Some a) /\
  (forall a b, a < next_order (heap w) -> b < next_order (heap w) ->
     Order_ID (orderAt (heap w) a) = Order_ID (orderAt (heap w) b) -> a = b).
Proof.
  intros Hnd w.
  destruct (idInv_foldl ops newWorld worldInv_new) as [H1 _ H3]; [| exact Hnd | done].
  split.
  - intros l a Ha. by apply elem_of_nil in Ha.
  - intros a Ha. simpl in Ha. lia.
  - intros a b Ha. simpl in Ha. lia.
Qed.

Lemma resting_orders_indexed_witness :
  let w := run queueOps in
  (forall l a, a ∈ Limit_Orders (limitAt (heap w) l) ->
     Orders (book w) !! Order_ID (orderAt (heap w) a) = Some a) /\
  Orders (book w) !! 53%Z = Some 2.
Proof.
  destruct (resting_orders_indexed queueOps) as [H1 _].
  - by_decide.
  - split; [exact H1 |]. apply (H1 0 2). by_decide.
Defined.

(** ** Placing a limit order and cancelling it *)

Lemma CancelOrder_ownLimits o w l b' :
  Order_Limit (orderAt (heap w) o) = Some l ->
  ownLimits b' (book (CancelOrder o w).1) =
    if decide (Limit_Orders (limitAt (heap (CancelOrder o w).1) l) = [])
    then if bool_decide (b' = Order_Bid (orderAt (heap w) o))
         then delete (Limit_Price (limitAt (heap w) l)) (ownLimits b' (book w))
         else ownLimits b' (book w)
    else ownLimits b' (book w).
Proof.
  intros E. rewrite CancelOrder_heap, E. unfold CancelOrder. rewrite E.
  destruct (Nat.eqb_spec (length (Limit_Orders (limitAt (DeleteOrder l o (heap w)) l))) 0)
    as [He | Hne]; cbn [fst].
  - apply length_zero_iff_nil in He. rewrite decide_True by done.
    rewrite clearLimit_ownLimits. cbn [heap book].
    rewrite DeleteOrder_bid, DeleteOrder_price.
    destruct (bool_decide _); by destruct b'.
  - rewrite decide_False by (intros E'; by rewrite E' in Hne). by destruct b'.
Qed.

Lemma placed_then_cancelled price bid size userID id ts w :
  bookInv w -> (0 < size)%Z ->
  let p := placeNewLimit price bid size userID id ts w in
  let w2 := (CancelOrder p.2 p.1).1 in
  (CancelOrder p.2 p.1).2 = Returned tt /\
  BidTotalVolume w2 = BidTotalVolume w /\
  AskTotalVolume w2 = AskTotalVolume w /\
  Trades (book w2) = Trades (book w) /\
  Orders (book w2) = delete id (Orders (book w)) /\
  (forall b, view (ownSide b (book w2)) ≡ₚ view (ownSide b (book w)) /\
             ownLimits b (book w2) = ownLimits b (book w)) /\
  orderAt (heap w2) p.2 = mkOrder id userID size bid None ts /\
  (forall a, a < next_order (heap w) -> orderAt (heap w2) a = orderAt (heap w) a) /\
  (forall l, l < next_limit (heap w) ->
     Limit_Orders (limitAt (heap w2) l) ≡ₚ Limit_Orders (limitAt (heap w) l) /\
     Limit_Price (limitAt (heap w2) l) = Limit_Price (limitAt (heap w) l) /\
     Limit_TotalVolume (limitAt (heap w2) l) = Limit_TotalVolume (limitAt (heap w) l)).
Proof.
  intros Hb Hpos p w2.
  destruct (placeNewLimit_volume price bid size userID id ts w Hb) as [Hvb Hva].
  fold p in Hvb, Hva. subst w2 p. revert Hvb Hva. rewrite placeNewLimit_eq. cbn [fst snd].
  set (o := next_order (heap w)).
  set (w0 := mkWorld (NewOrder bid size userID id ts (heap w)).1 (book w)).
  intros Hvb Hva.
  pose proof (bookInv_NewOrder bid size userID id ts w Hb) as Hb0. fold w0 in Hb0.
  assert (Ho : orderAt (heap w0) o = mkOrder id userID size bid None ts).
  { subst w0 o. cbn [heap]. apply NewOrder_new. }
  assert (Hold : forall a, a < next_order (heap w) -> orderAt (heap w0) a = orderAt (heap w) a).
  { intros a Ha. subst w0. cbn [heap]. rewrite NewOrder_orderAt.
    destruct (decide _); [lia | done]. }
  assert (Hal : o < next_order (heap w0)) by (subst o w0; simpl; lia).
  assert (Hb1 : bookInv (PlaceLimitOrder price o w0)).
  { apply bookInv_PlaceLimitOrder; try done; rewrite Ho; done. }
  set (w1 := PlaceLimitOrder price o w0) in *.
  pose proof (bi_side w0 Hb0) as Hside0.
  destruct (bi_world w0 Hb0) as [Hi0 Hx0].
  (* the level the order joins *)
  assert (Hlevel : exists l h1,
            heap w1 = AddOrder l o h1 /\
            (forall a, orderAt h1 a = orderAt (heap w0) a) /\
            (forall l', l' < next_limit (heap w) -> limitAt h1 l' = limitAt (heap w) l') /\
            (o ∉ Limit_Orders (limitAt h1 l)) /\
            (forall b, view (ownSide b (book w0)) ≡ₚ
                         (if decide (Limit_Orders (limitAt h1 l) = [])
                          then if bool_decide (b = bid) then
                                 filter (fun l' => l' ≠ l) (view (ownSide b (book w1)))
                               else view (ownSide b (book w1))
                          else view (ownSide b (book w1))) /\
                       ownLimits b (book w0) =
                         (if decide (Limit_Orders (limitAt h1 l) = [])
                          then if bool_decide (b = bid)
                               then delete price (ownLimits b (book w1))
                               else ownLimits b (book w1)
                          else ownLimits b (book w1))) /\
            Limit_Price (limitAt h1 l) = price /\
            (Limit_Orders (limitAt h1 l) = [] -> l ∈ view (ownSide bid (book w1)))).
  { destruct (ownLimits (Order_Bid (orderAt (heap w0) o)) (book w0) !! price) as [l |] eqn:E.
    - destruct (PlaceLimitOrder_found price o w0 l E) as [Hh Hs]. fold w1 in Hh, Hs.
      rewrite Ho in E. cbn [Order_Bid] in E.
      apply (si_index bid w0 (Hside0 bid)) in E as [Hl Hp].
      pose proof (si_nonempty bid w0 (Hside0 bid) l Hl) as Hne.
      exists l, (heap w0). split; [exact Hh |]. split; [done |]. split; [done |].
      split; [apply (heapInv_not_resident _ _ _ Hi0); by rewrite Ho |].
      split; [| split; [exact Hp | done]].
      intros b. rewrite !decide_False by done. destruct (Hs b) as [-> ->].
      split; reflexivity.
    - destruct (PlaceLimitOrder_new price o w0 E) as (Hh & Hs & Hm & Hs' & Hm').
      fold w1 in Hh, Hs, Hm, Hs', Hm'.
      rewrite Ho in E, Hs, Hm, Hs', Hm'. cbn [Order_Bid] in E, Hs, Hm, Hs', Hm'.
      assert (Hnew : limitAt (NewLimit price (heap w0)).1 (next_limit (heap w0))
                     = mkLimit price [] 0).
      { rewrite NewLimit_limitAt. by rewrite decide_True. }
      destruct (view_appendSlice (ownSide bid (book w0)) (next_limit (heap w0))
                  (si_len bid w0 (Hside0 bid))) as [Hv _].
      assert (Hfresh : next_limit (heap w0) ∉ view (ownSide bid (book w0))).
      { intros Hin. pose proof (indexed_view bid w0 _ Hb0 Hin). lia. }
      exists (next_limit (heap w0)), (NewLimit price (heap w0)).1.
      split; [exact Hh |]. split; [done |]. split.
      { intros l' Hl'. rewrite NewLimit_limitAt, decide_False; [done |].
        subst w0. cbn [heap NewOrder fst next_limit]. lia. }
      rewrite Hnew. cbn [Limit_Orders Limit_Price].
      split; [apply not_elem_of_nil |]. split; [| split; [done |]].
      + intros b. rewrite !decide_True by done.
        destruct (decide (b = bid)) as [-> | Hbb].
        * rewrite bool_decide_eq_true_2 by done. rewrite Hs, Hv, Hm.
          rewrite filter_app, filter_cons_False, filter_nil, app_nil_r by (by intros []).
          rewrite filter_all; [| apply Forall_forall; intros l' Hl' ->; done].
          split; [done |]. by rewrite delete_insert_id.
        * rewrite bool_decide_eq_false_2 by done.
          assert (b = negb bid) as -> by (destruct b, bid; done).
          by rewrite Hs', Hm'.
      + intros _. rewrite Hs, Hv. apply elem_of_app. right. by apply list_elem_of_singleton. }
  destruct Hlevel as (l & h1 & Hh1 & Hord1 & Hlim1 & Hfresh & Hbook & Hprice & Hempty).
  assert (E1 : Order_Limit (orderAt (heap w1) o) = Some l).
  { rewrite Hh1, AddOrder_orderAt, decide_True by done. done. }
  assert (Hbid1 : Order_Bid (orderAt (heap w1) o) = bid).
  { rewrite Hh1, AddOrder_orderAt, decide_True by done. cbn [Order_Bid Order_withLimit].
    by rewrite Hord1, Ho. }
  assert (Hsize1 : Order_Size (orderAt (heap w1) o) = size).
  { by rewrite Hh1, AddOrder_size, Hord1, Ho. }
  assert (Hid1 : Order_ID (orderAt (heap w1) o) = id).
  { rewrite Hh1, AddOrder_orderAt, decide_True by done. cbn [Order_ID Order_withLimit].
    by rewrite Hord1, Ho. }
  destruct (CancelOrder_level_spec o w1 l Hb1 E1)
    as (Hr & Hh2 & Hidx & Hl1 & _ & Hother & Hown).
  destruct (CancelOrder_volume o w1 l Hb1 E1) as [Hv1 Hv2].
  rewrite Hbid1, Hsize1 in *. rewrite !side_volume in Hv1, Hv2.
  set (w2 := (CancelOrder o w1).1) in *.
  destruct (AddOrder_DeleteOrder_level l o h1 Hfresh)
    as (Hp & Hvol & Hperm & _ & _ & Ho2 & Hframe_o & Hframe_l).
  rewrite <- Hh1, <- Hh2 in Hp, Hvol, Hperm, Ho2, Hframe_o, Hframe_l.
  assert (Hempty2 : Limit_Orders (limitAt (heap w2) l) = [] <->
                    Limit_Orders (limitAt h1 l) = []).
  { split; intros E'; rewrite E' in Hperm.
    - by apply Permutation_nil_l in Hperm.
    - by apply Permutation_nil_r in Hperm. }
  split; [exact Hr |].
  assert (Hvols : BidTotalVolume w2 = BidTotalVolume w /\
                  AskTotalVolume w2 = AskTotalVolume w).
  { clear -Hvb Hva Hv1 Hv2. destruct bid; cbn [negb] in Hv1, Hv2, Hvb, Hva; lia. }
  destruct Hvols as [HvolB HvolA].
  split; [exact HvolB |]. split; [exact HvolA |].
  split; [subst w2 w1; by rewrite CancelOrder_Trades, (proj1 (PlaceLimitOrder_Trades _ _ _)) |].
  split.
  { rewrite Hidx, Hid1. subst w1.
    rewrite (proj2 (PlaceLimitOrder_Trades _ _ _)), Ho. cbn [Order_ID].
    apply delete_insert_eq. }
  split.
  { intros b. destruct (Hbook b) as [Hbv Hbi].
    change (book w) with (book w0). rewrite Hbv, Hbi.
    pose proof (CancelOrder_ownLimits o w1 l b E1) as Hol.
    change ((CancelOrder o w1).1) with w2 in Hol. rewrite Hol, Hbid1. clear Hol.
    destruct (decide (Limit_Orders (limitAt h1 l) = [])) as [He | Hne].
    - rewrite decide_True by (by apply Hempty2).
      rewrite decide_True in Hown by (by apply Hempty2).
      destruct (decide (b = bid)) as [-> | Hbb].
      + rewrite bool_decide_eq_true_2 by done.
        rewrite Hh1, AddOrder_limitAt, decide_True, Hprice by done. cbn [Limit_Price].
        split; [| done].
        assert (Hnd : NoDup (l :: view (ownSide bid (book w2)))).
        { rewrite <- Hown. apply (si_nodup bid w1 (bi_side w1 Hb1 bid)). }
        apply NoDup_cons in Hnd as [Hgone _].
        rewrite Hown. rewrite filter_cons_False by (by intros []).
        rewrite filter_all; [done |]. apply Forall_forall. by intros l' Hl' ->.
      + rewrite bool_decide_eq_false_2 by done.
        assert (b = negb bid) as -> by (destruct b, bid; done).
        by rewrite Hother.
    - rewrite decide_False by (by rewrite Hempty2).
      rewrite decide_False in Hown by (by rewrite Hempty2).
      destruct (decide (b = bid)) as [-> | Hbb]; [by rewrite Hown |].
      assert (b = negb bid) as -> by (destruct b, bid; done).
      by rewrite Hother. }
  split; [by rewrite Ho2, Hord1, Ho |].
  split.
  { intros a Ha. rewrite Hframe_o by (subst o; lia). rewrite Hord1. by apply Hold. }
  intros l' Hl'. destruct (decide (l' = l)) as [-> | Hne].
  - rewrite Hp, Hvol, Hperm, Hlim1 by exact Hl'. split; [reflexivity | split; reflexivity].
  - rewrite Hframe_l by exact Hne. rewrite Hlim1 by exact Hl'.
    split; [reflexivity | split; reflexivity].
Qed.

(** X17.  On a book built by operations whose limit orders have a positive
    size, placing a new limit order of positive size and cancelling it at
    once returns and gives the book back: the trades, the levels and the
    price index of each side, every order built before and the price and
    the residents of every level allocated before are as they were.  The
    order is left with its size and no level, and the id index has no
    entry under its id (an earlier entry under the same id is lost).  When
    the sizes, that of the new order included, are whole numbers whose
    absolute values add up to at most 2^53, on which the float64
    arithmetic of the code is exact, both total volumes and the cached
    volume of every level allocated before are as they were too. *)
Theorem place_then_cancel (ops : list op) (price : Z) (bid : bool)
    (size userID id ts : Z) :
  Forall positiveLimit ops -> (0 < size)%Z ->
  let w := run ops in
  let p := placeNewLimit price bid size userID id ts w in
  let w2 := (CancelOrder p.2 p.1).1 in
  (CancelOrder p.2 p.1).2 = Returned tt /\
  (exactWith ops size ->
   BidTotalVolume w2 = BidTotalVolume w /\
   AskTotalVolume w2 = AskTotalVolume w /\
   (forall l, l < next_limit (heap w) ->
      Limit_TotalVolume (limitAt (heap w2) l) = Limit_TotalVolume (limitAt (heap w) l))) /\
  Trades (book w2) = Trades (book w) /\
  Orders (book w2) = delete id (Orders (book w)) /\
  (forall b, view (ownSide b (book w2)) ≡ₚ view (ownSide b (book w)) /\
             ownLimits b (book w2) = ownLimits b (book w)) /\
  orderAt (heap w2) p.2 = mkOrder id userID size bid None ts /\
  (forall a, a < next_order (heap w) -> orderAt (heap w2) a = orderAt (heap w) a) /\
  (forall l, l < next_limit (heap w) ->
     Limit_Orders (limitAt (heap w2) l) ≡ₚ Limit_Orders (limitAt (heap w) l) /\
     Limit_Price (limitAt (heap w2) l) = Limit_Price (limitAt (heap w) l)).
Proof.
  intros Hops Hpos w p w2.
  destruct (placed_then_cancelled price bid size userID id ts w (bookInv_run ops Hops) Hpos)
    as (H1 & H2 & H3 & H4 & H5 & H6 & H7 & H8 & H9).
  fold p w2 in H1, H2, H3, H4, H5, H6, H7, H8, H9.
  split; [exact H1 |].
  split; [intros _; split; [exact H2 |]; split; [exact H3 |]; intros l Hl; apply (H9 l Hl) |].
  split; [exact H4 |]. split; [exact H5 |]. split; [exact H6 |]. split; [exact H7 |].
  split; [exact H8 |].
  intros l Hl. destruct (H9 l Hl) as (Ha & Hb & _). by split.
Qed.

Lemma place_then_cancel_witness :
  let w := run multiFillOps in
  let p := placeNewLimit 9000 true 7 0 106 6 w in
  let w2 := (CancelOrder p.2 p.1).1 in
  (CancelOrder p.2 p.1).2 = Returned tt /\
  BidTotalVolume w2 = BidTotalVolume w /\
  AskTotalVolume w2 = AskTotalVolume w.
Proof.
  destruct (place_then_cancel multiFillOps 9000 true 7 0 106 6) as (H1 & H2 & _).
  - unfold multiFillOps. repeat constructor.
  - lia.
  - destruct H2 as (H2 & H3 & _); [vm_compute; discriminate |].
    split; [exact H1 |]. split; [exact H2 | exact H3].
Defined.

(** ** The outcome of a market order *)




(** ** The sizes stay within the sizes that were placed *)

Lemma sumAbs_nonneg h os : (0 <= sumAbs h os)%Z.
Proof. induction os as [| a os IH]; simpl; lia. Qed.

Lemma sumAbs_app h os os' : sumAbs h (os ++ os') = (sumAbs h os + sumAbs h os')%Z.
Proof. induction os as [| a os IH]; simpl; lia. Qed.

Lemma sumAbs_perm h os os' : os ≡ₚ os' -> sumAbs h os = sumAbs h os'.
Proof. induction 1; simpl; lia. Qed.

Lemma sumAbs_submseteq h os os' : os ⊆+ os' -> (sumAbs h os <= sumAbs h os')%Z.
Proof. induction 1; simpl; lia. Qed.

Lemma sumAbs_agree h h' os :
  (forall a, a ∈ os -> Order_Size (orderAt h' a) = Order_Size (orderAt h a)) ->
  sumAbs h' os = sumAbs h os.
Proof.
  induction os as [| a os IH]; intros Hs; simpl; [done |].
  rewrite Hs by left. rewrite IH; [done |]. intros x Hx. apply Hs. by right.
Qed.

Lemma sumAbs_allocated h os :
  NoDup os -> (forall a, a ∈ os -> a < next_order h) -> (sumAbs h os <= mass h)%Z.
Proof.
  intros Hnd Hall. apply sumAbs_submseteq, NoDup_submseteq; [done |].
  intros a Ha. apply elem_of_seq. specialize (Hall a Ha). lia.
Qed.

Lemma sumSizes_abs h os : (Z.abs (sumSizes h os) <= sumAbs h os)%Z.
Proof. induction os as [| a os IH]; simpl; lia. Qed.

Lemma mass_same h h' :
  next_order h' = next_order h ->
  (forall a, Order_Size (orderAt h' a) = Order_Size (orderAt h a)) ->
  mass h' = mass h.
Proof. intros Hn Hs. unfold mass. rewrite Hn. apply sumAbs_agree. intros a _. apply Hs. Qed.

Lemma mass_NewOrder bid size userID id ts h :
  mass (NewOrder bid size userID id ts h).1 = (mass h + Z.abs size)%Z.
Proof.
  unfold mass.
  change (next_order (NewOrder bid size userID id ts h).1) with (S (next_order h)).
  rewrite seq_S, sumAbs_app. cbn [sumAbs foldr Nat.add].
  rewrite NewOrder_orderAt, decide_True by done. cbn [Order_Size].
  rewrite (sumAbs_agree h); [lia |].
  intros a Ha. apply elem_of_seq in Ha. rewrite NewOrder_orderAt, decide_False by lia. done.
Qed.

Lemma mass_two h h' a b :
  next_order h' = next_order h -> a ≠ b -> a < next_order h -> b < next_order h ->
  (forall x, x ≠ a -> x ≠ b -> Order_Size (orderAt h' x) = Order_Size (orderAt h x)) ->
  (Z.abs (Order_Size (orderAt h' a)) + Z.abs (Order_Size (orderAt h' b))
   <= Z.abs (Order_Size (orderAt h a)) + Z.abs (Order_Size (orderAt h b)))%Z ->
  (mass h' <= mass h)%Z.
Proof.
  intros Hn Hab Ha Hb Hother Hle. unfold mass. rewrite Hn.
  assert (Hina : a ∈ seq 0 (next_order h)) by (apply elem_of_seq; lia).
  apply elem_of_Permutation in Hina as [k Hk].
  assert (Hinb : b ∈ k).
  { assert (Hb' : b ∈ a :: k) by (rewrite <- Hk; apply elem_of_seq; lia).
    apply elem_of_cons in Hb' as [-> | Hb']; done. }
  apply elem_of_Permutation in Hinb as [k' Hk'].
  assert (Hp : seq 0 (next_order h) ≡ₚ a :: b :: k') by (by rewrite Hk, Hk').
  assert (Hnd : NoDup (a :: b :: k')) by (rewrite <- Hp; apply NoDup_seq).
  rewrite !(sumAbs_perm _ _ _ Hp). simpl.
  rewrite (sumAbs_agree h h' k'); [lia |].
  apply NoDup_cons in Hnd as [Hna Hnd]. apply NoDup_cons in Hnd as [Hnb _].
  intros x Hx. apply Hother; intros ->; [apply Hna; by right | done].
Qed.

Lemma fillStep_mass l order o h :
  order ≠ o -> order < next_order h -> o < next_order h ->
  (mass (fillStep l order o h) <= mass h)%Z.
Proof.
  intros Hne Ha Hb. destruct (fillStep_sizes l order o h Hne) as (_ & Hs & Hr).
  cbv zeta in Hs, Hr.
  apply (mass_two h _ order o); [apply fillStep_next | done | done | done | |].
  - intros x Hx1 Hx2. by rewrite fillStep_other.
  - rewrite Hs, Hr. cbn [Order_withSize Order_Size]. destruct (_ >=? _)%Z; lia.
Qed.

Lemma fillLoop_mass l o : forall os h ms del,
  o ∉ os -> (forall a, a ∈ os -> a < next_order h) -> o < next_order h ->
  (mass (fillLoop l o os h ms del).1.1 <= mass h)%Z.
Proof.
  induction os as [| order rest IH]; intros h ms del Ho Hall Hlt; [simpl; lia |].
  rewrite fillLoop_cons. destruct (IsFilled h o); [simpl; lia |].
  apply not_elem_of_cons in Ho as [Hne Ho].
  eapply Z.le_trans; [apply IH | apply fillStep_mass].
  - done.
  - intros a Ha. rewrite (proj1 (fillStep_next l order o h)). apply Hall. by right.
  - by rewrite (proj1 (fillStep_next l order o h)).
  - done.
  - apply Hall. by left.
  - done.
Qed.

Lemma Fill_mass l o h :
  heapInv h -> Order_Limit (orderAt h o) = None -> o < next_order h ->
  (mass (Fill l o h).1 <= mass h)%Z.
Proof.
  intros Hi Hnil Ho.
  rewrite (mass_same (fillLoop l o (Limit_Orders (limitAt h l)) h [] []).1.1).
  - apply fillLoop_mass; [| | done].
    + by apply (heapInv_not_resident h o l Hi).
    + intros a Ha. by apply (heapInv_resident_allocated h a l Hi).
  - rewrite (proj2 (Fill_identity l o h 0)). by rewrite fillLoop_next.
  - intros a. rewrite Fill_unfold. cbn [fst]. apply foldl_DeleteOrder_size.
Qed.

Lemma sweep_mass bid o count : forall k w ms,
  worldInv w -> Order_Limit (orderAt (heap w) o) = None -> o < next_order (heap w) ->
  (mass (heap (sweep bid o count k w ms).1) <= mass (heap w))%Z.
Proof.
  induction count as [| count IH]; intros k w ms Hw Hnil Ho; simpl; [lia |].
  destruct Hw as [Hi Hx].
  set (limit := Slice_array (opposite bid (book w)) !!! k).
  pose proof (Fill_spec limit o (heap w) Hi Hnil Ho) as Hf.
  pose proof (Fill_mass limit o (heap w) Hi Hnil Ho) as Hm.
  destruct (Fill limit o (heap w)) as [h1 lms]. simpl in Hf, Hm. destruct Hf.
  assert (Hw1 : worldInv (mkWorld h1 (book w))).
  { split; [done |]. intros b p l' Hl'. simpl in *. rewrite fl_next_limit0.
    by apply (Hx b p). }
  eapply Z.le_trans; [| exact Hm].
  destruct (_ =? _)%nat.
  - eapply Z.le_trans; [apply IH |].
    + by apply worldInv_clearLimit.
    + by rewrite clearLimit_heap.
    + rewrite clearLimit_heap. simpl. by rewrite fl_next_order0.
    + rewrite clearLimit_heap. simpl. lia.
  - eapply Z.le_trans; [apply IH |]; [done | done | | simpl; lia].
    simpl. by rewrite fl_next_order0.
Qed.

Lemma PlaceMarketOrder_mass clock o w :
  worldInv w -> Order_Limit (orderAt (heap w) o) = None -> o < next_order (heap w) ->
  (mass (heap (PlaceMarketOrder clock o w).1) <= mass (heap w))%Z.
Proof.
  intros Hw Hnil Ho. rewrite PlaceMarketOrder_unfold. cbv zeta.
  destruct (_ >? _)%Z; [simpl; lia |]. cbn [fst heap].
  eapply Z.le_trans; [apply sweep_mass |].
  - destruct Hw as [Hi Hx]. split; [by rewrite sortedWorld_heap |].
    intros b p l Hl. rewrite sortedWorld_heap. apply (Hx b p).
    by destruct (Order_Bid (orderAt (heap w) o)), b.
  - by rewrite sortedWorld_heap.
  - by rewrite sortedWorld_heap.
  - rewrite sortedWorld_heap. lia.
Qed.

Lemma PlaceLimitOrder_mass price o w :
  mass (heap (PlaceLimitOrder price o w)) = mass (heap w).
Proof.
  destruct (PlaceLimitOrder_heap price o w) as (l & h1 & -> & Ho & Hn).
  apply mass_same.
  - by rewrite (proj1 (AddOrder_next l o h1)).
  - intros a. rewrite AddOrder_orderAt. destruct (decide (a = o)) as [-> |]; by rewrite Ho.
Qed.

Lemma CancelOrder_mass o w : mass (heap (CancelOrder o w).1) = mass (heap w).
Proof.
  rewrite CancelOrder_heap. destruct (Order_Limit (orderAt (heap w) o)) as [l |]; [| done].
  apply mass_same; [apply DeleteOrder_next | intros a; apply DeleteOrder_size].
Qed.

Lemma step_mass w x :
  worldInv w -> (mass (heap (step w x)) <= mass (heap w) + Z.abs (opSize x))%Z.
Proof.
  intros Hw.
  destruct x as [price bid size userID id ts | clock bid size userID id ts | o];
    cbn [step opSize].
  - rewrite placeNewLimit_eq. cbn [fst]. rewrite PlaceLimitOrder_mass. cbn [heap].
    rewrite mass_NewOrder. lia.
  - rewrite placeNewMarket_eq. cbn [fst].
    destruct (worldInv_NewOrder bid size userID id ts w Hw) as (Hw' & Hnil & Ho).
    eapply Z.le_trans; [apply PlaceMarketOrder_mass; [exact Hw' | exact Hnil | exact Ho] |].
    cbn [heap]. rewrite mass_NewOrder. lia.
  - rewrite CancelOrder_mass. lia.
Qed.

Lemma foldl_mass ops : forall w,
  worldInv w -> (mass (heap (foldl step w ops)) <= mass (heap w) + totalSize ops)%Z.
Proof.
  induction ops as [| x ops IH]; intros w Hw; simpl; [lia |].
  pose proof (IH (step w x) (worldInv_step w x Hw)) as H1.
  pose proof (step_mass w x Hw) as H2.
  fold (totalSize ops). lia.
Qed.

Lemma totalSize_nonneg ops : (0 <= totalSize ops)%Z.
Proof. induction ops as [| x ops IH]; simpl; [lia |]. fold (totalSize ops). lia. Qed.

Lemma totalSize_take n ops : (totalSize (take n ops) <= totalSize ops)%Z.
Proof.
  revert n. induction ops as [| x ops IH]; intros [| n]; simpl; try lia.
  - fold (totalSize ops). pose proof (totalSize_nonneg ops). lia.
  - fold (totalSize ops) (totalSize (take n ops)). specialize (IH n). lia.
Qed.

Lemma order_within_mass h a :
  heapInv h -> (Z.abs (Order_Size (orderAt h a)) <= mass h)%Z.
Proof.
  intros Hi. destruct (decide (a < next_order h)) as [Hlt | Hge].
  - pose proof (sumAbs_allocated h [a]) as H. simpl in H.
    assert (sumAbs h [a] <= mass h)%Z; [| simpl in *; lia].
    apply sumAbs_allocated; [apply NoDup_singleton |].
    intros x Hx. by apply list_elem_of_singleton in Hx as ->.
  - rewrite (inv_fresh_order h Hi) by lia. simpl. apply sumAbs_nonneg.
Qed.

Lemma level_within_mass h l :
  heapInv h -> (Z.abs (Limit_TotalVolume (limitAt h l)) <= mass h)%Z.
Proof.
  intros Hi. rewrite (inv_volume h Hi).
  eapply Z.le_trans; [apply sumSizes_abs |].
  apply sumAbs_allocated; [apply (inv_nodup h Hi) |].
  intros a Ha. by apply (heapInv_resident_allocated h a l Hi).
Qed.

Lemma levels_within_mass h ls :
  heapInv h -> NoDup ls ->
  exists os, NoDup os /\
    (forall a, a ∈ os -> exists l, l ∈ ls /\ a ∈ Limit_Orders (limitAt h l)) /\
    (Z.abs (volumeOf h ls) <= sumAbs h os)%Z.
Proof.
  intros Hi. induction ls as [| l ls IH]; intros Hnd.
  { exists []. split; [constructor |]. split; [| simpl; lia].
    intros a Ha. by apply elem_of_nil in Ha. }
  apply NoDup_cons in Hnd as [Hl Hnd].
  destruct (IH Hnd) as (os & Hos & Hin & Hle).
  exists (Limit_Orders (limitAt h l) ++ os).
  split; [| split].
  - apply NoDup_app. split; [apply (inv_nodup h Hi) |]. split; [| done].
    intros a Ha Ha'. destruct (Hin a Ha') as (l' & Hl' & Hal').
    apply (inv_back h Hi) in Ha. apply (inv_back h Hi) in Hal'.
    rewrite Ha in Hal'. injection Hal' as ->. done.
  - intros a Ha. apply elem_of_app in Ha as [Ha | Ha].
    + exists l. split; [by left | done].
    + destruct (Hin a Ha) as (l' & Hl' & Hal'). exists l'. split; [by right | done].
  - simpl. rewrite sumAbs_app. rewrite (inv_volume h Hi l).
    pose proof (sumSizes_abs h (Limit_Orders (limitAt h l))). lia.
Qed.

Lemma side_within_mass h ls :
  heapInv h -> NoDup ls -> (Z.abs (volumeOf h ls) <= mass h)%Z.
Proof.
  intros Hi Hnd. destruct (levels_within_mass h ls Hi Hnd) as (os & Hos & Hin & Hle).
  eapply Z.le_trans; [exact Hle |].
  apply sumAbs_allocated; [done |].
  intros a Ha. destruct (Hin a Ha) as (l & _ & Hal).
  by apply (heapInv_resident_allocated h a l Hi).
Qed.

(** X19.  When the sizes of the orders are whole numbers whose absolute
    values add up to at most 2^53, every number the book holds between two
    operations is a whole number of absolute value at most 2^53, which
    float64 represents exactly: the size of every order and the cached
    volume of every level, and, when the limit orders have a positive size,
    every partial sum of the loops of [BidTotalVolume] and
    [AskTotalVolume], the totals included. *)
Theorem sizes_stay_exact (ops : list op) (n : nat) :
  exactSizes ops ->
  let w := run (take n ops) in
  (forall a, (Z.abs (Order_Size (orderAt (heap w) a)) <= 2 ^ 53)%Z) /\
  (forall l, (Z.abs (Limit_TotalVolume (limitAt (heap w) l)) <= 2 ^ 53)%Z) /\
  (Forall positiveLimit ops ->
   forall b k,
     (Z.abs (volumeOf (heap w) (take k (view (ownSide b (book w))))) <= 2 ^ 53)%Z /\
     (Z.abs (totalVolume (heap w) (ownSide b (book w))) <= 2 ^ 53)%Z).
Proof.
  intros Hex w. unfold exactSizes in Hex.
  pose proof (worldInv_run (take n ops)) as [Hi _]. fold w in Hi.
  assert (Hm : (mass (heap w) <= 2 ^ 53)%Z).
  { pose proof (foldl_mass (take n ops) newWorld worldInv_new) as H.
    fold (run (take n ops)) in H. fold w in H.
    change (mass (heap newWorld)) with 0%Z in H.
    pose proof (totalSize_take n ops). lia. }
  split; [| split].
  - intros a. pose proof (order_within_mass (heap w) a Hi). lia.
  - intros l. pose proof (level_within_mass (heap w) l Hi). lia.
  - intros Hops b k.
    pose proof (bookInv_run (take n ops) (Forall_take _ n _ Hops)) as Hb. fold w in Hb.
    pose proof (si_nodup b w (bi_side w Hb b)) as Hnd.
    split.
    + assert (Hnd' : NoDup (take k (view (ownSide b (book w))))).
      { rewrite <- (take_drop k (view (ownSide b (book w)))) in Hnd.
        by apply NoDup_app in Hnd as [? _]. }
      pose proof (side_within_mass (heap w) _ Hi Hnd'). lia.
    + rewrite totalVolume_volumeOf.
      pose proof (side_within_mass (heap w) _ Hi Hnd). lia.
Qed.

Lemma sizes_stay_exact_witness :
  let w := run (take 4 multiFillOps) in
  (forall a, (Z.abs (Order_Size (orderAt (heap w) a)) <= 2 ^ 53)%Z) /\
  (forall l, (Z.abs (Limit_TotalVolume (limitAt (heap w) l)) <= 2 ^ 53)%Z).
Proof.
  destruct (sizes_stay_exact multiFillOps 4) as (H1 & H2 & _).
  - vm_compute. discriminate.
  - split; [exact H1 | exact H2].
Defined.

(** ** float64 on whole numbers *)

Section Binary64.
Local Open Scope Z_scope.


Lemma digits2_pos_log2 p : Zpos (digits2_pos p) = Z.log2 (Zpos p) + 1.
Proof.
  induction p as [p IH | p IH |]; simpl; [| | reflexivity].
  - rewrite Pos2Z.inj_succ, IH. destruct p; simpl; lia.
  - rewrite Pos2Z.inj_succ, IH. destruct p; simpl; lia.
Qed.

Lemma digits2_pos_bounds p :
  2 ^ (Zpos (digits2_pos p) - 1) <= Zpos p < 2 ^ Zpos (digits2_pos p).
Proof.
  rewrite digits2_pos_log2.
  pose proof (Z.log2_spec (Zpos p) (Pos2Z.is_pos p)) as H.
  replace (Z.log2 (Zpos p) + 1 - 1) with (Z.log2 (Zpos p)) by lia.
  replace (Z.log2 (Zpos p) + 1) with (Z.succ (Z.log2 (Zpos p))) by lia. exact H.
Qed.

Lemma iter_xO_value n q : Zpos (Nat.iter n xO q) = Zpos q * 2 ^ Z.of_nat n.
Proof.
  induction n as [| n IH]; [simpl; lia |].
  rewrite Nat2Z.inj_succ, Z.pow_succ_r by lia.
  change (Nat.iter (S n) xO q) with (xO (Nat.iter n xO q)).
  rewrite Pos2Z.inj_xO, IH. lia.
Qed.

Lemma iter_xO_digits n q :
  Zpos (digits2_pos (Nat.iter n xO q)) = Zpos (digits2_pos q) + Z.of_nat n.
Proof.
  induction n as [| n IH]; [simpl; lia |].
  change (Nat.iter (S n) xO q) with (xO (Nat.iter n xO q)).
  simpl digits2_pos. rewrite Pos2Z.inj_succ, IH. lia.
Qed.

Lemma iter_pos_nat {A} (f : A -> A) p x : SpecFloat.iter_pos f p x = Nat.iter (Pos.to_nat p) f x.
Proof.
  revert x. induction p as [p IH | p IH |]; intros x; cbn [SpecFloat.iter_pos].
  - rewrite !IH. rewrite Pos2Nat.inj_xI.
    replace (S (2 * Pos.to_nat p))%nat with (Pos.to_nat p + (Pos.to_nat p + 1))%nat by lia.
    rewrite !Nat.iter_add. simpl. reflexivity.
  - rewrite !IH. rewrite Pos2Nat.inj_xO.
    replace (2 * Pos.to_nat p)%nat with (Pos.to_nat p + Pos.to_nat p)%nat by lia.
    rewrite Nat.iter_add. reflexivity.
  - reflexivity.
Qed.

Lemma shr_1_iter n q :
  Nat.iter n shr_1 {| shr_m := Zpos (Nat.iter n xO q); shr_r := false; shr_s := false |}
  = {| shr_m := Zpos q; shr_r := false; shr_s := false |}.
Proof.
  induction n as [| n IH]; [reflexivity |].
  rewrite Nat.iter_succ_r.
  change (Nat.iter (S n) xO q) with (xO (Nat.iter n xO q)). simpl shr_1. exact IH.
Qed.

Lemma round_aux_53 s m e :
  Zpos (digits2_pos m) = 53 -> -1074 <= e <= 971 ->
  binary_round_aux prec emax s (Zpos m) e loc_Exact = S754_finite s m e.
Proof.
  intros Hd He. unfold binary_round_aux, shr_fexp, fexp, emin, prec, emax.
  cbn [Zdigits2 shr_record_of_loc]. rewrite Hd.
  replace (Z.max (53 + e - 53) (3 - 1024 - 53) - e) with 0 by lia.
  cbn [shr shr_m loc_of_shr_record round_nearest_even Zdigits2]. rewrite Hd.
  replace (Z.max (53 + e - 53) (3 - 1024 - 53) - e) with 0 by lia.
  cbn [shr shr_m].
  destruct (Z.leb_spec e (1024 - 53)); [reflexivity | lia].
Qed.

Lemma shr_exact q n e :
  (0 < n)%nat ->
  shr {| shr_m := Zpos (Nat.iter n xO q); shr_r := false; shr_s := false |} e (Z.of_nat n)
  = ({| shr_m := Zpos q; shr_r := false; shr_s := false |}, e + Z.of_nat n).
Proof.
  intros Hn. destruct n as [| n]; [lia |].
  change (Z.of_nat (S n)) with (Zpos (Pos.of_succ_nat n)).
  unfold shr. rewrite iter_pos_nat, SuccNat2Pos.id_succ.
  rewrite shr_1_iter. reflexivity.
Qed.

Lemma round_aux_shift s q n e :
  (0 < n)%nat -> Zpos (digits2_pos q) = 53 -> -1074 <= e -> e + Z.of_nat n <= 971 ->
  binary_round_aux prec emax s (Zpos (Nat.iter n xO q)) e loc_Exact
  = S754_finite s q (e + Z.of_nat n).
Proof.
  intros Hn Hd He1 He2. unfold binary_round_aux, shr_fexp, fexp, emin, prec, emax.
  cbn [Zdigits2 shr_record_of_loc]. rewrite iter_xO_digits, Hd.
  replace (Z.max (53 + Z.of_nat n + e - 53) (3 - 1024 - 53) - e) with (Z.of_nat n) by lia.
  rewrite shr_exact by exact Hn.
  cbn [shr_m loc_of_shr_record round_nearest_even Zdigits2 shr_record_of_loc]. rewrite Hd.
  replace (Z.max (53 + (e + Z.of_nat n) - 53) (3 - 1024 - 53) - (e + Z.of_nat n)) with 0 by lia.
  cbn [shr shr_m].
  destruct (Z.leb_spec (e + Z.of_nat n) (1024 - 53)); [reflexivity | lia].
Qed.


Lemma pow2_pos n : 0 <= n -> 0 < 2 ^ n.
Proof. intros. apply Z.pow_pos_nonneg; lia. Qed.

Lemma pow2_le a b : 0 <= a <= b -> 2 ^ a <= 2 ^ b.
Proof. intros. apply Z.pow_le_mono_r; lia. Qed.

Lemma pow2_lt a b : 0 <= a < b -> 2 ^ a < 2 ^ b.
Proof. intros. apply Z.pow_lt_mono_r; lia. Qed.

Lemma pow2_le_inv a b : 0 <= a -> 0 <= b -> 2 ^ a < 2 ^ b -> a < b.
Proof. intros Ha Hb H. apply (Z.pow_lt_mono_r_iff 2); lia. Qed.

(* the position of the leading bit of a value M * 2^(e+52) = v * 2^52 *)
Lemma rep_digits M e v :
  1 <= v <= 2 ^ 53 -> -52 <= e <= 1 -> Zpos M * 2 ^ (e + 52) = v * 2 ^ 52 ->
  1 <= Zpos (digits2_pos M) + e <= 54.
Proof.
  intros Hv He Hval.
  pose proof (digits2_pos_bounds M) as [Hlo Hhi].
  set (D := Zpos (digits2_pos M)) in *.
  assert (HD : 1 <= D) by (subst D; lia).
  pose proof (pow2_pos (e + 52) ltac:(lia)) as Hp.
  pose proof (pow2_pos 52 ltac:(lia)) as Hp52.
  split.
  - (* M < 2^D, so 2^52 <= v*2^52 = M*2^(e+52) < 2^(D+e+52) *)
    assert (H1 : 2 ^ 52 < 2 ^ (D + (e + 52))).
    { rewrite Z.pow_add_r by lia. nia. }
    apply pow2_le_inv in H1; lia.
  - assert (H1 : 2 ^ (D - 1 + (e + 52)) < 2 ^ 106).
    { rewrite Z.pow_add_r by lia.
      assert (v * 2 ^ 52 <= 2 ^ 53 * 2 ^ 52) by nia.
      change (2 ^ 106) with (2 ^ 53 * 2 ^ 52 * 2). nia. }
    apply pow2_le_inv in H1; lia.
Qed.

Lemma Pos_iter_xO M d : Pos.iter xO M d = Nat.iter (Pos.to_nat d) xO M.
Proof. rewrite Pos2Nat.inj_iter. reflexivity. Qed.

Lemma binary_round_exact s M e v :
  1 <= v <= 2 ^ 53 -> -52 <= e <= 1 -> Zpos M * 2 ^ (e + 52) = v * 2 ^ 52 ->
  exists m' e', binary_round prec emax s M e = S754_finite s m' e' /\ is_rep v m' e'.
Proof.
  intros Hv He Hval.
  pose proof (rep_digits M e v Hv He Hval) as HDe.
  pose proof (digits2_pos_bounds M) as [Hlo Hhi].
  unfold binary_round, shl_align, fexp, emin, prec, emax.
  set (D := Zpos (digits2_pos M)) in *.
  assert (HD : 1 <= D) by (subst D; lia).
  replace (Z.max (D + e - 53) (3 - 1024 - 53) - e) with (D - 53) by lia.
  replace (Z.max (D + e - 53) (3 - 1024 - 53)) with (D + e - 53) by lia.
  destruct (D - 53) as [| p | d] eqn:Hcmp.
  - (* D = 53 *)
    exists M, e. split; [apply round_aux_53; subst D; lia |].
    split; [lia |]. split; [exact Hval | subst D; lia].
  - (* D > 53: the low bits are zero *)
    set (n := Pos.to_nat p).
    assert (Hn : Z.of_nat n = D - 53) by (subst n; rewrite positive_nat_Z; lia).
    assert (He0 : e <= 0) by lia.
    assert (HM : Zpos M = v * 2 ^ (- e)).
    { apply (Z.mul_cancel_r _ _ (2 ^ (e + 52))); [pose proof (pow2_pos (e + 52)); lia |].
      rewrite Hval, <- Z.mul_assoc, <- Z.pow_add_r by lia. f_equal. f_equal. lia. }
    assert (Hdiv : exists q, 0 < q /\ Zpos M = q * 2 ^ Z.of_nat n).
    { destruct (Z_le_gt_dec (Z.of_nat n) (- e)) as [Hle | Hgt].
      - exists (v * 2 ^ (- e - Z.of_nat n)). split.
        + pose proof (pow2_pos (- e - Z.of_nat n)). nia.
        + rewrite HM, <- Z.mul_assoc, <- Z.pow_add_r by lia. f_equal. f_equal. lia.
      - assert (Hn1 : Z.of_nat n = 1 - e) by lia.
        assert (Hv53 : v = 2 ^ 53).
        { assert (2 ^ (53 + - e) <= v * 2 ^ (- e)).
          { rewrite <- HM. replace (53 + - e) with (D - 1) by lia. exact Hlo. }
          rewrite Z.pow_add_r in H by lia.
          pose proof (pow2_pos (- e)). nia. }
        exists (2 ^ 52). split; [apply pow2_pos; lia |].
        rewrite HM, Hv53, Hn1, <- !Z.pow_add_r by lia. f_equal. lia. }
    destruct Hdiv as (q & Hq & HMq).
    assert (HMi : M = Nat.iter n xO (Z.to_pos q)).
    { apply Pos2Z.inj. rewrite iter_xO_value, Z2Pos.id by lia. exact HMq. }
    assert (Hdq : Zpos (digits2_pos (Z.to_pos q)) = 53).
    { pose proof (iter_xO_digits n (Z.to_pos q)) as H. rewrite <- HMi in H. fold D in H. lia. }
    exists (Z.to_pos q), (e + Z.of_nat n). split.
    + rewrite HMi. apply round_aux_shift; [subst n; lia | exact Hdq | lia | lia].
    + split; [lia |]. split; [| exact Hdq].
      rewrite Z2Pos.id by lia. rewrite <- Hval, HMq.
      replace (e + Z.of_nat n + 52) with (Z.of_nat n + (e + 52)) by lia.
      rewrite Z.pow_add_r by lia. lia.
  - (* D < 53: the mantissa is shifted to 53 digits *)
    rewrite Pos_iter_xO. set (n := Pos.to_nat d).
    assert (Hn : Z.of_nat n = 53 - D) by (subst n; rewrite positive_nat_Z; lia).
    exists (Nat.iter n xO M), (D + e - 53).
    assert (Hd : Zpos (digits2_pos (Nat.iter n xO M)) = 53).
    { rewrite iter_xO_digits. fold D. lia. }
    split; [apply round_aux_53; [exact Hd | lia] |].
    split; [lia |]. split; [| exact Hd].
    rewrite iter_xO_value, <- Hval, <- Z.mul_assoc, <- Z.pow_add_r by lia.
    f_equal. f_equal. lia.
Qed.

Lemma is_rep_mantissa v m e : is_rep v m e -> 2 ^ 52 <= Zpos m < 2 ^ 53.
Proof.
  intros (_ & _ & Hd). pose proof (digits2_pos_bounds m) as H. rewrite Hd in H. exact H.
Qed.

Lemma is_rep_unique v m e m' e' : is_rep v m e -> is_rep v m' e' -> m = m' /\ e = e'.
Proof.
  intros H H'. pose proof (is_rep_mantissa _ _ _ H) as Hm.
  pose proof (is_rep_mantissa _ _ _ H') as Hm'.
  destruct H as (He & Hv & _), H' as (He' & Hv' & _).
  assert (Hlt : forall m1 e1 m2 e2,
            -52 <= e1 -> e1 < e2 -> 2 ^ 52 <= Zpos m2 -> Zpos m1 < 2 ^ 53 ->
            Zpos m1 * 2 ^ (e1 + 52) < Zpos m2 * 2 ^ (e2 + 52)).
  { intros m1 e1 m2 e2 H1 H2 H3 H4.
    replace (e2 + 52) with ((e2 - e1 - 1) + 1 + (e1 + 52)) by lia.
    rewrite (Z.pow_add_r 2 (e2 - e1 - 1 + 1)), (Z.pow_add_r 2 (e2 - e1 - 1)) by lia.
    pose proof (pow2_pos (e1 + 52) ltac:(lia)). pose proof (pow2_pos (e2 - e1 - 1) ltac:(lia)).
    change (2 ^ 1) with 2. change (2 ^ 53) with (2 ^ 52 * 2) in H4.
    set (A := 2 ^ (e1 + 52)) in *. set (B := 2 ^ (e2 - e1 - 1)) in *.
    set (C := 2 ^ 52) in *. clearbody A B C.
    assert (Zpos m1 * A < C * 2 * A) by nia.
    assert (HB : 1 <= B) by lia.
    assert (HCB : C <= Z.pos m2 * B).
    { apply Z.le_trans with (Z.pos m2 * 1); [lia |]. apply Z.mul_le_mono_nonneg_l; lia. }
    assert (C * (2 * A) <= Z.pos m2 * B * (2 * A)).
    { apply Z.mul_le_mono_nonneg_r; lia. }
    lia. }
  assert (e = e').
  { destruct (Z.lt_trichotomy e e') as [Hc | [Hc | Hc]]; [| assumption |].
    - pose proof (Hlt m e m' e' ltac:(lia) Hc ltac:(lia) ltac:(lia)). lia.
    - pose proof (Hlt m' e' m e ltac:(lia) Hc ltac:(lia) ltac:(lia)). lia. }
  subst e'. split; [| reflexivity].
  apply Pos2Z.inj. apply (Z.mul_cancel_r _ _ (2 ^ (e + 52))); [| lia].
  pose proof (pow2_pos (e + 52)). lia.
Qed.

Lemma is_rep_valid s v m e : is_rep v m e -> valid_binary (S754_finite s m e) = true.
Proof.
  intros (He & _ & Hd). unfold valid_binary, bounded, canonical_mantissa, fexp, emin, prec, emax.
  rewrite Hd. apply andb_true_intro. split; [apply Z.eqb_eq | apply Z.leb_le]; lia.
Qed.


Lemma bn_rep z :
  z <> 0 -> Z.abs z <= 2 ^ 53 ->
  exists m e, bn z = S754_finite (z <? 0) m e /\ is_rep (Z.abs z) m e.
Proof.
  intros Hz Hb. unfold bn, binary_normalize. destruct z as [| p | p]; [congruence | |].
  - apply (binary_round_exact false p 0 (Zpos p)); [lia | lia | reflexivity].
  - apply (binary_round_exact true p 0 (Zpos p)); [lia | lia | reflexivity].
Qed.

Lemma bn_valid z : Z.abs z <= 2 ^ 53 -> valid_binary (bn z) = true.
Proof.
  intros Hb. destruct (Z.eq_dec z 0) as [-> | Hz]; [reflexivity |].
  destruct (bn_rep z Hz Hb) as (m & e & -> & Hr). exact (is_rep_valid _ _ _ _ Hr).
Qed.

Lemma normalize_exact S e z :
  -52 <= e <= 1 -> Z.abs z <= 2 ^ 53 -> S * 2 ^ (e + 52) = z * 2 ^ 52 ->
  binary_normalize prec emax S e false = bn z.
Proof.
  intros He Hb Hval.
  pose proof (pow2_pos (e + 52) ltac:(lia)) as Hp. pose proof (pow2_pos 52 ltac:(lia)) as Hp52.
  destruct S as [| M | M].
  - assert (z = 0) by nia. subst z. reflexivity.
  - assert (Hz : 0 < z) by nia.
    destruct (bn_rep z ltac:(lia) Hb) as (m & e' & -> & Hr).
    rewrite Z.abs_eq in Hr by lia.
    destruct (binary_round_exact false M e z ltac:(lia) He Hval) as (m1 & e1 & H1 & Hr1).
    cbn [binary_normalize]. rewrite H1.
    destruct (is_rep_unique _ _ _ _ _ Hr Hr1) as [-> ->].
    replace (z <? 0) with false by (symmetry; apply Z.ltb_ge; lia). reflexivity.
  - assert (Hz : z < 0) by nia.
    destruct (bn_rep z ltac:(lia) Hb) as (m & e' & -> & Hr).
    rewrite Z.abs_neq in Hr by lia.
    destruct (binary_round_exact true M e (- z) ltac:(lia) He) as (m1 & e1 & H1 & Hr1).
    { change (Zpos M) with (- Zneg M). lia. }
    cbn [binary_normalize]. rewrite H1.
    destruct (is_rep_unique _ _ _ _ _ Hr Hr1) as [-> ->].
    replace (z <? 0) with true by (symmetry; apply Z.ltb_lt; lia). reflexivity.
Qed.

Lemma shl_align_value m e e' :
  e' <= e -> Zpos (fst (shl_align m e e')) = Zpos m * 2 ^ (e - e').
Proof.
  intros Hle. unfold shl_align. destruct (e' - e) as [| p | d] eqn:E.
  - replace (e - e') with 0 by lia. simpl. lia.
  - lia.
  - cbn [fst]. rewrite Pos_iter_xO, iter_xO_value, positive_nat_Z.
    f_equal. f_equal. lia.
Qed.

(* the aligned mantissa of a representation, with its sign *)
Lemma aligned_value z m e ez :
  z <> 0 -> is_rep (Z.abs z) m e -> -52 <= ez <= e ->
  cond_Zopp (z <? 0) (Zpos (fst (shl_align m e ez))) * 2 ^ (ez + 52) = z * 2 ^ 52.
Proof.
  intros Hz (He & Hv & _) Hez.
  rewrite shl_align_value by lia.
  assert (Hm : Zpos m * 2 ^ (e - ez) * 2 ^ (ez + 52) = Z.abs z * 2 ^ 52).
  { rewrite <- Hv, <- Z.mul_assoc, <- Z.pow_add_r by lia. f_equal. f_equal. lia. }
  unfold cond_Zopp. destruct (Z.ltb_spec z 0); lia.
Qed.

Lemma SFadd_exact a b :
  Z.abs a <= 2 ^ 53 -> Z.abs b <= 2 ^ 53 -> Z.abs (a + b) <= 2 ^ 53 ->
  SFadd prec emax (bn a) (bn b) = bn (a + b).
Proof.
  intros Ha Hb Hab.
  destruct (Z.eq_dec a 0) as [-> | Ha0]; destruct (Z.eq_dec b 0) as [-> | Hb0].
  - reflexivity.
  - destruct (bn_rep b Hb0 Hb) as (m & e & E & _).
    change (bn 0) with (S754_zero false). rewrite Z.add_0_l, E. reflexivity.
  - destruct (bn_rep a Ha0 Ha) as (m & e & E & _).
    change (bn 0) with (S754_zero false). rewrite Z.add_0_r, E. reflexivity.
  - destruct (bn_rep a Ha0 Ha) as (ma & ea & Ea & Hra).
    destruct (bn_rep b Hb0 Hb) as (mb & eb & Eb & Hrb).
    rewrite Ea, Eb. cbn [SFadd].
    pose proof Hra as (Hea & _). pose proof Hrb as (Heb & _).
    apply normalize_exact; [lia | exact Hab |].
    rewrite Z.mul_add_distr_r.
    rewrite (aligned_value a ma ea) by (assumption || lia).
    rewrite (aligned_value b mb eb) by (assumption || lia). lia.
Qed.

Lemma bn_opp z : z <> 0 -> Z.abs z <= 2 ^ 53 -> bn (- z) = SFopp (bn z).
Proof.
  intros Hz Hb.
  destruct (bn_rep z Hz Hb) as (m & e & E & Hr).
  destruct (bn_rep (- z) ltac:(lia) ltac:(lia)) as (m' & e' & E' & Hr').
  rewrite Z.abs_opp in Hr'. destruct (is_rep_unique _ _ _ _ _ Hr Hr') as [<- <-].
  rewrite E, E'. cbn [SFopp]. f_equal.
  destruct (Z.ltb_spec z 0), (Z.ltb_spec (- z) 0); (reflexivity || lia).
Qed.

Lemma SFsub_exact a b :
  Z.abs a <= 2 ^ 53 -> Z.abs b <= 2 ^ 53 -> Z.abs (a - b) <= 2 ^ 53 ->
  SFsub prec emax (bn a) (bn b) = bn (a - b).
Proof.
  intros Ha Hb Hab.
  destruct (Z.eq_dec a 0) as [-> | Ha0]; destruct (Z.eq_dec b 0) as [-> | Hb0].
  - reflexivity.
  - change (0 - b) with (- b). rewrite bn_opp by assumption.
    destruct (bn_rep b Hb0 Hb) as (m & e & E & _).
    change (bn 0) with (S754_zero false). rewrite E. reflexivity.
  - destruct (bn_rep a Ha0 Ha) as (m & e & E & _).
    change (bn 0) with (S754_zero false). rewrite Z.sub_0_r, E. reflexivity.
  - destruct (bn_rep a Ha0 Ha) as (ma & ea & Ea & Hra).
    destruct (bn_rep b Hb0 Hb) as (mb & eb & Eb & Hrb).
    rewrite Ea, Eb. cbn [SFsub].
    pose proof Hra as (Hea & _). pose proof Hrb as (Heb & _).
    apply normalize_exact; [lia | exact Hab |].
    rewrite Z.mul_sub_distr_r.
    rewrite (aligned_value a ma ea) by (assumption || lia).
    rewrite (aligned_value b mb eb) by (assumption || lia). lia.
Qed.

Lemma rep_lt m1 e1 m2 e2 :
  -52 <= e1 -> e1 < e2 -> 2 ^ 52 <= Zpos m2 -> Zpos m1 < 2 ^ 53 ->
  Zpos m1 * 2 ^ (e1 + 52) < Zpos m2 * 2 ^ (e2 + 52).
Proof.
  intros H1 H2 H3 H4.
  replace (e2 + 52) with ((e2 - e1 - 1) + 1 + (e1 + 52)) by lia.
  rewrite (Z.pow_add_r 2 (e2 - e1 - 1 + 1)), (Z.pow_add_r 2 (e2 - e1 - 1)) by lia.
  pose proof (pow2_pos (e1 + 52) ltac:(lia)). pose proof (pow2_pos (e2 - e1 - 1) ltac:(lia)).
  change (2 ^ 1) with 2. change (2 ^ 53) with (2 ^ 52 * 2) in H4.
  set (A := 2 ^ (e1 + 52)) in *. set (B := 2 ^ (e2 - e1 - 1)) in *.
  set (C := 2 ^ 52) in *. clearbody A B C.
  assert (Zpos m1 * A < C * 2 * A) by nia.
  assert (HB : 1 <= B) by lia.
  assert (HCB : C <= Z.pos m2 * B).
  { apply Z.le_trans with (Z.pos m2 * 1); [lia |]. apply Z.mul_le_mono_nonneg_l; lia. }
  assert (C * (2 * A) <= Z.pos m2 * B * (2 * A)).
  { apply Z.mul_le_mono_nonneg_r; lia. }
  lia.
Qed.

Lemma rep_compare v1 m1 e1 v2 m2 e2 :
  is_rep v1 m1 e1 -> is_rep v2 m2 e2 ->
  match e1 ?= e2 with
  | Lt => Lt
  | Gt => Gt
  | Eq => Pos.compare_cont Eq m1 m2
  end = (v1 ?= v2).
Proof.
  intros H1 H2. pose proof (is_rep_mantissa _ _ _ H1) as Hm1.
  pose proof (is_rep_mantissa _ _ _ H2) as Hm2.
  destruct H1 as (He1 & Hv1 & _), H2 as (He2 & Hv2 & _).
  pose proof (pow2_pos 52 ltac:(lia)) as Hp52.
  destruct (Z.compare_spec e1 e2) as [-> | Hlt | Hgt].
  - change (Pos.compare_cont Eq m1 m2) with (Zpos m1 ?= Zpos m2).
    pose proof (pow2_pos (e2 + 52) ltac:(lia)) as Hp.
    destruct (Z.compare_spec (Zpos m1) (Zpos m2)) as [E | E | E]; symmetry.
    + apply Z.compare_eq_iff. rewrite E in Hv1. nia.
    + apply Z.compare_lt_iff. nia.
    + apply Z.compare_gt_iff. nia.
  - symmetry. apply Z.compare_lt_iff.
    pose proof (rep_lt m1 e1 m2 e2 ltac:(lia) Hlt ltac:(lia) ltac:(lia)). nia.
  - symmetry. apply Z.compare_gt_iff.
    pose proof (rep_lt m2 e2 m1 e1 ltac:(lia) Hgt ltac:(lia) ltac:(lia)). nia.
Qed.

Lemma SFcompare_exact a b :
  Z.abs a <= 2 ^ 53 -> Z.abs b <= 2 ^ 53 -> SFcompare (bn a) (bn b) = Some (a ?= b).
Proof.
  intros Ha Hb.
  destruct (Z.eq_dec a 0) as [-> | Ha0]; destruct (Z.eq_dec b 0) as [-> | Hb0].
  - reflexivity.
  - destruct (bn_rep b Hb0 Hb) as (m & e & E & _).
    change (bn 0) with (S754_zero false). rewrite E. cbn [SFcompare]. f_equal.
    destruct (Z.ltb_spec b 0); symmetry; [apply Z.compare_gt_iff | apply Z.compare_lt_iff]; lia.
  - destruct (bn_rep a Ha0 Ha) as (m & e & E & _).
    change (bn 0) with (S754_zero false). rewrite E. cbn [SFcompare]. f_equal.
    destruct (Z.ltb_spec a 0); symmetry; [apply Z.compare_lt_iff | apply Z.compare_gt_iff]; lia.
  - destruct (bn_rep a Ha0 Ha) as (ma & ea & Ea & Hra).
    destruct (bn_rep b Hb0 Hb) as (mb & eb & Eb & Hrb).
    rewrite Ea, Eb. cbn [SFcompare]. f_equal.
    pose proof (rep_compare _ _ _ _ _ _ Hra Hrb) as Hc.
    destruct (Z.ltb_spec a 0), (Z.ltb_spec b 0).
    + rewrite !Z.abs_neq in Hc by lia.
      rewrite Z.compare_opp in Hc. rewrite (Z.compare_antisym b a).
      rewrite <- Hc. destruct (ea ?= eb); reflexivity.
    + symmetry. apply Z.compare_lt_iff. lia.
    + symmetry. apply Z.compare_gt_iff. lia.
    + rewrite !Z.abs_eq in Hc by lia. exact Hc.
Qed.


Lemma Prim2SF_ofZ z : Z.abs z <= 2 ^ 53 -> Prim2SF (ofZ z) = bn z.
Proof. intros Hb. apply Prim2SF_SF2Prim, bn_valid, Hb. Qed.

Lemma ofZ_add a b :
  Z.abs a <= 2 ^ 53 -> Z.abs b <= 2 ^ 53 -> Z.abs (a + b) <= 2 ^ 53 ->
  PrimFloat.add (ofZ a) (ofZ b) = ofZ (a + b).
Proof.
  intros Ha Hb Hab. apply Prim2SF_inj.
  rewrite add_spec, !Prim2SF_ofZ by assumption. apply SFadd_exact; assumption.
Qed.

Lemma ofZ_sub a b :
  Z.abs a <= 2 ^ 53 -> Z.abs b <= 2 ^ 53 -> Z.abs (a - b) <= 2 ^ 53 ->
  PrimFloat.sub (ofZ a) (ofZ b) = ofZ (a - b).
Proof.
  intros Ha Hb Hab. apply Prim2SF_inj.
  rewrite sub_spec, !Prim2SF_ofZ by assumption. apply SFsub_exact; assumption.
Qed.

Lemma ofZ_eqb a b :
  Z.abs a <= 2 ^ 53 -> Z.abs b <= 2 ^ 53 -> PrimFloat.eqb (ofZ a) (ofZ b) = (a =? b).
Proof.
  intros Ha Hb. rewrite FloatAxioms.eqb_spec, !Prim2SF_ofZ by assumption.
  unfold SFeqb. rewrite SFcompare_exact by assumption.
  destruct (Z.compare_spec a b), (Z.eqb_spec a b); (reflexivity || lia).
Qed.

Lemma ofZ_ltb a b :
  Z.abs a <= 2 ^ 53 -> Z.abs b <= 2 ^ 53 -> PrimFloat.ltb (ofZ a) (ofZ b) = (a <? b).
Proof.
  intros Ha Hb. rewrite FloatAxioms.ltb_spec, !Prim2SF_ofZ by assumption.
  unfold SFltb. rewrite SFcompare_exact by assumption. reflexivity.
Qed.

Lemma ofZ_leb a b :
  Z.abs a <= 2 ^ 53 -> Z.abs b <= 2 ^ 53 -> PrimFloat.leb (ofZ a) (ofZ b) = (a <=? b).
Proof.
  intros Ha Hb. rewrite FloatAxioms.leb_spec, !Prim2SF_ofZ by assumption.
  unfold SFleb. rewrite SFcompare_exact by assumption.
  unfold Z.leb. destruct (a ?= b); reflexivity.
Qed.

Lemma ofZ_0 : ofZ 0 = 0%float.
Proof. reflexivity. Qed.

Lemma ofZ_inj a b : Z.abs a <= 2 ^ 53 -> Z.abs b <= 2 ^ 53 -> ofZ a = ofZ b -> a = b.
Proof.
  intros Ha Hb E. apply Z.eqb_eq. rewrite <- ofZ_eqb by assumption. rewrite E.
  rewrite ofZ_eqb by assumption. apply Z.eqb_refl.
Qed.

Example ofZ_ex : ofZ 9007199254740992 = 9007199254740992%float /\ ofZ (-3) = (-3)%float.
Proof. vm_compute. split; reflexivity. Qed.

End Binary64.
